(** * Address-space removal pass ([llvm-remove-addrspaces.cpp])

    A shallow embedding of the pass that rewrites every type, constant,
    global variable, function and alias of an IR module through an
    address-space policy, together with the properties its specification
    states about it.

    Conventions.
    - An address space is an [unsigned]; no arithmetic is ever done on it, so
      it is modelled as [N].
    - Types other than identified structs are uniqued by the host toolkit:
      two such types are the same object exactly when they are built from the
      same parts.  They are therefore modelled as values of an inductive
      type, and pointer equality on [Type *] is Rocq's [=].
    - Identified (non-literal) structs are objects with identity: a type
      refers to one through its index in the context's table of structs,
      and the table holds the mutable name and the body.

    The file first gives the pass, in the order of the source, and then
    the properties of each of its parts. *)

From stdpp Require Import gmap strings list fin_maps stringmap pretty.

Set Default Proof Using "Type".
#[local] Set Warnings "-clear-no-such-hyp".

(** ** Types *)

#[warnings="-register-all"]
Inductive ty : Type :=
  | TOther (kind : string)
  | TPtr (AS : N)
  | TFun (ret : ty) (params : list ty) (isVarArg : bool)
  | TStructLit (elts : list ty) (packed : bool)
  | TStruct (id : nat)
  | TArr (elt : ty) (num : N)
  | TVec (elt : ty) (num : N) (scalable : bool).

(** The induction principle that also gives the hypothesis for the types
    held in the lists. *)
Lemma ty_ind' (P : ty → Prop)
    (Hother : ∀ k, P (TOther k))
    (Hptr : ∀ a, P (TPtr a))
    (Hfun : ∀ r ps v, P r → Forall P ps → P (TFun r ps v))
    (Hlit : ∀ es p, Forall P es → P (TStructLit es p))
    (Hstruct : ∀ s, P (TStruct s))
    (Harr : ∀ e n, P e → P (TArr e n))
    (Hvec : ∀ e n sc, P e → P (TVec e n sc)) :
  ∀ t, P t.
Proof.
  fix IH 1. intros [k|a|r ps v|es p|s|e n|e n sc].
  - apply Hother.
  - apply Hptr.
  - apply Hfun; [apply IH|].
    induction ps as [|x ps IHps]; constructor; [apply IH|apply IHps].
  - apply Hlit.
    induction es as [|x es IHes]; constructor; [apply IH|apply IHes].
  - apply Hstruct.
  - apply Harr, IH.
  - apply Hvec, IH.
Qed.

Definition ty_leaf : Type := string + N + bool + nat.

Fixpoint ty_enc (t : ty) : gen_tree ty_leaf :=
  match t with
  | TOther k => GenNode 0 [GenLeaf (inl (inl (inl k)))]
  | TPtr a => GenNode 1 [GenLeaf (inl (inl (inr a)))]
  | TFun r ps v =>
      GenNode 2 (GenLeaf (inl (inr v)) :: ty_enc r :: map ty_enc ps)
  | TStructLit es p => GenNode 3 (GenLeaf (inl (inr p)) :: map ty_enc es)
  | TStruct s => GenNode 4 [GenLeaf (inr s)]
  | TArr e n => GenNode 5 [GenLeaf (inl (inl (inr n))); ty_enc e]
  | TVec e n sc =>
      GenNode 6 [GenLeaf (inl (inl (inr n))); GenLeaf (inl (inr sc)); ty_enc e]
  end.

Fixpoint ty_dec (g : gen_tree ty_leaf) : ty :=
  match g with
  | GenNode 0 [GenLeaf (inl (inl (inl k)))] => TOther k
  | GenNode 1 [GenLeaf (inl (inl (inr a)))] => TPtr a
  | GenNode 2 (GenLeaf (inl (inr v)) :: r :: ps) =>
      TFun (ty_dec r) (map ty_dec ps) v
  | GenNode 3 (GenLeaf (inl (inr p)) :: es) => TStructLit (map ty_dec es) p
  | GenNode 4 [GenLeaf (inr s)] => TStruct s
  | GenNode 5 [GenLeaf (inl (inl (inr n))); e] => TArr (ty_dec e) n
  | GenNode 6 [GenLeaf (inl (inl (inr n))); GenLeaf (inl (inr sc)); e] =>
      TVec (ty_dec e) n sc
  | _ => TOther ""
  end.

Lemma ty_dec_enc t : ty_dec (ty_enc t) = t.
Proof.
  induction t as [k|a|r ps v IHr IHps|es p IHes|s|e n IHe|e n sc IHe]
    using ty_ind'; simpl; try congruence.
  - f_equal; [done|].
    induction IHps as [|x l Hx _ IHl]; simpl; congruence.
  - f_equal.
    induction IHes as [|x l Hx _ IHl]; simpl; congruence.
Qed.

#[global] Instance ty_eq_dec : EqDecision ty.
Proof.
  intros x y. destruct (decide (ty_enc x = ty_enc y)) as [E|E].
  - left. rewrite <- (ty_dec_enc x), <- (ty_dec_enc y). by rewrite E.
  - right. intros ->. by apply E.
Defined.

#[global] Instance ty_countable : Countable ty.
Proof. apply (inj_countable' ty_enc ty_dec), ty_dec_enc. Defined.

(** ** The context's table of identified structs

    [sname] is the empty string for a struct without a name; [sbody] is
    [None] for an opaque struct. *)

Record StructDef : Type := mkStruct {
  sname : string;
  sbody : option (list ty);
  spacked : bool
}.

Abbreviation LLVMContext := (list StructDef).

Definition hasName (d : StructDef) : bool := bool_decide (sname d ≠ "").
Definition isOpaque (d : StructDef) : bool := bool_decide (sbody d = None).

(** The names held by the structs of the table other than struct [s]. *)
Definition namesExcept (ctx : LLVMContext) (s : nat) : stringset :=
  list_to_set
    (omap (λ '(i, d), if decide (i ≠ s ∧ sname d ≠ "") then Some (sname d) else None)
          (imap pair ctx)).

(** [StructType::create(Context)]: a new identified struct, without a name
    and without a body.  Its identity is its index in the table. *)
Definition StructType_create (ctx : LLVMContext) : LLVMContext :=
  ctx ++ [mkStruct "" None false].

(** [StructType::setName]: the host toolkit keeps the names of the
    identified structs of a context distinct.  The struct takes the
    requested name when no other struct holds it, and a name derived from it
    that no other struct holds otherwise. *)
Definition StructType_setName (ctx : LLVMContext) (s : nat) (Name : string)
    : LLVMContext :=
  match ctx !! s with
  | None => ctx
  | Some d =>
      if decide (Name = sname d) then ctx
      else if decide (Name = "") then <[s := mkStruct "" (sbody d) (spacked d)]> ctx
      else <[s := mkStruct (fresh_string_of_set Name (namesExcept ctx s))
                           (sbody d) (spacked d)]> ctx
  end.

(** [StructType::setBody]. *)
Definition StructType_setBody (ctx : LLVMContext) (s : nat) (elts : list ty)
    (packed : bool) : LLVMContext :=
  match ctx !! s with
  | None => ctx
  | Some d => <[s := mkStruct (sname d) (Some elts) packed]> ctx
  end.

(** ** The Type Rewriter ([AddrspaceRemoveTypeRemapper])

    The state is the context (the rewriter creates and renames identified
    structs) and the memo [MappedTypes].  [DenseMap::operator[]] on a missing
    key inserts a null entry, which [remapType] treats like a missing one; the
    memo is modelled as a finite map in which such entries are absent. *)

Record state : Type := State {
  Ctx : LLVMContext;
  MappedTypes : gmap ty ty
}.

(** A loop that pushes [f] of each element, threading the state. *)
Fixpoint remapList (f : state → ty → option (state * ty)) (st : state)
    (l : list ty) : option (state * list ty) :=
  match l with
  | [] => Some (st, [])
  | t :: l =>
      '(st1, t') ← f st t;
      '(st2, l') ← remapList f st1 l;
      Some (st2, t' :: l')
  end.

(** The placeholder of a non-literal, non-opaque struct [s] with definition
    [d]: a new struct is created, it takes over the name of [s] when [s] has
    one, and the memo sends [s] to it.  This is the state in which the fields
    of [s] are rewritten. *)
Definition placeholder (st : state) (s : nat) (d : StructDef) : state :=
  let s' := length (Ctx st) in
  let ctx1 := StructType_create (Ctx st) in
  let ctx2 :=
    if hasName d then
      StructType_setName
        (StructType_setName ctx1 s (sname d +:+ ".bad")) s' (sname d)
    else ctx1 in
  State ctx2 (<[TStruct s := TStruct s']> (MappedTypes st)).

Section TypeRemapper.
Variable ASRemapper : N → N.

(** [remapType].  The recursion of the source is bounded by [fuel]: [None]
    is returned when the fuel runs out, or when the type refers to a struct
    that the context does not have. *)
Fixpoint remapType (fuel : nat) (st : state) (SrcTy : ty)
    : option (state * ty) :=
  match fuel with
  | O => None
  | S fuel =>
      match MappedTypes st !! SrcTy with
      | Some DstTy => Some (st, DstTy)
      | None =>
          '(st', DstTy) ←
            match SrcTy with
            | TPtr a => Some (st, TPtr (ASRemapper a))
            | TFun ret params va =>
                '(st1, Params) ← remapList (remapType fuel) st params;
                '(st2, Ret) ← remapType fuel st1 ret;
                Some (st2, TFun Ret Params va)
            | TStructLit elts packed =>
                '(st1, NewElTys) ← remapList (remapType fuel) st elts;
                Some (st1, TStructLit NewElTys packed)
            | TStruct s =>
                d ← Ctx st !! s;
                match sbody d with
                | None => Some (st, SrcTy)
                | Some elts =>
                    let s' := length (Ctx st) in
                    '(st2, NewElTys) ←
                      remapList (remapType fuel) (placeholder st s d) elts;
                    Some (State (StructType_setBody (Ctx st2) s' NewElTys
                                   (spacked d))
                                (MappedTypes st2),
                          TStruct s')
                end
            | TArr e n =>
                '(st1, E) ← remapType fuel st e; Some (st1, TArr E n)
            | TVec e n sc =>
                '(st1, E) ← remapType fuel st e; Some (st1, TVec E n sc)
            | TOther _ => Some (st, SrcTy)
            end;
          Some (State (Ctx st') (<[SrcTy := DstTy]> (MappedTypes st')), DstTy)
      end
  end.
End TypeRemapper.

(** The two policies of the pass. *)
Definition AddressSpace_Generic : N := 0.
Definition removeAllAddrspaces (AS : N) : N := AddressSpace_Generic.

(** ** Values *)

Inductive opcode : Type :=
  | OpAddrSpaceCast
  | OpGetElementPtr
  | OpOther (name : string).

#[global] Instance opcode_eq_dec : EqDecision opcode.
Proof. solve_decision. Defined.

(** Constants: plain data of a type, a reference to a global value (by the
    identity of the global), an aggregate, and a constant expression (an
    operator applied to constant operands). *)
#[warnings="-register-all"]
Inductive constant : Type :=
  | CData (t : ty) (repr : string)
  | CGlobal (g : nat) (t : ty)
  | CAggregate (t : ty) (elts : list constant)
  | CExpr (op : opcode) (ops : list constant) (t : ty).

Inductive value : Type :=
  | VConst (c : constant)
  | VArg (i : nat)
  | VInst (id : nat)
  | VBlock (b : nat).

Definition constType (c : constant) : ty :=
  match c with
  | CData t _ | CGlobal _ t | CAggregate t _ | CExpr _ _ t => t
  end.

Definition getScalarType (t : ty) : ty :=
  match t with
  | TVec e _ _ => e
  | _ => t
  end.

(** [Type::getPointerAddressSpace]: asserts that the scalar type is a pointer
    type; [None] is the failed assertion. *)
Definition getPointerAddressSpace (t : ty) : option N :=
  match getScalarType t with
  | TPtr a => Some a
  | _ => None
  end.

(** ** The Constant Materializer ([AddrspaceRemoveValueMaterializer])

    [MapValue] and [ConstantExpr::getWithOperands] belong to the host
    toolkit.  [MapValue] works on the value map [VM] (of a type [VMap] that
    is the host's) and on the rewriter's state, and calls back into the
    materializer; it may return a null pointer ([Some (_, None)]).  Both are
    parameters here.  The [Flags] of the materializer are only passed on to
    [MapValue], and are part of the parameter. *)
Section ValueMaterializer.
Variable ASRemapper : N → N.
Variable VMap : Type.
Variable MapValue :
  VMap * state → constant → option (VMap * state * option constant).
Variable getWithOperands : constant → list constant → ty → constant.
(** Whether the materializer was given a [TypeMapper] (the pass gives it its
    rewriter). *)
Variable TypeMapper : bool.

Definition Materializer_remapType (fuel : nat) (σ : VMap * state) (SrcTy : ty)
    : option (VMap * state * ty) :=
  if TypeMapper then
    '(ts, Ty) ← remapType ASRemapper fuel σ.2 SrcTy; Some (σ.1, ts, Ty)
  else Some (σ, SrcTy).

Definition mapConstant (σ : VMap * state) (V : constant)
    : option (VMap * state * option constant) :=
  MapValue σ V.

(** The loop that maps the operands of a constant expression, keeping the
    operand where [MapValue] returns null. *)
Fixpoint mapOperands (σ : VMap * state) (ops : list constant)
    : option (VMap * state * list constant) :=
  match ops with
  | [] => Some (σ, [])
  | Op :: ops =>
      '(σ1, NewOp) ← mapConstant σ Op;
      '(σ2, Ops) ← mapOperands σ1 ops;
      Some (σ2, default Op NewOp :: Ops)
  end.

(** [materialize].  The outer [None] is a run that does not return a value
    at all: the fuel of [remapType] ran out, [MapValue] did not return, a
    null pointer was dereferenced or an assertion failed.  [Some (_, None)]
    is the null pointer that tells the caller to go on by itself. *)
Definition materialize (fuel : nat) (σ : VMap * state) (SrcV : value)
    : option (VMap * state * option value) :=
  match SrcV with
  | VConst (CExpr op ops t as CE) =>
      '(σ0, Ty) ← Materializer_remapType fuel σ t;
      match op with
      | OpAddrSpaceCast =>
          Op0 ← ops !! 0;
          '(σ1, Src) ← mapConstant σ0 Op0;
          Src ← Src;
          a1 ← getPointerAddressSpace (constType Src);
          a2 ← getPointerAddressSpace Ty;
          Some (σ1, if decide (a1 = a2) then Some (VConst Src) else None)
      | _ =>
          '(σ1, Ops) ← mapOperands σ0 ops;
          if decide (op ≠ OpGetElementPtr)
          then Some (σ1, Some (VConst (getWithOperands CE Ops Ty)))
          else Some (σ1, None)
      end
  | _ => Some (σ, None)
  end.

Definition isConstantExpr (v : value) : bool :=
  match v with
  | VConst (CExpr _ _ _) => true
  | _ => false
  end.

End ValueMaterializer.

(** ** Instructions and functions

    An instruction has an identity [iid], by which the operands of other
    instructions refer to its result.  The body of a function is its list of
    basic blocks. *)

Record instr : Type := mkInstr {
  iid : nat;
  iop : opcode;
  iops : list value;
  ity : ty
}.

(** A function, without what it shares with the other global values: its
    arguments (name and type), its blocks, and its attribute list, which
    holds for every index (return value, arguments, function) a set of
    attributes, some of them with a type ([byval], [sret], [byref]). *)
Record Function : Type := mkFunction {
  f_args : list (string * ty);
  f_blocks : list (list instr);
  f_attrs : list (list (string * option ty))
}.

(** [instructions(F)]: the instructions of all blocks, in order. *)
Definition instructions (F : Function) : list instr := concat (f_blocks F).

(** The instruction with identity [id]. *)
Fixpoint lookupInstr (l : list instr) (id : nat) : option instr :=
  match l with
  | [] => None
  | J :: l => if decide (iid J = id) then Some J else lookupInstr l id
  end.

Definition findInstr (F : Function) (id : nat) : option instr :=
  lookupInstr (instructions F) id.

(** [Value::getType]. *)
Definition valueType (F : Function) (v : value) : option ty :=
  match v with
  | VConst c => Some (constType c)
  | VArg i => snd <$> f_args F !! i
  | VInst id => ity <$> findInstr F id
  | VBlock _ => Some (TOther "label")
  end.

Definition getSrcAddressSpace (F : Function) (I : instr) : option N :=
  Op0 ← iops I !! 0; t ← valueType F Op0; getPointerAddressSpace t.

Definition getDestAddressSpace (I : instr) : option N :=
  getPointerAddressSpace (ity I).

(** Whether a value is the result of instruction [id]. *)
Definition isInst (id : nat) (v : value) : bool :=
  match v with
  | VInst j => bool_decide (j = id)
  | _ => false
  end.

Definition substValue (old : nat) (new : value) (v : value) : value :=
  if isInst old v then new else v.

Definition mapOperandsOf (g : value → value) (I : instr) : instr :=
  mkInstr (iid I) (iop I) (g <$> iops I) (ity I).

Definition mapBlocks (g : instr → instr) (F : Function) : Function :=
  mkFunction (f_args F) (list_fmap _ _ (list_fmap _ _ g) (f_blocks F)) (f_attrs F).

(** [I->replaceAllUsesWith(New)]: every operand that is the result of
    instruction [old] becomes [new].  Replacing a value by itself is an error
    of the caller (the host asserts, and otherwise would not terminate):
    [None]. *)
Definition replaceAllUsesWith (F : Function) (old : nat) (new : value)
    : option Function :=
  if isInst old new then None
  else Some (mapBlocks (mapOperandsOf (substValue old new)) F).

(** [I->eraseFromParent()]. *)
Definition eraseFromParent (F : Function) (id : nat) : Function :=
  mkFunction (f_args F)
             (list_fmap _ _ (filter (λ I, iid I ≠ id)) (f_blocks F))
             (f_attrs F).

(** ** The No-op Cast Eliminator ([RemoveNoopAddrSpaceCasts])

    The first loop visits the instructions of the function in order.  An
    instruction is visited in the state the earlier replacements left it in,
    so the loop is over the identities of the instructions and looks each
    one up in the current function.  [getSrcAddressSpace] and
    [getDestAddressSpace] assert pointer types: [None] is a failed
    assertion. *)
Fixpoint scanCasts (ids : list nat) (F : Function) (NoopCasts : list nat)
    : option (Function * list nat) :=
  match ids with
  | [] => Some (F, NoopCasts)
  | id :: ids =>
      I ← findInstr F id;
      if decide (iop I = OpAddrSpaceCast) then
        src ← getSrcAddressSpace F I;
        dst ← getDestAddressSpace I;
        if decide (src = dst) then
          Op0 ← iops I !! 0;
          t0 ← valueType F Op0;
          F' ← (if decide (ity I = t0)
                then replaceAllUsesWith F id Op0
                else (* uncanonicalized addrspacecast; just use the value *)
                     replaceAllUsesWith F id Op0);
          scanCasts ids F' (NoopCasts ++ [id])
        else scanCasts ids F NoopCasts
      else scanCasts ids F NoopCasts
  end.

Definition RemoveNoopAddrSpaceCasts (F : Function) : option (Function * bool) :=
  let Changed := false in
  '(F1, NoopCasts) ← scanCasts (iid <$> instructions F) F [];
  Some (foldl eraseFromParent F1 NoopCasts, Changed).

(** ** Modules *)

#[warnings="-register-all"]
Inductive metadata : Type :=
  | MDString (s : string)
  | MDValue (c : constant)
  | MDNode (ops : list metadata).

(** What is particular to a global variable, an alias and a function. *)
Inductive payload : Type :=
  | PVariable (isConstant : bool) (tlm : string) (init : option constant)
              (md : list (nat * metadata))
  | PAlias (aliasee : option constant)
  | PFunction (F : Function).

(** A global value.  [g_id] is its identity; [g_name] is empty when it has
    no name; its type is the pointer type of address space [g_addrspace];
    [g_attrs] stands for what [copyAttributesFrom] copies (visibility,
    section, alignment and the like); [g_comdat] names a comdat of the
    module. *)
Record GlobalValue : Type := mkGlobal {
  g_id : nat;
  g_name : string;
  g_valueType : ty;
  g_addrspace : N;
  g_linkage : string;
  g_attrs : string;
  g_comdat : option string;
  g_payload : payload
}.

Inductive kind : Type := KVariable | KAlias | KFunction.

#[global] Instance kind_eq_dec : EqDecision kind.
Proof. solve_decision. Defined.

Definition kindOf (g : GlobalValue) : kind :=
  match g_payload g with
  | PVariable _ _ _ _ => KVariable
  | PAlias _ => KAlias
  | PFunction _ => KFunction
  end.

(** A module: its global values in the order in which they were inserted
    (the module's lists of global variables, aliases and functions are the
    values of each kind, in this order) and its named metadata. *)
Record Module : Type := mkModule {
  m_globals : list GlobalValue;
  m_named_metadata : list (string * list metadata)
}.

Definition ofKind (k : kind) (M : Module) : list GlobalValue :=
  filter (λ g, kindOf g = k) (m_globals M).

Fixpoint lookupGlobalIn (l : list GlobalValue) (id : nat) : option GlobalValue :=
  match l with
  | [] => None
  | g :: l => if decide (g_id g = id) then Some g else lookupGlobalIn l id
  end.

Definition lookupGlobal (M : Module) (id : nat) : option GlobalValue :=
  lookupGlobalIn (m_globals M) id.

Definition updateGlobal (M : Module) (id : nat)
    (upd : GlobalValue → GlobalValue) : Module :=
  mkModule ((λ g, if decide (g_id g = id) then upd g else g) <$> m_globals M)
           (m_named_metadata M).

Definition insertGlobal (M : Module) (g : GlobalValue) : Module :=
  mkModule (m_globals M ++ [g]) (m_named_metadata M).

(** [eraseFromParent] of a global value. *)
Definition eraseGlobal (M : Module) (id : nat) : Module :=
  mkModule (filter (λ g, g_id g ≠ id) (m_globals M)) (m_named_metadata M).

(** An identity that no global value of the module has. *)
Definition freshId (M : Module) : nat := S (max_list (g_id <$> m_globals M)).

Definition setName (n : string) (g : GlobalValue) : GlobalValue :=
  mkGlobal (g_id g) n (g_valueType g) (g_addrspace g) (g_linkage g)
           (g_attrs g) (g_comdat g) (g_payload g).

Definition setAttrs (a : string) (g : GlobalValue) : GlobalValue :=
  mkGlobal (g_id g) (g_name g) (g_valueType g) (g_addrspace g) (g_linkage g)
           a (g_comdat g) (g_payload g).

Definition setComdat (c : option string) (g : GlobalValue) : GlobalValue :=
  mkGlobal (g_id g) (g_name g) (g_valueType g) (g_addrspace g) (g_linkage g)
           (g_attrs g) c (g_payload g).

Definition setPayload (p : payload) (g : GlobalValue) : GlobalValue :=
  mkGlobal (g_id g) (g_name g) (g_valueType g) (g_addrspace g) (g_linkage g)
           (g_attrs g) (g_comdat g) p.

(** The names that the symbol table of the module holds for the global
    values other than [id]. *)
Definition namesExceptOf (l : list GlobalValue) (id : nat) : stringset :=
  list_to_set
    (omap (λ g, if decide (g_id g ≠ id ∧ g_name g ≠ "")
                then Some (g_name g) else None) l).

(** [Value::setName] on a global value: the symbol table of the module keeps
    the names distinct.  The value takes the requested name when no other
    global value holds it, and a name derived from it that no other holds
    otherwise. *)
Definition Value_setName (M : Module) (id : nat) (Name : string) : Module :=
  match lookupGlobal M id with
  | None => M
  | Some g =>
      if decide (Name = g_name g) then M
      else if decide (Name = "") then updateGlobal M id (setName "")
      else updateGlobal M id
             (setName (fresh_string_of_set Name (namesExceptOf (m_globals M) id)))
  end.

(** The pattern of the declare phase: the original gives up its name, if it
    has one, by taking the name with [.bad] appended ... *)
Definition renameOriginal (M : Module) (g : GlobalValue) : Module * string :=
  if decide (g_name g ≠ "")
  then (Value_setName M (g_id g) (g_name g +:+ ".bad"), g_name g)
  else (M, "").

(** ... and the replacement is created in the module under that name. *)
Definition createGlobal (M : Module) (new : nat → GlobalValue) (Name : string)
    : Module * nat :=
  let nid := freshId M in
  (Value_setName (insertGlobal M (new nid)) nid Name, nid).

(** ** The value map *)

Inductive vref : Type :=
  | RGlobal (id : nat)
  | RArg (fn : nat) (i : nat)
  | RInst (fn : nat) (id : nat)
  | RConst (c : constant).

Definition isGlobalRef (id : nat) (r : vref) : bool :=
  match r with
  | RGlobal j => bool_decide (j = id)
  | _ => false
  end.

(** [VMap[V]] for a global value [V]: the entry written last. *)
Definition VMap_global (VM : list (vref * vref)) (id : nat) : option nat :=
  match find (λ e, isGlobalRef id e.1) VM with
  | Some (_, RGlobal nid) => Some nid
  | _ => None
  end.

Definition VMap_arg (VM : list (vref * vref)) (fn i : nat) : option vref :=
  snd <$> find (λ e, match e.1 with
                     | RArg fn' i' => bool_decide (fn' = fn ∧ i' = i)
                     | _ => false
                     end) VM.

(** A loop with a state that may fail. *)
Fixpoint foldM {A S : Type} (f : S → A → option S) (s : S) (l : list A)
    : option S :=
  match l with
  | [] => Some s
  | x :: l => s' ← f s x; foldM f s' l
  end.

(** Replacing the uses of a global value by another one, in the whole
    module. *)
Fixpoint substGlobalC (old new : nat) (c : constant) : constant :=
  match c with
  | CData t r => CData t r
  | CGlobal g t => CGlobal (if decide (g = old) then new else g) t
  | CAggregate t elts => CAggregate t (substGlobalC old new <$> elts)
  | CExpr op ops t => CExpr op (substGlobalC old new <$> ops) t
  end.

Fixpoint substGlobalMD (old new : nat) (m : metadata) : metadata :=
  match m with
  | MDString s => MDString s
  | MDValue c => MDValue (substGlobalC old new c)
  | MDNode ops => MDNode (substGlobalMD old new <$> ops)
  end.

Definition substGlobalV (old new : nat) (v : value) : value :=
  match v with
  | VConst c => VConst (substGlobalC old new c)
  | _ => v
  end.

Definition substGlobalP (old new : nat) (p : payload) : payload :=
  match p with
  | PVariable c tlm init md =>
      PVariable c tlm (substGlobalC old new <$> init)
                ((λ e : nat * metadata, (e.1, substGlobalMD old new e.2))
                   <$> md)
  | PAlias aliasee => PAlias (substGlobalC old new <$> aliasee)
  | PFunction F => PFunction (mapBlocks (mapOperandsOf (substGlobalV old new)) F)
  end.

Definition replaceAllUsesOfGlobal (M : Module) (old new : nat) : Module :=
  mkModule ((λ g, setPayload (substGlobalP old new (g_payload g)) g)
              <$> m_globals M)
           ((λ e : string * list metadata,
               (e.1, substGlobalMD old new <$> e.2))
              <$> m_named_metadata M).

(** ** The Module Rebuild Driver ([removeAddrspaces])

    [MapValue], [MapMetadata], [CloneFunctionInto],
    [ConstantExpr::getWithOperands] and the naming of intrinsics belong to
    the host toolkit and are parameters:
    - [HostMapValue mat] is [MapValue] with the materializer [mat] to call
      back;
    - [HostMapMetadata] is [MapMetadata], which the pass calls without type
      mapper and materializer;
    - [HostCloneFunctionInto mapv remap σ F NF] gives the arguments, blocks
      and attributes of [NF] after the body of [F] was cloned into it, with
      [mapv] and [remap] for the values and types of the body;
    - [intrinsicName n t] is the name that the signature [t] asks for, when
      [n] is the name of an intrinsic whose name encodes types.
    A host function that does not return gives [None]. *)

Abbreviation mstate := (list (vref * vref) * state)%type.

Section RebuildDriver.
Variable ASRemapper : N → N.
Variable HostMapValue :
  (mstate → value → option (mstate * option value)) →
  mstate → constant → option (mstate * option constant).
Variable getWithOperands : constant → list constant → ty → constant.
Variable HostMapMetadata :
  list (vref * vref) → metadata → option (list (vref * vref) * metadata).
Variable HostCloneFunctionInto :
  (mstate → constant → option (mstate * option constant)) →
  (state → ty → option (state * ty)) →
  mstate → GlobalValue → GlobalValue → option (mstate * Function).
Variable intrinsicName : string → ty → option string.

(** [MapValue(V, VMap, RF_None, &TypeRemapper, &Materializer)]: the host's
    mapper and the materializer call each other; [fuel] bounds the depth of
    these calls and the recursion of [remapType]. *)
Fixpoint MapValue (fuel : nat) (σ : mstate) (c : constant)
    : option (mstate * option constant) :=
  match fuel with
  | O => None
  | S fuel =>
      HostMapValue
        (materialize ASRemapper _ (MapValue fuel) getWithOperands true fuel)
        σ c
  end.

(** [cast<PointerType>(TypeRemapper.remapType(V->getType()))->getAddressSpace()] *)
Definition remapAddressSpace (fuel : nat) (ts : state) (AS : N)
    : option (state * N) :=
  '(ts1, PTy) ← remapType ASRemapper fuel ts (TPtr AS);
  match PTy with
  | TPtr a => Some (ts1, a)
  | _ => None
  end.

(** *** Phase 1: declare *)

Definition declareVariable (fuel : nat) (acc : Module * mstate) (id : nat)
    : option (Module * mstate) :=
  let '(M, (VM, ts)) := acc in
  GV ← lookupGlobal M id;
  match g_payload GV with
  | PVariable isConstant tlm _ _ =>
      let '(M1, Name) := renameOriginal M GV in
      '(ts1, VTy) ← remapType ASRemapper fuel ts (g_valueType GV);
      '(ts2, AS) ← remapAddressSpace fuel ts1 (g_addrspace GV);
      let '(M2, nid) :=
        createGlobal M1
          (λ nid, mkGlobal nid "" VTy AS (g_linkage GV) "" None
                    (PVariable isConstant tlm None []))
          Name in
      (* NGV->copyAttributesFrom(GV) *)
      let M3 := updateGlobal M2 nid (setAttrs (g_attrs GV)) in
      Some (M3, ((RGlobal id, RGlobal nid) :: VM, ts2))
  | _ => None
  end.

Definition declareAlias (fuel : nat) (acc : Module * mstate) (id : nat)
    : option (Module * mstate) :=
  let '(M, (VM, ts)) := acc in
  GA ← lookupGlobal M id;
  match g_payload GA with
  | PAlias _ =>
      let '(M1, Name) := renameOriginal M GA in
      '(ts1, VTy) ← remapType ASRemapper fuel ts (g_valueType GA);
      '(ts2, AS) ← remapAddressSpace fuel ts1 (g_addrspace GA);
      let '(M2, nid) :=
        createGlobal M1
          (λ nid, mkGlobal nid "" VTy AS (g_linkage GA) "" None (PAlias None))
          Name in
      let M3 := updateGlobal M2 nid (setAttrs (g_attrs GA)) in
      Some (M3, ((RGlobal id, RGlobal nid) :: VM, ts2))
  | _ => None
  end.

Definition declareFunction (fuel : nat) (acc : Module * mstate) (id : nat)
    : option (Module * mstate) :=
  let '(M, (VM, ts)) := acc in
  F ← lookupGlobal M id;
  match g_payload F, g_valueType F with
  | PFunction _, TFun ret params isVarArg =>
      let '(M1, Name) := renameOriginal M F in
      '(ts1, Tys) ← remapList (remapType ASRemapper fuel) ts params;
      '(ts2, Ret) ← remapType ASRemapper fuel ts1 ret;
      let NFTy := TFun Ret Tys isVarArg in
      let '(M2, nid) :=
        createGlobal M1
          (λ nid, mkGlobal nid "" NFTy (g_addrspace F) (g_linkage F) "" None
                    (PFunction (mkFunction ((λ t, ("", t)) <$> Tys) [] [])))
          Name in
      (* no need to copy attributes here, that's done by CloneFunctionInto *)
      Some (M2, ((RGlobal id, RGlobal nid) :: VM, ts2))
  | _, _ => None
  end.

(** *** Phase 2: define *)

(** The loop over the metadata attachments of a global variable. *)
Fixpoint mapAttachments (VM : list (vref * vref)) (MDs : list (nat * metadata))
    : option (list (vref * vref) * list (nat * metadata)) :=
  match MDs with
  | [] => Some (VM, [])
  | (k, MD) :: MDs =>
      '(VM1, MD') ← HostMapMetadata VM MD;
      '(VM2, MDs') ← mapAttachments VM1 MDs;
      Some (VM2, (k, MD') :: MDs')
  end.

(** [copyComdat(Dst, Src)]: both are in the same module, so the comdat that
    [getOrInsertComdat] returns is the comdat of [Src]. *)
Definition copyComdat (Src Dst : GlobalValue) : GlobalValue :=
  match g_comdat Src with
  | None => Dst
  | Some SC => setComdat (Some SC) Dst
  end.

Definition defineVariable (fuel : nat) (acc : Module * mstate) (id : nat)
    : option (Module * mstate) :=
  let '(M, σ) := acc in
  GV ← lookupGlobal M id;
  match g_payload GV with
  | PVariable isConstant tlm (Some Init) MDs =>
      nid ← VMap_global σ.1 id;
      NGV ← lookupGlobal M nid;
      match g_payload NGV with
      | PVariable isConstant' tlm' _ MDs' =>
          '(σ1, NewInit) ← MapValue fuel σ Init;
          '(VM2, NewMDs) ← mapAttachments σ1.1 MDs;
          let M1 :=
            updateGlobal M nid
              (λ g, copyComdat GV
                      (setPayload
                         (PVariable isConstant' tlm' NewInit (MDs' ++ NewMDs))
                         g)) in
          (* GV->setInitializer(nullptr) *)
          let M2 :=
            updateGlobal M1 id
              (setPayload (PVariable isConstant tlm None MDs)) in
          Some (M2, (VM2, σ1.2))
      | _ => None
      end
  | PVariable _ _ None _ => Some acc      (* a declaration: continue *)
  | _ => None
  end.

(** The type of the attribute of kind [k] in an attribute set
    ([getAttributeAtIndex(i, k).getValueAsType()]). *)
Definition attrType (set : list (string * option ty)) (k : string) : option ty :=
  '(_, t) ← find (λ a, bool_decide (a.1 = k)) set; t.

Definition replaceAttrType (set : list (string * option ty)) (k : string)
    (Ty : ty) : list (string * option ty) :=
  (λ a, if decide (a.1 = k) then (k, Some Ty) else a) <$> set.

(** The inner loop over [ByVal], [StructRet] and [ByRef]: the first of them
    that carries a type has it rewritten, and the loop is left. *)
Fixpoint remapTypedAttr (fuel : nat) (ts : state)
    (set : list (string * option ty)) (kinds : list string)
    : option (state * list (string * option ty)) :=
  match kinds with
  | [] => Some (ts, set)
  | k :: kinds =>
      match attrType set k with
      | Some Ty =>
          '(ts1, Ty') ← remapType ASRemapper fuel ts Ty;
          Some (ts1, replaceAttrType set k Ty')
      | None => remapTypedAttr fuel ts set kinds
      end
  end.

Fixpoint remapAttrs (fuel : nat) (ts : state)
    (Attrs : list (list (string * option ty)))
    : option (state * list (list (string * option ty))) :=
  match Attrs with
  | [] => Some (ts, [])
  | set :: Attrs =>
      '(ts1, set') ← remapTypedAttr fuel ts set ["byval"; "sret"; "byref"];
      '(ts2, Attrs') ← remapAttrs fuel ts1 Attrs;
      Some (ts2, set' :: Attrs')
  end.

Definition defineFunction (fuel : nat) (acc : Module * mstate) (id : nat)
    : option (Module * mstate) :=
  let '(M, σ) := acc in
  F ← lookupGlobal M id;
  nid ← VMap_global σ.1 id;
  NF ← lookupGlobal M nid;
  match g_payload F, g_payload NF with
  | PFunction Fb, PFunction NFb =>
      (* the names of the arguments, and their entries in the value map *)
      let NFb1 :=
        mkFunction (zip_with (λ src dst, (src.1, dst.2)) (f_args Fb) (f_args NFb))
                   (f_blocks NFb) (f_attrs NFb) in
      let VM1 :=
        rev (imap (λ i _, (RArg id i, RArg nid i)) (f_args Fb)) ++ σ.1 in
      '(σ2, NFb2) ←
        HostCloneFunctionInto (MapValue fuel) (remapType ASRemapper fuel)
          (VM1, σ.2) F (setPayload (PFunction NFb1) NF);
      (* Update function attributes that contain types *)
      '(ts3, Attrs) ← remapAttrs fuel σ2.2 (f_attrs Fb);
      let NFb3 := mkFunction (f_args NFb2) (f_blocks NFb2) Attrs in
      '(NFb4, _) ← RemoveNoopAddrSpaceCasts NFb3;
      let M1 :=
        updateGlobal M nid
          (λ g, copyComdat F (setPayload (PFunction NFb4) g)) in
      (* F->deleteBody() *)
      let M2 :=
        updateGlobal M1 id
          (λ g, mkGlobal (g_id g) (g_name g) (g_valueType g) (g_addrspace g)
                  "external" (g_attrs g) (g_comdat g)
                  (PFunction (mkFunction (f_args Fb) [] (f_attrs Fb)))) in
      Some (M2, (σ2.1, ts3))
  | _, _ => None
  end.

Definition defineAlias (fuel : nat) (acc : Module * mstate) (id : nat)
    : option (Module * mstate) :=
  let '(M, σ) := acc in
  GA ← lookupGlobal M id;
  nid ← VMap_global σ.1 id;
  NGA ← lookupGlobal M nid;
  match g_payload GA, g_payload NGA with
  | PAlias (Some C), PAlias _ =>
      '(σ1, NewC) ← MapValue fuel σ C;
      let M1 := updateGlobal M nid (setPayload (PAlias NewC)) in
      let M2 := updateGlobal M1 id (setPayload (PAlias None)) in
      Some (M2, σ1)
  | PAlias None, PAlias _ => Some (M, σ)
  | _, _ => None
  end.

Fixpoint mapMDOperands (VM : list (vref * vref)) (ops : list metadata)
    : option (list (vref * vref) * list metadata) :=
  match ops with
  | [] => Some (VM, [])
  | op :: ops =>
      '(VM1, op') ← HostMapMetadata VM op;
      '(VM2, ops') ← mapMDOperands VM1 ops;
      Some (VM2, op' :: ops')
  end.

Fixpoint mapNamedMetadata (VM : list (vref * vref))
    (NMDs : list (string * list metadata))
    : option (list (vref * vref) * list (string * list metadata)) :=
  match NMDs with
  | [] => Some (VM, [])
  | (n, ops) :: NMDs =>
      '(VM1, ops') ← mapMDOperands VM ops;
      '(VM2, NMDs') ← mapNamedMetadata VM1 NMDs;
      Some (VM2, (n, ops') :: NMDs')
  end.

(** *** Phases 1 to 3, up to the removal of the originals *)
Definition rebuild (fuel : nat) (ctx : LLVMContext) (M : Module)
    : option (LLVMContext * Module) :=
  let Globals := g_id <$> ofKind KVariable M in
  acc1 ← foldM (declareVariable fuel) (M, ([], State ctx ∅)) Globals;
  let Aliases := g_id <$> ofKind KAlias acc1.1 in
  acc2 ← foldM (declareAlias fuel) acc1 Aliases;
  let Functions := g_id <$> ofKind KFunction acc2.1 in
  acc3 ← foldM (declareFunction fuel) acc2 Functions;
  acc4 ← foldM (defineVariable fuel) acc3 Globals;
  acc5 ← foldM (defineFunction fuel) acc4 Functions;
  '(M6, σ6) ← foldM (defineAlias fuel) acc5 Aliases;
  '(VM7, NMDs) ← mapNamedMetadata σ6.1 (m_named_metadata M6);
  let M7 := mkModule (m_globals M6) NMDs in
  (* Now that we've duplicated everything, remove the old references *)
  let M8 := foldl eraseGlobal M7 (Globals ++ Aliases ++ Functions) in
  Some (Ctx σ6.2, M8).

(** The declare phase alone: the first three loops of [rebuild], with the
    value map and the state of the type rewriter that they leave. *)
Definition declarePhase (fuel : nat) (ctx : LLVMContext) (M : Module)
    : option (Module * mstate) :=
  let Globals := g_id <$> ofKind KVariable M in
  acc1 ← foldM (declareVariable fuel) (M, ([], State ctx ∅)) Globals;
  let Aliases := g_id <$> ofKind KAlias acc1.1 in
  acc2 ← foldM (declareAlias fuel) acc1 Aliases;
  let Functions := g_id <$> ofKind KFunction acc2.1 in
  foldM (declareFunction fuel) acc2 Functions.

(** *** The names of intrinsics *)

(** Modelled from the spec: the host's [Intrinsic::remangleIntrinsicFunction]
    is not part of the sources.  [intrinsicName] gives, for the name and the
    type of a function, the name that the signature asks for when the
    function is an intrinsic whose name encodes types.  When the name of [F]
    is not that name, the result is a function under that name: the function
    of the module that has the name and the type of [F], and a new
    declaration under the name otherwise.  A name is held by one global
    value of the module: so that the declaration is under the name, a global
    value that holds it and is not such a function gives it up first (it
    takes the name with [.renamed] appended). *)
Definition remangleIntrinsicFunction (M : Module) (F : GlobalValue)
    : option (Module * nat) :=
  match intrinsicName (g_name F) (g_valueType F) with
  | None => None
  | Some WantedName =>
      if decide (WantedName = g_name F) then None
      else
        let NewDecl (M0 : Module) :=
          createGlobal M0
            (λ nid, mkGlobal nid "" (g_valueType F) (g_addrspace F)
                      "external" "" None
                      (PFunction (mkFunction [] [] [])))
            WantedName in
        match find (λ g, bool_decide (g_name g = WantedName ∧
                                      WantedName ≠ ""))
                   (m_globals M) with
        | Some Existing =>
            if decide (kindOf Existing = KFunction ∧
                       g_valueType Existing = g_valueType F)
            then Some (M, g_id Existing)
            else Some (NewDecl (Value_setName M (g_id Existing)
                                  (WantedName +:+ ".renamed")))
        | None => Some (NewDecl M)
        end
  end.

(** The name of [F] is the name of an intrinsic that encodes types, and not
    the one that goes with the signature of [F]. *)
Definition staleIntrinsic (F : GlobalValue) : bool :=
  match intrinsicName (g_name F) (g_valueType F) with
  | Some WantedName => bool_decide (WantedName ≠ g_name F)
  | None => false
  end.

(** The last loop, over the functions of the module.  [todo] holds the
    functions from the iterator on; a declaration that is added to the
    module while the iterator is not at the end is visited later. *)
Fixpoint remangleLoop (fuel : nat) (M : Module) (todo : list nat)
    : option Module :=
  match fuel with
  | O => None
  | S fuel =>
      match todo with
      | [] => Some M
      | id :: rest =>
          match lookupGlobal M id with
          | None => remangleLoop fuel M rest
          | Some F =>
              match remangleIntrinsicFunction M F with
              | Some (M1, Remangled) =>
                  let added :=
                    filter (λ i, i ∉ g_id <$> m_globals M)
                           (g_id <$> ofKind KFunction M1) in
                  let M2 :=
                    eraseGlobal (replaceAllUsesOfGlobal M1 id Remangled) id in
                  remangleLoop fuel M2
                    (match rest with [] => [] | _ => rest ++ added end)
              | None => remangleLoop fuel M rest
              end
          end
      end
  end.

(** [removeAddrspaces(M, ASRemapper)]. *)
Definition removeAddrspaces (fuel : nat) (ctx : LLVMContext) (M : Module)
    : option (LLVMContext * Module * bool) :=
  '(ctx1, M1) ← rebuild fuel ctx M;
  (* Finally, remangle calls to intrinsic *)
  M2 ← remangleLoop fuel M1 (g_id <$> ofKind KFunction M1);
  Some (ctx1, M2, true).
End RebuildDriver.

(** ** The passes ([RemoveAddrspacesPass], [RemoveJuliaAddrspacesPass]) *)

(** What a pass reports to the pass manager: [PreservedAnalyses::all()] or
    [PreservedAnalyses::allInSet<CFGAnalyses>()]. *)
Inductive PreservedAnalyses : Type :=
  | PreservedAnalyses_all
  | PreservedAnalyses_allInSet_CFGAnalyses.

Section Passes.
Variable HostMapValue :
  (mstate → value → option (mstate * option value)) →
  mstate → constant → option (mstate * option constant).
Variable getWithOperands : constant → list constant → ty → constant.
Variable HostMapMetadata :
  list (vref * vref) → metadata → option (list (vref * vref) * metadata).
Variable HostCloneFunctionInto :
  (mstate → constant → option (mstate * option constant)) →
  (state → ty → option (state * ty)) →
  mstate → GlobalValue → GlobalValue → option (mstate * Function).
Variable intrinsicName : string → ty → option string.

(** [RemoveAddrspacesPass::run], for the pass built with the policy
    [ASRemapper].  The check under [JL_VERIFY_PASSES] is compiled in debug
    builds only and is left out. *)
Definition RemoveAddrspacesPass_run (ASRemapper : N → N) (fuel : nat)
    (ctx : LLVMContext) (M : Module)
    : option (LLVMContext * Module * PreservedAnalyses) :=
  '(ctx', M', modified) ←
    removeAddrspaces ASRemapper HostMapValue getWithOperands HostMapMetadata
      HostCloneFunctionInto intrinsicName fuel ctx M;
  if modified : bool then Some (ctx', M', PreservedAnalyses_allInSet_CFGAnalyses)
  else Some (ctx', M', PreservedAnalyses_all).

(** [AddressSpace::FirstSpecial] and [AddressSpace::LastSpecial] are
    constants of [llvm-codegen-shared.h], which is not part of the sources:
    they are parameters. *)
Variable FirstSpecial LastSpecial : N.

(** [removeJuliaAddrspaces]. *)
Definition removeJuliaAddrspaces (AS : N) : N :=
  if decide (FirstSpecial ≤ AS ∧ AS ≤ LastSpecial)%N
  then AddressSpace_Generic
  else AS.

(** [RemoveJuliaAddrspacesPass::run]. *)
Definition RemoveJuliaAddrspacesPass_run (fuel : nat) (ctx : LLVMContext)
    (M : Module) : option (LLVMContext * Module * PreservedAnalyses) :=
  RemoveAddrspacesPass_run removeJuliaAddrspaces fuel ctx M.
End Passes.

(** ** A host to run the pass with

    Simple instances of what the pass takes from the host toolkit, for
    running the definitions above on concrete inputs.  The properties below
    are proved for every host. *)

(** A value mapper to run the materializer with: the value map sends the
    identities of global values to constants, and everything else is left
    to the materializer. *)
Definition lookupVM (VM : list (nat * constant)) (g : nat) : option constant :=
  '(_, e) ← list_find (λ e, e.1 = g) VM; Some e.2.

Definition simpleMapValue
    (mat : list (nat * constant) * state → value →
           option (list (nat * constant) * state * option value))
    (σ : list (nat * constant) * state) (c : constant)
    : option (list (nat * constant) * state * option constant) :=
  match c with
  | CGlobal g _ => Some (σ, Some (default c (lookupVM σ.1 g)))
  | _ =>
      '(σ', r) ← mat σ (VConst c);
      Some (σ', Some match r with Some (VConst c') => c' | _ => c end)
  end.

Definition simpleGetWithOperands (CE : constant) (Ops : list constant) (Ty : ty)
    : constant :=
  match CE with
  | CExpr op _ _ => CExpr op Ops Ty
  | _ => CE
  end.

(** A value mapper to run the driver with: a global value is mapped to its
    entry in the value map, with the type that the memo has for its type,
    and everything else is left to the materializer. *)
Definition simpleHostMapValue
    (mat : mstate → value → option (mstate * option value))
    (σ : mstate) (c : constant) : option (mstate * option constant) :=
  match c with
  | CGlobal g t =>
      Some (σ, Some (CGlobal (default g (VMap_global σ.1 g))
                             (default t (MappedTypes σ.2 !! t))))
  | _ =>
      '(σ', r) ← mat σ (VConst c);
      Some (σ', Some match r with Some (VConst c') => c' | _ => c end)
  end.

Definition simpleMapMetadata (VM : list (vref * vref)) (m : metadata)
    : option (list (vref * vref) * metadata) :=
  Some (VM, m).

(** Cloning that keeps the instructions as they are and rewrites their
    types. *)
Fixpoint cloneInstrs (remap : state → ty → option (state * ty)) (ts : state)
    (l : list instr) : option (state * list instr) :=
  match l with
  | [] => Some (ts, [])
  | J :: l =>
      '(ts1, t) ← remap ts (ity J);
      '(ts2, l') ← cloneInstrs remap ts1 l;
      Some (ts2, mkInstr (iid J) (iop J) (iops J) t :: l')
  end.

Fixpoint cloneBlocks (remap : state → ty → option (state * ty)) (ts : state)
    (bs : list (list instr)) : option (state * list (list instr)) :=
  match bs with
  | [] => Some (ts, [])
  | b :: bs =>
      '(ts1, b') ← cloneInstrs remap ts b;
      '(ts2, bs') ← cloneBlocks remap ts1 bs;
      Some (ts2, b' :: bs')
  end.

Definition simpleCloneFunctionInto
    (mapv : mstate → constant → option (mstate * option constant))
    (remap : state → ty → option (state * ty))
    (σ : mstate) (F NF : GlobalValue) : option (mstate * Function) :=
  match g_payload F, g_payload NF with
  | PFunction Fb, PFunction NFb =>
      '(ts1, bs) ← cloneBlocks remap σ.2 (f_blocks Fb);
      Some ((σ.1, ts1), mkFunction (f_args NFb) bs (f_attrs Fb))
  | _, _ => None
  end.

(** The name that the signature of [llvm.ptrmask] asks for. *)
Definition ptrmaskName (n : string) (t : ty) : option string :=
  if String.prefix "llvm.ptrmask." n then
    match t with
    | TFun (TPtr a) [TPtr _; TOther i] false =>
        Some ("llvm.ptrmask.p" +:+ pretty a +:+ "." +:+ i)
    | _ => None
    end
  else None.

Definition runPass (f : N → N) (names : string → ty → option string)
    (fuel : nat) (ctx : LLVMContext) (M : Module)
    : option (LLVMContext * Module * bool) :=
  removeAddrspaces f simpleHostMapValue simpleGetWithOperands simpleMapMetadata
    simpleCloneFunctionInto names fuel ctx M.

(** * Properties of the pass *)

(** ** Reasoning about the Type Rewriter *)

(** The identified structs and the address spaces that occur in a type
    (without looking into the bodies of the structs). *)
Fixpoint ids (t : ty) : list nat :=
  match t with
  | TOther _ | TPtr _ => []
  | TFun r ps _ => ids r ++ (ps ≫= ids)
  | TStructLit es _ => es ≫= ids
  | TStruct s => [s]
  | TArr e _ | TVec e _ _ => ids e
  end.

Fixpoint ptrs (t : ty) : list N :=
  match t with
  | TOther _ | TStruct _ => []
  | TPtr a => [a]
  | TFun r ps _ => ptrs r ++ (ps ≫= ptrs)
  | TStructLit es _ => es ≫= ptrs
  | TArr e _ | TVec e _ _ => ptrs e
  end.

(** A type is well formed below [n] when the structs it mentions have an
    index below [n]. *)
Definition wf_ty (n : nat) (t : ty) : Prop := ∀ s, s ∈ ids t → s < n.

(** What the context stores of a struct apart from its name. *)
Abbreviation shape := (option (list ty) * bool)%type.
Definition shapeOf (d : StructDef) : shape := (sbody d, spacked d).
Definition shapes (ctx : LLVMContext) : list shape := shapeOf <$> ctx.

Lemma shapes_lookup ctx s d :
  ctx !! s = Some d → shapes ctx !! s = Some (sbody d, spacked d).
Proof. intros H. unfold shapes. by rewrite list_lookup_fmap, H. Qed.

Lemma shapes_lookup_inv ctx s b p :
  shapes ctx !! s = Some (b, p) →
  ∃ d, ctx !! s = Some d ∧ sbody d = b ∧ spacked d = p.
Proof.
  unfold shapes. rewrite list_lookup_fmap.
  destruct (ctx !! s) as [d|]; simpl; [|done].
  intros [= <- <-]. eauto.
Qed.

Lemma shapes_length ctx : length (shapes ctx) = length ctx.
Proof. apply length_fmap. Qed.

Lemma shapes_create ctx :
  shapes (StructType_create ctx) = shapes ctx ++ [(None, false)].
Proof. unfold shapes, StructType_create. by rewrite fmap_app. Qed.

Lemma shapes_setName ctx s n : shapes (StructType_setName ctx s n) = shapes ctx.
Proof.
  unfold StructType_setName.
  destruct (ctx !! s) as [d|] eqn:Hd; [|done].
  assert (∀ nm, shapes (<[s := mkStruct nm (sbody d) (spacked d)]> ctx)
                = shapes ctx) as Hset.
  { intros nm. unfold shapes. rewrite list_fmap_insert. simpl.
    apply list_insert_id. by rewrite list_lookup_fmap, Hd. }
  repeat case_decide; auto.
Qed.

Lemma shapes_setBody ctx s es p :
  shapes (StructType_setBody ctx s es p) = <[s := (Some es, p)]> (shapes ctx).
Proof.
  unfold StructType_setBody.
  destruct (ctx !! s) as [d|] eqn:Hd.
  - unfold shapes. by rewrite list_fmap_insert.
  - symmetry. apply list_insert_ge. rewrite shapes_length.
    by apply lookup_ge_None.
Qed.

Lemma shapes_placeholder st s d :
  shapes (Ctx (placeholder st s d)) = shapes (Ctx st) ++ [(None, false)].
Proof.
  unfold placeholder. simpl. destruct (hasName d).
  - by rewrite !shapes_setName, shapes_create.
  - by rewrite shapes_create.
Qed.

(** A property of one call carries over to the loop over a list: [I] is kept
    by every call, [E] relates the states before and after it, and [G], which
    is stable under [E], relates each element to its image. *)
Lemma remapList_spec (f : state → ty → option (state * ty))
    (I : state → Prop) (E : state → state → Prop)
    (G : state → ty → ty → Prop) (W : ty → Prop) :
  (∀ st, E st st) →
  (∀ st1 st2 st3, E st1 st2 → E st2 st3 → E st1 st3) →
  (∀ st st' t D, E st st' → G st t D → G st' t D) →
  (∀ st t st' D,
      I st → W t → f st t = Some (st', D) → I st' ∧ E st st' ∧ G st' t D) →
  ∀ l st st' l',
    I st → Forall W l → remapList f st l = Some (st', l') →
    I st' ∧ E st st' ∧ Forall2 (G st') l l'.
Proof.
  intros Erefl Etrans Gstable Hf l.
  induction l as [|t l IH]; intros st st' l' HI HW Hrun; simpl in Hrun.
  - injection Hrun as <- <-. auto.
  - apply Forall_cons in HW as [Wt Wl].
    destruct (f st t) as [[st1 t']|] eqn:Ef; simpl in Hrun; [|done].
    destruct (remapList f st1 l) as [[st2 l2]|] eqn:El; simpl in Hrun; [|done].
    injection Hrun as <- <-.
    destruct (Hf _ _ _ _ HI Wt Ef) as (I1 & E1 & G1).
    destruct (IH _ _ _ I1 Wl El) as (I2 & E2 & G2).
    split; [done|]. split; [by eapply Etrans|].
    constructor; [by eapply Gstable|done].
Qed.

Lemma remapList_length f l : ∀ st st' l',
  remapList f st l = Some (st', l') → length l' = length l.
Proof.
  induction l as [|t l IH]; intros st st' l' Hrun; simpl in Hrun.
  - by injection Hrun as <- <-.
  - destruct (f st t) as [[st1 t']|]; simpl in Hrun; [|done].
    destruct (remapList f st1 l) as [[st2 l2]|] eqn:El; simpl in Hrun; [|done].
    injection Hrun as <- <-. simpl. f_equal. eauto.
Qed.

Lemma remapList_mono (f g : state → ty → option (state * ty)) :
  (∀ st t r, f st t = Some r → g st t = Some r) →
  ∀ l st r, remapList f st l = Some r → remapList g st l = Some r.
Proof.
  intros Hfg l. induction l as [|t l IH]; intros st r Hrun; simpl in *; [done|].
  destruct (f st t) as [[st1 t']|] eqn:Ef; simpl in Hrun; [|done].
  rewrite (Hfg _ _ _ Ef). simpl.
  destruct (remapList f st1 l) as [[st2 l2]|] eqn:El; simpl in Hrun; [|done].
  by rewrite (IH _ _ El).
Qed.

(** What a call leaves as it is: the structs that exist keep their body and
    packedness, and the memo keeps its keys. *)
Definition frame (st st' : state) : Prop :=
  shapes (Ctx st) `prefix_of` shapes (Ctx st') ∧
  dom (MappedTypes st) ⊆ dom (MappedTypes st').

Lemma frame_refl st : frame st st.
Proof. split; reflexivity. Qed.

Lemma frame_trans st1 st2 st3 : frame st1 st2 → frame st2 st3 → frame st1 st3.
Proof. intros [A1 B1] [A2 B2]. split; etrans; eauto. Qed.

Lemma frame_length st st' : frame st st' → length (Ctx st) ≤ length (Ctx st').
Proof.
  intros [H _]. apply prefix_length in H. by rewrite !shapes_length in H.
Qed.

Lemma frame_shape st st' s sh :
  frame st st' → shapes (Ctx st) !! s = Some sh →
  shapes (Ctx st') !! s = Some sh.
Proof. intros [[k ->] _] H. by apply lookup_app_l_Some. Qed.

Lemma frame_placeholder st s d : frame st (placeholder st s d).
Proof.
  split.
  - rewrite shapes_placeholder. by apply prefix_app_r.
  - unfold placeholder; simpl. rewrite dom_insert. set_solver.
Qed.

Lemma frame_insert st T D :
  frame st (State (Ctx st) (<[T := D]> (MappedTypes st))).
Proof. split; simpl; [done|]. rewrite dom_insert. set_solver. Qed.

(** Filling in the body of a struct created after [st] keeps the frame. *)
Lemma frame_setBody st st2 s es p :
  frame st st2 → length (Ctx st) ≤ s →
  frame st (State (StructType_setBody (Ctx st2) s es p) (MappedTypes st2)).
Proof.
  intros [[k Hk] Hdom] Hs. split; simpl; [|done].
  rewrite shapes_setBody, Hk.
  rewrite insert_app_r_alt by (by rewrite shapes_length).
  by apply prefix_app_r.
Qed.

Section TypeRemapperFrame.
Variable f : N → N.

Lemma remapType_frame fuel : ∀ st T st' D,
  remapType f fuel st T = Some (st', D) →
  frame st st' ∧ is_Some (MappedTypes st' !! T).
Proof.
  induction fuel as [|fuel IH]; intros st T st' D Hrun; [done|].
  assert (∀ l st0 st1 l',
    remapList (remapType f fuel) st0 l = Some (st1, l') → frame st0 st1)
    as IHl.
  { intros l st0 st1 l' Hl.
    edestruct (remapList_spec (remapType f fuel) (λ _, True) frame
                 (λ _ _ _, True) (λ _, True) frame_refl frame_trans)
      as (_ & ? & _); [done| |done|by apply Forall_true|exact Hl|done].
    intros ???? _ _ Hc. edestruct IH as [? _]; eauto. }
  simpl in Hrun.
  destruct (MappedTypes st !! T) as [D0|] eqn:Hm.
  { injection Hrun as <- <-. split; [apply frame_refl|by rewrite Hm]. }
  match type of Hrun with
  | mbind _ ?c = _ => destruct c as [[st1 D1]|] eqn:Hc; simpl in Hrun; [|done]
  end.
  injection Hrun as <- <-.
  split; [|simpl; rewrite lookup_insert_eq; eauto].
  eapply frame_trans; [|apply frame_insert]. simpl.
  destruct T as [k|a|r ps v|es p|s|e n|e n sc].
  - by injection Hc as <- <-.
  - by injection Hc as <- <-.
  - destruct (remapList _ st ps) as [[st2 ps']|] eqn:Hps; simpl in Hc; [|done].
    destruct (remapType f fuel st2 r) as [[st3 r']|] eqn:Hr; simpl in Hc; [|done].
    injection Hc as <- <-.
    eapply frame_trans; [eapply IHl, Hps|eapply IH, Hr].
  - destruct (remapList _ st es) as [[st2 es']|] eqn:Hes; simpl in Hc; [|done].
    injection Hc as <- <-. eapply IHl, Hes.
  - destruct (Ctx st !! s) as [d|] eqn:Hd; simpl in Hc; [|done].
    destruct (sbody d) as [es|] eqn:Hb.
    + destruct (remapList _ _ es) as [[st2 es']|] eqn:Hes; simpl in Hc; [|done].
      injection Hc as <- <-.
      apply frame_setBody; [|done].
      eapply frame_trans; [apply frame_placeholder|eapply IHl, Hes].
    + injection Hc as <- <-. apply frame_refl.
  - destruct (remapType f fuel st e) as [[st2 e']|] eqn:He; simpl in Hc; [|done].
    injection Hc as <- <-. eapply IH, He.
  - destruct (remapType f fuel st e) as [[st2 e']|] eqn:He; simpl in Hc; [|done].
    injection Hc as <- <-. eapply IH, He.
Qed.

Lemma remapType_fuel_S fuel : ∀ st T r,
  remapType f fuel st T = Some r → remapType f (S fuel) st T = Some r.
Proof.
  induction fuel as [|fuel IH]; intros st T r Hrun; [done|].
  pose proof (remapList_mono _ _ IH) as IHl.
  remember (S fuel) as fuel' eqn:Hf.
  rewrite Hf in Hrun. simpl in Hrun. simpl.
  destruct (MappedTypes st !! T) as [D0|] eqn:Hm; [done|].
  match type of Hrun with
  | mbind _ ?c = _ => destruct c as [[st1 D1]|] eqn:Hc; simpl in Hrun; [|done]
  end.
  match goal with
  | |- mbind _ ?c = _ => assert (c = Some (st1, D1)) as ->; [|done]
  end.
  destruct T as [k|a|r0 ps v|es p|s|e n|e n sc]; try done.
  - destruct (remapList _ st ps) as [[st2 ps']|] eqn:Hps; simpl in Hc; [|done].
    rewrite (IHl _ _ _ Hps). simpl.
    destruct (remapType f fuel st2 r0) as [[st3 r']|] eqn:Hr; simpl in Hc; [|done].
    by rewrite (IH _ _ _ Hr).
  - destruct (remapList _ st es) as [[st2 es']|] eqn:Hes; simpl in Hc; [|done].
    by rewrite (IHl _ _ _ Hes).
  - destruct (Ctx st !! s) as [d|] eqn:Hd; simpl in Hc; [|done]. simpl.
    destruct (sbody d) as [es|] eqn:Hb; [|done].
    destruct (remapList _ _ es) as [[st2 es']|] eqn:Hes; simpl in Hc; [|done].
    by rewrite (IHl _ _ _ Hes).
  - destruct (remapType f fuel st e) as [[st2 e']|] eqn:He; simpl in Hc; [|done].
    by rewrite (IH _ _ _ He).
  - destruct (remapType f fuel st e) as [[st2 e']|] eqn:He; simpl in Hc; [|done].
    by rewrite (IH _ _ _ He).
Qed.

Lemma remapType_fuel_le fuel fuel' st T r :
  fuel ≤ fuel' → remapType f fuel st T = Some r →
  remapType f fuel' st T = Some r.
Proof. induction 1; auto using remapType_fuel_S. Qed.
End TypeRemapperFrame.

Lemma wf_ty_mono n n' t : n ≤ n' → wf_ty n t → wf_ty n' t.
Proof. intros Hn Hwf s Hs. specialize (Hwf s Hs). lia. Qed.

Lemma wf_ty_fun n r ps v :
  wf_ty n (TFun r ps v) ↔ wf_ty n r ∧ Forall (wf_ty n) ps.
Proof.
  unfold wf_ty. simpl. rewrite Forall_forall.
  setoid_rewrite elem_of_app. setoid_rewrite list_elem_of_bind.
  naive_solver.
Qed.

Lemma wf_ty_lit n es p : wf_ty n (TStructLit es p) ↔ Forall (wf_ty n) es.
Proof.
  unfold wf_ty. simpl. rewrite Forall_forall.
  setoid_rewrite list_elem_of_bind. naive_solver.
Qed.

Lemma wf_ty_struct n s : wf_ty n (TStruct s) ↔ s < n.
Proof.
  unfold wf_ty. simpl. split.
  - intros H. apply H. by apply list_elem_of_singleton.
  - by intros H s' ->%list_elem_of_singleton.
Qed.

Section TypeRemapperSpec.
Variable f : N → N.

(** The image of a type, given the images of the identified structs: the
    function that [remapType] computes, read off the memo [m]. *)
Fixpoint rw (m : gmap ty ty) (t : ty) : ty :=
  match t with
  | TOther k => TOther k
  | TPtr a => TPtr (f a)
  | TFun r ps v => TFun (rw m r) (rw m <$> ps) v
  | TStructLit es p => TStructLit (rw m <$> es) p
  | TStruct s => default (TStruct s) (m !! TStruct s)
  | TArr e n => TArr (rw m e) n
  | TVec e n sc => TVec (rw m e) n sc
  end.

(** Every struct mentioned by [t] has an image in the memo. *)
Definition mapped (m : gmap ty ty) (t : ty) : Prop :=
  ∀ s, s ∈ ids t → is_Some (m !! TStruct s).

Lemma mapped_fun m r ps v :
  mapped m (TFun r ps v) ↔ mapped m r ∧ Forall (mapped m) ps.
Proof.
  unfold mapped. simpl. rewrite Forall_forall.
  setoid_rewrite elem_of_app. setoid_rewrite list_elem_of_bind.
  naive_solver.
Qed.

Lemma mapped_lit m es p : mapped m (TStructLit es p) ↔ Forall (mapped m) es.
Proof.
  unfold mapped. simpl. rewrite Forall_forall.
  setoid_rewrite list_elem_of_bind. naive_solver.
Qed.

Lemma mapped_struct m s : mapped m (TStruct s) ↔ is_Some (m !! TStruct s).
Proof.
  unfold mapped. simpl. split.
  - intros H. apply H. by apply list_elem_of_singleton.
  - by intros H s' ->%list_elem_of_singleton.
Qed.

Lemma mapped_mono m m' t : m ⊆ m' → mapped m t → mapped m' t.
Proof.
  intros Hm Ht s Hs. destruct (Ht s Hs) as [x Hx].
  exists x. by eapply lookup_weaken.
Qed.

Lemma rw_ext m m' t :
  (∀ s, s ∈ ids t → m !! TStruct s = m' !! TStruct s) → rw m t = rw m' t.
Proof.
  induction t as [k|a|r ps v IHr IHps|es p IHes|s|e n IHe|e n sc IHe]
    using ty_ind'; simpl; intros Hs; try done.
  - f_equal.
    + apply IHr. intros s ?. apply Hs, elem_of_app. by left.
    + apply list_fmap_ext. intros i x Hx.
      eapply Forall_lookup_1 in IHps; [|done]. apply IHps.
      intros s ?. apply Hs, elem_of_app. right.
      apply list_elem_of_bind. exists x. split; [done|].
      by eapply list_elem_of_lookup_2.
  - f_equal. apply list_fmap_ext. intros i x Hx.
    eapply Forall_lookup_1 in IHes; [|done]. apply IHes.
    intros s ?. apply Hs, list_elem_of_bind. exists x. split; [done|].
    by eapply list_elem_of_lookup_2.
  - rewrite Hs; [done|]. by apply list_elem_of_singleton.
  - f_equal. by apply IHe.
  - f_equal. by apply IHe.
Qed.

Lemma rw_mono m m' t : m ⊆ m' → mapped m t → rw m' t = rw m t.
Proof.
  intros Hm Ht. apply rw_ext. intros s Hs.
  destruct (Ht s Hs) as [x Hx]. rewrite Hx. by eapply lookup_weaken.
Qed.

Lemma rw_list_mono m m' l :
  m ⊆ m' → Forall (mapped m) l → rw m' <$> l = rw m <$> l.
Proof.
  intros Hm Hl. apply list_fmap_ext. intros i x Hx.
  apply rw_mono; [done|]. by eapply Forall_lookup_1.
Qed.

(** A key that is not a struct does not change [rw]. *)
Lemma rw_insert_other m T D t :
  (∀ s, T ≠ TStruct s) → rw (<[T := D]> m) t = rw m t.
Proof.
  intros HT. apply rw_ext. intros s _. apply lookup_insert_ne, HT.
Qed.

Lemma mapped_insert_other m T D t :
  (∀ s, T ≠ TStruct s) → mapped (<[T := D]> m) t ↔ mapped m t.
Proof.
  intros HT. unfold mapped.
  by setoid_rewrite (lookup_insert_ne m T _ D (HT _)).
Qed.
End TypeRemapperSpec.

(** ** The invariant of the rewriter

    [n0] is the number of structs at the start of the outermost call: the
    types that the call visits are well formed below [n0], and the structs it
    creates have an index from [n0] on.  [pend] holds the structs whose
    fields are being rewritten: their image is a placeholder without body. *)
Section TypeRemapperInv.
Variable f : N → N.

Record Inv (n0 : nat) (pend : gset nat) (st : state) : Prop := mkInv {
  inv_n0 : n0 ≤ length (Ctx st);
  inv_src : ∀ s es pk,
    s < n0 → shapes (Ctx st) !! s = Some (Some es, pk) →
    Forall (wf_ty n0) es;
  inv_closed : ∀ s es pk,
    shapes (Ctx st) !! s = Some (Some es, pk) →
    Forall (wf_ty (length (Ctx st))) es;
  inv_memo : ∀ T D,
    MappedTypes st !! T = Some D →
    D = rw f (MappedTypes st) T ∧ mapped (MappedTypes st) T;
  inv_struct : ∀ s D,
    MappedTypes st !! TStruct s = Some D →
    ∃ s', D = TStruct s' ∧ s' < length (Ctx st) ∧ s < length (Ctx st);
  inv_inj : ∀ s1 s2 s',
    MappedTypes st !! TStruct s1 = Some (TStruct s') →
    MappedTypes st !! TStruct s2 = Some (TStruct s') → s1 = s2;
  inv_pend : ∀ s,
    s ∈ pend →
    ∃ p, MappedTypes st !! TStruct s = Some (TStruct p) ∧ n0 ≤ p ∧ s < n0 ∧
         shapes (Ctx st) !! p = Some (None, false);
  inv_done : ∀ s s',
    MappedTypes st !! TStruct s = Some (TStruct s') → s ∉ pend →
    match shapes (Ctx st) !! s with
    | Some (None, _) => s' = s
    | Some (Some es, pk) =>
        shapes (Ctx st) !! s' = Some (Some (rw f (MappedTypes st) <$> es), pk) ∧
        Forall (mapped (MappedTypes st)) es
    | None => False
    end
}.

(** The images of mapped types mention structs of the context only. *)
Lemma wf_rw n0 pend st t :
  Inv n0 pend st → mapped (MappedTypes st) t →
  wf_ty (length (Ctx st)) (rw f (MappedTypes st) t).
Proof.
  intros HI.
  induction t as [k|a|r ps v IHr IHps|es p IHes|s|e n IHe|e n sc IHe]
    using ty_ind'; simpl; intros Hm.
  - by intros s Hs%elem_of_nil.
  - by intros s Hs%elem_of_nil.
  - apply mapped_fun in Hm as [Hr Hps]. apply wf_ty_fun. split; [auto|].
    apply Forall_fmap, Forall_forall. intros x Hx. simpl.
    rewrite Forall_forall in IHps, Hps. auto.
  - apply mapped_lit in Hm. apply wf_ty_lit.
    apply Forall_fmap, Forall_forall. intros x Hx. simpl.
    rewrite Forall_forall in IHes, Hm. auto.
  - apply mapped_struct in Hm as [D HD]. rewrite HD. simpl.
    destruct (inv_struct _ _ _ HI _ _ HD) as (s' & -> & ? & _).
    by apply wf_ty_struct.
  - apply IHe, Hm.
  - apply IHe, Hm.
Qed.

(** Recording the image of a type that is not an identified struct. *)
Lemma Inv_insert_other n0 pend st T D :
  Inv n0 pend st → (∀ s, T ≠ TStruct s) →
  D = rw f (MappedTypes st) T → mapped (MappedTypes st) T →
  Inv n0 pend (State (Ctx st) (<[T := D]> (MappedTypes st))).
Proof.
  intros HI HT HD Hmap.
  assert (∀ s, <[T := D]> (MappedTypes st) !! TStruct s
               = MappedTypes st !! TStruct s) as Hlk.
  { intros s. apply lookup_insert_ne, HT. }
  destruct HI as [H0 Hsrc Hcl Hmemo Hstr Hinj Hpend Hdone].
  constructor; simpl; try done.
  - intros T0 D0. rewrite rw_insert_other, mapped_insert_other by done.
    destruct (decide (T = T0)) as [<-|Hne].
    + rewrite lookup_insert_eq. by intros [= <-].
    + rewrite lookup_insert_ne by done. apply Hmemo.
  - intros s D0. rewrite Hlk. apply Hstr.
  - intros s1 s2 s'. rewrite !Hlk. apply Hinj.
  - intros s Hs. rewrite Hlk. by apply Hpend.
  - intros s s'. rewrite Hlk. intros Hs Hp.
    pose proof (Hdone s s' Hs Hp) as Hd.
    destruct (shapes (Ctx st) !! s) as [[[es|] pk]|]; try done.
    rewrite (list_fmap_ext _ (rw f (MappedTypes st)) es).
    + destruct Hd as [? Hes]. split; [done|].
      eapply Forall_impl; [done|]. intros x. by apply mapped_insert_other.
    + intros. by apply rw_insert_other.
Qed.

(** The memo part of the invariant when a struct gets its image. *)
Lemma memo_insert_struct m s p T D :
  (∀ T D, m !! T = Some D → D = rw f m T ∧ mapped m T) →
  m !! TStruct s = None →
  <[TStruct s := TStruct p]> m !! T = Some D →
  D = rw f (<[TStruct s := TStruct p]> m) T ∧
  mapped (<[TStruct s := TStruct p]> m) T.
Proof.
  intros Hmemo Hnone HT.
  pose proof (insert_subseteq m (TStruct s) (TStruct p) Hnone) as Hsub.
  destruct (decide (TStruct s = T)) as [<-|Hne].
  - rewrite lookup_insert_eq in HT. injection HT as <-. simpl.
    rewrite lookup_insert_eq. split; [done|].
    apply mapped_struct. by rewrite lookup_insert_eq.
  - rewrite lookup_insert_ne in HT by done.
    destruct (Hmemo _ _ HT) as [-> Hm]. split.
    + symmetry. by apply rw_mono.
    + by eapply mapped_mono.
Qed.

(** An opaque struct is its own image. *)
Lemma Inv_insert_opaque n0 pend st s pk :
  Inv n0 pend st → MappedTypes st !! TStruct s = None → s < n0 →
  shapes (Ctx st) !! s = Some (None, pk) →
  Inv n0 pend (State (Ctx st) (<[TStruct s := TStruct s]> (MappedTypes st))).
Proof.
  intros HI Hnone Hs Hsh.
  destruct HI as [H0 Hsrc Hcl Hmemo Hstr Hinj Hpend Hdone].
  pose proof (insert_subseteq _ (TStruct s) (TStruct s) Hnone) as Hsub.
  assert (∀ s1 s', s1 ≠ s → MappedTypes st !! TStruct s1 = Some (TStruct s') →
                   s' ≠ s) as Hfresh.
  { intros s1 s' Hne H1 ->.
    destruct (decide (s1 ∈ pend)) as [Hin|Hnin].
    - destruct (Hpend _ Hin) as (p & Hp & ? & _).
      rewrite Hp in H1. injection H1 as ->. lia.
    - pose proof (Hdone _ _ H1 Hnin) as Hd.
      destruct (shapes (Ctx st) !! s1) as [[[es|] pk1]|]; try done.
      destruct Hd as [Hd _]. by rewrite Hsh in Hd. }
  constructor; simpl; try done.
  - intros T D. by apply memo_insert_struct.
  - intros s1 D. destruct (decide (s = s1)) as [<-|Hne].
    + rewrite lookup_insert_eq. intros [= <-]. exists s. split; [done|]. lia.
    + rewrite lookup_insert_ne by congruence. apply Hstr.
  - intros s1 s2 s'.
    destruct (decide (s = s1)) as [<-|Hne1];
      destruct (decide (s = s2)) as [<-|Hne2]; try done.
    + rewrite lookup_insert_eq, lookup_insert_ne by congruence.
      intros [= <-] H2. by destruct (Hfresh _ _ (not_eq_sym Hne2) H2).
    + rewrite lookup_insert_eq, lookup_insert_ne by congruence.
      intros H1 [= <-]. by destruct (Hfresh _ _ (not_eq_sym Hne1) H1).
    + rewrite !lookup_insert_ne by congruence. apply Hinj.
  - intros s1 Hin. destruct (Hpend _ Hin) as (p & Hp & ?).
    exists p. split; [|done]. by eapply lookup_weaken.
  - intros s1 s'. destruct (decide (s = s1)) as [<-|Hne].
    + rewrite lookup_insert_eq. intros [= <-] _. by rewrite Hsh.
    + rewrite lookup_insert_ne by congruence. intros H1 Hnin.
      pose proof (Hdone _ _ H1 Hnin) as Hd.
      destruct (shapes (Ctx st) !! s1) as [[[es|] pk1]|]; try done.
      destruct Hd as [Hd Hes].
      rewrite (rw_list_mono f (MappedTypes st)) by done. split; [done|].
      eapply Forall_impl; [done|]. intros x. by apply mapped_mono.
Qed.

(** Creating the placeholder of a struct with a body. *)
Lemma Inv_placeholder n0 pend st s d es :
  Inv n0 pend st → MappedTypes st !! TStruct s = None → s < n0 →
  Ctx st !! s = Some d → sbody d = Some es →
  Inv n0 ({[s]} ∪ pend) (placeholder st s d).
Proof.
  intros HI Hnone Hs Hd Hb.
  destruct HI as [H0 Hsrc Hcl Hmemo Hstr Hinj Hpend Hdone].
  pose proof (insert_subseteq _ (TStruct s) (TStruct (length (Ctx st))) Hnone)
    as Hsub.
  pose proof (shapes_placeholder st s d) as Hshapes.
  assert (MappedTypes (placeholder st s d)
          = <[TStruct s := TStruct (length (Ctx st))]> (MappedTypes st))
    as Hm' by done.
  assert (length (Ctx (placeholder st s d)) = S (length (Ctx st))) as Hlen.
  { rewrite <- !shapes_length, Hshapes, length_app. simpl. lia. }
  assert (∀ i, i < length (Ctx st) →
            shapes (Ctx (placeholder st s d)) !! i = shapes (Ctx st) !! i)
    as Hold.
  { intros i Hi. rewrite Hshapes. apply lookup_app_l.
    by rewrite shapes_length. }
  assert (∀ i sh, shapes (Ctx (placeholder st s d)) !! i = Some sh →
            shapes (Ctx st) !! i = Some sh ∨
            (i = length (Ctx st) ∧ sh = (None, false))) as Hcases.
  { intros i sh. rewrite Hshapes.
    intros [?|[Hi Hx]]%lookup_app_Some; [by left|right].
    rewrite shapes_length in Hi, Hx.
    destruct (i - length (Ctx st)) as [|k] eqn:Hk; simpl in Hx; [|done].
    injection Hx as <-. split; [lia|done]. }
  constructor; rewrite ?Hlen, ?Hm'.
  - lia.
  - intros s1 es1 pk1 Hs1. rewrite Hold by lia. by apply Hsrc.
  - intros s1 es1 pk1 [H1|[_ ?]]%Hcases; [|done].
    eapply Forall_impl; [by eapply Hcl|].
    intros x. apply wf_ty_mono. lia.
  - intros T D. by apply memo_insert_struct.
  - intros s1 D.
    destruct (decide (s = s1)) as [<-|Hne].
    + rewrite lookup_insert_eq. intros [= <-]. eexists. split; [done|]. lia.
    + rewrite lookup_insert_ne by congruence. intros H1.
      destruct (Hstr _ _ H1) as (s' & -> & ? & ?). exists s'.
      split; [done|]. lia.
  - intros s1 s2 s'.
    destruct (decide (s = s1)) as [<-|Hne1];
      destruct (decide (s = s2)) as [<-|Hne2]; try done.
    + rewrite lookup_insert_eq, lookup_insert_ne by congruence.
      intros [= <-] H2. destruct (Hstr _ _ H2) as (? & [= <-] & ? & ?). lia.
    + rewrite lookup_insert_eq, lookup_insert_ne by congruence.
      intros H1 [= <-]. destruct (Hstr _ _ H1) as (? & [= <-] & ? & ?). lia.
    + rewrite !lookup_insert_ne by congruence. apply Hinj.
  - intros s1 [->%elem_of_singleton|Hin]%elem_of_union.
    + exists (length (Ctx st)).
      rewrite lookup_insert_eq. split; [done|]. split; [lia|]. split; [done|].
      rewrite Hshapes. rewrite lookup_app_r by (by rewrite shapes_length).
      by rewrite shapes_length, Nat.sub_diag.
    + destruct (Hpend _ Hin) as (p & Hp & ? & ? & Hsh).
      exists p.
      split; [by eapply lookup_weaken|]. split; [done|]. split; [done|].
      rewrite Hold; [done|]. apply lookup_lt_Some in Hsh.
      by rewrite shapes_length in Hsh.
  - intros s1 s' H1 Hnin.
    apply not_elem_of_union in Hnin as [Hne%not_elem_of_singleton Hnin].
    rewrite lookup_insert_ne in H1 by congruence.
    destruct (Hstr _ _ H1) as (? & [= <-] & ? & ?).
    rewrite !Hold by done.
    pose proof (Hdone _ _ H1 Hnin) as Hdn.
    destruct (shapes (Ctx st) !! s1) as [[[es1|] pk1]|]; try done.
    destruct Hdn as [Hdn Hes].
    rewrite (rw_list_mono f (MappedTypes st)) by done. split; [done|].
    eapply Forall_impl; [done|]. intros x. by apply mapped_mono.
Qed.

(** Filling in the placeholder once the fields have their images. *)
Lemma Inv_setBody n0 pend st s p es pk :
  Inv n0 ({[s]} ∪ pend) st → s ∉ pend →
  MappedTypes st !! TStruct s = Some (TStruct p) →
  shapes (Ctx st) !! s = Some (Some es, pk) →
  Forall (mapped (MappedTypes st)) es →
  Inv n0 pend
    (State (StructType_setBody (Ctx st) p (rw f (MappedTypes st) <$> es) pk)
           (MappedTypes st)).
Proof.
  intros HI Hsp Hs Hsh Hes.
  pose proof (λ t, wf_rw _ _ _ t HI) as Hwf.
  destruct HI as [H0 Hsrc Hcl Hmemo Hstr Hinj Hpend Hdone].
  destruct (Hpend s) as (p' & Hp' & Hn0p & Hsn0 & Hph); [set_solver|].
  rewrite Hs in Hp'. injection Hp' as <-.
  assert (p < length (Ctx st)) as Hplen.
  { apply lookup_lt_Some in Hph. by rewrite shapes_length in Hph. }
  set (c3 := StructType_setBody (Ctx st) p (rw f (MappedTypes st) <$> es) pk).
  assert (shapes c3 = <[p := (Some (rw f (MappedTypes st) <$> es), pk)]>
                        (shapes (Ctx st))) as Hc3 by apply shapes_setBody.
  assert (length c3 = length (Ctx st)) as Hlen.
  { by rewrite <- !shapes_length, Hc3, length_insert. }
  assert (∀ i, i ≠ p → shapes c3 !! i = shapes (Ctx st) !! i) as Hold.
  { intros i Hi. rewrite Hc3. by apply list_lookup_insert_ne. }
  assert (shapes c3 !! p = Some (Some (rw f (MappedTypes st) <$> es), pk))
    as Hnew.
  { rewrite Hc3. apply list_lookup_insert_eq. by rewrite shapes_length. }
  constructor; simpl; rewrite ?Hlen; try done.
  - intros s1 es1 pk1 Hs1. rewrite Hold by lia. by apply Hsrc.
  - intros s1 es1 pk1. destruct (decide (s1 = p)) as [->|Hne].
    + rewrite Hnew. intros [= <- <-].
      apply Forall_fmap. eapply Forall_impl; [exact Hes|]. apply Hwf.
    + rewrite Hold by done. apply Hcl.
  - intros s1 Hin. destruct (Hpend s1) as (p1 & Hp1 & ? & ? & Hsh1);
      [set_solver|].
    exists p1. split; [done|]. split; [done|]. split; [done|].
    rewrite Hold; [done|]. intros ->.
    assert (s1 = s) as -> by eauto. done.
  - intros s1 s' H1 Hnin. destruct (decide (s1 = s)) as [->|Hne].
    + rewrite H1 in Hs. injection Hs as ->.
      rewrite Hold by lia. rewrite Hsh. by rewrite Hnew.
    + assert (s1 ∉ ({[s]} ∪ pend : gset nat)) as Hnin' by set_solver.
      pose proof (Hdone _ _ H1 Hnin') as Hdn.
      assert (s' ≠ p) as Hs'p.
      { intros ->. apply Hne. eauto. }
      assert (s1 ≠ p) as Hs1p.
      { intros ->. rewrite Hph in Hdn. subst s'. done. }
      rewrite (Hold s1) by done.
      destruct (shapes (Ctx st) !! s1) as [[[es1|] pk1]|]; try done.
      by rewrite (Hold s') by done.
Qed.

(** Recording an image that the memo already has changes nothing. *)
Lemma state_insert_id st T D :
  MappedTypes st !! T = Some D →
  State (Ctx st) (<[T := D]> (MappedTypes st)) = st.
Proof. intros H. rewrite insert_id by done. by destruct st. Qed.

Lemma Forall2_memo n0 pend st l l' :
  Inv n0 pend st → Forall2 (λ t D, MappedTypes st !! t = Some D) l l' →
  l' = rw f (MappedTypes st) <$> l ∧ Forall (mapped (MappedTypes st)) l.
Proof.
  intros HI. induction 1 as [|t D l l' Ht _ [-> IH]]; [done|].
  destruct (inv_memo _ _ _ HI _ _ Ht) as [-> ?].
  split; [done|]. by constructor.
Qed.

(** The main lemma: a call keeps the invariant, only adds to the memo, and
    leaves the image it returns in the memo. *)
Lemma remapType_inv fuel : ∀ n0 pend st T st' D,
  Inv n0 pend st → wf_ty n0 T →
  remapType f fuel st T = Some (st', D) →
  Inv n0 pend st' ∧ MappedTypes st ⊆ MappedTypes st' ∧
  MappedTypes st' !! T = Some D.
Proof.
  induction fuel as [|fuel IH]; intros n0 pend st T st' D HI HT Hrun; [done|].
  assert (∀ pend l st0 st1 l',
    Inv n0 pend st0 → Forall (wf_ty n0) l →
    remapList (remapType f fuel) st0 l = Some (st1, l') →
    Inv n0 pend st1 ∧ MappedTypes st0 ⊆ MappedTypes st1 ∧
    l' = rw f (MappedTypes st1) <$> l ∧ Forall (mapped (MappedTypes st1)) l)
    as IHl.
  { intros pend0 l st0 st1 l' HI0 Hl Hrl.
    edestruct (remapList_spec (remapType f fuel) (Inv n0 pend0)
                 (λ st st', MappedTypes st ⊆ MappedTypes st')
                 (λ st t D, MappedTypes st !! t = Some D) (wf_ty n0))
      as (I1 & E1 & G1); [done| | | |exact HI0|exact Hl|exact Hrl|].
    - intros ??? A B. by etrans.
    - intros ???? A B. by eapply lookup_weaken.
    - intros ???? A B C. by eapply IH.
    - split; [done|]. split; [done|]. by eapply Forall2_memo. }
  (* recording the image of a type that is not an identified struct *)
  assert (∀ st1 D1, (∀ s, T ≠ TStruct s) →
    Inv n0 pend st1 → MappedTypes st ⊆ MappedTypes st1 →
    D1 = rw f (MappedTypes st1) T → mapped (MappedTypes st1) T →
    Inv n0 pend (State (Ctx st1) (<[T := D1]> (MappedTypes st1))) ∧
    MappedTypes st ⊆ <[T := D1]> (MappedTypes st1) ∧
    <[T := D1]> (MappedTypes st1) !! T = Some D1) as Hfinish.
  { intros st1 D1 HnT HI1 Hsub HD1 Hm1.
    split; [by apply Inv_insert_other|].
    split; [|by rewrite lookup_insert_eq].
    etrans; [exact Hsub|].
    destruct (MappedTypes st1 !! T) as [D0|] eqn:H0.
    - destruct (inv_memo _ _ _ HI1 _ _ H0) as [HD0 _].
      rewrite <- HD1 in HD0. subst D0. by rewrite insert_id.
    - by apply insert_subseteq. }
  simpl in Hrun.
  destruct (MappedTypes st !! T) as [D0|] eqn:Hm.
  { injection Hrun as <- <-. done. }
  match type of Hrun with
  | mbind _ ?c = _ => destruct c as [[st1 D1]|] eqn:Hc; simpl in Hrun; [|done]
  end.
  injection Hrun as <- <-. simpl.
  destruct T as [k|a|r ps v|es p|s|e n|e n sc].
  - injection Hc as <- <-. apply Hfinish; try done.
    by intros s Hs%elem_of_nil.
  - injection Hc as <- <-. apply Hfinish; try done.
    by intros s Hs%elem_of_nil.
  - apply wf_ty_fun in HT as [Hr Hps].
    destruct (remapList _ st ps) as [[st2 ps']|] eqn:Eps; simpl in Hc; [|done].
    destruct (remapType f fuel st2 r) as [[st3 r']|] eqn:Er; simpl in Hc; [|done].
    injection Hc as <- <-.
    destruct (IHl _ _ _ _ _ HI Hps Eps) as (I2 & S2 & -> & M2).
    destruct (IH _ _ _ _ _ _ I2 Hr Er) as (I3 & S3 & L3).
    destruct (inv_memo _ _ _ I3 _ _ L3) as [-> M3].
    apply Hfinish; try done.
    + by etrans.
    + simpl. f_equal. symmetry. by apply rw_list_mono.
    + apply mapped_fun. split; [done|].
      eapply Forall_impl; [exact M2|]. intros x. by apply mapped_mono.
  - apply wf_ty_lit in HT.
    destruct (remapList _ st es) as [[st2 es']|] eqn:Ees; simpl in Hc; [|done].
    injection Hc as <- <-.
    destruct (IHl _ _ _ _ _ HI HT Ees) as (I2 & S2 & -> & M2).
    apply Hfinish; try done. by apply mapped_lit.
  - apply wf_ty_struct in HT.
    destruct (Ctx st !! s) as [d|] eqn:Hd; simpl in Hc; [|done].
    pose proof (shapes_lookup _ _ _ Hd) as Hsh.
    destruct (sbody d) as [es|] eqn:Hb.
    + destruct (remapList _ _ es) as [[st2 es']|] eqn:Ees; simpl in Hc; [|done].
      injection Hc as <- <-. simpl.
      assert (s ∉ pend) as Hsp.
      { intros Hin. destruct (inv_pend _ _ _ HI _ Hin) as (? & Hx & _).
        by rewrite Hx in Hm. }
      pose proof (Inv_placeholder _ _ _ _ _ _ HI Hm HT Hd Hb) as Iph.
      pose proof (inv_src _ _ _ HI _ _ _ HT Hsh) as Hes.
      destruct (IHl _ _ _ _ _ Iph Hes Ees) as (I2 & S2 & -> & M2).
      assert (frame (placeholder st s d) st2) as Hfr.
      { edestruct (remapList_spec (remapType f fuel) (λ _, True) frame
                   (λ _ _ _, True) (λ _, True) frame_refl frame_trans)
          as (_ & ? & _); [done| |done|by apply Forall_true|exact Ees|done].
        intros ???? _ _ Hcall. by edestruct remapType_frame. }
      assert (MappedTypes st2 !! TStruct s = Some (TStruct (length (Ctx st))))
        as Hs2.
      { eapply lookup_weaken; [|exact S2]. apply lookup_insert_eq. }
      assert (shapes (Ctx st2) !! s = Some (Some es, spacked d)) as Hsh2.
      { eapply frame_shape; [exact Hfr|].
        eapply frame_shape; [apply frame_placeholder|done]. }
      pose proof (Inv_setBody _ _ _ _ _ _ _ I2 Hsp Hs2 Hsh2 M2) as I3.
      rewrite insert_id by done.
      split; [done|]. split; [|done].
      etrans; [|exact S2]. by apply insert_subseteq.
    + injection Hc as <- <-.
      split; [by eapply Inv_insert_opaque|].
      split; [by apply insert_subseteq|by rewrite lookup_insert_eq].
  - destruct (remapType f fuel st e) as [[st2 e']|] eqn:Ee; simpl in Hc; [|done].
    injection Hc as <- <-.
    destruct (IH _ _ _ e _ _ HI HT Ee) as (I2 & S2 & L2).
    destruct (inv_memo _ _ _ I2 _ _ L2) as [-> M2].
    by apply Hfinish.
  - destruct (remapType f fuel st e) as [[st2 e']|] eqn:Ee; simpl in Hc; [|done].
    injection Hc as <- <-.
    destruct (IH _ _ _ e _ _ HI HT Ee) as (I2 & S2 & L2).
    destruct (inv_memo _ _ _ I2 _ _ L2) as [-> M2].
    by apply Hfinish.
Qed.

Lemma remapList_frame fuel l st st' l' :
  remapList (remapType f fuel) st l = Some (st', l') → frame st st'.
Proof.
  intros Hl.
  edestruct (remapList_spec (remapType f fuel) (λ _, True) frame
               (λ _ _ _, True) (λ _, True) frame_refl frame_trans)
    as (_ & ? & _); [done| |done|by apply Forall_true|exact Hl|done].
  intros ???? _ _ Hcall. by edestruct remapType_frame.
Qed.

Lemma remapList_inv fuel n0 pend l st st' l' :
  Inv n0 pend st → Forall (wf_ty n0) l →
  remapList (remapType f fuel) st l = Some (st', l') →
  Inv n0 pend st' ∧ MappedTypes st ⊆ MappedTypes st' ∧
  l' = rw f (MappedTypes st') <$> l ∧ Forall (mapped (MappedTypes st')) l.
Proof.
  intros HI Hl Hrl.
  edestruct (remapList_spec (remapType f fuel) (Inv n0 pend)
               (λ st st', MappedTypes st ⊆ MappedTypes st')
               (λ st t D, MappedTypes st !! t = Some D) (wf_ty n0))
    as (I1 & E1 & G1); [done| | | |exact HI|exact Hl|exact Hrl|].
  - intros ??? A B. by etrans.
  - intros ???? A B. by eapply lookup_weaken.
  - intros ???? A B C. by eapply remapType_inv.
  - split; [done|]. split; [done|]. by eapply Forall2_memo.
Qed.
End TypeRemapperInv.

(** ** Termination

    Along a chain of nested calls every identified struct is entered at most
    once, because it is in the memo from then on; between two structs the
    chain descends into a type.  The depth of the recursion is therefore
    bounded by the height of the type plus the heights of the bodies of the
    structs that the memo does not have yet. *)

Fixpoint height (t : ty) : nat :=
  match t with
  | TOther _ | TPtr _ | TStruct _ => 1
  | TFun r ps _ => S (height r `max` max_list (height <$> ps))
  | TStructLit es _ => S (max_list (height <$> es))
  | TArr e _ | TVec e _ _ => S (height e)
  end.

Definition bodyHeight (sh : list shape) (s : nat) : nat :=
  match sh !! s with
  | Some (Some es, _) => max_list (height <$> es)
  | _ => 0
  end.

Definition structCost (st : state) (s : nat) : nat :=
  match MappedTypes st !! TStruct s with
  | Some _ => 0
  | None => S (bodyHeight (shapes (Ctx st)) s)
  end.

Definition pendingCost (n0 : nat) (st : state) : nat :=
  sum_list_with (structCost st) (seq 0 n0).

Definition fuelFor (st : state) (T : ty) : nat :=
  S (height T + pendingCost (length (Ctx st)) st).

Lemma height_elem l e : e ∈ l → height e ≤ max_list (height <$> l).
Proof.
  intros He. apply max_list_elem_of_le, list_elem_of_fmap. eauto.
Qed.

Lemma sum_list_with_le {A} (g h : A → nat) l :
  (∀ x, x ∈ l → g x ≤ h x) → sum_list_with g l ≤ sum_list_with h l.
Proof.
  induction l as [|y l IH]; intros Hle; simpl; [done|].
  pose proof (Hle y (list_elem_of_here _ _)).
  assert (sum_list_with g l ≤ sum_list_with h l).
  { apply IH. intros x Hx. apply Hle. by apply list_elem_of_further. }
  lia.
Qed.

Lemma sum_list_with_drop {A} (g h : A → nat) l x k :
  (∀ y, y ∈ l → g y ≤ h y) → x ∈ l → g x + k ≤ h x →
  sum_list_with g l + k ≤ sum_list_with h l.
Proof.
  induction l as [|y l IH]; intros Hle Hx Hk; simpl.
  { by apply elem_of_nil in Hx. }
  pose proof (Hle y (list_elem_of_here _ _)).
  assert (∀ z, z ∈ l → g z ≤ h z) as Hl.
  { intros z Hz. apply Hle. by apply list_elem_of_further. }
  apply elem_of_cons in Hx as [->|Hx].
  - pose proof (sum_list_with_le g h l Hl). lia.
  - pose proof (IH Hl Hx Hk). lia.
Qed.

Lemma structCost_frame st st' s :
  frame st st' → s < length (Ctx st) → structCost st' s ≤ structCost st s.
Proof.
  intros Hfr Hs. unfold structCost.
  destruct (MappedTypes st !! TStruct s) as [D|] eqn:Hm.
  - assert (is_Some (MappedTypes st' !! TStruct s)) as [D' ->]; [|done].
    apply elem_of_dom. apply (proj2 Hfr). apply elem_of_dom. eauto.
  - destruct (MappedTypes st' !! TStruct s); [lia|].
    unfold bodyHeight.
    destruct (lookup_lt_is_Some_2 (shapes (Ctx st)) s) as [sh Hsh].
    { by rewrite shapes_length. }
    by rewrite Hsh, (frame_shape _ _ _ _ Hfr Hsh).
Qed.

Lemma pendingCost_frame n0 st st' :
  frame st st' → n0 ≤ length (Ctx st) →
  pendingCost n0 st' ≤ pendingCost n0 st.
Proof.
  intros Hfr Hn. apply sum_list_with_le. intros s Hs%elem_of_seq.
  apply structCost_frame; [done|lia].
Qed.

Lemma pendingCost_placeholder n0 st s d :
  MappedTypes st !! TStruct s = None → s < n0 → n0 ≤ length (Ctx st) →
  pendingCost n0 (placeholder st s d) + S (bodyHeight (shapes (Ctx st)) s)
  ≤ pendingCost n0 st.
Proof.
  intros Hm Hs Hn. apply sum_list_with_drop with (x := s).
  - intros y Hy%elem_of_seq.
    apply structCost_frame; [apply frame_placeholder|lia].
  - apply elem_of_seq. lia.
  - unfold structCost at 1. unfold placeholder at 1; simpl.
    rewrite lookup_insert_eq. unfold structCost. by rewrite Hm.
Qed.

Section TypeRemapperTermination.
Variable f : N → N.

(** The structs below [n0] exist and their bodies are well formed below
    [n0]. *)
Definition srcClosed (n0 : nat) (st : state) : Prop :=
  n0 ≤ length (Ctx st) ∧
  ∀ s es pk, s < n0 → shapes (Ctx st) !! s = Some (Some es, pk) →
             Forall (wf_ty n0) es.

Lemma srcClosed_frame n0 st st' :
  frame st st' → srcClosed n0 st → srcClosed n0 st'.
Proof.
  intros Hfr [Hn Hcl]. split.
  - pose proof (frame_length _ _ Hfr). lia.
  - intros s es pk Hs Hsh.
    destruct (lookup_lt_is_Some_2 (shapes (Ctx st)) s) as [sh Hsh0].
    { rewrite shapes_length. lia. }
    pose proof (frame_shape _ _ _ _ Hfr Hsh0) as Hsh1.
    rewrite Hsh in Hsh1. injection Hsh1 as <-. eauto.
Qed.

Lemma remapType_total fuel : ∀ n0 st T,
  srcClosed n0 st → wf_ty n0 T →
  height T + pendingCost n0 st < fuel →
  ∃ st' D, remapType f fuel st T = Some (st', D).
Proof.
  induction fuel as [|fuel IH]; intros n0 st T Hcl HT Hfuel; [lia|].
  assert (∀ l st0 b,
    srcClosed n0 st0 → Forall (wf_ty n0) l →
    (∀ e, e ∈ l → height e ≤ b) → b + pendingCost n0 st0 < fuel →
    ∃ st1 l', remapList (remapType f fuel) st0 l = Some (st1, l') ∧
              frame st0 st1) as IHl.
  { induction l as [|t l IHl]; intros st0 b Hcl0 Hl Hb Hlt.
    { eexists _, _. split; [done|apply frame_refl]. }
    apply Forall_cons in Hl as [Ht Hl].
    destruct (IH n0 st0 t Hcl0 Ht) as (st1 & t' & E1).
    { pose proof (Hb t (list_elem_of_here _ _)). lia. }
    pose proof (remapType_frame _ _ _ _ _ _ E1) as [F1 _].
    destruct (IHl st1 b) as (st2 & l' & E2 & F2).
    - by eapply srcClosed_frame.
    - done.
    - intros e He. apply Hb. by apply list_elem_of_further.
    - pose proof (pendingCost_frame n0 _ _ F1 (proj1 Hcl0)). lia.
    - simpl. rewrite E1. simpl. rewrite E2. simpl.
      eexists _, _. split; [done|]. by eapply frame_trans. }
  simpl.
  destruct (MappedTypes st !! T) as [D0|] eqn:Hm; [eauto|].
  match goal with
  | |- ∃ st' D, mbind _ ?c = _ =>
      assert (∃ st1 D1, c = Some (st1, D1)) as (st1 & D1 & ->);
        [|simpl; eauto]
  end.
  destruct T as [k|a|r ps v|es p|s|e n|e n sc]; simpl in Hfuel.
  - eauto.
  - eauto.
  - apply wf_ty_fun in HT as [Hr Hps].
    destruct (IHl ps st (max_list (height <$> ps))) as (st2 & ps' & -> & F2);
      [done|done|apply height_elem|lia|].
    simpl.
    destruct (IH n0 st2 r) as (st3 & r' & ->);
      [by eapply srcClosed_frame|done| |simpl; eauto].
    pose proof (pendingCost_frame n0 _ _ F2 (proj1 Hcl)). lia.
  - apply wf_ty_lit in HT.
    destruct (IHl es st (max_list (height <$> es))) as (st2 & es' & -> & F2);
      [done|done|apply height_elem|lia|].
    simpl. eauto.
  - apply wf_ty_struct in HT.
    destruct (lookup_lt_is_Some_2 (Ctx st) s) as [d Hd];
      [destruct Hcl; lia|].
    rewrite Hd. simpl.
    destruct (sbody d) as [es|] eqn:Hb; [|eauto].
    pose proof (shapes_lookup _ _ _ Hd) as Hsh. rewrite Hb in Hsh.
    pose proof (pendingCost_placeholder n0 st s d Hm HT (proj1 Hcl)) as Hpc.
    unfold bodyHeight in Hpc. rewrite Hsh in Hpc.
    destruct (IHl es (placeholder st s d) (max_list (height <$> es)))
      as (st2 & es' & -> & F2).
    + eapply srcClosed_frame; [apply frame_placeholder|done].
    + by eapply (proj2 Hcl).
    + apply height_elem.
    + lia.
    + simpl. eauto.
  - destruct (IH n0 st e) as (st2 & e' & ->); [done|exact HT|lia|].
    simpl. eauto.
  - destruct (IH n0 st e) as (st2 & e' & ->); [done|exact HT|lia|].
    simpl. eauto.
Qed.
End TypeRemapperTermination.

(** ** The states of the rewriter

    A rewriter starts with an empty memo, in a context whose struct bodies
    mention structs of the context only; it is then called any number of
    times. *)

#[global] Instance wf_ty_dec n t : Decision (wf_ty n t).
Proof.
  refine (cast_if (decide (Forall (λ s, s < n) (ids t))));
    unfold wf_ty; by rewrite Forall_forall in *.
Defined.

Definition closedDef (n : nat) (d : StructDef) : Prop :=
  match sbody d with
  | Some es => Forall (wf_ty n) es
  | None => True
  end.

#[global] Instance closedDef_dec n d : Decision (closedDef n d).
Proof. unfold closedDef. destruct (sbody d); apply _. Defined.

Definition ctxClosed (ctx : LLVMContext) : Prop :=
  Forall (closedDef (length ctx)) ctx.

Lemma ctxClosed_shapes ctx s es pk :
  ctxClosed ctx → shapes ctx !! s = Some (Some es, pk) →
  Forall (wf_ty (length ctx)) es.
Proof.
  intros Hcl (d & Hd & Hb & _)%shapes_lookup_inv.
  eapply Forall_lookup_1 in Hcl; [|exact Hd].
  unfold closedDef in Hcl. by rewrite Hb in Hcl.
Qed.

Section TypeRemapperStates.
Variable f : N → N.

Inductive reachable : state → Prop :=
  | reachable_init ctx :
      ctxClosed ctx → reachable (State ctx ∅)
  | reachable_call fuel st T st' D :
      reachable st → wf_ty (length (Ctx st)) T →
      remapType f fuel st T = Some (st', D) → reachable st'.

Definition TopInv (st : state) : Prop := Inv f (length (Ctx st)) ∅ st.

Lemma Inv_top n0 st : Inv f n0 ∅ st → TopInv st.
Proof.
  intros [H0 Hsrc Hcl Hmemo Hstr Hinj Hpend Hdone].
  constructor; try done. intros ??? _. apply Hcl.
Qed.

Lemma reachable_TopInv st : reachable st → TopInv st.
Proof.
  induction 1 as [ctx Hcl|fuel st T st' D _ IH HT Hrun].
  - constructor; simpl; try done.
    + intros ??? _ ?. by eapply ctxClosed_shapes.
    + intros. by eapply ctxClosed_shapes.
  - eapply Inv_top. by eapply remapType_inv.
Qed.

Lemma TopInv_srcClosed st : TopInv st → srcClosed (length (Ctx st)) st.
Proof. intros HI. split; [done|]. apply HI. Qed.

(** A call in a reachable state returns, given enough fuel: the source's
    recursion terminates. *)
Lemma remapType_returns st T fuel :
  reachable st → wf_ty (length (Ctx st)) T → fuelFor st T ≤ fuel →
  ∃ st' D, remapType f fuel st T = Some (st', D).
Proof.
  intros Hr HT Hfuel.
  apply remapType_total with (n0 := length (Ctx st)); [|done|].
  - by apply TopInv_srcClosed, reachable_TopInv.
  - unfold fuelFor in Hfuel. lia.
Qed.

(** What a call returns is the image read off the final memo. *)
Lemma remapType_rw st T fuel st' D :
  reachable st → wf_ty (length (Ctx st)) T →
  remapType f fuel st T = Some (st', D) →
  D = rw f (MappedTypes st') T ∧ mapped (MappedTypes st') T ∧
  MappedTypes st ⊆ MappedTypes st' ∧ frame st st'.
Proof.
  intros Hr HT Hrun.
  destruct (remapType_inv f fuel _ _ _ _ _ _ (reachable_TopInv _ Hr) HT Hrun)
    as (I1 & S1 & L1).
  destruct (inv_memo _ _ _ _ I1 _ _ L1) as [-> M1].
  split; [done|]. split; [done|]. split; [done|].
  by eapply remapType_frame.
Qed.

(** C2: for every pointer type with address space [a], in every state of
    the rewriter, [remapType] returns the pointer type with address space
    [ASRemapper a].  A pointer type carries nothing but its address space
    ([PointerType::get(Context, AS)]), so this is the whole result. *)
Theorem remapType_pointer st a fuel :
  reachable st →
  ∃ st', remapType f (S fuel) st (TPtr a) = Some (st', TPtr (f a)).
Proof.
  intros Hr. simpl.
  destruct (MappedTypes st !! TPtr a) as [D|] eqn:Hm; [|eauto].
  destruct (inv_memo _ _ _ _ (reachable_TopInv _ Hr) _ _ Hm) as [-> _].
  eauto.
Qed.

(** C1: a non-literal struct with a body, whatever its fields mention
    (pointers, the struct itself), is rewritten by a call that returns: the
    recursion of the source terminates.  The result is a struct [s'] whose
    fields are the images of the fields of [s]: a pointer field in address
    space [a] is a pointer field in address space [ASRemapper a], and a
    field that is [s] itself is [s'] itself.  When [s] is not in the memo
    yet, this comes about as the source says: a new struct without body is
    recorded in the memo as the image of [s], the fields are rewritten in
    that state, and the body of the new struct is filled in afterwards.
    (A pointer type carries no pointee type, so a pointer to the struct is a
    pointer field; where a type does mention the struct, the mention is
    followed to the new struct.) *)
Theorem remapType_self_reference st s d es fuel :
  reachable st → Ctx st !! s = Some d → sbody d = Some es →
  fuelFor st (TStruct s) ≤ fuel →
  ∃ st' s' d' es',
    remapType f fuel st (TStruct s) = Some (st', TStruct s') ∧
    MappedTypes st' !! TStruct s = Some (TStruct s') ∧
    Ctx st' !! s' = Some d' ∧ sbody d' = Some es' ∧
    spacked d' = spacked d ∧
    es' = rw f (MappedTypes st') <$> es ∧
    (∀ i a, es !! i = Some (TPtr a) → es' !! i = Some (TPtr (f a))) ∧
    (∀ i, es !! i = Some (TStruct s) → es' !! i = Some (TStruct s')) ∧
    (MappedTypes st !! TStruct s = None →
     s' = length (Ctx st) ∧
     MappedTypes (placeholder st s d) !! TStruct s = Some (TStruct s') ∧
     (∃ dp, Ctx (placeholder st s d) !! s' = Some dp ∧ sbody dp = None) ∧
     ∃ fuel' st2,
       fuel = S fuel' ∧
       remapList (remapType f fuel') (placeholder st s d) es = Some (st2, es') ∧
       Ctx st' = StructType_setBody (Ctx st2) s' es' (spacked d)).
Proof.
  intros Hr Hd Hb Hfuel.
  assert (wf_ty (length (Ctx st)) (TStruct s)) as HT.
  { apply wf_ty_struct. by eapply lookup_lt_Some. }
  destruct (remapType_returns st _ fuel Hr HT Hfuel) as (st' & D & Hrun).
  pose proof (reachable_TopInv _ Hr) as HI.
  destruct (remapType_inv f fuel _ _ _ _ _ _ HI HT Hrun) as (I1 & S1 & L1).
  pose proof (remapType_frame _ _ _ _ _ _ Hrun) as [Hfr _].
  destruct (inv_struct _ _ _ _ I1 _ _ L1) as (s' & -> & Hs' & _).
  pose proof (inv_done _ _ _ _ I1 _ _ L1 (not_elem_of_empty _)) as Hdone.
  pose proof (shapes_lookup _ _ _ Hd) as Hsh. rewrite Hb in Hsh.
  rewrite (frame_shape _ _ _ _ Hfr Hsh) in Hdone.
  destruct Hdone as [(d' & Hd' & Hb' & Hp')%shapes_lookup_inv Hmapped].
  exists st', s', d', (rw f (MappedTypes st') <$> es).
  do 6 (split; [done|]). split; [|split].
  - intros i a Hi. by rewrite list_lookup_fmap, Hi.
  - intros i Hi. rewrite list_lookup_fmap, Hi. simpl. by rewrite L1.
  - intros Hm. destruct fuel as [|fuel']; [done|].
    simpl in Hrun. rewrite Hm, Hd in Hrun. simpl in Hrun.
    rewrite Hb in Hrun.
    destruct (remapList _ _ es) as [[st2 es']|] eqn:Ees; simpl in Hrun;
      [|done].
    injection Hrun as Hst' Hs''. subst s'.
    pose proof (Inv_placeholder f _ _ _ _ _ _ HI Hm
                  (proj1 (wf_ty_struct _ _) HT) Hd Hb) as Iph.
    destruct (remapList_inv f _ _ _ _ _ _ _ Iph
                (inv_src _ _ _ _ HI _ _ _ (proj1 (wf_ty_struct _ _) HT) Hsh)
                Ees) as (I2 & S2 & Hes' & _).
    assert (MappedTypes st2 !! TStruct s = Some (TStruct (length (Ctx st))))
      as Hs2.
    { eapply lookup_weaken; [|exact S2]. apply lookup_insert_eq. }
    assert (MappedTypes st' = MappedTypes st2) as Hm'.
    { rewrite <- Hst'. simpl. by apply insert_id. }
    rewrite Hm', <- Hes'.
    split; [done|].
    split; [unfold placeholder; simpl; by rewrite lookup_insert_eq|].
    split.
    + destruct (shapes_lookup_inv (Ctx (placeholder st s d)) (length (Ctx st))
                  None false) as (dp & ? & ? & _); [|by eauto].
      rewrite shapes_placeholder.
      rewrite lookup_app_r by (by rewrite shapes_length).
      by rewrite shapes_length, Nat.sub_diag.
    + exists fuel', st2. by rewrite <- Hst'.
Qed.
End TypeRemapperStates.

(** ** Structural equality of types

    Two types, each read in its own context, are structurally equal when
    they are built alike and the identified structs they mention at the same
    places have the same packedness and, field by field, structurally equal
    bodies.  The identity and the name of an identified struct are not part
    of its structure.  As the graph of types may be cyclic, the definition
    asks for a relation between structs that is closed under this
    condition. *)

#[warnings="-register-all"]
Inductive ty_rel (R : nat → nat → Prop) : ty → ty → Prop :=
  | rel_other k : ty_rel R (TOther k) (TOther k)
  | rel_ptr a : ty_rel R (TPtr a) (TPtr a)
  | rel_fun r r' ps ps' v :
      ty_rel R r r' → Forall2 (ty_rel R) ps ps' →
      ty_rel R (TFun r ps v) (TFun r' ps' v)
  | rel_lit es es' pk :
      Forall2 (ty_rel R) es es' → ty_rel R (TStructLit es pk) (TStructLit es' pk)
  | rel_struct s s' : R s s' → ty_rel R (TStruct s) (TStruct s')
  | rel_arr e e' n : ty_rel R e e' → ty_rel R (TArr e n) (TArr e' n)
  | rel_vec e e' n sc : ty_rel R e e' → ty_rel R (TVec e n sc) (TVec e' n sc).

Definition bisimulation (c1 c2 : LLVMContext) (R : nat → nat → Prop) : Prop :=
  ∀ s s', R s s' →
    ∃ d d', c1 !! s = Some d ∧ c2 !! s' = Some d' ∧ spacked d = spacked d' ∧
            match sbody d, sbody d' with
            | None, None => True
            | Some es, Some es' => Forall2 (ty_rel R) es es'
            | _, _ => False
            end.

Definition structEq (c1 : LLVMContext) (T1 : ty) (c2 : LLVMContext) (T2 : ty)
    : Prop :=
  ∃ R, bisimulation c1 c2 R ∧ ty_rel R T1 T2.

(** [reaches c T U]: [U] is [T] or a type that [T] contains, also through the
    bodies of identified structs. *)
Inductive reaches (c : LLVMContext) : ty → ty → Prop :=
  | reaches_refl T : reaches c T T
  | reaches_ret r ps v U : reaches c r U → reaches c (TFun r ps v) U
  | reaches_param r ps v p U :
      p ∈ ps → reaches c p U → reaches c (TFun r ps v) U
  | reaches_lit es pk e U :
      e ∈ es → reaches c e U → reaches c (TStructLit es pk) U
  | reaches_struct s d es e U :
      c !! s = Some d → sbody d = Some es → e ∈ es → reaches c e U →
      reaches c (TStruct s) U
  | reaches_arr e n U : reaches c e U → reaches c (TArr e n) U
  | reaches_vec e n sc U : reaches c e U → reaches c (TVec e n sc) U.

(** A type without identified structs is structurally equal to itself
    only. *)
Lemma ty_rel_no_struct R t t' : ids t = [] → ty_rel R t t' → t = t'.
Proof.
  revert t'.
  induction t as [k|a|r ps v IHr IHps|es p IHes|s|e n IHe|e n sc IHe]
    using ty_ind'; intros t' Hids Hrel; inversion Hrel; subst; try done.
  - simpl in Hids. apply app_eq_nil in Hids as [Hr Hps]. f_equal; [auto|].
    match goal with H : Forall2 _ ps _ |- _ => rename H into HF end.
    clear Hrel. induction HF as [|x y l l' Hxy _ IH]; [done|].
    apply Forall_cons in IHps as [Hx Hl]. simpl in Hps.
    apply app_eq_nil in Hps as [Hx0 Hl0]. f_equal; auto.
  - simpl in Hids. f_equal.
    match goal with H : Forall2 _ es _ |- _ => rename H into HF end.
    clear Hrel. induction HF as [|x y l l' Hxy _ IH]; [done|].
    apply Forall_cons in IHes as [Hx Hl]. simpl in Hids.
    apply app_eq_nil in Hids as [Hx0 Hl0]. f_equal; auto.
  - f_equal. auto.
  - f_equal. auto.
Qed.

Section TypeRemapperFixed.
Variable f : N → N.

(** If the address spaces that [T] reaches are left alone by the policy,
    then the image of [T] is structurally equal to [T]. *)
Lemma remapType_fixed st T fuel st' D :
  reachable f st → wf_ty (length (Ctx st)) T →
  (∀ a, reaches (Ctx st) T (TPtr a) → f a = a) →
  remapType f fuel st T = Some (st', D) →
  structEq (Ctx st) T (Ctx st') D.
Proof.
  intros Hr HT Hfix Hrun.
  pose proof (reachable_TopInv f _ Hr) as HI.
  destruct (remapType_inv f fuel _ _ _ _ _ _ HI HT Hrun) as (I1 & S1 & L1).
  pose proof (remapType_frame _ _ _ _ _ _ Hrun) as [Hfr _].
  destruct (inv_memo _ _ _ _ I1 _ _ L1) as [-> M1].
  set (R := λ s s', s < length (Ctx st) ∧
                    MappedTypes st' !! TStruct s = Some (TStruct s') ∧
                    ∀ a, reaches (Ctx st) (TStruct s) (TPtr a) → f a = a).
  assert (∀ t, wf_ty (length (Ctx st)) t → mapped (MappedTypes st') t →
               (∀ a, reaches (Ctx st) t (TPtr a) → f a = a) →
               ty_rel R t (rw f (MappedTypes st') t)) as Hrel.
  { induction t as [k|a|r ps v IHr IHps|es p IHes|s|e n IHe|e n sc IHe]
      using ty_ind'; intros Hwf Hm Hf; simpl.
    - constructor.
    - rewrite (Hf a) by constructor. constructor.
    - apply wf_ty_fun in Hwf as [Hwr Hwps]. apply mapped_fun in Hm as [Hmr Hmps].
      constructor.
      + apply IHr; [done|done|]. intros a Ha. apply Hf. by constructor.
      + apply Forall2_fmap_r, Forall_Forall2_diag, Forall_forall.
        intros x Hx. rewrite Forall_forall in IHps, Hwps, Hmps.
        apply IHps; auto. intros a Ha. apply Hf.
        by eapply reaches_param.
    - apply wf_ty_lit in Hwf. apply mapped_lit in Hm. constructor.
      apply Forall2_fmap_r, Forall_Forall2_diag, Forall_forall.
      intros x Hx. rewrite Forall_forall in IHes, Hwf, Hm.
      apply IHes; auto. intros a Ha. apply Hf. by eapply reaches_lit.
    - apply wf_ty_struct in Hwf. apply mapped_struct in Hm as [D HD].
      destruct (inv_struct _ _ _ _ I1 _ _ HD) as (s' & -> & _).
      rewrite HD. simpl. constructor. done.
    - constructor. apply IHe; [exact Hwf|exact Hm|].
      intros a Ha. apply Hf. by constructor.
    - constructor. apply IHe; [exact Hwf|exact Hm|].
      intros a Ha. apply Hf. by constructor. }
  exists R. split; [|by apply Hrel].
  intros s s' (Hs & Hss' & Hf).
  destruct (lookup_lt_is_Some_2 (Ctx st) s Hs) as [d Hd].
  pose proof (shapes_lookup _ _ _ Hd) as Hsh.
  pose proof (frame_shape _ _ _ _ Hfr Hsh) as Hsh'.
  pose proof (inv_done _ _ _ _ I1 _ _ Hss' (not_elem_of_empty _)) as Hdone.
  rewrite Hsh' in Hdone.
  destruct (sbody d) as [es|] eqn:Hb.
  - destruct Hdone as [(d' & Hd' & Hb' & Hp')%shapes_lookup_inv Hmapped].
    exists d, d'. rewrite Hb, Hb'. do 3 (split; [done|]).
    apply Forall2_fmap_r, Forall_Forall2_diag, Forall_forall.
    intros x Hx.
    pose proof (inv_closed _ _ _ _ HI _ _ _ Hsh) as Hcl.
    rewrite Forall_forall in Hcl, Hmapped.
    apply Hrel; auto. intros a Ha. apply Hf. by eapply reaches_struct.
  - subst s'.
    destruct (shapes_lookup_inv _ _ _ _ Hsh') as (d' & Hd' & Hb' & Hp').
    exists d, d'. by rewrite Hb, Hb'.
Qed.

(** The image is the type itself when, moreover, the structs that the type
    mentions are opaque. *)
Lemma remapType_fixed_eq st T fuel st' D :
  reachable f st → wf_ty (length (Ctx st)) T →
  (∀ a, a ∈ ptrs T → f a = a) →
  (∀ s d, s ∈ ids T → Ctx st !! s = Some d → sbody d = None) →
  remapType f fuel st T = Some (st', D) →
  D = T.
Proof.
  intros Hr HT Hfix Hop Hrun.
  pose proof (reachable_TopInv f _ Hr) as HI.
  destruct (remapType_inv f fuel _ _ _ _ _ _ HI HT Hrun) as (I1 & S1 & L1).
  pose proof (remapType_frame _ _ _ _ _ _ Hrun) as [Hfr _].
  destruct (inv_memo _ _ _ _ I1 _ _ L1) as [-> M1].
  clear L1 Hrun. revert HT Hfix Hop M1.
  induction T as [k|a|r ps v IHr IHps|es p IHes|s|e n IHe|e n sc IHe]
    using ty_ind'; intros Hwf Hf Hop Hm; simpl.
  - done.
  - rewrite Hf; [done|]. by apply list_elem_of_singleton.
  - apply wf_ty_fun in Hwf as [Hwr Hwps]. apply mapped_fun in Hm as [Hmr Hmps].
    f_equal.
    + apply IHr; try done.
      * intros a Ha. apply Hf. simpl. apply elem_of_app. by left.
      * intros s d Hs. apply Hop. simpl. apply elem_of_app. by left.
    + rewrite <- (list_fmap_id ps) at 2. apply list_fmap_ext. intros i x Hx.
      pose proof (list_elem_of_lookup_2 _ _ _ Hx) as Hin.
      rewrite Forall_forall in IHps, Hwps, Hmps. apply IHps; auto.
      * intros a Ha. apply Hf. simpl. apply elem_of_app. right.
        apply list_elem_of_bind. eauto.
      * intros s d Hs. apply Hop. simpl. apply elem_of_app. right.
        apply list_elem_of_bind. eauto.
  - apply wf_ty_lit in Hwf. apply mapped_lit in Hm. f_equal.
    rewrite <- (list_fmap_id es) at 2. apply list_fmap_ext. intros i x Hx.
    pose proof (list_elem_of_lookup_2 _ _ _ Hx) as Hin.
    rewrite Forall_forall in IHes, Hwf, Hm. apply IHes; auto.
    + intros a Ha. apply Hf. simpl. apply list_elem_of_bind. eauto.
    + intros s d Hs. apply Hop. simpl. apply list_elem_of_bind. eauto.
  - apply wf_ty_struct in Hwf. apply mapped_struct in Hm as [D HD].
    rewrite HD. simpl.
    destruct (inv_struct _ _ _ _ I1 _ _ HD) as (s' & -> & _).
    pose proof (inv_done _ _ _ _ I1 _ _ HD (not_elem_of_empty _)) as Hdone.
    destruct (lookup_lt_is_Some_2 (Ctx st) s Hwf) as [d Hd].
    pose proof (shapes_lookup _ _ _ Hd) as Hsh.
    rewrite (Hop s d) in Hsh; [|by apply list_elem_of_singleton|done].
    rewrite (frame_shape _ _ _ _ Hfr Hsh) in Hdone. by subst.
  - f_equal. by apply IHe.
  - f_equal. by apply IHe.
Qed.
End TypeRemapperFixed.

Lemma ptrs_reaches c T a : a ∈ ptrs T → reaches c T (TPtr a).
Proof.
  induction T as [k|b|r ps v IHr IHps|es p IHes|s|e n IHe|e n sc IHe]
    using ty_ind'; simpl.
  - by intros ?%elem_of_nil.
  - intros ->%list_elem_of_singleton. constructor.
  - intros [Ha|(x & Ha & Hx)%list_elem_of_bind]%elem_of_app.
    + apply reaches_ret. auto.
    + rewrite Forall_forall in IHps. eapply reaches_param; eauto.
  - intros (x & Ha & Hx)%list_elem_of_bind.
    rewrite Forall_forall in IHes. eapply reaches_lit; eauto.
  - by intros ?%elem_of_nil.
  - intros Ha. apply reaches_arr. auto.
  - intros Ha. apply reaches_vec. auto.
Qed.

Section TypeRemapperEquality.
Variable f : N → N.

(** C5: a type that does not contain a pointer type, through the bodies of
    the structs it mentions included, is rewritten to a structurally equal
    type, and to itself when the structs it mentions are opaque.  A
    non-literal struct with a body is a case of it: the rewriter returns a
    new struct with structurally equal fields. *)
Theorem remapType_pointer_free st T fuel :
  reachable f st → wf_ty (length (Ctx st)) T →
  (∀ a, ¬ reaches (Ctx st) T (TPtr a)) →
  fuelFor st T ≤ fuel →
  ∃ st' D,
    remapType f fuel st T = Some (st', D) ∧
    structEq (Ctx st) T (Ctx st') D ∧
    ((∀ s d, s ∈ ids T → Ctx st !! s = Some d → sbody d = None) → D = T).
Proof.
  intros Hr HT Hfree Hfuel.
  destruct (remapType_returns f st T fuel Hr HT Hfuel) as (st' & D & Hrun).
  exists st', D. split; [done|]. split.
  - eapply remapType_fixed; try done. intros a Ha. by destruct (Hfree a).
  - intros Hop. eapply remapType_fixed_eq; try done.
    intros a Ha. destruct (Hfree a). by apply ptrs_reaches.
Qed.

(** The types that the rewriter produces: their address spaces are in the
    image of the policy and their structs are images in the memo. *)
Definition produced (m : gmap ty ty) (U : ty) : Prop :=
  (∀ a, a ∈ ptrs U → ∃ b, a = f b) ∧
  (∀ s, s ∈ ids U → ∃ s0, m !! TStruct s0 = Some (TStruct s)).

Lemma produced_rw n0 pend st t :
  Inv f n0 pend st → mapped (MappedTypes st) t →
  produced (MappedTypes st) (rw f (MappedTypes st) t).
Proof.
  intros HI.
  induction t as [k|b|r ps v IHr IHps|es p IHes|s|e n IHe|e n sc IHe]
    using ty_ind'; simpl; intros Hm.
  - split; by intros ? ?%elem_of_nil.
  - split; [|by intros ? ?%elem_of_nil].
    intros a ->%list_elem_of_singleton. eauto.
  - apply mapped_fun in Hm as [Hr Hps]. rewrite Forall_forall in IHps, Hps.
    split.
    + intros a [Ha|(x & Ha & (y & -> & Hy)%list_elem_of_fmap)%list_elem_of_bind]
        %elem_of_app.
      * by apply (proj1 (IHr Hr)).
      * by apply (proj1 (IHps _ Hy (Hps _ Hy))).
    + intros s [Ha|(x & Ha & (y & -> & Hy)%list_elem_of_fmap)%list_elem_of_bind]
        %elem_of_app.
      * by apply (proj2 (IHr Hr)).
      * by apply (proj2 (IHps _ Hy (Hps _ Hy))).
  - apply mapped_lit in Hm. rewrite Forall_forall in IHes, Hm. split.
    + intros a (x & Ha & (y & -> & Hy)%list_elem_of_fmap)%list_elem_of_bind.
      by apply (proj1 (IHes _ Hy (Hm _ Hy))).
    + intros s (x & Ha & (y & -> & Hy)%list_elem_of_fmap)%list_elem_of_bind.
      by apply (proj2 (IHes _ Hy (Hm _ Hy))).
  - apply mapped_struct in Hm as [D HD]. rewrite HD. simpl.
    destruct (inv_struct _ _ _ _ HI _ _ HD) as (s' & -> & _).
    split; [by intros ? ?%elem_of_nil|].
    intros s0 ->%list_elem_of_singleton. eauto.
  - by apply IHe.
  - by apply IHe.
Qed.

Lemma produced_reaches st T U :
  TopInv f st → reaches (Ctx st) T U →
  produced (MappedTypes st) T → produced (MappedTypes st) U.
Proof.
  intros HI. induction 1 as [T|r ps v U _ IH|r ps v p U Hp _ IH|es pk e U He _ IH
    |s d es e U Hd Hb He _ IH|e n U _ IH|e n sc U _ IH]; intros [HP HS];
    [by split| | | | |apply IH; by split|apply IH; by split].
  - apply IH. split.
    + intros a Ha. apply HP. simpl. apply elem_of_app. by left.
    + intros s Hs. apply HS. simpl. apply elem_of_app. by left.
  - apply IH. split.
    + intros a Ha. apply HP. simpl. apply elem_of_app. right.
      apply list_elem_of_bind. eauto.
    + intros s Hs. apply HS. simpl. apply elem_of_app. right.
      apply list_elem_of_bind. eauto.
  - apply IH. split.
    + intros a Ha. apply HP. simpl. apply list_elem_of_bind. eauto.
    + intros s Hs. apply HS. simpl. apply list_elem_of_bind. eauto.
  - apply IH. destruct (HS s) as [s0 Hs0]; [by apply list_elem_of_singleton|].
    pose proof (inv_done _ _ _ _ HI _ _ Hs0 (not_elem_of_empty _)) as Hdone.
    pose proof (shapes_lookup _ _ _ Hd) as Hsh. rewrite Hb in Hsh.
    destruct (shapes (Ctx st) !! s0) as [[[es0|] pk0]|] eqn:Hsh0; try done.
    + destruct Hdone as [Hs' Hmapped]. rewrite Hsh in Hs'.
      injection Hs' as -> _.
      apply list_elem_of_fmap in He as (e0 & -> & He0).
      eapply produced_rw; [exact HI|].
      rewrite Forall_forall in Hmapped. auto.
    + subst s0. by rewrite Hsh in Hsh0.
Qed.

(** Rewriting an image again, under a policy that leaves its own images
    alone. *)
Lemma remapType_twice st T fuel1 st1 T1 fuel2 :
  (∀ a, f (f a) = f a) →
  reachable f st → wf_ty (length (Ctx st)) T →
  remapType f fuel1 st T = Some (st1, T1) →
  fuelFor st1 T1 ≤ fuel2 →
  ∃ st2 T2,
    remapType f fuel2 st1 T1 = Some (st2, T2) ∧
    structEq (Ctx st1) T1 (Ctx st2) T2 ∧
    ((∀ s d, s ∈ ids T1 → Ctx st1 !! s = Some d → sbody d = None) → T2 = T1).
Proof.
  intros Hidem Hr HT Hrun1 Hfuel.
  assert (reachable f st1) as Hr1 by (by eapply reachable_call).
  pose proof (reachable_TopInv f _ Hr1) as HI1.
  destruct (remapType_rw f _ _ _ _ _ Hr HT Hrun1) as (HT1 & M1 & _ & _).
  assert (produced (MappedTypes st1) T1) as HP.
  { rewrite HT1. by eapply produced_rw. }
  assert (wf_ty (length (Ctx st1)) T1) as Hwf1.
  { rewrite HT1. by eapply wf_rw. }
  assert (∀ a, reaches (Ctx st1) T1 (TPtr a) → f a = a) as Hfix.
  { intros a Ha.
    destruct (produced_reaches _ _ _ HI1 Ha HP) as [Hp _].
    destruct (Hp a) as [b ->]; [by apply list_elem_of_singleton|]. apply Hidem. }
  destruct (remapType_returns f st1 T1 fuel2 Hr1 Hwf1 Hfuel) as (st2 & T2 & Hrun2).
  exists st2, T2. split; [done|]. split.
  - by eapply remapType_fixed.
  - intros Hop. eapply remapType_fixed_eq; try done.
    intros a Ha. by apply Hfix, ptrs_reaches.
Qed.
End TypeRemapperEquality.

(** C6: under the collapse-all policy, rewriting the image of a type again
    gives a structurally equal type, and the image itself when the structs
    it mentions are opaque.  (A non-literal struct with a body is rewritten
    to a new struct each time it is passed in as a source, so for such a
    struct the two images are two structs with structurally equal fields.) *)
Theorem remapType_collapse_all_idempotent st T fuel1 st1 T1 fuel2 :
  reachable removeAllAddrspaces st → wf_ty (length (Ctx st)) T →
  remapType removeAllAddrspaces fuel1 st T = Some (st1, T1) →
  fuelFor st1 T1 ≤ fuel2 →
  ∃ st2 T2,
    remapType removeAllAddrspaces fuel2 st1 T1 = Some (st2, T2) ∧
    structEq (Ctx st1) T1 (Ctx st2) T2 ∧
    ((∀ s d, s ∈ ids T1 → Ctx st1 !! s = Some d → sbody d = None) → T2 = T1).
Proof. by apply remapType_twice. Qed.

(** ** A context to run the rewriter on

    [%node = type { i32, ptr addrspace(10), [0 x %node] }],
    [%pair = type <{ i32, double }>] and [%opaque = type opaque]. *)
Definition ctxW : LLVMContext :=
  [ mkStruct "node" (Some [TOther "i32"; TPtr 10; TArr (TStruct 0) 0]) false;
    mkStruct "pair" (Some [TOther "i32"; TOther "double"]) true;
    mkStruct "opaque" None false ].

Lemma ctxW_closed : ctxClosed ctxW.
Proof. apply (bool_decide_unpack _). by vm_compute. Qed.

Lemma ctxW_reachable f : reachable f (State ctxW ∅).
Proof. apply reachable_init, ctxW_closed. Qed.

Lemma remapType_pointer_witness :
  ∃ st', remapType removeAllAddrspaces 1 (State ctxW ∅) (TPtr 10)
         = Some (st', TPtr 0).
Proof.
  apply (remapType_pointer removeAllAddrspaces (State ctxW ∅) 10 0).
  apply ctxW_reachable.
Defined.

Lemma remapType_self_reference_witness :
  ∃ st' s' d' es',
    remapType removeAllAddrspaces 10 (State ctxW ∅) (TStruct 0)
    = Some (st', TStruct s') ∧
    MappedTypes st' !! TStruct 0 = Some (TStruct s') ∧
    Ctx st' !! s' = Some d' ∧ sbody d' = Some es' ∧
    spacked d' = false ∧
    es' = rw removeAllAddrspaces (MappedTypes st')
            <$> [TOther "i32"; TPtr 10; TArr (TStruct 0) 0].
Proof.
  destruct (remapType_self_reference removeAllAddrspaces (State ctxW ∅) 0
              (mkStruct "node" (Some [TOther "i32"; TPtr 10; TArr (TStruct 0) 0])
                 false)
              [TOther "i32"; TPtr 10; TArr (TStruct 0) 0] 10)
    as (st' & s' & d' & es' & H1 & H2 & H3 & H4 & H5 & H6 & _).
  - apply ctxW_reachable.
  - reflexivity.
  - reflexivity.
  - vm_compute. lia.
  - exists st', s', d', es'. auto 10.
Defined.

Example remapType_node :
  prod_map Ctx id <$> remapType removeAllAddrspaces 10 (State ctxW ∅) (TStruct 0)
  = Some ([ mkStruct "node.bad"
              (Some [TOther "i32"; TPtr 10; TArr (TStruct 0) 0]) false;
            mkStruct "pair" (Some [TOther "i32"; TOther "double"]) true;
            mkStruct "opaque" None false;
            mkStruct "node"
              (Some [TOther "i32"; TPtr 0; TArr (TStruct 3) 0]) false ],
          TStruct 3).
Proof. by vm_compute. Qed.

Lemma pair_pointer_free a : ¬ reaches ctxW (TStruct 1) (TPtr a).
Proof.
  intros H. inversion H as [| | | |s d es e U Hd Hb He Hr| |]; subst.
  injection Hd as <-. injection Hb as <-.
  apply elem_of_cons in He as [->|He]; [by inversion Hr|].
  apply list_elem_of_singleton in He as ->. by inversion Hr.
Qed.

Lemma remapType_pointer_free_witness :
  ∃ st' D,
    remapType removeAllAddrspaces 10 (State ctxW ∅) (TStruct 1) = Some (st', D) ∧
    structEq ctxW (TStruct 1) (Ctx st') D.
Proof.
  destruct (remapType_pointer_free removeAllAddrspaces (State ctxW ∅)
              (TStruct 1) 10) as (st' & D & H1 & H2 & _).
  - apply ctxW_reachable.
  - apply (bool_decide_unpack _). by vm_compute.
  - apply pair_pointer_free.
  - vm_compute. lia.
  - eauto.
Defined.

(** The first image of [%node] and the state it is returned in. *)
Definition nodeRun : state * ty :=
  default (State [] ∅, TOther "")
    (remapType removeAllAddrspaces 10 (State ctxW ∅) (TStruct 0)).

Lemma remapType_collapse_all_idempotent_witness :
  ∃ st2 T2,
    remapType removeAllAddrspaces 20 nodeRun.1 nodeRun.2 = Some (st2, T2) ∧
    structEq (Ctx nodeRun.1) nodeRun.2 (Ctx st2) T2.
Proof.
  destruct (remapType_collapse_all_idempotent (State ctxW ∅) (TStruct 0) 10
              nodeRun.1 nodeRun.2 20) as (st2 & T2 & H1 & H2 & _).
  - apply ctxW_reachable.
  - apply (bool_decide_unpack _). by vm_compute.
  - by vm_compute.
  - vm_compute. lia.
  - exists st2, T2. auto.
Defined.

(** ** Reasoning about the Constant Materializer *)

Section ValueMaterializerSpec.
Variable ASRemapper : N → N.
Variable VMap : Type.
Variable MapValue :
  VMap * state → constant → option (VMap * state * option constant).
Variable getWithOperands : constant → list constant → ty → constant.
Variable TypeMapper : bool.

#[local] Abbreviation materializeWith :=
  (materialize ASRemapper VMap MapValue getWithOperands TypeMapper).
#[local] Abbreviation remapTypeWith :=
  (Materializer_remapType ASRemapper VMap TypeMapper).

(** C7: a constant expression that is an address-space cast, whose operand
    is mapped by [MapValue] to a constant [Src] whose type has the address
    space of the rewritten type of the cast, materializes to [Src] itself. *)
Theorem materialize_addrspacecast_fold fuel σ Op0 ops t σ0 Ty σ1 Src a :
  remapTypeWith fuel σ t = Some (σ0, Ty) →
  mapConstant VMap MapValue σ0 Op0 = Some (σ1, Some Src) →
  getPointerAddressSpace (constType Src) = Some a →
  getPointerAddressSpace Ty = Some a →
  materializeWith fuel σ (VConst (CExpr OpAddrSpaceCast (Op0 :: ops) t))
  = Some (σ1, Some (VConst Src)).
Proof.
  intros Hty Hmap Ha1 Ha2. unfold materialize.
  rewrite Hty; simpl. rewrite Hmap; simpl. rewrite Ha1, Ha2; simpl.
  by rewrite decide_True.
Qed.

Lemma mapOperands_returns σ ops :
  (∀ σ c, is_Some (MapValue σ c)) → is_Some (mapOperands VMap MapValue σ ops).
Proof.
  intros Htotal. revert σ. induction ops as [|Op ops IH]; intros σ; simpl.
  - eauto.
  - unfold mapConstant. destruct (Htotal σ Op) as [[σ1 NewOp] ->]. simpl.
    destruct (IH σ1) as [[σ2 Ops] ->]. simpl. eauto.
Qed.

(** C10: [materialize] returns null for every value that is not a constant
    expression, leaving the state as it is, and for every constant
    expression that is a [GetElementPtr]: whenever the call returns, and it
    does return when the rewriting of the type and [MapValue] do. *)
Theorem materialize_none fuel σ v :
  (isConstantExpr v = false → materializeWith fuel σ v = Some (σ, None)) ∧
  (∀ ops t,
     v = VConst (CExpr OpGetElementPtr ops t) →
     (∀ σ' r, materializeWith fuel σ v = Some (σ', r) → r = None) ∧
     (is_Some (remapTypeWith fuel σ t) →
      (∀ σ c, is_Some (MapValue σ c)) →
      ∃ σ', materializeWith fuel σ v = Some (σ', None))).
Proof.
  split.
  - destruct v as [[]| | |]; simpl; done.
  - intros ops t ->. unfold materialize. split.
    + intros σ' r.
      destruct (remapTypeWith fuel σ t) as [[σ0 Ty]|]; simpl; [|done].
      destruct (mapOperands VMap MapValue σ0 ops) as [[σ1 Ops]|]; simpl; [|done].
      by intros [= _ <-].
    + intros [[σ0 Ty] ->] Htotal. simpl.
      destruct (mapOperands_returns σ0 ops Htotal) as [[σ1 Ops] ->]. simpl.
      eauto.
Qed.
End ValueMaterializerSpec.

(** [addrspacecast (ptr addrspace(10) @0 to ptr)], with [@0] mapped to a
    global [@1] in address space 0. *)
Lemma materialize_addrspacecast_fold_witness :
  materialize removeAllAddrspaces _
    (simpleMapValue (λ σ _, Some (σ, None))) simpleGetWithOperands true 5
    ([(0, CGlobal 1 (TPtr 0))], State ctxW ∅)
    (VConst (CExpr OpAddrSpaceCast [CGlobal 0 (TPtr 10)] (TPtr 0)))
  = Some ([(0, CGlobal 1 (TPtr 0))],
          State ctxW {[TPtr 0 := TPtr 0]},
          Some (VConst (CGlobal 1 (TPtr 0)))).
Proof.
  apply (materialize_addrspacecast_fold removeAllAddrspaces _
           (simpleMapValue (λ σ _, Some (σ, None))) simpleGetWithOperands true
           5 _ _ [] _ ([(0, CGlobal 1 (TPtr 0))], State ctxW {[TPtr 0 := TPtr 0]})
           (TPtr 0) _ _ 0%N); reflexivity.
Defined.

Lemma materialize_none_witness :
  materialize removeAllAddrspaces _
    (simpleMapValue (λ σ _, Some (σ, None))) simpleGetWithOperands true 5
    ([], State ctxW ∅) (VConst (CGlobal 0 (TPtr 10)))
  = Some ([], State ctxW ∅, None) ∧
  ∃ σ', materialize removeAllAddrspaces _
          (simpleMapValue (λ σ _, Some (σ, None))) simpleGetWithOperands true 5
          ([], State ctxW ∅)
          (VConst (CExpr OpGetElementPtr
                     [CGlobal 0 (TPtr 10); CData (TOther "i64") "1"] (TPtr 10)))
        = Some (σ', None).
Proof.
  split.
  - apply (materialize_none removeAllAddrspaces _
             (simpleMapValue (λ σ _, Some (σ, None))) simpleGetWithOperands true
             5 ([], State ctxW ∅) (VConst (CGlobal 0 (TPtr 10)))).
    reflexivity.
  - eapply (materialize_none removeAllAddrspaces _
              (simpleMapValue (λ σ _, Some (σ, None))) simpleGetWithOperands true
              5 ([], State ctxW ∅)); [reflexivity| |].
    + vm_compute. eauto.
    + intros σ [| | |]; simpl; eauto.
Defined.

(** ** Reasoning about the No-op Cast Eliminator *)

Lemma instructions_mapBlocks g F :
  instructions (mapBlocks g F) = g <$> instructions F.
Proof.
  unfold instructions, mapBlocks; simpl.
  induction (f_blocks F) as [|b bs IH]; simpl; [done|].
  by rewrite fmap_app, IH.
Qed.

Lemma instructions_erase F id :
  instructions (eraseFromParent F id)
  = filter (λ I, iid I ≠ id) (instructions F).
Proof.
  unfold instructions, eraseFromParent; simpl.
  induction (f_blocks F) as [|b bs IH]; simpl; [done|].
  by rewrite filter_app, IH.
Qed.

Lemma blocks_erase_all l : ∀ F,
  f_blocks (foldl eraseFromParent F l)
  = filter (λ I, iid I ∉ l) <$> f_blocks F.
Proof.
  induction l as [|c l IH]; intros F; simpl.
  - symmetry. rewrite <- (list_fmap_id (f_blocks F)) at 2.
    apply list_fmap_ext. intros i b _. simpl.
    induction b as [|I b IHb]; [done|].
    rewrite filter_cons_True by apply not_elem_of_nil. by rewrite IHb.
  - rewrite IH. simpl. rewrite <- list_fmap_compose.
    apply list_fmap_ext. intros i b _. simpl.
    rewrite list_filter_filter. apply list_filter_iff.
    intros I. rewrite not_elem_of_cons. naive_solver.
Qed.

Lemma args_erase_all l : ∀ F,
  f_args (foldl eraseFromParent F l) = f_args F ∧
  f_attrs (foldl eraseFromParent F l) = f_attrs F.
Proof.
  induction l as [|c l IH]; intros F; simpl; [done|].
  destruct (IH (eraseFromParent F c)) as [-> ->]. done.
Qed.

Lemma lookupInstr_Some l id I :
  lookupInstr l id = Some I → iid I = id ∧ I ∈ l.
Proof.
  induction l as [|J l IH]; simpl; [done|].
  case_decide.
  - intros [= <-]. split; [done|]. apply list_elem_of_here.
  - intros [? ?]%IH. split; [done|]. by apply list_elem_of_further.
Qed.

Lemma lookupInstr_NoDup l I :
  NoDup (iid <$> l) → I ∈ l → lookupInstr l (iid I) = Some I.
Proof.
  induction l as [|J l IH]; simpl; intros Hnd HI.
  { by apply elem_of_nil in HI. }
  apply NoDup_cons in Hnd as [HJ Hnd].
  apply elem_of_cons in HI as [->|HI]; [by rewrite decide_True|].
  rewrite decide_False; [by apply IH|].
  intros Heq. apply HJ. apply list_elem_of_fmap. eauto.
Qed.

Lemma lookupInstr_fmap g l id :
  lookupInstr (mapOperandsOf g <$> l) id = mapOperandsOf g <$> lookupInstr l id.
Proof.
  induction l as [|J l IH]; simpl; [done|].
  case_decide; [done|]. apply IH.
Qed.

Lemma lookupInstr_filter (l0 : list nat) l id :
  id ∉ l0 → lookupInstr (filter (λ J, iid J ∉ l0) l) id = lookupInstr l id.
Proof.
  intros Hid. induction l as [|J l IH]; simpl; [done|].
  destruct (decide (iid J ∈ l0)) as [HJ|HJ].
  - rewrite filter_cons_False by tauto. rewrite decide_False; [apply IH|].
    intros Heq. apply Hid. by rewrite <- Heq.
  - rewrite filter_cons_True by done. simpl. case_decide; [done|]. apply IH.
Qed.

Lemma isInst_true id v : isInst id v = true → v = VInst id.
Proof.
  destruct v as [| |j|]; simpl; try done.
  by intros ->%bool_decide_eq_true.
Qed.

Lemma isInst_VInst id j : isInst id (VInst j) = bool_decide (j = id).
Proof. done. Qed.

(** The address space of the type of a value. *)
Definition valueAS (F : Function) (v : value) : option N :=
  t ← valueType F v; getPointerAddressSpace t.

(** A cast whose source and destination address spaces are equal. *)
Definition isNoopCast (F : Function) (I : instr) : bool :=
  bool_decide (iop I = OpAddrSpaceCast) &&
  match getSrcAddressSpace F I, getDestAddressSpace I with
  | Some a, Some b => bool_decide (a = b)
  | _, _ => false
  end.

Lemma valueType_mapBlocks g F v :
  valueType (mapBlocks (mapOperandsOf g) F) v = valueType F v.
Proof.
  destruct v as [c|i|id|b]; simpl; try done.
  unfold findInstr. rewrite instructions_mapBlocks, lookupInstr_fmap.
  by destruct (lookupInstr _ _).
Qed.

Lemma getSrcAddressSpace_alt F I :
  getSrcAddressSpace F I = Op0 ← iops I !! 0; valueAS F Op0.
Proof. done. Qed.

Lemma mapOperandsOf_compose g h J :
  mapOperandsOf g (mapOperandsOf h J) = mapOperandsOf (λ v, g (h v)) J.
Proof.
  unfold mapOperandsOf; simpl. f_equal.
  by rewrite <- list_fmap_compose.
Qed.

Lemma mapBlocks_compose g h F :
  mapBlocks (mapOperandsOf g) (mapBlocks (mapOperandsOf h) F)
  = mapBlocks (mapOperandsOf (λ v, g (h v))) F.
Proof.
  unfold mapBlocks; simpl. f_equal.
  rewrite <- list_fmap_compose. apply list_fmap_ext. intros i b _. simpl.
  rewrite <- list_fmap_compose. apply list_fmap_ext. intros j J _. simpl.
  apply mapOperandsOf_compose.
Qed.

Section CastEliminator.
Variable F0 : Function.

(** The state of the first loop: the function is [F0] with its operands
    rewired by [σ], and [acc] holds the casts found so far. *)
Record scanInv (σ : value → value) (acc : list nat) : Prop := mkScanInv {
  si_avoid : ∀ v c, c ∈ acc → isInst c (σ v) = false;
  si_id : ∀ v, (∀ c, c ∈ acc → isInst c v = false) → σ v = v;
  si_chain : ∀ c, c ∈ acc →
    ∃ J Op0, findInstr F0 c = Some J ∧ isNoopCast F0 J = true ∧
             iops J !! 0 = Some Op0 ∧ σ (VInst c) = σ Op0;
  si_as : ∀ v, valueAS F0 (σ v) = valueAS F0 v
}.

Lemma scanInv_init : scanInv (λ v, v) [].
Proof.
  constructor; try done.
  - by intros v c ?%elem_of_nil.
  - by intros c ?%elem_of_nil.
Qed.

Lemma isNoopCast_inv F J :
  isNoopCast F J = true →
  iop J = OpAddrSpaceCast ∧
  ∃ a, getSrcAddressSpace F J = Some a ∧ getDestAddressSpace J = Some a.
Proof.
  unfold isNoopCast. intros [Hop Has]%andb_prop.
  apply bool_decide_eq_true in Hop. split; [done|].
  destruct (getSrcAddressSpace F J) as [a|]; [|done].
  destruct (getDestAddressSpace J) as [b|]; [|done].
  apply bool_decide_eq_true in Has as ->. eauto.
Qed.

Lemma scanInv_step σ acc id J Op0 :
  scanInv σ acc → id ∉ acc → findInstr F0 id = Some J →
  isNoopCast F0 J = true → iops J !! 0 = Some Op0 →
  isInst id (σ Op0) = false →
  scanInv (λ v, substValue id (σ Op0) (σ v)) (acc ++ [id]).
Proof.
  intros [Hav Hid Hch Has] Hnin HJ Hnoop Hop Hself.
  assert (∀ v, (∀ c, c ∈ acc ++ [id] → isInst c v = false) →
               substValue id (σ Op0) (σ v) = v) as Hid'.
  { intros v Hv. rewrite (Hid v).
    - unfold substValue. rewrite Hv; [done|]. apply elem_of_app. right.
      by apply list_elem_of_singleton.
    - intros c Hc. apply Hv, elem_of_app. by left. }
  assert (∀ v c, c ∈ acc ++ [id] →
                 isInst c (substValue id (σ Op0) (σ v)) = false) as Hav'.
  { intros v c [Hc|Hc%list_elem_of_singleton]%elem_of_app; unfold substValue;
      [|subst c].
    - destruct (isInst id (σ v)); by apply Hav.
    - destruct (isInst id (σ v)) eqn:E; [done|by rewrite E]. }
  constructor; try done.
  - intros c [Hc|Hc%list_elem_of_singleton]%elem_of_app; [|subst c].
    + destruct (Hch c Hc) as (J' & Op' & ? & ? & ? & Heq).
      exists J', Op'. by rewrite Heq.
    + exists J, Op0. do 3 (split; [done|]).
      rewrite (Hid (VInst id)).
      * unfold substValue at 1. rewrite isInst_VInst, bool_decide_eq_true_2 by done.
        unfold substValue. by rewrite Hself.
      * intros c Hc. rewrite isInst_VInst. apply bool_decide_eq_false_2.
        by intros ->.
  - intros v. unfold substValue.
    destruct (isInst id (σ v)) eqn:E; [|apply Has].
    apply isInst_true in E. rewrite <- (Has v), E, Has.
    apply isNoopCast_inv in Hnoop as (_ & a & Hsrc & Hdst).
    rewrite getSrcAddressSpace_alt, Hop in Hsrc. simpl in Hsrc.
    rewrite Hsrc. unfold valueAS. simpl. by rewrite HJ.
Qed.

(** What the loop reads in the current function is what [F0] says. *)
Lemma findInstr_rewired σ id :
  findInstr (mapBlocks (mapOperandsOf σ) F0) id
  = mapOperandsOf σ <$> findInstr F0 id.
Proof.
  unfold findInstr. by rewrite instructions_mapBlocks, lookupInstr_fmap.
Qed.

Lemma valueAS_rewired σ acc v :
  scanInv σ acc →
  valueAS (mapBlocks (mapOperandsOf σ) F0) (σ v) = valueAS F0 v.
Proof.
  intros HI. unfold valueAS at 1. rewrite valueType_mapBlocks.
  apply (si_as _ _ HI).
Qed.

Lemma getSrcAddressSpace_rewired σ acc J :
  scanInv σ acc →
  getSrcAddressSpace (mapBlocks (mapOperandsOf σ) F0) (mapOperandsOf σ J)
  = getSrcAddressSpace F0 J.
Proof.
  intros HI. rewrite !getSrcAddressSpace_alt. simpl.
  rewrite list_lookup_fmap. destruct (iops J !! 0) as [Op0|]; simpl; [|done].
  by eapply valueAS_rewired.
Qed.

Lemma scanCasts_spec L : ∀ σ acc F1 acc1,
  (∀ J, J ∈ L → findInstr F0 (iid J) = Some J) →
  NoDup (iid <$> L) → (∀ c, c ∈ acc → c ∉ iid <$> L) →
  scanInv σ acc →
  scanCasts (iid <$> L) (mapBlocks (mapOperandsOf σ) F0) acc = Some (F1, acc1) →
  ∃ σ1, F1 = mapBlocks (mapOperandsOf σ1) F0 ∧ scanInv σ1 acc1 ∧
        acc1 = acc ++ (iid <$> filter (λ J, isNoopCast F0 J) L).
Proof.
  induction L as [|J L IH]; intros σ acc F1 acc1 Hfind Hnd Hacc HI Hrun.
  { simpl in Hrun. injection Hrun as <- <-. exists σ.
    by rewrite filter_nil, app_nil_r. }
  simpl in Hnd. apply NoDup_cons in Hnd as [HJL Hnd].
  assert (∀ J', J' ∈ L → findInstr F0 (iid J') = Some J') as Hfind'.
  { intros J' HJ'. apply Hfind. by apply list_elem_of_further. }
  assert (iid J ∉ acc) as HJacc.
  { intros Hin. apply (Hacc _ Hin). simpl. apply list_elem_of_here. }
  assert (∀ c, c ∈ acc → c ∉ iid <$> L) as Hacc'.
  { intros c Hc Hin. apply (Hacc c Hc). simpl. by apply list_elem_of_further. }
  simpl in Hrun. rewrite findInstr_rewired in Hrun.
  rewrite (Hfind J (list_elem_of_here _ _)) in Hrun. simpl in Hrun.
  rewrite (getSrcAddressSpace_rewired _ _ _ HI) in Hrun.
  unfold getDestAddressSpace in Hrun at 1. simpl in Hrun.
  fold (getDestAddressSpace J) in Hrun.
  destruct (decide (iop J = OpAddrSpaceCast)) as [Hop|Hop].
  - destruct (getSrcAddressSpace F0 J) as [a|] eqn:Hsrc; simpl in Hrun; [|done].
    destruct (getDestAddressSpace J) as [b|] eqn:Hdst; simpl in Hrun; [|done].
    destruct (decide (a = b)) as [->|Hab].
    + assert (isNoopCast F0 J = true) as Hnoop.
      { unfold isNoopCast. rewrite Hsrc, Hdst.
        by rewrite !bool_decide_eq_true_2. }
      rewrite list_lookup_fmap in Hrun.
      destruct (iops J !! 0) as [Op0|] eqn:Hop0; simpl in Hrun; [|done].
      destruct (valueType _ (σ Op0)) as [t0|]; simpl in Hrun; [|done].
      assert (∃ F', replaceAllUsesWith (mapBlocks (mapOperandsOf σ) F0)
                      (iid J) (σ Op0) = Some F' ∧
                    scanCasts (iid <$> L) F' (acc ++ [iid J]) = Some (F1, acc1))
        as (F' & HF' & Hrest).
      { destruct (decide (ity J = t0));
          destruct (replaceAllUsesWith _ _ _) as [F'|]; simpl in Hrun;
          try done; eauto. }
      unfold replaceAllUsesWith in HF'.
      destruct (isInst (iid J) (σ Op0)) eqn:Hself; [done|].
      injection HF' as <-. rewrite mapBlocks_compose in Hrest.
      destruct (IH (λ v, substValue (iid J) (σ Op0) (σ v)) (acc ++ [iid J])
                  F1 acc1 Hfind' Hnd) as (σ1 & -> & I1 & ->).
      * intros c [Hc|Hc%list_elem_of_singleton]%elem_of_app; [auto|by subst c].
      * eapply scanInv_step; eauto. apply Hfind, list_elem_of_here.
      * exact Hrest.
      * exists σ1. split; [done|]. split; [done|].
        rewrite filter_cons_True by (by apply Is_true_true_2).
        by rewrite fmap_cons, <- app_assoc.
    + destruct (IH _ _ _ _ Hfind' Hnd Hacc' HI Hrun) as (σ1 & -> & I1 & ->).
      exists σ1. split; [done|]. split; [done|].
      rewrite filter_cons_False; [done|].
      apply Is_true_false_2. unfold isNoopCast. rewrite Hsrc, Hdst.
      rewrite (bool_decide_eq_false_2 (a = b)) by done.
      by rewrite andb_false_r.
  - destruct (IH _ _ _ _ Hfind' Hnd Hacc' HI Hrun) as (σ1 & -> & I1 & ->).
    exists σ1. split; [done|]. split; [done|].
    rewrite filter_cons_False; [done|].
    apply Is_true_false_2. unfold isNoopCast.
    by rewrite (bool_decide_eq_false_2 _ Hop).
Qed.
End CastEliminator.

(** The identities of the casts of [F] whose source and destination address
    spaces are equal. *)
Definition noopCasts (F : Function) : list nat :=
  iid <$> filter (λ J, isNoopCast F J) (instructions F).

Lemma elem_of_noopCasts F c :
  c ∈ noopCasts F ↔
  ∃ J, J ∈ instructions F ∧ iid J = c ∧ isNoopCast F J = true.
Proof.
  unfold noopCasts. rewrite list_elem_of_fmap. split.
  - intros (J & -> & [Hn HJ]%list_elem_of_filter).
    exists J. split; [done|]. split; [done|]. by apply Is_true_true_1.
  - intros (J & HJ & <- & Hn). exists J. split; [done|].
    apply list_elem_of_filter. split; [by apply Is_true_true_2|done].
Qed.

Lemma filter_mapOperandsOf (l0 : list nat) g (l : list instr) :
  filter (λ J, iid J ∉ l0) (mapOperandsOf g <$> l)
  = mapOperandsOf g <$> filter (λ J, iid J ∉ l0) l.
Proof.
  induction l as [|J l IH]; [done|]. rewrite fmap_cons.
  destruct (decide (iid J ∈ l0)) as [HJ|HJ].
  - rewrite !filter_cons_False by (simpl; tauto). apply IH.
  - rewrite !filter_cons_True by done. by rewrite fmap_cons, IH.
Qed.

Lemma concat_filter {A} (P : A → Prop) `{!∀ x, Decision (P x)}
    (bs : list (list A)) :
  concat (filter P <$> bs) = filter P (concat bs).
Proof.
  induction bs as [|b bs IH]; simpl; [done|].
  by rewrite filter_app, <- IH.
Qed.

Lemma instructions_erase_all l F :
  instructions (foldl eraseFromParent F l)
  = filter (λ J, iid J ∉ l) (instructions F).
Proof.
  unfold instructions. rewrite blocks_erase_all. apply concat_filter.
Qed.

(** C8: when the eliminator has run on a function whose instructions have
    distinct identities, the casts with equal source and destination
    address space are gone and no such cast is left; the other instructions
    are kept in their blocks, with their operands rewired by a substitution
    [σ] that sends every removed cast to what its operand is sent to, sends
    no operand to a removed cast, and leaves every other value as it is. *)
Theorem RemoveNoopAddrSpaceCasts_removes (F F' : Function) (changed : bool) :
  NoDup (iid <$> instructions F) →
  RemoveNoopAddrSpaceCasts F = Some (F', changed) →
  ∃ σ : value → value,
    f_args F' = f_args F ∧ f_attrs F' = f_attrs F ∧
    f_blocks F'
    = (λ b : list instr,
         mapOperandsOf σ <$> filter (λ J, iid J ∉ noopCasts F) b)
        <$> f_blocks F ∧
    (∀ J : instr, J ∈ instructions F → isNoopCast F J = true →
          iid J ∉ iid <$> instructions F') ∧
    (∀ J', J' ∈ instructions F' → isNoopCast F' J' = false) ∧
    (∀ c, c ∈ noopCasts F →
          ∃ J Op0, findInstr F c = Some J ∧ iops J !! 0 = Some Op0 ∧
                   σ (VInst c) = σ Op0) ∧
    (∀ v c, c ∈ noopCasts F → isInst c (σ v) = false) ∧
    (∀ v, (∀ c, c ∈ noopCasts F → isInst c v = false) → σ v = v).
Proof.
  intros Hnd Hrun. unfold RemoveNoopAddrSpaceCasts in Hrun.
  destruct (scanCasts _ F []) as [[F1 acc1]|] eqn:Hscan; simpl in Hrun; [|done].
  injection Hrun as <- <-.
  assert (F = mapBlocks (mapOperandsOf (λ v, v)) F) as HF.
  { destruct F as [args blocks attrs]. unfold mapBlocks; simpl. f_equal.
    rewrite <- (list_fmap_id blocks) at 1. apply list_fmap_ext.
    intros i b _. simpl. rewrite <- (list_fmap_id b) at 1.
    apply list_fmap_ext. intros j [id op ops t] _. unfold mapOperandsOf; simpl.
    by rewrite list_fmap_id. }
  rewrite HF in Hscan at 2.
  destruct (scanCasts_spec F (instructions F) (λ v, v) [] F1 acc1)
    as (σ & -> & HI & Hacc).
  { intros J HJ. by apply lookupInstr_NoDup. }
  { done. }
  { by intros c ?%elem_of_nil. }
  { apply scanInv_init. }
  { exact Hscan. }
  simpl in Hacc. fold (noopCasts F) in Hacc. subst acc1.
  set (F1 := mapBlocks (mapOperandsOf σ) F).
  assert (instructions (foldl eraseFromParent F1 (noopCasts F))
          = mapOperandsOf σ <$> filter (λ J, iid J ∉ noopCasts F) (instructions F))
    as Hinstrs.
  { rewrite instructions_erase_all. unfold F1.
    rewrite instructions_mapBlocks.
    apply filter_mapOperandsOf. }
  exists σ.
  destruct (args_erase_all (noopCasts F) F1) as [-> ->].
  split; [done|]. split; [done|]. split.
  { rewrite blocks_erase_all. unfold F1, mapBlocks; simpl.
    rewrite <- list_fmap_compose. apply list_fmap_ext. intros i b _. simpl.
    apply filter_mapOperandsOf. }
  split.
  { intros J HJ Hn. rewrite Hinstrs, <- list_fmap_compose.
    intros (J' & Heq & [HJ' _]%list_elem_of_filter)%list_elem_of_fmap.
    simpl in Heq. apply HJ'. rewrite <- Heq. apply elem_of_noopCasts. eauto. }
  split.
  { intros J'. rewrite Hinstrs.
    intros (J & -> & [HJn HJ]%list_elem_of_filter)%list_elem_of_fmap.
    assert (isNoopCast F J = false) as Hstatic.
    { destruct (isNoopCast F J) eqn:E; [|done].
      destruct HJn. apply elem_of_noopCasts. eauto. }
    rewrite <- Hstatic. unfold isNoopCast. f_equal.
    rewrite !getSrcAddressSpace_alt. simpl. rewrite list_lookup_fmap.
    destruct (iops J !! 0) as [Op0|]; simpl; [|done].
    assert (valueAS (foldl eraseFromParent F1 (noopCasts F)) (σ Op0)
            = valueAS F Op0) as ->; [|done].
    rewrite <- (valueAS_rewired F σ _ Op0 HI). fold F1.
    unfold valueAS. f_equal.
    pose proof (si_avoid _ _ _ HI Op0) as Hav.
    destruct (σ Op0) as [c|i|j|b]; simpl; try done.
    - by destruct (args_erase_all (noopCasts F) F1) as [-> _].
    - f_equal. unfold findInstr. rewrite instructions_erase_all.
      apply lookupInstr_filter.
      intros Hj. specialize (Hav j Hj). rewrite isInst_VInst in Hav.
      by apply bool_decide_eq_false in Hav. }
  split.
  { intros c Hc. destruct (si_chain _ _ _ HI c Hc) as (J & Op0 & ? & _ & ? & ?).
    eauto. }
  split; [apply HI|apply HI].
Qed.

(** The flag that the eliminator returns is [false], whatever it did. *)
Theorem RemoveNoopAddrSpaceCasts_changed (F F' : Function) (changed : bool) :
  RemoveNoopAddrSpaceCasts F = Some (F', changed) → changed = false.
Proof.
  unfold RemoveNoopAddrSpaceCasts.
  destruct (scanCasts _ F []) as [[F1 acc1]|]; simpl; [|done].
  by intros [= _ <-].
Qed.

(** The eliminator returns on a function whose casts are between pointer
    types and in which no cast with equal address spaces is, through such
    casts, its own operand ([rank] decreases from a cast to its operand). *)
Definition castsTyped (F : Function) : Prop :=
  Forall (λ J, iop J = OpAddrSpaceCast →
               is_Some (getSrcAddressSpace F J) ∧
               is_Some (getDestAddressSpace J))
         (instructions F).

Definition castsAcyclic (rank : nat → nat) (F : Function) : Prop :=
  Forall (λ J, isNoopCast F J = true →
               match iops J !! 0 with
               | Some (VInst j) => rank j < rank (iid J)
               | _ => True
               end)
         (instructions F).

Lemma scanCasts_returns F0 rank L : ∀ σ acc,
  (∀ J, J ∈ L → findInstr F0 (iid J) = Some J) →
  NoDup (iid <$> L) → (∀ c, c ∈ acc → c ∉ iid <$> L) →
  scanInv F0 σ acc →
  (∀ w j, σ w = VInst j → ∃ j0, w = VInst j0 ∧ rank j ≤ rank j0) →
  (∀ J, J ∈ L → iop J = OpAddrSpaceCast →
        is_Some (getSrcAddressSpace F0 J) ∧ is_Some (getDestAddressSpace J)) →
  (∀ J j, J ∈ L → isNoopCast F0 J = true → iops J !! 0 = Some (VInst j) →
          rank j < rank (iid J)) →
  is_Some (scanCasts (iid <$> L) (mapBlocks (mapOperandsOf σ) F0) acc).
Proof.
  induction L as [|J L IH]; intros σ acc Hfind Hnd Hacc HI Hrk Hty Hcyc.
  { simpl. eauto. }
  simpl in Hnd. apply NoDup_cons in Hnd as [HJL Hnd].
  assert (∀ J', J' ∈ L → findInstr F0 (iid J') = Some J') as Hfind'.
  { intros J' HJ'. apply Hfind. by apply list_elem_of_further. }
  assert (iid J ∉ acc) as HJacc.
  { intros Hin. apply (Hacc _ Hin). simpl. apply list_elem_of_here. }
  assert (∀ c, c ∈ acc → c ∉ iid <$> L) as Hacc'.
  { intros c Hc Hin. apply (Hacc c Hc). simpl. by apply list_elem_of_further. }
  assert (is_Some (scanCasts (iid <$> L) (mapBlocks (mapOperandsOf σ) F0) acc))
    as Hskip.
  { apply IH; auto.
    - intros J' HJ'. apply Hty. by apply list_elem_of_further.
    - intros J' j HJ'. apply Hcyc. by apply list_elem_of_further. }
  simpl. rewrite findInstr_rewired.
  rewrite (Hfind J (list_elem_of_here _ _)). simpl.
  rewrite (getSrcAddressSpace_rewired _ _ _ _ HI).
  unfold getDestAddressSpace at 1. simpl. fold (getDestAddressSpace J).
  destruct (decide (iop J = OpAddrSpaceCast)) as [Hop|Hop]; [|done].
  destruct (Hty J (list_elem_of_here _ _) Hop) as [[a Hsrc] [b Hdst]].
  rewrite Hsrc, Hdst. simpl.
  destruct (decide (a = b)) as [->|Hab]; [|done].
  assert (isNoopCast F0 J = true) as Hnoop.
  { unfold isNoopCast. rewrite Hsrc, Hdst. by rewrite !bool_decide_eq_true_2. }
  rewrite list_lookup_fmap.
  pose proof Hsrc as Hsrc'. rewrite getSrcAddressSpace_alt in Hsrc'.
  destruct (iops J !! 0) as [Op0|] eqn:Hop0; simpl in Hsrc'; [|done]. simpl.
  pose proof (valueAS_rewired F0 σ acc Op0 HI) as Has.
  rewrite Hsrc' in Has. unfold valueAS in Has.
  destruct (valueType _ (σ Op0)) as [t0|]; simpl in Has; [|done]. simpl.
  assert (isInst (iid J) (σ Op0) = false) as Hself.
  { destruct (isInst (iid J) (σ Op0)) eqn:E; [|done].
    apply isInst_true in E. destruct (Hrk _ _ E) as (j0 & -> & Hle).
    pose proof (Hcyc J j0 (list_elem_of_here _ _) Hnoop Hop0). lia. }
  assert (replaceAllUsesWith (mapBlocks (mapOperandsOf σ) F0) (iid J) (σ Op0)
          = Some (mapBlocks
                    (mapOperandsOf (λ v, substValue (iid J) (σ Op0) (σ v))) F0))
    as HF'.
  { unfold replaceAllUsesWith. rewrite Hself. by rewrite mapBlocks_compose. }
  assert (is_Some
            (F' ← replaceAllUsesWith (mapBlocks (mapOperandsOf σ) F0) (iid J)
                    (σ Op0);
             scanCasts (iid <$> L) F' (acc ++ [iid J]))) as Hgo.
  { rewrite HF'. simpl. apply IH; auto.
    - intros c [Hc|Hc%list_elem_of_singleton]%elem_of_app; [auto|by subst c].
    - eapply scanInv_step; eauto. apply Hfind, list_elem_of_here.
    - intros w j. unfold substValue.
      destruct (isInst (iid J) (σ w)) eqn:E.
      + apply isInst_true in E. intros Hj.
        destruct (Hrk _ _ E) as (j0 & -> & Hle).
        destruct (Hrk _ _ Hj) as (j1 & -> & Hle1).
        pose proof (Hcyc J j1 (list_elem_of_here _ _) Hnoop Hop0).
        exists j0. split; [done|]. lia.
      + apply Hrk.
    - intros J' HJ'. apply Hty. by apply list_elem_of_further.
    - intros J' j HJ'. apply Hcyc. by apply list_elem_of_further. }
  by destruct (decide (ity J = t0)).
Qed.

Lemma RemoveNoopAddrSpaceCasts_returns (F : Function) (rank : nat → nat) :
  NoDup (iid <$> instructions F) → castsTyped F → castsAcyclic rank F →
  ∃ F', RemoveNoopAddrSpaceCasts F = Some (F', false).
Proof.
  intros Hnd Hty Hcyc. unfold RemoveNoopAddrSpaceCasts.
  assert (F = mapBlocks (mapOperandsOf (λ v, v)) F) as HF.
  { destruct F as [args blocks attrs]. unfold mapBlocks; simpl. f_equal.
    rewrite <- (list_fmap_id blocks) at 1. apply list_fmap_ext.
    intros i b _. simpl. rewrite <- (list_fmap_id b) at 1.
    apply list_fmap_ext. intros j [id op ops t] _. unfold mapOperandsOf; simpl.
    by rewrite list_fmap_id. }
  destruct (scanCasts_returns F rank (instructions F) (λ v, v) [])
    as [[F1 acc1] Hscan].
  - intros J HJ. by apply lookupInstr_NoDup.
  - done.
  - by intros c ?%elem_of_nil.
  - apply scanInv_init.
  - intros w j ->. eauto.
  - intros J HJ. unfold castsTyped in Hty. rewrite Forall_forall in Hty. auto.
  - intros J j HJ Hn Hop. unfold castsAcyclic in Hcyc.
    rewrite Forall_forall in Hcyc. specialize (Hcyc J HJ Hn).
    by rewrite Hop in Hcyc.
  - rewrite <- HF in Hscan. rewrite Hscan. simpl. eauto.
Qed.

(** A function to run the eliminator on:
    [%1 = addrspacecast ptr %p to ptr], [%2 = load i32, ptr %1],
    [%3 = addrspacecast ptr %1 to ptr addrspace(1)], [ret i32 %2]. *)
Definition funW : Function :=
  mkFunction [("p", TPtr 0)]
    [[ mkInstr 1 OpAddrSpaceCast [VArg 0] (TPtr 0);
       mkInstr 2 (OpOther "load") [VInst 1] (TOther "i32");
       mkInstr 3 OpAddrSpaceCast [VInst 1] (TPtr 1);
       mkInstr 4 (OpOther "ret") [VInst 2] (TOther "void") ]]
    [].

Definition funW' : Function :=
  mkFunction [("p", TPtr 0)]
    [[ mkInstr 2 (OpOther "load") [VArg 0] (TOther "i32");
       mkInstr 3 OpAddrSpaceCast [VArg 0] (TPtr 1);
       mkInstr 4 (OpOther "ret") [VInst 2] (TOther "void") ]]
    [].

Lemma RemoveNoopAddrSpaceCasts_removes_witness :
  ∃ σ : value → value,
    f_blocks funW'
    = (λ b : list instr,
         mapOperandsOf σ <$> filter (λ J, iid J ∉ noopCasts funW) b)
        <$> f_blocks funW ∧
    (∀ J', J' ∈ instructions funW' → isNoopCast funW' J' = false) ∧
    (∀ v c, c ∈ noopCasts funW → isInst c (σ v) = false).
Proof.
  destruct (RemoveNoopAddrSpaceCasts_removes funW funW' false)
    as (σ & _ & _ & H1 & _ & H2 & _ & H3 & _).
  - apply (bool_decide_unpack _). by vm_compute.
  - reflexivity.
  - exists σ. auto.
Defined.

(** C4, on the code: the eliminator removes the cast [%1] of [funW] and
    returns [false]. *)
Theorem RemoveNoopAddrSpaceCasts_changed_funW :
  RemoveNoopAddrSpaceCasts funW = Some (funW', false) ∧ funW' ≠ funW.
Proof. split; [reflexivity|discriminate]. Qed.

Example funW_returns : ∃ F', RemoveNoopAddrSpaceCasts funW = Some (F', false).
Proof.
  apply (RemoveNoopAddrSpaceCasts_returns funW (λ n, n)).
  - apply (bool_decide_unpack _). by vm_compute.
  - repeat constructor; simpl; try done; by eexists.
  - repeat constructor; simpl; try done; lia.
Qed.

(** ** Reasoning about the driver: identities and names *)

(** The header of a global value: what the properties of the module's
    declarations look at. *)
Definition hdr (g : GlobalValue) : nat * kind * string * N :=
  (g_id g, kindOf g, g_name g, g_addrspace g).

Definition updIn (id : nat) (upd : GlobalValue → GlobalValue)
    (l : list GlobalValue) : list GlobalValue :=
  (λ g, if decide (g_id g = id) then upd g else g) <$> l.

(** Global values with the same name, if it is not empty, are the same
    global value. *)
Definition namesUnique (l : list GlobalValue) : Prop :=
  Forall (λ g1, Forall (λ g2, g_name g1 = g_name g2 → g_name g1 ≠ "" →
                              g_id g1 = g_id g2) l) l.

Lemma namesUnique_elem l g1 g2 :
  namesUnique l → g1 ∈ l → g2 ∈ l → g_name g1 = g_name g2 →
  g_name g1 ≠ "" → g_id g1 = g_id g2.
Proof.
  unfold namesUnique. rewrite Forall_forall. intros H H1 H2.
  specialize (H g1 H1). rewrite Forall_forall in H. by apply H.
Qed.

Lemma namesUnique_intro l :
  (∀ g1 g2, g1 ∈ l → g2 ∈ l → g_name g1 = g_name g2 → g_name g1 ≠ "" →
            g_id g1 = g_id g2) →
  namesUnique l.
Proof.
  intros H. apply Forall_forall. intros g1 H1.
  apply Forall_forall. intros g2 H2. by apply H.
Qed.

Lemma lookupGlobalIn_Some l id g :
  lookupGlobalIn l id = Some g → g ∈ l ∧ g_id g = id.
Proof.
  induction l as [|h l IH]; simpl; [done|].
  case_decide.
  - intros [= <-]. split; [apply list_elem_of_here|done].
  - intros [? ?]%IH. split; [by apply list_elem_of_further|done].
Qed.

Lemma lookupGlobalIn_None l id :
  lookupGlobalIn l id = None → id ∉ g_id <$> l.
Proof.
  induction l as [|h l IH]; simpl; [intros _; apply not_elem_of_nil|].
  case_decide; [done|]. intros Hn. apply not_elem_of_cons. auto.
Qed.

Lemma lookupGlobalIn_elem l g :
  NoDup (g_id <$> l) → g ∈ l → lookupGlobalIn l (g_id g) = Some g.
Proof.
  induction l as [|h l IH]; simpl; intros Hnd Hg.
  { by apply elem_of_nil in Hg. }
  apply NoDup_cons in Hnd as [Hh Hnd].
  apply elem_of_cons in Hg as [->|Hg]; [by rewrite decide_True|].
  rewrite decide_False; [by apply IH|].
  intros Heq. apply Hh. apply list_elem_of_fmap. eauto.
Qed.

Lemma updIn_proj {B} (π : GlobalValue → B) id upd l :
  (∀ g, g ∈ l → g_id g = id → π (upd g) = π g) →
  π <$> updIn id upd l = π <$> l.
Proof.
  intros H. unfold updIn. rewrite <- list_fmap_compose.
  apply list_fmap_ext. intros i g Hg. simpl.
  case_decide; [|done]. apply H; [|done]. by eapply list_elem_of_lookup_2.
Qed.

Lemma updIn_app id upd l1 l2 :
  updIn id upd (l1 ++ l2) = updIn id upd l1 ++ updIn id upd l2.
Proof. apply fmap_app. Qed.

Lemma updIn_absent id upd l : id ∉ g_id <$> l → updIn id upd l = l.
Proof.
  intros H. unfold updIn. rewrite <- (list_fmap_id l) at 2.
  apply list_fmap_ext. intros i g Hg. simpl.
  rewrite decide_False; [done|]. intros Heq. apply H.
  apply list_elem_of_fmap. exists g. split; [done|].
  by eapply list_elem_of_lookup_2.
Qed.

Lemma elem_of_updIn id upd l g' :
  g' ∈ updIn id upd l →
  ∃ g, g ∈ l ∧ ((g_id g = id ∧ g' = upd g) ∨ (g_id g ≠ id ∧ g' = g)).
Proof.
  unfold updIn. intros (g & -> & Hg)%list_elem_of_fmap.
  exists g. split; [done|]. case_decide; auto.
Qed.

Lemma elem_of_namesExceptOf l id n :
  n ∈ namesExceptOf l id ↔ ∃ g, g ∈ l ∧ g_id g ≠ id ∧ g_name g = n ∧ n ≠ "".
Proof.
  unfold namesExceptOf. rewrite elem_of_list_to_set, list_elem_of_omap.
  split.
  - intros (g & Hg & Hn). case_decide as Hc; [|done].
    injection Hn as <-. exists g. naive_solver.
  - intros (g & Hg & Hid & <- & Hne). exists g. split; [done|].
    by rewrite decide_True.
Qed.

Lemma string_app_nil_r (s : string) : s +:+ "" = s.
Proof.
  induction s as [|c s IH]; [done|].
  change (String c (s +:+ "") = String c s). by rewrite IH.
Qed.

Lemma fresh_string_prefix {A} (m : stringmap A) s :
  ∃ suf, fresh_string s m = s +:+ suf.
Proof.
  unfold fresh_string. destruct (m !! s) as [a|].
  - generalize 0%N (wf_guard 32 (stringmap.fresh_string_R_wf s m) 0%N).
    fix FIX 2. intros n [?]; simpl. unfold fresh_string_go at 1; simpl.
    destruct (Some_dec (m !! _)) as [[??]|?]; [apply FIX|by eexists].
  - exists "". by rewrite string_app_nil_r.
Qed.

Lemma fresh_string_free {A} (m : stringmap A) s :
  m !! s = None → fresh_string s m = s.
Proof. intros H. unfold fresh_string. by rewrite H. Qed.

Lemma fresh_string_of_set_free (X : stringset) s :
  s ∉ X → fresh_string_of_set s X = s.
Proof.
  intros H. apply fresh_string_free.
  destruct (mapset.mapset_car X !! s) as [[]|] eqn:E; [|done].
  destruct H. done.
Qed.

Lemma string_app_assoc (a b c : string) : (a +:+ b) +:+ c = a +:+ (b +:+ c).
Proof.
  induction a as [|x a IH]; [done|].
  change (String x ((a +:+ b) +:+ c) = String x (a +:+ (b +:+ c))).
  by rewrite IH.
Qed.

Lemma bad_name_differs (N suf : string) : (N +:+ ".bad") +:+ suf ≠ N.
Proof.
  rewrite string_app_assoc. intros H.
  assert (N +:+ (".bad" +:+ suf) = N +:+ "") as H'.
  { by rewrite H, string_app_nil_r. }
  apply (inj (String.app N)) in H'. done.
Qed.

Lemma freshId_fresh M : freshId M ∉ g_id <$> m_globals M.
Proof.
  unfold freshId. intros H. apply max_list_elem_of_le in H. lia.
Qed.

Lemma namesUnique_updIn l id n' :
  NoDup (g_id <$> l) → namesUnique l →
  (n' ≠ "" → n' ∉ namesExceptOf l id) →
  namesUnique (updIn id (setName n') l).
Proof.
  intros Hnd Hu Hfresh. apply namesUnique_intro.
  intros g1' g2' (g1 & H1 & C1)%elem_of_updIn (g2 & H2 & C2)%elem_of_updIn.
  destruct C1 as [[E1 ->]|[E1 ->]]; destruct C2 as [[E2 ->]|[E2 ->]]; simpl.
  - congruence.
  - intros Hn Hne. destruct (Hfresh Hne).
    apply elem_of_namesExceptOf. exists g2. by rewrite <- Hn.
  - intros Hn Hne. rewrite Hn in Hne. destruct (Hfresh Hne).
    apply elem_of_namesExceptOf. exists g1. by rewrite Hn.
  - by apply (namesUnique_elem l).
Qed.

(** [Value::setName], on a module whose identities and names are
    distinct. *)
Lemma Value_setName_spec M id Name g :
  NoDup (g_id <$> m_globals M) → namesUnique (m_globals M) →
  lookupGlobal M id = Some g →
  ∃ n', m_globals (Value_setName M id Name)
        = updIn id (setName n') (m_globals M) ∧
        (n' ≠ "" → n' ∉ namesExceptOf (m_globals M) id) ∧
        (Name = "" ∨ Name ∉ namesExceptOf (m_globals M) id → n' = Name) ∧
        ∃ suf, n' = Name +:+ suf.
Proof.
  intros Hnd Hu Hg. unfold Value_setName. rewrite Hg.
  destruct (lookupGlobalIn_Some _ _ _ Hg) as [Hin Hid].
  destruct (decide (Name = g_name g)) as [->|Hne].
  - exists (g_name g). split; [|split; [|split]].
    + symmetry. unfold updIn. rewrite <- (list_fmap_id (m_globals M)) at 2.
      apply list_fmap_ext. intros i h Hh. simpl. case_decide as Hc; [|done].
      assert (h = g) as ->; [|by destruct g].
      pose proof (list_elem_of_lookup_2 _ _ _ Hh) as Hh'.
      pose proof (lookupGlobalIn_elem _ _ Hnd Hh') as Hl.
      unfold lookupGlobal in Hg. rewrite Hc, Hg in Hl. by injection Hl.
    + intros Hne (h & Hh & Hhid & Hhn & _)%elem_of_namesExceptOf.
      apply Hhid. rewrite <- Hid. symmetry.
      by apply (namesUnique_elem _ _ _ Hu Hin Hh).
    + done.
    + exists "". by rewrite string_app_nil_r.
  - destruct (decide (Name = "")) as [->|Hne'].
    + exists "". split; [done|]. split; [done|]. split; [done|]. by exists "".
    + exists (fresh_string_of_set Name (namesExceptOf (m_globals M) id)).
      split; [done|]. split; [|split].
      * intros _. apply fresh_string_of_set_fresh.
      * intros [?|?]; [done|]. by apply fresh_string_of_set_free.
      * apply fresh_string_prefix.
Qed.

Lemma Value_setName_absent M id Name :
  lookupGlobal M id = None → Value_setName M id Name = M.
Proof. intros H. unfold Value_setName. by rewrite H. Qed.

(** *** The declare phase *)

(** The state of the module during the declare phase: the global values of
    the start, [l0], of which those of [doneO] have given their name to a
    new global value of the same kind, in this order. *)
Definition origRel (doneO : list GlobalValue) (o o0 : GlobalValue) : Prop :=
  ∃ n, o = setName n o0 ∧ (g_id o0 ∉ g_id <$> doneO → n = g_name o0).

Definition newRel (n o0 : GlobalValue) : Prop :=
  kindOf n = kindOf o0 ∧ g_name n = g_name o0 ∧
  (kindOf o0 = KFunction → g_addrspace n = g_addrspace o0).

Record declInv (l0 l : list GlobalValue) (doneO : list GlobalValue) : Prop :=
  mkDeclInv {
    di_split : ∃ origs news,
      l = origs ++ news ∧ Forall2 (origRel doneO) origs l0 ∧
      Forall2 newRel news doneO ∧
      Forall (λ n, g_id n ∉ g_id <$> l0) news;
    di_ids : NoDup (g_id <$> l);
    di_names : namesUnique l
  }.

Lemma origRel_ids doneO origs l0 :
  Forall2 (origRel doneO) origs l0 → g_id <$> origs = g_id <$> l0.
Proof.
  induction 1 as [|o o0 origs l0 (n & -> & _) _ IH]; [done|].
  rewrite !fmap_cons. by f_equal.
Qed.

Lemma origRel_kinds doneO origs l0 k :
  Forall2 (origRel doneO) origs l0 →
  g_id <$> filter (λ g, kindOf g = k) origs
  = g_id <$> filter (λ g, kindOf g = k) l0.
Proof.
  induction 1 as [|o o0 origs l0 (n & -> & _) _ IH]; [done|].
  rewrite !filter_cons. simpl.
  change (kindOf (setName n o0)) with (kindOf o0).
  destruct (decide (kindOf o0 = k)); [|done].
  rewrite !fmap_cons. by f_equal.
Qed.

Lemma declInv_init l0 :
  NoDup (g_id <$> l0) → namesUnique l0 → declInv l0 l0 [].
Proof.
  intros Hnd Hu. constructor; try done.
  exists l0, []. rewrite app_nil_r. split; [done|]. split; [|split; constructor].
  apply Forall_Forall2_diag, Forall_forall. intros o _.
  exists (g_name o). split; [by destruct o|done].
Qed.

(** An update that keeps identity, kind, name and address space keeps the
    invariant. *)
Lemma declInv_update l0 M doneO id g upd :
  declInv l0 (m_globals M) doneO → lookupGlobal M id = Some g →
  id ∉ g_id <$> l0 →
  (∀ g, hdr (upd g) = hdr g) →
  declInv l0 (m_globals (updateGlobal M id upd)) doneO.
Proof.
  intros [(origs & news & Hl & Ho & Hn & Hf) Hnd Hu] Hg Hid Hupd.
  assert (∀ g, g_id (upd g) = g_id g ∧ kindOf (upd g) = kindOf g ∧
               g_name (upd g) = g_name g ∧ g_addrspace (upd g) = g_addrspace g)
    as Hupd'.
  { intros h. specialize (Hupd h). unfold hdr in Hupd. by simplify_eq. }
  change (m_globals (updateGlobal M id upd)) with (updIn id upd (m_globals M)).
  constructor.
  - exists origs, (updIn id upd news). rewrite Hl, updIn_app.
    rewrite (updIn_absent id upd origs)
      by (by rewrite (origRel_ids _ _ _ Ho)).
    split; [done|]. split; [done|]. split.
    + clear -Hn Hupd'. induction Hn as [|n o news doneO Hr _ IH]; [done|].
      constructor; [|done]. destruct Hr as (? & ? & ?).
      case_decide; [|done]. unfold newRel.
      destruct (Hupd' n) as (_ & -> & -> & ->). done.
    + apply Forall_forall. intros n' (n & Hn' & C)%elem_of_updIn.
      rewrite Forall_forall in Hf. specialize (Hf n Hn').
      destruct C as [[_ ->]|[_ ->]]; [|done].
      by destruct (Hupd' n) as (-> & _).
  - rewrite updIn_proj; [done|]. intros h _ _. apply Hupd'.
  - apply namesUnique_intro.
    intros g1' g2' (g1 & H1 & C1)%elem_of_updIn (g2 & H2 & C2)%elem_of_updIn.
    assert (g_id g1' = g_id g1 ∧ g_name g1' = g_name g1) as [-> ->].
    { destruct C1 as [[_ ->]|[_ ->]]; [|done]. by destruct (Hupd' g1) as (-> & _ & -> & _). }
    assert (g_id g2' = g_id g2 ∧ g_name g2' = g_name g2) as [-> ->].
    { destruct C2 as [[_ ->]|[_ ->]]; [|done]. by destruct (Hupd' g2) as (-> & _ & -> & _). }
    by apply (namesUnique_elem (m_globals M)).
Qed.

Lemma namesUnique_snoc l g :
  namesUnique l → g_name g = "" → namesUnique (l ++ [g]).
Proof.
  intros Hu Hg. apply namesUnique_intro. intros g1 g2.
  rewrite !elem_of_app, !list_elem_of_singleton.
  intros [H1| ->] [H2| ->] Hn Hne; try congruence.
  by apply (namesUnique_elem l).
Qed.

Lemma origRel_elem doneO origs l0 x :
  Forall2 (origRel doneO) origs l0 → x ∈ origs →
  ∃ o0, o0 ∈ l0 ∧ origRel doneO x o0.
Proof.
  intros HF (i & Hi)%list_elem_of_lookup_1.
  destruct (Forall2_lookup_l _ _ _ _ _ HF Hi) as (o0 & Ho0 & Hr).
  exists o0. split; [by eapply list_elem_of_lookup_2|done].
Qed.

Lemma ids_unique_elem (l : list GlobalValue) g1 g2 :
  NoDup (g_id <$> l) → g1 ∈ l → g2 ∈ l → g_id g1 = g_id g2 → g1 = g2.
Proof.
  intros Hnd H1 H2 Heq.
  pose proof (lookupGlobalIn_elem _ _ Hnd H1) as L1.
  pose proof (lookupGlobalIn_elem _ _ Hnd H2) as L2.
  rewrite Heq, L2 in L1. by injection L1.
Qed.

(** The step of the declare phase: the original gives up its name and the
    replacement takes it. *)
Lemma declare_step l0 M doneO o GV new M1 Name M2 nid :
  declInv l0 (m_globals M) doneO → o ∈ l0 → g_id o ∉ g_id <$> doneO →
  lookupGlobal M (g_id o) = Some GV →
  (∀ nid, g_id (new nid) = nid ∧ g_name (new nid) = "" ∧
          kindOf (new nid) = kindOf o ∧
          (kindOf o = KFunction → g_addrspace (new nid) = g_addrspace o)) →
  renameOriginal M GV = (M1, Name) → createGlobal M1 new Name = (M2, nid) →
  declInv l0 (m_globals M2) (doneO ++ [o]) ∧
  lookupGlobal M2 nid = Some (setName (g_name o) (new nid)) ∧
  nid ∉ g_id <$> l0.
Proof.
  intros [(origs & news & Hl & Ho & Hn & Hf) Hnd Hu] Hin Hdone HGV Hnew Hren Hcre.
  pose proof (origRel_ids _ _ _ Ho) as Hids.
  assert (NoDup (g_id <$> l0)) as Hnd0.
  { rewrite <- Hids. rewrite Hl, fmap_app in Hnd. by apply NoDup_app in Hnd as [? _]. }
  destruct (lookupGlobalIn_Some _ _ _ HGV) as [HGVin HGVid].
  assert (∀ n, n ∈ news → g_id n ≠ g_id o) as Hnews.
  { intros n Hn' Heq. rewrite Forall_forall in Hf. apply (Hf n Hn').
    rewrite Heq. apply list_elem_of_fmap. eauto. }
  assert (g_name GV = g_name o) as HGVname.
  { rewrite Hl in HGVin. apply elem_of_app in HGVin as [HGVo|HGVn].
    - destruct (origRel_elem _ _ _ _ Ho HGVo) as (o0 & Ho0 & n & -> & Hn0).
      simpl in HGVid. assert (o0 = o) as -> by (by eapply ids_unique_elem).
      simpl. by apply Hn0.
    - by destruct (Hnews _ HGVn). }
  (* the module after the renaming of the original *)
  assert (∃ origs1,
            m_globals M1 = origs1 ++ news ∧
            Forall2 (origRel (doneO ++ [o])) origs1 l0 ∧
            NoDup (g_id <$> m_globals M1) ∧ namesUnique (m_globals M1) ∧
            Name = g_name o ∧
            (Name ≠ "" → ∀ g, g ∈ m_globals M1 → g_name g ≠ Name))
    as (origs1 & Hl1 & Ho1 & Hnd1 & Hu1 & HName & Hfree).
  { unfold renameOriginal in Hren. rewrite HGVname in Hren.
    destruct (decide (g_name o ≠ "")) as [Hne|Hemp].
    - injection Hren as <- <-. rewrite HGVid.
      destruct (Value_setName_spec M (g_id o) (g_name o +:+ ".bad") GV Hnd Hu HGV)
        as (N' & Hl1 & Hfresh & _ & suf & HN').
      assert (NoDup (g_id <$> updIn (g_id o) (setName N') (m_globals M)))
        as Hnd1 by (by rewrite updIn_proj).
      assert (namesUnique (updIn (g_id o) (setName N') (m_globals M)))
        as Hu1 by (by apply namesUnique_updIn).
      assert (∀ g, g ∈ updIn (g_id o) (setName N') (m_globals M) →
                   g_name g ≠ g_name o) as Hfree.
      { intros g (h & Hh & C)%elem_of_updIn.
        destruct C as [[_ ->]|[Hhid ->]].
        - simpl. rewrite HN'. apply bad_name_differs.
        - intros Hhn. apply Hhid. rewrite <- HGVid.
          apply (namesUnique_elem _ _ _ Hu Hh HGVin); congruence. }
      assert (updIn (g_id o) (setName N') (m_globals M)
              = updIn (g_id o) (setName N') origs ++ news) as Heq.
      { rewrite Hl, updIn_app. f_equal. apply updIn_absent.
        intros (n & Heq & Hn')%list_elem_of_fmap. by apply (Hnews n). }
      exists (updIn (g_id o) (setName N') origs).
      rewrite Hl1. split; [done|]. split; [|by auto].
      clear -Ho. induction Ho as [|x o0 origs l0 (n & -> & Hc) _ IH];
        [constructor|].
      simpl. constructor; [|done]. case_decide as Hx.
      * exists N'. split; [done|]. intros Hnin. destruct Hnin.
        rewrite fmap_app. apply elem_of_app. right. simpl in Hx.
        rewrite Hx. apply list_elem_of_here.
      * exists n. split; [done|]. intros Hnin. apply Hc. intros Hd.
        apply Hnin. rewrite fmap_app. apply elem_of_app. by left.
    - injection Hren as <- <-. exists origs.
      split; [done|]. split; [|split; [done|split; [done|]]].
      + eapply Forall2_impl; [exact Ho|]. intros x o0 (n & -> & Hc).
        exists n. split; [done|]. intros Hnin. apply Hc. intros Hd.
        apply Hnin. rewrite fmap_app. apply elem_of_app. by left.
      + split; [|done]. by destruct (decide (g_name o = "")) as [->|]. }
  (* the module after the creation of the replacement *)
  unfold createGlobal in Hcre. injection Hcre as HM2 Hnid.
  pose proof (freshId_fresh M1) as Hfr. rewrite Hnid in Hfr, HM2.
  set (l2 := m_globals M1 ++ [new nid]).
  destruct (Hnew nid) as (Hnewid & Hnewname & Hnewkind & Hnewas).
  assert (NoDup (g_id <$> l2)) as Hnd2.
  { unfold l2. rewrite fmap_app. apply NoDup_app. split; [done|]. split.
    - intros x Hx Hx'. simpl in Hx'. apply list_elem_of_singleton in Hx'.
      subst x. by rewrite Hnewid in Hx.
    - apply NoDup_singleton. }
  assert (namesUnique l2) as Hu2 by (by apply namesUnique_snoc).
  assert (lookupGlobal (insertGlobal M1 (new nid)) nid = Some (new nid)) as Hlk.
  { unfold lookupGlobal. simpl. fold l2.
    pose proof (lookupGlobalIn_elem l2 (new nid) Hnd2) as Hx.
    rewrite Hnewid in Hx. apply Hx. unfold l2. apply elem_of_app. right.
    apply list_elem_of_here. }
  destruct (Value_setName_spec (insertGlobal M1 (new nid)) nid Name (new nid)
              Hnd2 Hu2 Hlk) as (n' & Hl2 & Hfresh2 & Hfree2 & _).
  assert (n' = Name) as ->.
  { apply Hfree2. destruct (decide (Name = "")) as [|Hne]; [by left|right].
    intros (g & Hg & Hgid & Hgn & _)%elem_of_namesExceptOf.
    simpl in Hg. apply elem_of_app in Hg as [Hg|Hg%list_elem_of_singleton].
    - by apply (Hfree Hne g).
    - subst g. by rewrite Hnewid in Hgid. }
  rewrite HM2 in Hl2. simpl in Hl2. rewrite updIn_app in Hl2.
  rewrite (updIn_absent _ _ (m_globals M1)) in Hl2 by done.
  simpl in Hl2. rewrite decide_True in Hl2 by done.
  assert (nid ∉ g_id <$> l0) as Hnid0.
  { rewrite <- (origRel_ids _ _ _ Ho1). intros Hx. apply Hfr.
    rewrite Hl1, fmap_app. apply elem_of_app. by left. }
  split; [|split; [|done]].
  - constructor.
    + exists origs1, (news ++ [setName Name (new nid)]).
      rewrite Hl2, Hl1, <- app_assoc. split; [done|]. split; [done|]. split.
      * apply Forall2_app; [done|]. constructor; [|constructor].
        unfold newRel. simpl. rewrite HName.
        change (kindOf (setName (g_name o) (new nid))) with (kindOf (new nid)).
        auto.
      * apply Forall_app. split; [done|]. constructor; [|constructor].
        simpl. by rewrite Hnewid.
    + rewrite Hl2, fmap_app. simpl. fold l2 in Hnd2. unfold l2 in Hnd2.
      by rewrite fmap_app in Hnd2.
    + rewrite Hl2.
      assert (m_globals M1 ++ [setName Name (new nid)]
              = updIn nid (setName Name) l2) as ->.
      { unfold l2. rewrite updIn_app, updIn_absent by done. simpl.
        by rewrite decide_True. }
      by apply namesUnique_updIn.
  - unfold lookupGlobal. rewrite Hl2. rewrite <- HName.
    pose proof (lookupGlobalIn_elem (m_globals M1 ++ [setName Name (new nid)])
                  (setName Name (new nid))) as Hx.
    simpl in Hx. rewrite Hnewid in Hx. apply Hx.
    + rewrite fmap_app. simpl. unfold l2 in Hnd2.
      by rewrite fmap_app in Hnd2.
    + apply elem_of_app. right. apply list_elem_of_here.
Qed.

(** ** Reasoning about the driver: the three phases *)

Lemma declInv_lookup l0 M doneO o GV :
  declInv l0 (m_globals M) doneO → o ∈ l0 →
  lookupGlobal M (g_id o) = Some GV → ∃ n, GV = setName n o.
Proof.
  intros [(origs & news & Hl & Ho & Hn & Hf) Hnd Hu] Hin HGV.
  pose proof (origRel_ids _ _ _ Ho) as Hids.
  assert (NoDup (g_id <$> l0)) as Hnd0.
  { rewrite <- Hids. rewrite Hl, fmap_app in Hnd. by apply NoDup_app in Hnd as [? _]. }
  destruct (lookupGlobalIn_Some _ _ _ HGV) as [HGVin HGVid].
  rewrite Hl in HGVin. apply elem_of_app in HGVin as [HGVo|HGVn].
  - destruct (origRel_elem _ _ _ _ Ho HGVo) as (o0 & Ho0 & n & -> & Hn0).
    simpl in HGVid. assert (o0 = o) as -> by (by eapply ids_unique_elem).
    by exists n.
  - rewrite Forall_forall in Hf. destruct (Hf GV HGVn).
    rewrite HGVid. apply list_elem_of_fmap. eauto.
Qed.

#[local] Arguments createGlobal : simpl never.
#[local] Arguments renameOriginal : simpl never.
#[local] Arguments RemoveNoopAddrSpaceCasts : simpl never.

Section DriverProofs.
Variable ASRemapper : N → N.
Variable HostMapValue :
  (mstate → value → option (mstate * option value)) →
  mstate → constant → option (mstate * option constant).
Variable getWithOperands : constant → list constant → ty → constant.
Variable HostMapMetadata :
  list (vref * vref) → metadata → option (list (vref * vref) * metadata).
Variable HostCloneFunctionInto :
  (mstate → constant → option (mstate * option constant)) →
  (state → ty → option (state * ty)) →
  mstate → GlobalValue → GlobalValue → option (mstate * Function).
Variable intrinsicName : string → ty → option string.

Lemma declareVariable_inv fuel l0 M σ doneO o M' σ' :
  declInv l0 (m_globals M) doneO → o ∈ l0 → g_id o ∉ g_id <$> doneO →
  declareVariable ASRemapper fuel (M, σ) (g_id o) = Some (M', σ') →
  declInv l0 (m_globals M') (doneO ++ [o]).
Proof.
  intros Hinv Hin Hdone. unfold declareVariable. destruct σ as [VM ts].
  destruct (lookupGlobal M (g_id o)) as [GV|] eqn:HGV; [cbn|done].
  destruct (declInv_lookup _ _ _ _ _ Hinv Hin HGV) as (n & ->). cbn.
  destruct (g_payload o) as [isC tlm init md| |] eqn:Hp; try done.
  destruct (renameOriginal M (setName n o)) as [M1 Name] eqn:Hren.
  destruct (remapType ASRemapper fuel ts (g_valueType o)) as [[ts1 VTy]|];
    [cbn|done].
  destruct (remapAddressSpace ASRemapper fuel ts1 (g_addrspace o))
    as [[ts2 AS]|]; [cbn|done].
  match goal with
  | |- context [createGlobal M1 ?new Name] =>
      destruct (createGlobal M1 new Name) as [M2 nid] eqn:Hcre;
      destruct (declare_step l0 M doneO o _ new M1 Name M2 nid
                  Hinv Hin Hdone HGV) as (Hinv2 & Hlk & Hnid); [|done|done|]
  end.
  { intros i. simpl. unfold kindOf. simpl. rewrite Hp. done. }
  intros [= <- <-].
  eapply declInv_update; [done|exact Hlk|done|]. by intros [].
Qed.

Lemma declareAlias_inv fuel l0 M σ doneO o M' σ' :
  declInv l0 (m_globals M) doneO → o ∈ l0 → g_id o ∉ g_id <$> doneO →
  declareAlias ASRemapper fuel (M, σ) (g_id o) = Some (M', σ') →
  declInv l0 (m_globals M') (doneO ++ [o]).
Proof.
  intros Hinv Hin Hdone. unfold declareAlias. destruct σ as [VM ts].
  destruct (lookupGlobal M (g_id o)) as [GV|] eqn:HGV; [cbn|done].
  destruct (declInv_lookup _ _ _ _ _ Hinv Hin HGV) as (n & ->). cbn.
  destruct (g_payload o) as [| aliasee |] eqn:Hp; try done.
  destruct (renameOriginal M (setName n o)) as [M1 Name] eqn:Hren.
  destruct (remapType ASRemapper fuel ts (g_valueType o)) as [[ts1 VTy]|];
    [cbn|done].
  destruct (remapAddressSpace ASRemapper fuel ts1 (g_addrspace o))
    as [[ts2 AS]|]; [cbn|done].
  match goal with
  | |- context [createGlobal M1 ?new Name] =>
      destruct (createGlobal M1 new Name) as [M2 nid] eqn:Hcre;
      destruct (declare_step l0 M doneO o _ new M1 Name M2 nid
                  Hinv Hin Hdone HGV) as (Hinv2 & Hlk & Hnid); [|done|done|]
  end.
  { intros i. simpl. unfold kindOf. simpl. rewrite Hp. done. }
  intros [= <- <-].
  eapply declInv_update; [done|exact Hlk|done|]. by intros [].
Qed.

Lemma declareFunction_inv fuel l0 M σ doneO o M' σ' :
  declInv l0 (m_globals M) doneO → o ∈ l0 → g_id o ∉ g_id <$> doneO →
  declareFunction ASRemapper fuel (M, σ) (g_id o) = Some (M', σ') →
  declInv l0 (m_globals M') (doneO ++ [o]).
Proof.
  intros Hinv Hin Hdone. unfold declareFunction. destruct σ as [VM ts].
  destruct (lookupGlobal M (g_id o)) as [GV|] eqn:HGV; [cbn|done].
  destruct (declInv_lookup _ _ _ _ _ Hinv Hin HGV) as (n & ->). cbn.
  destruct (g_payload o) as [| |Fb] eqn:Hp; try done.
  destruct (g_valueType o) as [| |ret params isVarArg| | | |]; try done.
  destruct (renameOriginal M (setName n o)) as [M1 Name] eqn:Hren.
  destruct (remapList (remapType ASRemapper fuel) ts params) as [[ts1 Tys]|];
    [cbn|done].
  destruct (remapType ASRemapper fuel ts1 ret) as [[ts2 Ret]|]; [cbn|done].
  match goal with
  | |- context [createGlobal M1 ?new Name] =>
      destruct (createGlobal M1 new Name) as [M2 nid] eqn:Hcre;
      destruct (declare_step l0 M doneO o _ new M1 Name M2 nid
                  Hinv Hin Hdone HGV) as (Hinv2 & Hlk & Hnid); [|done|done|]
  end.
  { intros i. simpl. unfold kindOf. simpl. rewrite Hp. done. }
  by intros [= <- <-].
Qed.

(** A loop of the declare phase, over the global values [os] of the
    start. *)
Lemma declare_loop (f : Module * mstate → nat → option (Module * mstate)) l0 :
  (∀ M σ doneO o M' σ',
     declInv l0 (m_globals M) doneO → o ∈ l0 → g_id o ∉ g_id <$> doneO →
     f (M, σ) (g_id o) = Some (M', σ') →
     declInv l0 (m_globals M') (doneO ++ [o])) →
  ∀ os doneO acc acc',
    declInv l0 (m_globals acc.1) doneO →
    Forall (λ o, o ∈ l0) os → NoDup (g_id <$> (doneO ++ os)) →
    foldM f acc (g_id <$> os) = Some acc' →
    declInv l0 (m_globals acc'.1) (doneO ++ os).
Proof.
  intros Hstep os. induction os as [|o os IH]; intros doneO acc acc' Hinv Hos Hnd.
  { simpl. intros [= <-]. by rewrite app_nil_r. }
  rewrite fmap_cons. simpl.
  destruct (f acc (g_id o)) as [acc1|] eqn:Hf; [simpl|done].
  apply Forall_cons in Hos as [Ho Hos]. intros Hfold.
  rewrite cons_middle, (assoc_L (++) doneO [o] os) in Hnd |- *.
  apply (IH (doneO ++ [o]) acc1); [|done|done|done].
  destruct acc as [M σ], acc1 as [M1 σ1]. apply (Hstep M σ doneO o M1 σ1); [done|done| |done].
  rewrite fmap_app in Hnd. apply NoDup_app in Hnd as (Hnd & _ & _).
  rewrite fmap_app in Hnd. apply NoDup_app in Hnd as (_ & Hnd & _).
  intros Hx. apply (Hnd _ Hx). simpl. apply list_elem_of_here.
Qed.

Lemma kinds_perm (l : list GlobalValue) :
  filter (λ g, kindOf g = KVariable) l ++ filter (λ g, kindOf g = KAlias) l
    ++ filter (λ g, kindOf g = KFunction) l ≡ₚ l.
Proof.
  induction l as [|g l IH]; [done|].
  rewrite !filter_cons. destruct (kindOf g); simpl.
  - by f_equiv.
  - rewrite <- Permutation_middle. by f_equiv.
  - rewrite (assoc_L (++)), <- Permutation_middle, <- (assoc_L (++)). by f_equiv.
Qed.

Lemma declInv_kinds l0 l doneO k :
  declInv l0 l doneO → Forall (λ o, kindOf o ≠ k) doneO →
  g_id <$> filter (λ g, kindOf g = k) l = g_id <$> filter (λ g, kindOf g = k) l0.
Proof.
  intros [(origs & news & -> & Ho & Hn & _) _ _] Hk.
  rewrite filter_app, fmap_app, (origRel_kinds _ _ _ k Ho).
  assert (filter (λ g, kindOf g = k) news = []) as ->; [|by rewrite app_nil_r].
  clear -Hn Hk. induction Hn as [|n o news doneO (Hkind & _) _ IH]; [done|].
  apply Forall_cons in Hk as [Hk1 Hk]. rewrite filter_cons.
  rewrite decide_False by congruence. by apply IH.
Qed.

Lemma Forall_filter_kind k k' (l : list GlobalValue) :
  k ≠ k' → Forall (λ o, kindOf o ≠ k') (filter (λ g, kindOf g = k) l).
Proof.
  intros Hk. apply Forall_forall. intros g [Hg _]%list_elem_of_filter. congruence.
Qed.

Lemma Forall_filter_elem k (l : list GlobalValue) :
  Forall (λ o, o ∈ l) (filter (λ g, kindOf g = k) l).
Proof. apply Forall_forall. by intros g [_ Hg]%list_elem_of_filter. Qed.

(** The declare phase as a whole: every global value of the start has given
    its name to a new global value of its kind. *)
Lemma declare_phase fuel M σ0 acc1 acc2 acc3 :
  NoDup (g_id <$> m_globals M) → namesUnique (m_globals M) →
  foldM (declareVariable ASRemapper fuel) (M, σ0) (g_id <$> ofKind KVariable M)
    = Some acc1 →
  foldM (declareAlias ASRemapper fuel) acc1 (g_id <$> ofKind KAlias acc1.1)
    = Some acc2 →
  foldM (declareFunction ASRemapper fuel) acc2 (g_id <$> ofKind KFunction acc2.1)
    = Some acc3 →
  declInv (m_globals M) (m_globals acc3.1)
    (ofKind KVariable M ++ ofKind KAlias M ++ ofKind KFunction M) ∧
  g_id <$> ofKind KAlias acc1.1 = g_id <$> ofKind KAlias M ∧
  g_id <$> ofKind KFunction acc2.1 = g_id <$> ofKind KFunction M.
Proof.
  intros Hnd Hu H1 H2 H3.
  pose proof (kinds_perm (m_globals M)) as Hperm.
  assert (NoDup (g_id <$> (ofKind KVariable M ++ ofKind KAlias M
                             ++ ofKind KFunction M))) as Hnd'.
  { unfold ofKind. by rewrite Hperm. }
  pose proof (declInv_init _ Hnd Hu) as I0.
  assert (declInv (m_globals M) (m_globals acc1.1) (ofKind KVariable M)) as I1.
  { apply (declare_loop _ _ (declareVariable_inv fuel (m_globals M))
             (ofKind KVariable M) [] (M, σ0) acc1); [done| | |done].
    - apply Forall_filter_elem.
    - simpl. rewrite fmap_app in Hnd'. by apply NoDup_app in Hnd' as [? _]. }
  assert (g_id <$> ofKind KAlias acc1.1 = g_id <$> ofKind KAlias M) as E1.
  { apply (declInv_kinds _ _ _ _ I1). by apply Forall_filter_kind. }
  rewrite E1 in H2.
  assert (declInv (m_globals M) (m_globals acc2.1)
            (ofKind KVariable M ++ ofKind KAlias M)) as I2.
  { apply (declare_loop _ _ (declareAlias_inv fuel (m_globals M))
             (ofKind KAlias M) _ acc1 acc2); [done| | |done].
    - apply Forall_filter_elem.
    - rewrite (assoc_L (++)), fmap_app in Hnd'.
      by apply NoDup_app in Hnd' as [? _]. }
  assert (g_id <$> ofKind KFunction acc2.1 = g_id <$> ofKind KFunction M) as E2.
  { apply (declInv_kinds _ _ _ _ I2). apply Forall_app.
    split; by apply Forall_filter_kind. }
  rewrite E2 in H3. split; [|done].
  rewrite (assoc_L (++)).
  apply (declare_loop _ _ (declareFunction_inv fuel (m_globals M))
           (ofKind KFunction M) _ acc2 acc3); [done| | |done].
  - apply Forall_filter_elem.
  - by rewrite <- (assoc_L (++)).
Qed.

(** *** The define phase keeps identity, kind, name and address space *)

Lemma hdr_kind_of (l l' : list GlobalValue) g h :
  NoDup (g_id <$> l) → hdr <$> l' = hdr <$> l → g ∈ l → h ∈ l' →
  g_id h = g_id g → kindOf h = kindOf g.
Proof.
  intros Hnd Hh Hg Hh' Hid.
  assert (hdr h ∈ hdr <$> l) as (g2 & Heq & Hg2)%list_elem_of_fmap.
  { rewrite <- Hh. apply list_elem_of_fmap. eauto. }
  unfold hdr in Heq. simplify_eq.
  assert (g2 = g) as -> by (eapply ids_unique_elem; [done..|congruence]).
  done.
Qed.

Lemma hdr_ids (l l' : list GlobalValue) :
  hdr <$> l' = hdr <$> l → g_id <$> l' = g_id <$> l.
Proof.
  intros H. apply (f_equal (fmap (λ h : nat * kind * string * N, h.1.1.1))) in H.
  by rewrite <- !list_fmap_compose in H.
Qed.

Lemma hdr_copyComdat Src Dst : hdr (copyComdat Src Dst) = hdr Dst.
Proof. unfold copyComdat. by destruct (g_comdat Src). Qed.

Lemma hdr_setPayload p g :
  kindOf (setPayload p g) = kindOf g → hdr (setPayload p g) = hdr g.
Proof. unfold hdr. by intros ->. Qed.

(** An update of the global value [id] that keeps the kind. *)
Lemma updateGlobal_hdr M id g upd :
  NoDup (g_id <$> m_globals M) → lookupGlobal M id = Some g →
  hdr (upd g) = hdr g →
  hdr <$> m_globals (updateGlobal M id upd) = hdr <$> m_globals M.
Proof.
  intros Hnd Hg Hupd. apply updIn_proj. intros h Hh Hid.
  destruct (lookupGlobalIn_Some _ _ _ Hg) as [Hin Hgid].
  assert (h = g) as -> by (eapply ids_unique_elem; [done..|congruence]).
  done.
Qed.

Lemma updateGlobal_hdr_kind M0 M id g upd :
  NoDup (g_id <$> m_globals M0) → hdr <$> m_globals M = hdr <$> m_globals M0 →
  lookupGlobal M0 id = Some g →
  (∀ h, kindOf h = kindOf g → hdr (upd h) = hdr h) →
  hdr <$> m_globals (updateGlobal M id upd) = hdr <$> m_globals M.
Proof.
  intros Hnd Hh Hg Hupd. apply updIn_proj. intros h Hin Hid.
  destruct (lookupGlobalIn_Some _ _ _ Hg) as [Hgin Hgid].
  apply Hupd. eapply hdr_kind_of; [done..|congruence].
Qed.

Lemma defineVariable_hdr fuel M σ id M' σ' :
  NoDup (g_id <$> m_globals M) →
  defineVariable ASRemapper HostMapValue getWithOperands HostMapMetadata fuel
    (M, σ) id = Some (M', σ') →
  hdr <$> m_globals M' = hdr <$> m_globals M.
Proof.
  intros Hnd. unfold defineVariable.
  destruct (lookupGlobal M id) as [GV|] eqn:HGV; [cbn|done].
  destruct (g_payload GV) as [isC tlm [Init|] MDs| |] eqn:Hp; try done;
    [|by intros [= <- <-]].
  destruct (VMap_global σ.1 id) as [nid|]; [cbn|done].
  destruct (lookupGlobal M nid) as [NGV|] eqn:HNGV; [cbn|done].
  destruct (g_payload NGV) as [isC' tlm' Init' MDs'| |] eqn:Hp'; try done.
  destruct (MapValue _ _ _ _ _ _) as [[σ1 NewInit]|]; [cbn|done].
  destruct (mapAttachments _ _ _) as [[VM2 NewMDs]|]; [cbn|done].
  intros [= <- <-].
  match goal with
  | |- context [updateGlobal (updateGlobal M nid ?u) id _] =>
      assert (hdr <$> m_globals (updateGlobal M nid u) = hdr <$> m_globals M)
        as H1
  end.
  { eapply updateGlobal_hdr; [done..|]. rewrite hdr_copyComdat.
    apply hdr_setPayload. unfold kindOf. simpl. by rewrite Hp'. }
  etrans; [|exact H1]. eapply (updateGlobal_hdr_kind M); [done..|].
  intros h Hk. apply hdr_setPayload. rewrite Hk. unfold kindOf. simpl.
  by rewrite Hp.
Qed.

Lemma defineAlias_hdr fuel M σ id M' σ' :
  NoDup (g_id <$> m_globals M) →
  defineAlias ASRemapper HostMapValue getWithOperands fuel (M, σ) id
    = Some (M', σ') →
  hdr <$> m_globals M' = hdr <$> m_globals M.
Proof.
  intros Hnd. unfold defineAlias.
  destruct (lookupGlobal M id) as [GA|] eqn:HGA; [cbn|done].
  destruct (VMap_global σ.1 id) as [nid|]; [cbn|done].
  destruct (lookupGlobal M nid) as [NGA|] eqn:HNGA; [cbn|done].
  destruct (g_payload GA) as [|[C|]|] eqn:Hp; try done;
    destruct (g_payload NGA) as [|C'|] eqn:Hp'; try done;
    [|by intros [= <- <-]].
  destruct (MapValue _ _ _ _ _ _) as [[σ1 NewC]|]; [cbn|done].
  intros [= <- <-].
  match goal with
  | |- context [updateGlobal (updateGlobal M nid ?u) id _] =>
      assert (hdr <$> m_globals (updateGlobal M nid u) = hdr <$> m_globals M)
        as H1
  end.
  { eapply updateGlobal_hdr; [done..|].
    apply hdr_setPayload. unfold kindOf. simpl. by rewrite Hp'. }
  etrans; [|exact H1]. eapply (updateGlobal_hdr_kind M); [done..|].
  intros h Hk. apply hdr_setPayload. rewrite Hk. unfold kindOf. simpl.
  by rewrite Hp.
Qed.

Lemma defineFunction_hdr fuel M σ id M' σ' :
  NoDup (g_id <$> m_globals M) →
  defineFunction ASRemapper HostMapValue getWithOperands HostCloneFunctionInto
    fuel (M, σ) id = Some (M', σ') →
  hdr <$> m_globals M' = hdr <$> m_globals M.
Proof.
  intros Hnd. unfold defineFunction.
  destruct (lookupGlobal M id) as [F|] eqn:HF; [cbn|done].
  destruct (VMap_global σ.1 id) as [nid|]; [cbn|done].
  destruct (lookupGlobal M nid) as [NF|] eqn:HNF; [cbn|done].
  destruct (g_payload F) as [| |Fb] eqn:Hp; try done;
    destruct (g_payload NF) as [| |NFb] eqn:Hp'; try done.
  destruct (HostCloneFunctionInto _ _ _ _ _) as [[σ2 NFb2]|]; [cbn|done].
  destruct (remapAttrs _ _ _ _) as [[ts3 Attrs]|]; [cbn|done].
  match goal with |- context [RemoveNoopAddrSpaceCasts ?x] =>
    destruct (RemoveNoopAddrSpaceCasts x) as [[NFb4 ?]|]; [cbn|done] end.
  intros [= <- <-].
  match goal with
  | |- context [updateGlobal (updateGlobal M nid ?u) id _] =>
      assert (hdr <$> m_globals (updateGlobal M nid u) = hdr <$> m_globals M)
        as H1
  end.
  { eapply updateGlobal_hdr; [done..|]. rewrite hdr_copyComdat.
    apply hdr_setPayload. unfold kindOf. simpl. by rewrite Hp'. }
  etrans; [|exact H1]. eapply (updateGlobal_hdr_kind M); [done..|].
  intros h Hk. unfold hdr. f_equal. f_equal. f_equal. rewrite Hk.
  unfold kindOf. simpl. by rewrite Hp.
Qed.

(** A loop of the define phase. *)
Lemma define_loop (f : Module * mstate → nat → option (Module * mstate)) :
  (∀ M σ id M' σ', NoDup (g_id <$> m_globals M) → f (M, σ) id = Some (M', σ') →
                   hdr <$> m_globals M' = hdr <$> m_globals M) →
  ∀ ids acc acc', NoDup (g_id <$> m_globals acc.1) →
    foldM f acc ids = Some acc' →
    hdr <$> m_globals acc'.1 = hdr <$> m_globals acc.1.
Proof.
  intros Hstep ids. induction ids as [|id ids IH]; intros acc acc' Hnd; simpl.
  { by intros [= <-]. }
  destruct (f acc id) as [acc1|] eqn:Hf; [simpl|done]. intros Hfold.
  destruct acc as [M σ], acc1 as [M1 σ1].
  pose proof (Hstep _ _ _ _ _ Hnd Hf) as H1.
  rewrite (IH (M1, σ1) acc'); [done| |done]. simpl. by rewrite (hdr_ids _ _ H1).
Qed.

(** *** The removal of the originals *)

Lemma erase_all M ids :
  m_globals (foldl eraseGlobal M ids)
  = filter (λ g, g_id g ∉ ids) (m_globals M).
Proof.
  revert M. induction ids as [|id ids IH]; intros M; simpl.
  { induction (m_globals M) as [|g l IHl]; [done|].
    rewrite filter_cons, decide_True by apply not_elem_of_nil. by f_equal. }
  rewrite IH. simpl. rewrite list_filter_filter. apply list_filter_iff.
  intros g. rewrite not_elem_of_cons. tauto.
Qed.

Lemma filter_id_hdr (olds : list nat) (l l' : list GlobalValue) :
  hdr <$> l = hdr <$> l' →
  hdr <$> filter (λ g, g_id g ∉ olds) l = hdr <$> filter (λ g, g_id g ∉ olds) l'.
Proof.
  revert l'. induction l as [|g l IH]; intros [|g' l']; try done.
  rewrite !fmap_cons. intros Hc.
  assert (hdr g = hdr g') as Hg by congruence.
  assert (hdr <$> l = hdr <$> l') as Hl by congruence. rewrite !filter_cons.
  assert (g_id g = g_id g') as Hid by (unfold hdr in Hg; congruence).
  rewrite Hid. destruct (decide (g_id g' ∉ olds)); [|by apply IH].
  rewrite !fmap_cons. f_equal; [done|by apply IH].
Qed.

Lemma filter_kind_hdr k (l l' : list GlobalValue) :
  hdr <$> l = hdr <$> l' →
  hdr <$> filter (λ g, kindOf g = k) l = hdr <$> filter (λ g, kindOf g = k) l'.
Proof.
  revert l'. induction l as [|g l IH]; intros [|g' l']; try done.
  rewrite !fmap_cons. intros Hc.
  assert (hdr g = hdr g') as Hg by congruence.
  assert (hdr <$> l = hdr <$> l') as Hl by congruence. rewrite !filter_cons.
  assert (kindOf g = kindOf g') as Hid by (unfold hdr in Hg; congruence).
  rewrite Hid. destruct (decide (kindOf g' = k)); [|by apply IH].
  rewrite !fmap_cons. f_equal; [done|by apply IH].
Qed.

Lemma hdr_names (l l' : list GlobalValue) :
  hdr <$> l = hdr <$> l' → g_name <$> l = g_name <$> l'.
Proof.
  intros H. apply (f_equal (fmap (λ h : nat * kind * string * N, h.1.2))) in H.
  by rewrite <- !list_fmap_compose in H.
Qed.

Lemma hdr_addrspaces (l l' : list GlobalValue) :
  hdr <$> l = hdr <$> l' → g_addrspace <$> l = g_addrspace <$> l'.
Proof.
  intros H. apply (f_equal (fmap (λ h : nat * kind * string * N, h.2))) in H.
  by rewrite <- !list_fmap_compose in H.
Qed.

Lemma filter_kind_kind k k' (l : list GlobalValue) :
  filter (λ g, kindOf g = k) (filter (λ g, kindOf g = k') l)
  = if decide (k = k') then filter (λ g, kindOf g = k) l else [].
Proof.
  induction l as [|g l IH]; [by case_decide|].
  rewrite (filter_cons _ g l).
  destruct (decide (kindOf g = k')) as [Hk'|Hk']; rewrite ?filter_cons, IH;
    destruct (decide (k = k')) as [->|Hne]; rewrite ?filter_cons;
    repeat case_decide; congruence.
Qed.

Lemma filter_kinds k (l : list GlobalValue) :
  filter (λ g, kindOf g = k)
    (filter (λ g, kindOf g = KVariable) l ++ filter (λ g, kindOf g = KAlias) l
       ++ filter (λ g, kindOf g = KFunction) l)
  = filter (λ g, kindOf g = k) l.
Proof.
  rewrite !filter_app, !filter_kind_kind.
  destruct k; repeat case_decide; try done; simpl; by rewrite ?app_nil_r.
Qed.

Lemma newRel_kinds k news doneO :
  Forall2 newRel news doneO →
  Forall2 newRel (filter (λ g, kindOf g = k) news)
                 (filter (λ g, kindOf g = k) doneO).
Proof.
  induction 1 as [|n o news doneO Hr _ IH]; [constructor|].
  rewrite !filter_cons. destruct Hr as (Hk & Hr). rewrite Hk.
  destruct (decide (kindOf o = k)); [|done]. constructor; [|done].
  by split.
Qed.

(** *** The module after the three phases *)

Lemma rebuild_spec fuel ctx M ctx' M1 :
  NoDup (g_id <$> m_globals M) → namesUnique (m_globals M) →
  rebuild ASRemapper HostMapValue getWithOperands HostMapMetadata
    HostCloneFunctionInto fuel ctx M = Some (ctx', M1) →
  ∃ news,
    hdr <$> m_globals M1 = hdr <$> news ∧
    Forall2 newRel news
      (ofKind KVariable M ++ ofKind KAlias M ++ ofKind KFunction M) ∧
    NoDup (g_id <$> m_globals M1).
Proof.
  intros Hnd Hu. unfold rebuild.
  destruct (foldM (declareVariable _ _) _ _) as [acc1|] eqn:H1; [cbn|done].
  destruct (foldM (declareAlias _ _) _ _) as [acc2|] eqn:H2; [cbn|done].
  destruct (foldM (declareFunction _ _) _ _) as [acc3|] eqn:H3; [cbn|done].
  destruct (declare_phase _ _ _ _ _ _ Hnd Hu H1 H2 H3) as (Hinv & E1 & E2).
  rewrite E1, E2. clear H1 H2 H3.
  destruct (foldM (defineVariable _ _ _ _ _) _ _) as [acc4|] eqn:H4; [cbn|done].
  destruct (foldM (defineFunction _ _ _ _ _) _ _) as [acc5|] eqn:H5; [cbn|done].
  destruct (foldM (defineAlias _ _ _ _) _ _) as [[M6 σ6]|] eqn:H6; [cbn|done].
  destruct (mapNamedMetadata _ _ _) as [[VM7 NMDs]|]; [cbn|done].
  intros [= <- <-].
  destruct Hinv as [(origs & news & Hl & Ho & Hn & Hf) Hnd3 Hu3].
  apply (define_loop _ (defineVariable_hdr fuel)) in H4; [|done].
  assert (NoDup (g_id <$> m_globals acc4.1)) as Hnd4
    by (by rewrite (hdr_ids _ _ H4)).
  apply (define_loop _ (defineFunction_hdr fuel)) in H5; [|done].
  assert (NoDup (g_id <$> m_globals acc5.1)) as Hnd5
    by (by rewrite (hdr_ids _ _ H5)).
  apply (define_loop _ (defineAlias_hdr fuel)) in H6; [|done].
  simpl in H6. rewrite H5, H4, Hl in H6.
  set (olds := (g_id <$> ofKind KVariable M) ++ (g_id <$> ofKind KAlias M)
                ++ (g_id <$> ofKind KFunction M)).
  assert (∀ i, i ∈ olds ↔ i ∈ g_id <$> m_globals M) as Hids.
  { intros i. unfold olds, ofKind. rewrite <- !fmap_app.
    by rewrite (kinds_perm (m_globals M)). }
  exists news. rewrite erase_all. simpl.
  assert (hdr <$> filter (λ g, g_id g ∉ olds) (m_globals M6) = hdr <$> news)
    as Hres.
  { rewrite (filter_id_hdr olds _ _ H6), filter_app.
    assert (filter (λ g, g_id g ∉ olds) origs = []) as ->.
    { apply (origRel_ids) in Ho. clear -Ho Hids.
      assert (∀ x, x ∈ origs → g_id x ∈ olds) as Hx.
      { intros x Hx. apply Hids. rewrite <- Ho. apply list_elem_of_fmap. eauto. }
      clear Ho. induction origs as [|x origs IH]; [done|].
      rewrite filter_cons, decide_False.
      - apply IH. intros y Hy. apply Hx. by apply list_elem_of_further.
      - intros Hn. apply Hn, Hx, list_elem_of_here. }
    simpl. f_equal. clear -Hf Hids. induction Hf as [|n news Hn _ IH]; [done|].
    rewrite filter_cons, decide_True; [by f_equal|]. by rewrite Hids. }
  split; [done|]. split; [done|].
  rewrite (hdr_ids _ _ Hres).
  rewrite Hl, fmap_app in Hnd3. by apply NoDup_app in Hnd3 as (_ & _ & ?).
Qed.

(** After the three phases, the global values of each kind have the names
    of the global values of that kind at the start, in their order ... *)
Lemma rebuild_names fuel ctx M ctx' M1 k :
  NoDup (g_id <$> m_globals M) → namesUnique (m_globals M) →
  rebuild ASRemapper HostMapValue getWithOperands HostMapMetadata
    HostCloneFunctionInto fuel ctx M = Some (ctx', M1) →
  g_name <$> ofKind k M1 = g_name <$> ofKind k M.
Proof.
  intros Hnd Hu Hr.
  destruct (rebuild_spec _ _ _ _ _ Hnd Hu Hr) as (news & Hh & Hn & _).
  unfold ofKind in *. rewrite (hdr_names _ _ (filter_kind_hdr k _ _ Hh)).
  apply (newRel_kinds k) in Hn. rewrite filter_kinds in Hn.
  induction Hn as [|n o ns os (_ & Hname & _) _ IH]; [done|].
  rewrite !fmap_cons. by f_equal.
Qed.

(** ... and the functions have the address spaces of the functions of the
    start. *)
Lemma rebuild_function_addrspaces fuel ctx M ctx' M1 :
  NoDup (g_id <$> m_globals M) → namesUnique (m_globals M) →
  rebuild ASRemapper HostMapValue getWithOperands HostMapMetadata
    HostCloneFunctionInto fuel ctx M = Some (ctx', M1) →
  g_addrspace <$> ofKind KFunction M1 = g_addrspace <$> ofKind KFunction M.
Proof.
  intros Hnd Hu Hr.
  destruct (rebuild_spec _ _ _ _ _ Hnd Hu Hr) as (news & Hh & Hn & _).
  unfold ofKind in *.
  rewrite (hdr_addrspaces _ _ (filter_kind_hdr KFunction _ _ Hh)).
  apply (newRel_kinds KFunction) in Hn. rewrite filter_kinds in Hn.
  assert (Forall (λ o, kindOf o = KFunction)
            (filter (λ g, kindOf g = KFunction) (m_globals M))) as Hk.
  { apply Forall_forall. by intros g [? _]%list_elem_of_filter. }
  induction Hn as [|n o ns os (_ & _ & Has) _ IH]; [done|].
  apply Forall_cons in Hk as [Hk1 Hk]. rewrite !fmap_cons. f_equal; auto.
Qed.

(** *** The names of intrinsics *)

Lemma createGlobal_spec M new Name M1 nid :
  (∀ i, g_id (new i) = i) → createGlobal M new Name = (M1, nid) →
  nid = freshId M ∧
  ∃ n', m_globals M1 = m_globals M ++ [setName n' (new nid)].
Proof.
  intros Hid. unfold createGlobal. intros [= <- <-]. split; [done|].
  pose proof (freshId_fresh M) as Hfr. set (nid := freshId M) in *.
  assert (∀ n', updIn nid (setName n') (m_globals M ++ [new nid])
                = m_globals M ++ [setName n' (new nid)]) as Hupd.
  { intros n'. rewrite updIn_app, updIn_absent by done. simpl.
    by rewrite decide_True. }
  unfold Value_setName.
  destruct (lookupGlobal _ nid) as [g|];
    [|exists (g_name (new nid)); by destruct (new nid)].
  repeat case_decide.
  - exists (g_name (new nid)); by destruct (new nid).
  - exists "". apply Hupd.
  - eexists. apply Hupd.
Qed.

Lemma remangle_None M F :
  staleIntrinsic intrinsicName F = false →
  remangleIntrinsicFunction intrinsicName M F = None.
Proof.
  unfold staleIntrinsic, remangleIntrinsicFunction.
  destruct (intrinsicName _ _) as [n|]; [|done].
  intros Hb%bool_decide_eq_false. rewrite decide_True; [done|].
  by destruct (decide (n = g_name F)).
Qed.


Lemma renamed_name_differs (N suf : string) : (N +:+ ".renamed") +:+ suf ≠ N.
Proof.
  rewrite string_app_assoc. intros H.
  assert (N +:+ (".renamed" +:+ suf) = N +:+ "") as H'.
  { by rewrite H, string_app_nil_r. }
  apply (inj (String.app N)) in H'. done.
Qed.

Lemma namesUnique_fmap (h : GlobalValue → GlobalValue) l :
  (∀ g, g_id (h g) = g_id g ∧ g_name (h g) = g_name g) →
  namesUnique l → namesUnique (h <$> l).
Proof.
  intros Hh Hu. apply namesUnique_intro.
  intros g1' g2' (g1 & -> & H1)%list_elem_of_fmap
    (g2 & -> & H2)%list_elem_of_fmap.
  destruct (Hh g1) as [-> ->], (Hh g2) as [-> ->].
  by apply (namesUnique_elem l).
Qed.

Lemma namesUnique_filter (P : GlobalValue → Prop) `{∀ g, Decision (P g)} l :
  namesUnique l → namesUnique (filter P l).
Proof.
  intros Hu. apply namesUnique_intro.
  intros g1 g2 [_ H1]%list_elem_of_filter [_ H2]%list_elem_of_filter.
  by apply (namesUnique_elem l).
Qed.

Lemma namesUnique_names l l' :
  NoDup (g_id <$> l') → namesUnique l' → NoDup (g_id <$> l) →
  g_name <$> l = g_name <$> l' → namesUnique l.
Proof.
  intros Hnd' Hu' Hnd Hn. apply namesUnique_intro.
  intros g1 g2 (i & Hi)%list_elem_of_lookup_1 (j & Hj)%list_elem_of_lookup_1
    Heq Hne.
  assert (∀ k g, l !! k = Some g → ∃ g', l' !! k = Some g' ∧
                                       g_name g' = g_name g) as Hat.
  { intros k g Hk. apply (f_equal (λ x, x !! k)) in Hn.
    rewrite !list_lookup_fmap, Hk in Hn. simpl in Hn.
    destruct (l' !! k) as [g'|]; [|done]. exists g'. split; [done|].
    simpl in Hn. congruence. }
  destruct (Hat _ _ Hi) as (o1 & Ho1 & Hn1), (Hat _ _ Hj) as (o2 & Ho2 & Hn2).
  assert (g_id o1 = g_id o2) as Hid.
  { apply (namesUnique_elem l'); [done| | |congruence..];
      by eapply list_elem_of_lookup_2. }
  assert (i = j) as ->.
  { eapply (NoDup_lookup (g_id <$> l')); [done| |];
      rewrite list_lookup_fmap; [by rewrite Ho1|by rewrite Ho2, Hid]. }
  congruence.
Qed.

(** A global value gives up its name. *)
Lemma giveUp_spec M E W :
  NoDup (g_id <$> m_globals M) → namesUnique (m_globals M) →
  E ∈ m_globals M → g_name E = W → W ≠ "" →
  ∃ n', m_globals (Value_setName M (g_id E) (W +:+ ".renamed"))
        = updIn (g_id E) (setName n') (m_globals M) ∧
        namesUnique (updIn (g_id E) (setName n') (m_globals M)) ∧
        ∀ g, g ∈ updIn (g_id E) (setName n') (m_globals M) → g_name g ≠ W.
Proof.
  intros Hnd Hu HE HW Hne.
  pose proof (lookupGlobalIn_elem _ _ Hnd HE) as HlE.
  destruct (Value_setName_spec M (g_id E) (W +:+ ".renamed") E Hnd Hu HlE)
    as (n' & Hl & Hfresh & _ & suf & Hn').
  exists n'. split; [done|]. split; [by apply namesUnique_updIn|].
  intros g (h & Hh & C)%elem_of_updIn.
  destruct C as [[_ ->]|[Hhid ->]].
  - simpl. rewrite Hn'. apply renamed_name_differs.
  - intros Hhn. apply Hhid.
    apply (namesUnique_elem _ _ _ Hu Hh HE); congruence.
Qed.

(** A declaration is created under a name that no global value holds. *)
Lemma createGlobal_named M new Name M1 nid :
  NoDup (g_id <$> m_globals M) → namesUnique (m_globals M) →
  (Name ≠ "" → ∀ g, g ∈ m_globals M → g_name g ≠ Name) →
  (∀ i, g_id (new i) = i ∧ g_name (new i) = "") →
  createGlobal M new Name = (M1, nid) →
  nid = freshId M ∧
  m_globals M1 = m_globals M ++ [setName Name (new nid)] ∧
  NoDup (g_id <$> m_globals M1) ∧ namesUnique (m_globals M1).
Proof.
  intros Hnd Hu Hfree Hnew Hcre.
  unfold createGlobal in Hcre. injection Hcre as HM1 Hnid.
  pose proof (freshId_fresh M) as Hfr. rewrite Hnid in Hfr, HM1.
  set (l2 := m_globals M ++ [new nid]).
  destruct (Hnew nid) as (Hnewid & Hnewname).
  assert (NoDup (g_id <$> l2)) as Hnd2.
  { unfold l2. rewrite fmap_app. apply NoDup_app. split; [done|]. split.
    - intros x Hx Hx'. simpl in Hx'. apply list_elem_of_singleton in Hx'.
      subst x. by rewrite Hnewid in Hx.
    - apply NoDup_singleton. }
  assert (namesUnique l2) as Hu2 by (by apply namesUnique_snoc).
  assert (lookupGlobal (insertGlobal M (new nid)) nid = Some (new nid)) as Hlk.
  { unfold lookupGlobal. simpl. fold l2.
    pose proof (lookupGlobalIn_elem l2 (new nid) Hnd2) as Hx.
    rewrite Hnewid in Hx. apply Hx. unfold l2. apply elem_of_app. right.
    apply list_elem_of_here. }
  destruct (Value_setName_spec (insertGlobal M (new nid)) nid Name (new nid)
              Hnd2 Hu2 Hlk) as (n' & Hl2 & Hfresh2 & Hfree2 & _).
  assert (n' = Name) as ->.
  { apply Hfree2. destruct (decide (Name = "")) as [|Hne]; [by left|right].
    intros (g & Hg & Hgid & Hgn & _)%elem_of_namesExceptOf.
    simpl in Hg. apply elem_of_app in Hg as [Hg|Hg%list_elem_of_singleton].
    - by apply (Hfree Hne g).
    - subst g. by rewrite Hnewid in Hgid. }
  rewrite HM1 in Hl2. simpl in Hl2. rewrite updIn_app in Hl2.
  rewrite (updIn_absent _ _ (m_globals M)) in Hl2 by done.
  simpl in Hl2. rewrite decide_True in Hl2 by done.
  split; [done|]. split; [done|]. rewrite Hl2. split.
  - rewrite fmap_app. simpl. unfold l2 in Hnd2. by rewrite fmap_app in Hnd2.
  - assert (m_globals M ++ [setName Name (new nid)]
            = updIn nid (setName Name) l2) as ->.
    { unfold l2. rewrite updIn_app, updIn_absent by done. simpl.
      by rewrite decide_True. }
    by apply namesUnique_updIn.
Qed.

(** What a remangling does to a global value of the module: nothing, or the
    global value gives up the name [W], which it holds without being a
    function of type [T]. *)
Definition displaced (W : string) (T : ty) (g' g : GlobalValue) : Prop :=
  g' = g ∨
  ∃ n', g' = setName n' g ∧ g_name g = W ∧
        ¬ (kindOf g = KFunction ∧ g_valueType g = T).

Lemma displaced_refl W T l : Forall2 (displaced W T) l l.
Proof. apply Forall_Forall2_diag, Forall_forall. intros g _. by left. Qed.

Lemma displaced_updIn W T id n' l0 :
  NoDup (g_id <$> l0) →
  (∀ g, g ∈ l0 → g_id g = id →
        g_name g = W ∧ ¬ (kindOf g = KFunction ∧ g_valueType g = T)) →
  Forall2 (displaced W T) (updIn id (setName n') l0) l0.
Proof.
  intros _ H. unfold updIn. apply Forall2_fmap_l, Forall_Forall2_diag.
  apply Forall_forall. intros g Hg. simpl. case_decide as Hid; [|by left].
  right. exists n'. split; [done|]. by apply H.
Qed.

(** A remangling that gives a function [R]: the module it returns, and the
    function, which is under the name that goes with the signature. *)
Lemma remangle_Some M F M1 R :
  NoDup (g_id <$> m_globals M) → namesUnique (m_globals M) →
  remangleIntrinsicFunction intrinsicName M F = Some (M1, R) →
  ∃ W l extra Rg,
    intrinsicName (g_name F) (g_valueType F) = Some W ∧ W ≠ g_name F ∧
    m_globals M1 = l ++ extra ∧
    Forall2 (displaced W (g_valueType F)) l (m_globals M) ∧
    Forall (λ g, kindOf g = KFunction ∧ g_id g ∉ g_id <$> m_globals M) extra ∧
    NoDup (g_id <$> m_globals M1) ∧ namesUnique (m_globals M1) ∧
    m_named_metadata M1 = m_named_metadata M ∧
    Rg ∈ m_globals M1 ∧ g_id Rg = R ∧ g_name Rg = W ∧
    kindOf Rg = KFunction ∧ g_valueType Rg = g_valueType F.
Proof.
  intros Hnd Hu. unfold remangleIntrinsicFunction.
  destruct (intrinsicName _ _) as [W|]; [|done].
  case_decide as HW; [done|].
  set (new := λ nid, mkGlobal nid "" (g_valueType F) (g_addrspace F)
                       "external" "" None (PFunction (mkFunction [] [] []))).
  assert (∀ i, g_id (new i) = i ∧ g_name (new i) = "") as Hnew by done.
  assert (∀ M0 l0,
            NoDup (g_id <$> m_globals M0) → namesUnique (m_globals M0) →
            (W ≠ "" → ∀ g, g ∈ m_globals M0 → g_name g ≠ W) →
            m_globals M0 = l0 → g_id <$> l0 = g_id <$> m_globals M →
            m_named_metadata M0 = m_named_metadata M →
            Forall2 (displaced W (g_valueType F)) l0 (m_globals M) →
            Some (createGlobal M0 new W) = Some (M1, R) →
            ∃ W' l extra Rg,
              Some W = Some W' ∧ W' ≠ g_name F ∧
              m_globals M1 = l ++ extra ∧
              Forall2 (displaced W' (g_valueType F)) l (m_globals M) ∧
              Forall (λ g, kindOf g = KFunction ∧
                           g_id g ∉ g_id <$> m_globals M) extra ∧
              NoDup (g_id <$> m_globals M1) ∧ namesUnique (m_globals M1) ∧
              m_named_metadata M1 = m_named_metadata M ∧
              Rg ∈ m_globals M1 ∧ g_id Rg = R ∧ g_name Rg = W' ∧
              kindOf Rg = KFunction ∧ g_valueType Rg = g_valueType F) as Hdecl.
  { intros M0 l0 Hnd0 Hu0 Hfree0 Hl0 Hids0 Hnmd0 Hdis Hc.
    apply (inj Some) in Hc.
    destruct (createGlobal_named M0 new W M1 R Hnd0 Hu0 Hfree0 Hnew Hc)
      as (HR & HM1 & Hnd1 & Hu1).
    exists W, l0, [setName W (new R)], (setName W (new R)).
    split; [done|]. split; [done|]. split; [by rewrite HM1, Hl0|].
    split; [done|]. split.
    { constructor; [|constructor]. split; [done|]. simpl.
      rewrite HR, <- Hids0, <- Hl0. apply freshId_fresh. }
    split; [done|]. split; [done|]. split.
    { unfold createGlobal in Hc. injection Hc as <- _.
      unfold Value_setName. simpl.
      destruct (lookupGlobal _ _); [|done]. by repeat case_decide. }
    split; [|done]. rewrite HM1. apply elem_of_app. right.
    apply list_elem_of_here. }
  destruct (find _ _) as [E|] eqn:Hfind.
  - apply find_some in Hfind as [HE%list_elem_of_In HEn].
    apply bool_decide_eq_true in HEn as [HEn HWne].
    case_decide as Hm.
    + intros [= <- <-]. exists W, (m_globals M), [], E.
      rewrite app_nil_r. split; [done|]. split; [done|]. split; [done|].
      split; [apply displaced_refl|]. split; [constructor|].
      destruct Hm as [? ?]. by repeat split.
    + destruct (giveUp_spec M E W Hnd Hu HE HEn HWne) as (n' & Hl & Hu0 & Hfr).
      apply (Hdecl _ (updIn (g_id E) (setName n') (m_globals M))).
      * by rewrite Hl, updIn_proj.
      * by rewrite Hl.
      * intros _ g. rewrite Hl. apply Hfr.
      * done.
      * by apply updIn_proj.
      * unfold Value_setName. destruct (lookupGlobal M (g_id E)); [|done].
        by repeat case_decide.
      * apply displaced_updIn; [done|]. intros g Hg Hid.
        assert (g = E) as -> by (by eapply ids_unique_elem). done.
  - apply (Hdecl M (m_globals M)); try done.
    + intros HWne g Hg Hgn.
      pose proof (find_none _ _ Hfind g) as Hx. simpl in Hx.
      rewrite bool_decide_eq_true_2 in Hx by done.
      specialize (Hx ltac:(by apply list_elem_of_In)). done.
    + apply displaced_refl.
Qed.

(** What the remangling looks at, and what the replacement of uses keeps. *)
Definition sig (g : GlobalValue) : nat * kind * string * N * ty :=
  (hdr g, g_valueType g).

Lemma sig_replaceUses old new g :
  sig (setPayload (substGlobalP old new (g_payload g)) g) = sig g.
Proof. unfold sig, hdr, kindOf. simpl. by destruct (g_payload g). Qed.

Lemma sig_stale g g' :
  sig g = sig g' →
  staleIntrinsic intrinsicName g = staleIntrinsic intrinsicName g'.
Proof.
  unfold sig, hdr, staleIntrinsic. intros H.
  assert (g_name g = g_name g') as -> by congruence.
  by assert (g_valueType g = g_valueType g') as -> by congruence.
Qed.

(** No global value is in the way of a recomputed name when it holds its
    name rightly: the name of [g] is recomputed for no other name, unless
    [g] is a function and the name is recomputed for its type. *)
Definition unclaimed (g : GlobalValue) : Prop :=
  ∀ n t, intrinsicName n t = Some (g_name g) → n ≠ g_name g →
         kindOf g = KFunction ∧ g_valueType g = t.


Lemma sig_unclaimed g g' : sig g = sig g' → unclaimed g → unclaimed g'.
Proof.
  unfold sig, hdr, unclaimed. intros H Hg n t.
  assert (g_name g' = g_name g) as -> by congruence.
  assert (kindOf g' = kindOf g) as -> by congruence.
  assert (g_valueType g' = g_valueType g) as -> by congruence.
  apply Hg.
Qed.


(** The state of the last loop: identities and names are distinct, and the
    loop visits functions. *)
Record remInv (M : Module) (todo : list nat) : Prop := mkRemInv {
  ri_ids : NoDup (g_id <$> m_globals M);
  ri_names : namesUnique (m_globals M);
  ri_todo : ∀ g, g ∈ m_globals M → g_id g ∈ todo → kindOf g = KFunction
}.

Lemma remInv_skip M id rest : remInv M (id :: rest) → remInv M rest.
Proof.
  intros [H1 H2 H3]. constructor; try done.
  intros g Hg Hin. apply H3; [done|]. by apply list_elem_of_further.
Qed.

Lemma NoDup_ids_erase id (l : list GlobalValue) :
  NoDup (g_id <$> l) → NoDup (g_id <$> filter (λ g, g_id g ≠ id) l).
Proof.
  induction l as [|g l IH]; [done|]. rewrite fmap_cons, filter_cons.
  intros [Hg Hl]%NoDup_cons. case_decide; [|by apply IH].
  rewrite fmap_cons. apply NoDup_cons. split; [|by apply IH].
  intros (h & Hid & [_ Hh]%list_elem_of_filter)%list_elem_of_fmap.
  apply Hg. apply list_elem_of_fmap. eauto.
Qed.

Lemma others_erase_proj {B} (π : GlobalValue → B) id old new
    (l : list GlobalValue) :
  (∀ g, π (setPayload (substGlobalP old new (g_payload g)) g) = π g) →
  (∀ g, g ∈ l → g_id g = id → kindOf g = KFunction) →
  π <$> filter (λ g, kindOf g ≠ KFunction)
          (filter (λ g, g_id g ≠ id)
             ((λ g, setPayload (substGlobalP old new (g_payload g)) g) <$> l))
  = π <$> filter (λ g, kindOf g ≠ KFunction) l.
Proof.
  intros Hπ. induction l as [|g l IH]; [done|]. intros Hk.
  assert (∀ g, g ∈ l → g_id g = id → kindOf g = KFunction) as Hk'.
  { intros h Hh. apply Hk. by apply list_elem_of_further. }
  specialize (Hk g (list_elem_of_here _ _)).
  pose proof (sig_replaceUses old new g) as Hs. unfold sig, hdr in Hs.
  rewrite fmap_cons, !filter_cons. simpl.
  destruct (decide (g_id g ≠ id)) as [Hid|Hid].
  - rewrite filter_cons.
    assert (kindOf (setPayload (substGlobalP old new (g_payload g)) g)
            = kindOf g) as -> by congruence.
    destruct (decide (kindOf g ≠ KFunction)); [|by apply IH].
    rewrite !fmap_cons. f_equal; [apply Hπ|by apply IH].
  - rewrite decide_False; [by apply IH|].
    intros Hf. apply Hf, Hk. by destruct (decide (g_id g = id)).
Qed.

(** The module after a function was replaced: the global values of the
    module that the remangling returned, but for the function, with their
    uses of the function redirected. *)
Lemma elem_of_replaced M1 id R g' :
  g' ∈ m_globals (eraseGlobal (replaceAllUsesOfGlobal M1 id R) id) ↔
  ∃ g1, g1 ∈ m_globals M1 ∧ g_id g1 ≠ id ∧
        g' = setPayload (substGlobalP id R (g_payload g1)) g1.
Proof.
  simpl. rewrite list_elem_of_filter, list_elem_of_fmap. split.
  - intros [Hid (g1 & -> & Hg1)]. exists g1. by repeat split.
  - intros (g1 & Hg1 & Hid & ->). split; [done|]. eauto.
Qed.

Lemma displaced_elem W T l l0 g :
  Forall2 (displaced W T) l l0 → g ∈ l0 →
  ∃ g', g' ∈ l ∧ displaced W T g' g.
Proof.
  intros HF (i & Hi)%list_elem_of_lookup_1.
  destruct (Forall2_lookup_r _ _ _ _ _ HF Hi) as (g' & Hg' & Hd).
  exists g'. split; [by eapply list_elem_of_lookup_2|done].
Qed.

Lemma displaced_elem_inv W T l l0 g' :
  Forall2 (displaced W T) l l0 → g' ∈ l →
  ∃ g, g ∈ l0 ∧ displaced W T g' g.
Proof.
  intros HF (i & Hi)%list_elem_of_lookup_1.
  destruct (Forall2_lookup_l _ _ _ _ _ HF Hi) as (g & Hg & Hd).
  exists g. split; [by eapply list_elem_of_lookup_2|done].
Qed.

Lemma displaced_hdr W T g' g :
  displaced W T g' g → g_id g' = g_id g ∧ kindOf g' = kindOf g.
Proof. by intros [->|(n' & -> & _)]. Qed.

Section RemangleStep.
Context (M : Module) (id : nat) (rest : list nat) (F : GlobalValue)
        (M1 : Module) (R : nat).
Hypothesis Hinv : remInv M (id :: rest).
Hypothesis HF : lookupGlobal M id = Some F.
Hypothesis Hrem : remangleIntrinsicFunction intrinsicName M F = Some (M1, R).

Lemma remInv_step :
  remInv (eraseGlobal (replaceAllUsesOfGlobal M1 id R) id)
    (match rest with
     | [] => []
     | _ => rest ++ filter (λ i, i ∉ g_id <$> m_globals M)
                      (g_id <$> ofKind KFunction M1)
     end).
Proof using Hinv HF Hrem.
  destruct Hinv as [Hnd Hu Htodo].
  destruct (remangle_Some _ _ _ _ Hnd Hu Hrem)
    as (W & l & extra & Rg & HW & HWne & HM1 & Hdis & Hextra & Hnd1 & Hu1 & _).
  constructor.
  - simpl. apply NoDup_ids_erase. rewrite <- list_fmap_compose.
    erewrite list_fmap_ext; [exact Hnd1|]. intros i g _. simpl.
    by destruct (g_payload g).
  - simpl. apply namesUnique_filter, namesUnique_fmap; [|done].
    intros g. by destruct (g_payload g).
  - intros g' (g1 & Hg1 & Hid & ->)%elem_of_replaced Hin.
    change (kindOf (setPayload (substGlobalP id R (g_payload g1)) g1))
      with (match substGlobalP id R (g_payload g1) with
            | PVariable _ _ _ _ => KVariable
            | PAlias _ => KAlias
            | PFunction _ => KFunction
            end).
    assert (kindOf g1 = KFunction) as Hk;
      [|unfold kindOf in Hk; by destruct (g_payload g1)].
    change (g_id (setPayload (substGlobalP id R (g_payload g1)) g1))
      with (g_id g1) in Hin.
    rewrite HM1 in Hg1. apply elem_of_app in Hg1 as [Hg1|Hg1].
    + destruct (displaced_elem_inv _ _ _ _ _ Hdis Hg1) as (g & Hg & Hd).
      destruct (displaced_hdr _ _ _ _ Hd) as [Ei Ek]. rewrite Ek.
      apply Htodo; [done|]. rewrite <- Ei. apply list_elem_of_further.
      destruct rest as [|r rest']; [by apply elem_of_nil in Hin|].
      apply elem_of_app in Hin as [Hin|Hin]; [done|].
      apply list_elem_of_filter in Hin as [Hin _]. destruct Hin.
      rewrite Ei. apply list_elem_of_fmap. eauto.
    + rewrite Forall_forall in Hextra. by apply Hextra.
Qed.

Lemma remangle_step_others {B} (π : GlobalValue → B) :
  (∀ n g, π (setName n g) = π g) →
  (∀ old new g, π (setPayload (substGlobalP old new (g_payload g)) g) = π g) →
  π <$> filter (λ g, kindOf g ≠ KFunction)
          (m_globals (eraseGlobal (replaceAllUsesOfGlobal M1 id R) id))
  = π <$> filter (λ g, kindOf g ≠ KFunction) (m_globals M).
Proof using Hinv HF Hrem.
  intros Hπ1 Hπ2. destruct Hinv as [Hnd Hu Htodo].
  destruct (remangle_Some _ _ _ _ Hnd Hu Hrem)
    as (W & l & extra & Rg & HW & HWne & HM1 & Hdis & Hextra & Hnd1 & Hu1 & _).
  simpl. rewrite others_erase_proj; [|done|].
  - rewrite HM1, filter_app.
    assert (filter (λ g, kindOf g ≠ KFunction) extra = []) as ->.
    { clear -Hextra. induction Hextra as [|g extra [Hg _] _ IH]; [done|].
      by rewrite filter_cons, decide_False by (intros Hn; by apply Hn). }
    rewrite app_nil_r. clear -Hdis Hπ1.
    induction Hdis as [|g' g l l0 Hd _ IH]; [done|].
    destruct (displaced_hdr _ _ _ _ Hd) as [_ Ek].
    rewrite !filter_cons, Ek. case_decide; [|done].
    rewrite !fmap_cons. f_equal; [|done].
    by destruct Hd as [->|(n' & -> & _)].
  - intros g1 Hg1 Hid. rewrite HM1 in Hg1.
    apply elem_of_app in Hg1 as [Hg1|Hg1].
    + destruct (displaced_elem_inv _ _ _ _ _ Hdis Hg1) as (g & Hg & Hd).
      destruct (displaced_hdr _ _ _ _ Hd) as [Ei Ek]. rewrite Ek.
      apply Htodo; [done|]. rewrite <- Ei, Hid. apply list_elem_of_here.
    + rewrite Forall_forall in Hextra. by apply Hextra.
Qed.

Lemma remangle_step_keeps g :
  g ∈ m_globals M → g_id g ≠ id → unclaimed g →
  ∃ g', g' ∈ m_globals (eraseGlobal (replaceAllUsesOfGlobal M1 id R) id) ∧
        sig g' = sig g.
Proof using Hinv HF Hrem.
  intros Hg Hid Hun. destruct Hinv as [Hnd Hu Htodo].
  destruct (remangle_Some _ _ _ _ Hnd Hu Hrem)
    as (W & l & extra & Rg & HW & HWne & HM1 & Hdis & _).
  destruct (displaced_elem _ _ _ _ _ Hdis Hg) as (g1 & Hg1 & Hd).
  assert (g1 = g) as ->.
  { destruct Hd as [->|(n' & -> & Hn & Hno)]; [done|].
    destruct Hno. apply (Hun (g_name F) (g_valueType F)); congruence. }
  exists (setPayload (substGlobalP id R (g_payload g)) g).
  split; [|apply sig_replaceUses].
  apply elem_of_replaced. exists g. split; [|done].
  rewrite HM1. apply elem_of_app. by left.
Qed.

End RemangleStep.


(** The last loop keeps, of the global variables and the aliases, what
    neither a name nor the replacement of a use changes. *)
Lemma remangleLoop_others {B} (π : GlobalValue → B) :
  (∀ n g, π (setName n g) = π g) →
  (∀ old new g, π (setPayload (substGlobalP old new (g_payload g)) g) = π g) →
  ∀ fuel M todo M',
    remInv M todo →
    remangleLoop intrinsicName fuel M todo = Some M' →
    π <$> filter (λ g, kindOf g ≠ KFunction) (m_globals M')
    = π <$> filter (λ g, kindOf g ≠ KFunction) (m_globals M).
Proof.
  intros Hπ1 Hπ2 fuel.
  induction fuel as [|fuel IH]; intros M todo M' Hinv; [done|].
  simpl. destruct todo as [|id rest]; [by intros [= <-]|].
  destruct (lookupGlobal M id) as [F|] eqn:HF.
  - destruct (remangleIntrinsicFunction intrinsicName M F) as [[M1 R]|] eqn:Hr.
    + intros Hloop.
      rewrite (IH _ _ _ (remInv_step M id rest F M1 R Hinv HF Hr) Hloop).
      by apply (remangle_step_others M id rest F M1 R).
    + apply IH. by apply remInv_skip in Hinv.
  - apply IH. by apply remInv_skip in Hinv.
Qed.

(** The last loop keeps every global value that is not a function with a
    stale name and is not in the way of a recomputed name. *)
Lemma remangleLoop_kept fuel : ∀ M todo M' g,
  remInv M todo →
  remangleLoop intrinsicName fuel M todo = Some M' →
  g ∈ m_globals M →
  (kindOf g = KFunction → staleIntrinsic intrinsicName g = false) →
  unclaimed g →
  ∃ g', g' ∈ m_globals M' ∧ sig g' = sig g.
Proof.
  induction fuel as [|fuel IH]; intros M todo M' g Hinv; [done|].
  simpl. destruct todo as [|id rest]; [intros [= <-]; eauto|].
  destruct (lookupGlobal M id) as [F|] eqn:HF.
  - destruct (remangleIntrinsicFunction intrinsicName M F) as [[M1 R]|] eqn:Hr.
    + intros Hloop Hg Hst Hun.
      destruct (lookupGlobalIn_Some _ _ _ HF) as [HFin HFid].
      assert (g_id g ≠ id) as Hid.
      { intros Hid.
        assert (g = F) as ->.
        { eapply ids_unique_elem; [apply Hinv|done..|congruence]. }
        assert (staleIntrinsic intrinsicName F = true) as Hs.
        { destruct (staleIntrinsic intrinsicName F) eqn:E; [done|].
          by rewrite (remangle_None M F E) in Hr. }
        rewrite Hst in Hs; [done|].
        apply (ri_todo _ _ Hinv); [done|]. rewrite HFid.
        apply list_elem_of_here. }
      destruct (remangle_step_keeps M id rest F M1 R Hinv HF Hr g Hg Hid Hun)
        as (g2 & Hg2 & Hs2).
      destruct (IH _ _ _ g2 (remInv_step M id rest F M1 R Hinv HF Hr) Hloop Hg2)
        as (g' & Hg' & Hs').
      * intros Hk. rewrite (sig_stale _ _ Hs2). apply Hst.
        unfold sig, hdr in Hs2. congruence.
      * eapply sig_unclaimed; [symmetry; exact Hs2|done].
      * exists g'. split; [done|]. congruence.
    + intros Hloop. apply (IH _ _ _ g (remInv_skip _ _ _ Hinv) Hloop).
  - intros Hloop. apply (IH _ _ _ g (remInv_skip _ _ _ Hinv) Hloop).
Qed.



Lemma filter_kind_others k (l : list GlobalValue) :
  k ≠ KFunction →
  filter (λ g, kindOf g = k) (filter (λ g, kindOf g ≠ KFunction) l)
  = filter (λ g, kindOf g = k) l.
Proof. intros Hk. apply list_filter_filter_l. congruence. Qed.

Lemma filter_kind_proj {B} (π : GlobalValue → B) k (l l' : list GlobalValue) :
  (λ g, (kindOf g, π g)) <$> l = (λ g, (kindOf g, π g)) <$> l' →
  π <$> filter (λ g, kindOf g = k) l = π <$> filter (λ g, kindOf g = k) l'.
Proof.
  revert l'. induction l as [|g l IH]; intros [|g' l']; try done.
  rewrite !fmap_cons. intros Hc.
  assert (kindOf g = kindOf g') as Hk by congruence.
  assert (π g = π g') as Hg by congruence.
  assert ((λ g, (kindOf g, π g)) <$> l = (λ g, (kindOf g, π g)) <$> l') as Hl
    by congruence.
  rewrite !filter_cons, Hk. destruct (decide (kindOf g' = k)); [|by apply IH].
  rewrite !fmap_cons. f_equal; [done|by apply IH].
Qed.

(** The names after the removal of the originals are distinct. *)
Lemma rebuild_namesUnique fuel ctx M ctx' M1 :
  NoDup (g_id <$> m_globals M) → namesUnique (m_globals M) →
  rebuild ASRemapper HostMapValue getWithOperands HostMapMetadata
    HostCloneFunctionInto fuel ctx M = Some (ctx', M1) →
  namesUnique (m_globals M1).
Proof.
  intros Hnd Hu Hr.
  destruct (rebuild_spec _ _ _ _ _ Hnd Hu Hr) as (news & Hh & Hn & Hnd1).
  pose proof (kinds_perm (m_globals M)) as Hperm.
  apply (namesUnique_names _
           (ofKind KVariable M ++ ofKind KAlias M ++ ofKind KFunction M));
    [| |done|].
  - unfold ofKind. by rewrite Hperm.
  - apply namesUnique_intro. intros g1 g2 H1 H2.
    unfold ofKind in H1, H2. rewrite Hperm in H1, H2.
    by apply (namesUnique_elem (m_globals M)).
  - rewrite (hdr_names _ _ Hh). clear -Hn.
    induction Hn as [|n o ns os (_ & Hname & _) _ IH]; [done|].
    rewrite !fmap_cons. by f_equal.
Qed.

Lemma remInv_init M :
  NoDup (g_id <$> m_globals M) → namesUnique (m_globals M) →
  remInv M (g_id <$> ofKind KFunction M).
Proof.
  intros Hnd Hu. constructor; [done..|].
  intros g Hg (h & Hid & [Hk Hh]%list_elem_of_filter)%list_elem_of_fmap.
  by rewrite (ids_unique_elem _ g h Hnd Hg Hh Hid).
Qed.

(** The last loop of the pass on the module [M1] that the three phases have
    built. *)
Lemma removeAddrspaces_remangled fuel ctx M ctx' M' changed :
  NoDup (g_id <$> m_globals M) → namesUnique (m_globals M) →
  removeAddrspaces ASRemapper HostMapValue getWithOperands HostMapMetadata
    HostCloneFunctionInto intrinsicName fuel ctx M = Some (ctx', M', changed) →
  ∃ M1,
    rebuild ASRemapper HostMapValue getWithOperands HostMapMetadata
      HostCloneFunctionInto fuel ctx M = Some (ctx', M1) ∧
    remInv M1 (g_id <$> ofKind KFunction M1) ∧
    remangleLoop intrinsicName fuel M1 (g_id <$> ofKind KFunction M1)
    = Some M'.
Proof.
  intros Hnd Hu. unfold removeAddrspaces.
  destruct (rebuild _ _ _ _ _ _ _ _) as [[ctx1 M1]|] eqn:Hr; [cbn|done].
  destruct (remangleLoop _ _ _ _) as [M2|] eqn:Hloop; [cbn|done].
  intros [= <- <- <-]. exists M1. split; [done|]. split; [|done].
  destruct (rebuild_spec _ _ _ _ _ Hnd Hu Hr) as (_ & _ & _ & Hnd1).
  apply remInv_init; [done|]. exact (rebuild_namesUnique _ _ _ _ _ Hnd Hu Hr).
Qed.



End DriverProofs.

(** ** The driver on concrete modules *)

(** A module with a global variable in address space 10 whose initializer is
    a cast of the address of [f], a function with a cast that the rewrite
    makes a no-op, an alias of the variable, and the declaration of an
    intrinsic whose name encodes address space 10. *)
Definition modA : Module :=
  mkModule
    [ mkGlobal 0 "g" (TPtr 10) 10 "external" "" None
        (PVariable false ""
           (Some (CExpr OpAddrSpaceCast [CGlobal 1 (TPtr 0)] (TPtr 10))) []);
      mkGlobal 1 "f" (TFun (TOther "void") [TPtr 5] false) 0 "external" "" None
        (PFunction (mkFunction [("p", TPtr 5)]
           [[ mkInstr 1 OpAddrSpaceCast [VArg 0] (TPtr 5);
              mkInstr 2 (OpOther "ret") [] (TOther "void") ]] []));
      mkGlobal 2 "a" (TPtr 10) 10 "external" "" None
        (PAlias (Some (CGlobal 0 (TPtr 10))));
      mkGlobal 3 "llvm.ptrmask.p10.i64"
        (TFun (TPtr 10) [TPtr 10; TOther "i64"] false) 0 "external" "" None
        (PFunction (mkFunction [("", TPtr 10); ("", TOther "i64")] [] [])) ]
    [].

(** A module with a global variable and a function that are both declared
    in address space 10. *)
Definition modF : Module :=
  mkModule
    [ mkGlobal 0 "g" (TOther "i32") 10 "external" "" None
        (PVariable false "" (Some (CData (TOther "i32") "0")) []);
      mkGlobal 1 "f" (TFun (TOther "void") [TPtr 10] false) 10 "external" ""
        None
        (PFunction (mkFunction [("p", TPtr 10)]
           [[ mkInstr 1 (OpOther "ret") [] (TOther "void") ]] [])) ]
    [].

Lemma modA_ids : NoDup (g_id <$> m_globals modA).
Proof. apply (bool_decide_unpack _). vm_compute. exact I. Defined.

Lemma modA_names : namesUnique (m_globals modA).
Proof. unfold namesUnique. apply (bool_decide_unpack _). vm_compute. exact I. Defined.





(** A global value in the way of a recomputed name gives it up: a global
    variable that has the name that goes with the rewritten signature of an
    intrinsic is renamed, and the function that replaces the intrinsic is
    under this name. *)
Definition modB : Module :=
  mkModule
    [ mkGlobal 0 "llvm.ptrmask.p0.i64" (TOther "i32") 0 "external" "" None
        (PVariable false "" None []);
      mkGlobal 1 "llvm.ptrmask.p10.i64"
        (TFun (TPtr 10) [TPtr 10; TOther "i64"] false) 0 "external" "" None
        (PFunction (mkFunction [("", TPtr 10); ("", TOther "i64")] [] [])) ]
    [].

Example removeAddrspaces_makes_place :
  ∃ ctx' M',
    runPass removeAllAddrspaces ptrmaskName 10 [] modB = Some (ctx', M', true) ∧
    (λ g, (g_name g, kindOf g)) <$> m_globals M'
    = [("llvm.ptrmask.p0.i64.renamed", KVariable);
       ("llvm.ptrmask.p0.i64", KFunction)].
Proof. eexists _, _. split; [vm_compute; reflexivity|]. reflexivity. Qed.

(** C3, on the code: under the collapse-all policy the pass puts the global
    variable [g] of [modF] in address space 0, and leaves the function [f]
    in address space 10, which is not in the image of the policy. *)
Theorem removeAddrspaces_function_addrspace :
  ∃ ctx' M',
    runPass removeAllAddrspaces (λ _ _, None) 10 [] modF
      = Some (ctx', M', true) ∧
    g_addrspace <$> ofKind KVariable M' = [0%N] ∧
    g_addrspace <$> ofKind KFunction M' = [10%N] ∧
    ∀ a, removeAllAddrspaces a ≠ 10%N.
Proof.
  eexists _, _. split; [vm_compute; reflexivity|].
  split; [reflexivity|]. split; [reflexivity|]. done.
Qed.

(** * Further properties of the pass *)

(** ** Further properties of the Type Rewriter *)

Section TypeRemapperMore.
Variable f : N → N.

(** X1: the image of a type. The result of [remapType] is the source with
    the address space [a] of every pointer type replaced by [ASRemapper a] and
    every identified struct replaced by its image in the memo; the kinds of
    the other types, the number and order of parameters and fields, the
    variadic and packed flags and the lengths of arrays and vectors are
    those of the source. *)
Theorem remapType_image st T fuel st' D :
  reachable f st → wf_ty (length (Ctx st)) T →
  remapType f fuel st T = Some (st', D) →
  D = rw f (MappedTypes st') T ∧
  (∀ s, s ∈ ids T → ∃ s', MappedTypes st' !! TStruct s = Some (TStruct s') ∧
                          s' < length (Ctx st')).
Proof.
  intros Hr HT Hrun.
  destruct (remapType_rw f _ _ _ _ _ Hr HT Hrun) as (HD & Hm & _ & _).
  split; [done|]. intros s Hs. destruct (Hm s Hs) as [U HU].
  assert (reachable f st') as Hr' by (by eapply reachable_call).
  destruct (inv_struct _ _ _ _ (reachable_TopInv f _ Hr') _ _ HU)
    as (s' & -> & Hs' & _).
  eauto.
Qed.

(** X2: the memo. A call keeps every entry of the memo, and after it the type
    is in the memo, so that rewriting it again, or any type rewritten before,
    gives the same type and leaves the state as it is. *)
Theorem remapType_memoized st T fuel st' D :
  reachable f st → wf_ty (length (Ctx st)) T →
  remapType f fuel st T = Some (st', D) →
  MappedTypes st ⊆ MappedTypes st' ∧
  (∀ fuel', remapType f (S fuel') st' T = Some (st', D)) ∧
  (∀ U DU fuel', MappedTypes st !! U = Some DU →
                 remapType f (S fuel') st' U = Some (st', DU)).
Proof.
  intros Hr HT Hrun.
  destruct (remapType_inv f fuel _ _ _ _ _ _ (reachable_TopInv f _ Hr) HT Hrun)
    as (_ & Hsub & HD).
  split; [done|]. split.
  - intros fuel'. simpl. by rewrite HD.
  - intros U DU fuel' HU. simpl.
    by rewrite (lookup_weaken _ _ _ _ HU Hsub).
Qed.

(** X3: the address spaces of the image. Every pointer type that the result
    contains, also through the bodies of the structs it mentions, has an
    address space in the image of the policy. *)
Theorem remapType_image_addrspaces st T fuel st' D a :
  reachable f st → wf_ty (length (Ctx st)) T →
  remapType f fuel st T = Some (st', D) →
  reaches (Ctx st') D (TPtr a) → ∃ b, a = f b.
Proof.
  intros Hr HT Hrun Hreach.
  assert (reachable f st') as Hr' by (by eapply reachable_call).
  pose proof (reachable_TopInv f _ Hr') as HI.
  destruct (remapType_rw f _ _ _ _ _ Hr HT Hrun) as (HD & Hm & _ & _).
  assert (produced f (MappedTypes st') D) as HP.
  { rewrite HD. by eapply produced_rw. }
  destruct (produced_reaches f _ _ _ HI Hreach HP) as [Hp _].
  apply Hp. simpl. apply list_elem_of_singleton. done.
Qed.

(** X4: what a call never does. It removes no struct from the context and
    changes neither the body nor the packedness of a struct that exists
    (a source struct is renamed at most). *)
Theorem remapType_keeps_structs st T fuel st' D s d :
  remapType f fuel st T = Some (st', D) → Ctx st !! s = Some d →
  length (Ctx st) ≤ length (Ctx st') ∧
  ∃ d', Ctx st' !! s = Some d' ∧ sbody d' = sbody d ∧ spacked d' = spacked d.
Proof.
  intros Hrun Hd. destruct (remapType_frame f _ _ _ _ _ Hrun) as [Hfr _].
  split; [by apply frame_length|].
  pose proof (frame_shape _ _ _ _ Hfr (shapes_lookup _ _ _ Hd)) as Hsh.
  apply shapes_lookup_inv in Hsh as (d' & Hd' & Hb & Hp). eauto.
Qed.

(** X5: the recursion of [remapType] ends for every type, whatever the structs
    it mentions contain (structs that contain each other included). *)
Theorem remapType_terminates st T fuel :
  reachable f st → wf_ty (length (Ctx st)) T → fuelFor st T ≤ fuel →
  ∃ st' D, remapType f fuel st T = Some (st', D).
Proof. apply remapType_returns. Qed.

(** X6: the rewriter never gives two identified structs the same image. *)
Theorem remapType_structs_injective st s1 s2 s' :
  reachable f st →
  MappedTypes st !! TStruct s1 = Some (TStruct s') →
  MappedTypes st !! TStruct s2 = Some (TStruct s') →
  s1 = s2.
Proof.
  intros Hr. apply (inv_inj _ _ _ _ (reachable_TopInv f _ Hr)).
Qed.

(** X7: the memo between calls. The image of an opaque struct is the struct
    itself, and the image of a struct with a body is a struct with as many
    fields, each the image of the field of the source, and with the
    packedness of the source. *)
Theorem remapType_struct_bodies st s D d :
  reachable f st →
  MappedTypes st !! TStruct s = Some D → Ctx st !! s = Some d →
  ∃ s' d', D = TStruct s' ∧ Ctx st !! s' = Some d' ∧
           spacked d' = spacked d ∧
           match sbody d with
           | None => s' = s
           | Some es => sbody d' = Some (rw f (MappedTypes st) <$> es)
           end.
Proof.
  intros Hr HD Hd. pose proof (reachable_TopInv f _ Hr) as HI.
  destruct (inv_struct _ _ _ _ HI _ _ HD) as (s' & -> & Hs' & _).
  pose proof (inv_done _ _ _ _ HI _ _ HD (not_elem_of_empty _)) as Hdone.
  rewrite (shapes_lookup _ _ _ Hd) in Hdone.
  destruct (sbody d) as [es|] eqn:Hb.
  - destruct Hdone as [Hsh _].
    apply shapes_lookup_inv in Hsh as (d' & Hd' & Hb' & Hp').
    exists s', d'. by rewrite Hb'.
  - subst s'. by exists s, d.
Qed.
End TypeRemapperMore.

(** ** The names of the structs that the Type Rewriter creates *)

(** Structs with the same name, if it is not empty, are the same struct. *)
Definition ctxNamesUnique (ctx : LLVMContext) : Prop :=
  ∀ i j d d', ctx !! i = Some d → ctx !! j = Some d' →
              sname d = sname d' → sname d ≠ "" → i = j.

Lemma elem_of_namesExcept ctx s n :
  n ∈ namesExcept ctx s ↔
  ∃ i d, ctx !! i = Some d ∧ i ≠ s ∧ sname d = n ∧ n ≠ "".
Proof.
  unfold namesExcept. rewrite elem_of_list_to_set, list_elem_of_omap. split.
  - intros ([i d] & Hin & Hn).
    apply list_elem_of_lookup_1 in Hin as [k Hk].
    apply list_lookup_imap_Some in Hk as (d0 & Hd0 & Heq).
    injection Heq as <- <-. case_decide as Hc; [|done].
    injection Hn as <-. exists i, d. naive_solver.
  - intros (i & d & Hd & Hi & <- & Hne). exists (i, d). split.
    + apply (list_elem_of_lookup_2 _ i). apply list_lookup_imap_Some. eauto.
    + by rewrite decide_True.
Qed.

(** [StructType::setName] in a context whose names are distinct. *)
Lemma StructType_setName_spec ctx s Name d :
  ctxNamesUnique ctx → ctx !! s = Some d →
  ∃ n', StructType_setName ctx s Name
        = <[s := mkStruct n' (sbody d) (spacked d)]> ctx ∧
        (n' ≠ "" → n' ∉ namesExcept ctx s) ∧
        (Name = "" ∨ Name ∉ namesExcept ctx s → n' = Name) ∧
        ∃ suf, n' = Name +:+ suf.
Proof.
  intros Hu Hd. unfold StructType_setName. rewrite Hd.
  destruct (decide (Name = sname d)) as [->|Hne].
  - exists (sname d). split; [|split; [|split]].
    + symmetry. apply list_insert_id. by destruct d.
    + intros Hne (i & di & Hi & His & Hn & _)%elem_of_namesExcept.
      apply His. symmetry. by apply (Hu s i d di).
    + done.
    + exists "". by rewrite string_app_nil_r.
  - destruct (decide (Name = "")) as [->|Hne'].
    + exists "". split; [done|]. split; [done|]. split; [done|]. by exists "".
    + exists (fresh_string_of_set Name (namesExcept ctx s)).
      split; [done|]. split; [|split].
      * intros _. apply fresh_string_of_set_fresh.
      * intros [?|?]; [done|]. by apply fresh_string_of_set_free.
      * apply fresh_string_prefix.
Qed.

Lemma ctxNamesUnique_insert ctx s n' b p :
  ctxNamesUnique ctx → (n' ≠ "" → n' ∉ namesExcept ctx s) →
  ctxNamesUnique (<[s := mkStruct n' b p]> ctx).
Proof.
  intros Hu Hfresh i j d d' Hi Hj Hn Hne.
  destruct (decide (i = s)) as [->|His]; destruct (decide (j = s)) as [->|Hjs];
    try done.
  - apply list_lookup_insert_Some in Hi as [(_ & <- & _)|[? _]]; [|done].
    rewrite list_lookup_insert_ne in Hj by done. simpl in *.
    destruct (Hfresh Hne). apply elem_of_namesExcept.
    exists j, d'. by rewrite <- Hn.
  - apply list_lookup_insert_Some in Hj as [(_ & <- & _)|[? _]]; [|done].
    rewrite list_lookup_insert_ne in Hi by done. simpl in *.
    rewrite Hn in Hne. destruct (Hfresh Hne). apply elem_of_namesExcept.
    exists i, d. by rewrite Hn.
  - rewrite list_lookup_insert_ne in Hi, Hj by done. by apply (Hu i j d d').
Qed.

Lemma ctxNamesUnique_create ctx :
  ctxNamesUnique ctx → ctxNamesUnique (StructType_create ctx).
Proof.
  intros Hu i j d d'. unfold StructType_create.
  intros [Hi|[_ Hi]]%lookup_app_Some [Hj|[_ Hj]]%lookup_app_Some Hn Hne.
  - by apply (Hu i j d d').
  - apply list_lookup_singleton_Some in Hj as [_ <-]. simpl in Hn. congruence.
  - apply list_lookup_singleton_Some in Hi as [_ <-]. done.
  - apply list_lookup_singleton_Some in Hi as [_ <-]. done.
Qed.

Lemma StructType_setBody_lookup ctx s es p i d :
  StructType_setBody ctx s es p !! i = Some d →
  ∃ d0, ctx !! i = Some d0 ∧ sname d = sname d0.
Proof.
  unfold StructType_setBody. destruct (ctx !! s) as [ds|] eqn:Hs; [|eauto].
  destruct (decide (i = s)) as [->|Hne].
  - intros [(_ & <- & _)|[? _]]%list_lookup_insert_Some; [|done]. eauto.
  - rewrite list_lookup_insert_ne by done. eauto.
Qed.

Lemma StructType_setBody_name ctx s es p i d :
  ctx !! i = Some d →
  ∃ d', StructType_setBody ctx s es p !! i = Some d' ∧ sname d' = sname d.
Proof.
  intros Hi. unfold StructType_setBody.
  destruct (ctx !! s) as [ds|] eqn:Hs; [|eauto].
  destruct (decide (i = s)) as [->|Hne].
  - rewrite list_lookup_insert_eq by (by eapply lookup_lt_Some).
    rewrite Hi in Hs. injection Hs as ->. eauto.
  - rewrite list_lookup_insert_ne by done. eauto.
Qed.

Lemma ctxNamesUnique_setBody ctx s es p :
  ctxNamesUnique ctx → ctxNamesUnique (StructType_setBody ctx s es p).
Proof.
  intros Hu i j d d' Hi Hj Hn Hne.
  apply StructType_setBody_lookup in Hi as (d0 & Hi & E0).
  apply StructType_setBody_lookup in Hj as (d0' & Hj & E0').
  apply (Hu i j d0 d0'); congruence.
Qed.

Section StructNames.
Variable f : N → N.
Variable n0 : nat.

(** The structs that are keys of the memo are source structs. *)
Definition memoKeys (st : state) : Prop :=
  ∀ s, is_Some (MappedTypes st !! TStruct s) → s < n0.

(** The names of the structs before and after calls of the rewriter:
    - a struct keeps its name, unless it is a struct with a body that the
      calls have rewritten;
    - the image of a struct with a body that the calls have rewritten is a
      new struct that has the name the source had;
    - and the source, if it had a name, has a name that starts with the old
      one and [.bad]. *)
Record namesRel (st st' : state) : Prop := mkNamesRel {
  nr_keep : ∀ i d, Ctx st !! i = Some d →
    (MappedTypes st !! TStruct i = None ∧
     is_Some (MappedTypes st' !! TStruct i) ∧ sbody d ≠ None) ∨
    (∃ d', Ctx st' !! i = Some d' ∧ sname d' = sname d);
  nr_new : ∀ s d s', Ctx st !! s = Some d → sbody d ≠ None →
    MappedTypes st !! TStruct s = None →
    MappedTypes st' !! TStruct s = Some (TStruct s') →
    n0 ≤ s' ∧ ∃ d', Ctx st' !! s' = Some d' ∧ sname d' = sname d;
  nr_bad : ∀ s d, Ctx st !! s = Some d → sbody d ≠ None → sname d ≠ "" →
    MappedTypes st !! TStruct s = None →
    is_Some (MappedTypes st' !! TStruct s) →
    ∃ d' suf, Ctx st' !! s = Some d' ∧ sname d' = sname d +:+ ".bad" +:+ suf
}.

Lemma namesRel_refl st : namesRel st st.
Proof.
  constructor.
  - intros i d Hd. right. eauto.
  - intros s d s' _ _ H1 H2. by rewrite H1 in H2.
  - intros s d _ _ _ H1 [? H2]. by rewrite H1 in H2.
Qed.

Lemma frame_body st st' i d d' :
  frame st st' → Ctx st !! i = Some d → Ctx st' !! i = Some d' →
  sbody d' = sbody d.
Proof.
  intros Hfr Hd Hd'.
  pose proof (frame_shape _ _ _ _ Hfr (shapes_lookup _ _ _ Hd)) as Hsh.
  rewrite (shapes_lookup _ _ _ Hd') in Hsh. by injection Hsh.
Qed.

Lemma namesRel_trans st1 st2 st3 :
  MappedTypes st1 ⊆ MappedTypes st2 → MappedTypes st2 ⊆ MappedTypes st3 →
  frame st1 st2 → memoKeys st3 →
  namesRel st1 st2 → namesRel st2 st3 → namesRel st1 st3.
Proof.
  intros S12 S23 F12 K3 [K12 N12 B12] [K23 N23 B23].
  assert (∀ T, MappedTypes st2 !! T = None → MappedTypes st1 !! T = None)
    as Hnone.
  { intros T HT. destruct (MappedTypes st1 !! T) as [D|] eqn:E; [|done].
    by rewrite (lookup_weaken _ _ _ _ E S12) in HT. }
  constructor.
  - intros i d Hd. destruct (K12 i d Hd) as [(H1 & [D H2] & Hb)|(d2 & Hd2 & E2)].
    { left. split; [done|]. split; [|done].
      exists D. by eapply lookup_weaken. }
    destruct (K23 i d2 Hd2) as [(H2 & H3 & Hb)|(d3 & Hd3 & E3)].
    + left. split; [by apply Hnone|]. split; [done|].
      by rewrite <- (frame_body _ _ _ _ _ F12 Hd Hd2).
    + right. exists d3. split; [done|congruence].
  - intros s d s' Hd Hb H1 H3.
    destruct (MappedTypes st2 !! TStruct s) as [X|] eqn:H2.
    + pose proof (lookup_weaken _ _ _ _ H2 S23) as H3'.
      rewrite H3 in H3'. injection H3' as <-.
      destruct (N12 s d s' Hd Hb H1 H2) as (Hn0 & d2 & Hd2 & E2).
      split; [done|].
      destruct (K23 s' d2 Hd2) as [(_ & Hk & _)|(d3 & Hd3 & E3)].
      * apply K3 in Hk. lia.
      * exists d3. split; [done|congruence].
    + destruct (K12 s d Hd) as [(_ & [? Hk] & _)|(d2 & Hd2 & E2)];
        [by rewrite H2 in Hk|].
      rewrite <- E2. apply (N23 s d2 s'); try done.
      by rewrite (frame_body _ _ _ _ _ F12 Hd Hd2).
  - intros s d Hd Hb Hn H1 H3.
    destruct (MappedTypes st2 !! TStruct s) as [X|] eqn:H2.
    + destruct (B12 s d Hd Hb Hn H1) as (d2 & suf & Hd2 & E2); [by eauto|].
      destruct (K23 s d2 Hd2) as [(Hk & _)|(d3 & Hd3 & E3)];
        [by rewrite H2 in Hk|].
      exists d3, suf. split; [done|congruence].
    + destruct (K12 s d Hd) as [(_ & [? Hk] & _)|(d2 & Hd2 & E2)];
        [by rewrite H2 in Hk|].
      rewrite <- E2. apply (B23 s d2); try done.
      * by rewrite (frame_body _ _ _ _ _ F12 Hd Hd2).
      * congruence.
Qed.

(** Steps that touch no name and no struct entry of the memo. *)
Lemma namesRel_same st st1 st2 :
  (∀ i d, Ctx st1 !! i = Some d →
          ∃ d', Ctx st2 !! i = Some d' ∧ sname d' = sname d) →
  (∀ s, MappedTypes st2 !! TStruct s = MappedTypes st1 !! TStruct s) →
  namesRel st st1 → namesRel st st2.
Proof.
  intros Hctx Hmemo [K N B]. constructor.
  - intros i d Hd. rewrite Hmemo.
    destruct (K i d Hd) as [?|(d1 & Hd1 & E1)]; [by left|right].
    destruct (Hctx i d1 Hd1) as (d2 & Hd2 & E2). exists d2.
    split; [done|congruence].
  - intros s d s' Hd Hb H1. rewrite Hmemo. intros H2.
    destruct (N s d s' Hd Hb H1 H2) as (Hn0 & d1 & Hd1 & E1).
    split; [done|]. destruct (Hctx s' d1 Hd1) as (d2 & Hd2 & E2).
    exists d2. split; [done|congruence].
  - intros s d Hd Hb Hn H1. rewrite Hmemo. intros H2.
    destruct (B s d Hd Hb Hn H1 H2) as (d1 & suf & Hd1 & E1).
    destruct (Hctx s d1 Hd1) as (d2 & Hd2 & E2).
    exists d2, suf. split; [done|congruence].
Qed.

Lemma namesRel_insert_other st st1 T D :
  (∀ s, T ≠ TStruct s) → namesRel st st1 →
  namesRel st (State (Ctx st1) (<[T := D]> (MappedTypes st1))).
Proof.
  intros HT. apply namesRel_same; simpl; [by eauto|].
  intros s. apply lookup_insert_ne. apply HT.
Qed.

Lemma memoKeys_insert_other st T D :
  (∀ s, T ≠ TStruct s) → memoKeys st →
  memoKeys (State (Ctx st) (<[T := D]> (MappedTypes st))).
Proof.
  intros HT HK s. simpl. rewrite lookup_insert_ne by apply HT. apply HK.
Qed.

Lemma memoKeys_insert_struct st s D :
  s < n0 → memoKeys st →
  memoKeys (State (Ctx st) (<[TStruct s := D]> (MappedTypes st))).
Proof.
  intros Hs HK s0. simpl. destruct (decide (s0 = s)) as [->|Hne]; [done|].
  rewrite lookup_insert_ne by congruence. apply HK.
Qed.
End StructNames.

(** The placeholder takes over the name of its source. *)
Lemma placeholder_names n0 st s d :
  ctxNamesUnique (Ctx st) → memoKeys n0 st → n0 ≤ length (Ctx st) → s < n0 →
  Ctx st !! s = Some d → sbody d ≠ None →
  MappedTypes st !! TStruct s = None →
  ctxNamesUnique (Ctx (placeholder st s d)) ∧
  memoKeys n0 (placeholder st s d) ∧
  namesRel n0 st (placeholder st s d).
Proof.
  intros Hu HK Hn0 Hs Hd Hb Hm.
  set (s' := length (Ctx st)).
  assert (s ≠ s') as Hss' by (unfold s'; lia).
  (* the context of the placeholder *)
  assert (∃ ds dn,
    Ctx (placeholder st s d) !! s' = Some dn ∧
    Ctx (placeholder st s d) !! s = Some ds ∧
    (∀ i di, i ≠ s → Ctx st !! i = Some di →
             Ctx (placeholder st s d) !! i = Some di) ∧
    sname dn = sname d ∧
    (sname d ≠ "" → ∃ suf, sname ds = sname d +:+ ".bad" +:+ suf) ∧
    ctxNamesUnique (Ctx (placeholder st s d)))
    as (ds & dn & Hs' & Hsds & Hother & Hdn & Hds & Hu2).
  { unfold placeholder, hasName. simpl. fold s'.
    pose proof (ctxNamesUnique_create _ Hu) as Hu1.
    assert (StructType_create (Ctx st) !! s = Some d) as Hd1.
    { unfold StructType_create. by apply lookup_app_l_Some. }
    assert (StructType_create (Ctx st) !! s' = Some (mkStruct "" None false))
      as Hn1.
    { unfold StructType_create, s'. by rewrite list_lookup_middle. }
    assert (∀ i di, Ctx st !! i = Some di →
                    StructType_create (Ctx st) !! i = Some di) as Ho1.
    { intros i di Hi. unfold StructType_create. by apply lookup_app_l_Some. }
    destruct (decide (sname d ≠ "")) as [Hne|Hemp].
    - rewrite bool_decide_eq_true_2 by done.
      destruct (StructType_setName_spec _ s (sname d +:+ ".bad") d Hu1 Hd1)
        as (N' & -> & Hfresh & _ & suf & HN').
      set (ctx1' := <[s := mkStruct N' (sbody d) (spacked d)]>
                      (StructType_create (Ctx st))).
      assert (ctxNamesUnique ctx1') as Hu1'
        by (by apply ctxNamesUnique_insert).
      assert (ctx1' !! s' = Some (mkStruct "" None false)) as Hn1'.
      { unfold ctx1'. by rewrite list_lookup_insert_ne. }
      destruct (StructType_setName_spec _ s' (sname d) _ Hu1' Hn1')
        as (n'' & -> & Hfresh2 & Hfree2 & _). simpl.
      assert (n'' = sname d) as ->.
      { apply Hfree2. right.
        intros (i & di & Hi & His' & Hin & _)%elem_of_namesExcept.
        unfold ctx1' in Hi. destruct (decide (i = s)) as [->|His].
        - apply list_lookup_insert_Some in Hi as [(_ & <- & _)|[? _]]; [|done].
          simpl in Hin. rewrite HN' in Hin. by apply bad_name_differs in Hin.
        - rewrite list_lookup_insert_ne in Hi by done.
          unfold StructType_create in Hi.
          apply lookup_app_Some in Hi as [Hi|[Hge Hi]].
          + apply His. apply (Hu i s di d); [done|done|done|congruence].
          + apply list_lookup_singleton_Some in Hi as [Hi _].
            apply His'. unfold s'. lia. }
      exists (mkStruct N' (sbody d) (spacked d)), (mkStruct (sname d) None false).
      split; [|split; [|split; [|split; [done|split]]]].
      + apply list_lookup_insert_eq. by eapply lookup_lt_Some.
      + rewrite list_lookup_insert_ne by done. unfold ctx1'.
        apply list_lookup_insert_eq. by eapply lookup_lt_Some.
      + intros i di His Hi. rewrite list_lookup_insert_ne
          by (apply lookup_lt_Some in Hi; unfold s'; lia).
        unfold ctx1'. rewrite list_lookup_insert_ne by done. by apply Ho1.
      + intros _. exists suf. simpl. by rewrite HN', string_app_assoc.
      + by apply ctxNamesUnique_insert.
    - assert (sname d = "") as Hemp' by (by destruct (decide (sname d = ""))).
      rewrite bool_decide_eq_false_2 by done.
      exists d, (mkStruct "" None false).
      split; [done|]. split; [done|]. split; [by eauto|]. by repeat split. }
  assert (MappedTypes (placeholder st s d)
          = <[TStruct s := TStruct s']> (MappedTypes st)) as Hm' by done.
  split; [done|]. split.
  - intros s0. rewrite Hm'. destruct (decide (s0 = s)) as [->|Hne]; [done|].
    rewrite lookup_insert_ne by congruence. apply HK.
  - constructor.
    + intros i di Hi. destruct (decide (i = s)) as [->|His].
      * left. rewrite Hd in Hi. injection Hi as <-.
        split; [done|]. split; [|done]. rewrite Hm', lookup_insert_eq. eauto.
      * right. eauto.
    + intros s0 d0 s0' Hd0 Hb0 H1. rewrite Hm'.
      destruct (decide (s0 = s)) as [->|Hne].
      * rewrite lookup_insert_eq. intros [= <-].
        rewrite Hd in Hd0. injection Hd0 as <-. split; [done|]. eauto.
      * rewrite lookup_insert_ne by congruence. intros H2. by rewrite H1 in H2.
    + intros s0 d0 Hd0 Hb0 Hn H1. rewrite Hm'.
      destruct (decide (s0 = s)) as [->|Hne].
      * intros _. rewrite Hd in Hd0. injection Hd0 as <-.
        destruct (Hds Hn) as [suf Hsuf]. eauto.
      * rewrite lookup_insert_ne by congruence. intros [? H2].
        by rewrite H1 in H2.
Qed.

Section StructNamesRewriter.
Variable f : N → N.

Lemma remapType_names fuel : ∀ n0 pend st T st' D,
  Inv f n0 pend st → wf_ty n0 T →
  ctxNamesUnique (Ctx st) → memoKeys n0 st →
  remapType f fuel st T = Some (st', D) →
  ctxNamesUnique (Ctx st') ∧ memoKeys n0 st' ∧ namesRel n0 st st'.
Proof.
  induction fuel as [|fuel IH]; intros n0 pend st T st' D HI HT Hu HK Hrun;
    [done|].
  assert (∀ l pend st0 st1 l',
    Inv f n0 pend st0 → Forall (wf_ty n0) l →
    ctxNamesUnique (Ctx st0) → memoKeys n0 st0 →
    remapList (remapType f fuel) st0 l = Some (st1, l') →
    ctxNamesUnique (Ctx st1) ∧ memoKeys n0 st1 ∧ namesRel n0 st0 st1) as IHl.
  { induction l as [|t l IHl]; intros pend0 st0 st1 l' HI0 Hl Hu0 HK0 Hrl;
      simpl in Hrl.
    { injection Hrl as <- <-. split; [done|]. split; [done|].
      apply namesRel_refl. }
    apply Forall_cons in Hl as [Ht Hl].
    destruct (remapType f fuel st0 t) as [[sta t']|] eqn:Et; simpl in Hrl;
      [|done].
    destruct (remapList _ sta l) as [[stb l2]|] eqn:El; simpl in Hrl; [|done].
    injection Hrl as <- <-.
    destruct (IH _ _ _ _ _ _ HI0 Ht Hu0 HK0 Et) as (Ua & Ka & Ra).
    destruct (remapType_inv f _ _ _ _ _ _ _ HI0 Ht Et) as (Ia & Sa & _).
    destruct (IHl _ _ _ _ Ia Hl Ua Ka El) as (Ub & Kb & Rb).
    destruct (remapList_inv f _ _ _ _ _ _ _ Ia Hl El) as (_ & Sb & _).
    split; [done|]. split; [done|].
    eapply namesRel_trans; try done. by eapply remapType_frame. }
  simpl in Hrun.
  destruct (MappedTypes st !! T) as [D0|] eqn:Hm.
  { injection Hrun as <- <-. split; [done|]. split; [done|].
    apply namesRel_refl. }
  match type of Hrun with
  | mbind _ ?c = _ => destruct c as [[st1 D1]|] eqn:Hc; simpl in Hrun; [|done]
  end.
  injection Hrun as <- <-. simpl.
  assert (∀ st1 D1, (∀ s, T ≠ TStruct s) →
    ctxNamesUnique (Ctx st1) → memoKeys n0 st1 → namesRel n0 st st1 →
    ctxNamesUnique (Ctx st1) ∧
    memoKeys n0 (State (Ctx st1) (<[T := D1]> (MappedTypes st1))) ∧
    namesRel n0 st (State (Ctx st1) (<[T := D1]> (MappedTypes st1))))
    as Hfinish.
  { intros st2 D2 HnT U2 K2 R2. split; [done|].
    split; [by apply memoKeys_insert_other|by apply namesRel_insert_other]. }
  destruct T as [k|a|r ps v|es p|s|e n|e n sc].
  - injection Hc as <- <-. apply Hfinish; try done. apply namesRel_refl.
  - injection Hc as <- <-. apply Hfinish; try done. apply namesRel_refl.
  - apply wf_ty_fun in HT as [Hr Hps].
    destruct (remapList _ st ps) as [[st2 ps']|] eqn:Eps; simpl in Hc; [|done].
    destruct (remapType f fuel st2 r) as [[st3 r']|] eqn:Er; simpl in Hc; [|done].
    injection Hc as <- <-.
    destruct (IHl _ _ _ _ _ HI Hps Hu HK Eps) as (U2 & K2 & R2).
    destruct (remapList_inv f _ _ _ _ _ _ _ HI Hps Eps) as (I2 & S2 & _).
    destruct (IH _ _ _ _ _ _ I2 Hr U2 K2 Er) as (U3 & K3 & R3).
    destruct (remapType_inv f _ _ _ _ _ _ _ I2 Hr Er) as (_ & S3 & _).
    apply Hfinish; try done.
    eapply namesRel_trans; try done. by eapply remapList_frame.
  - apply wf_ty_lit in HT.
    destruct (remapList _ st es) as [[st2 es']|] eqn:Ees; simpl in Hc; [|done].
    injection Hc as <- <-.
    destruct (IHl _ _ _ _ _ HI HT Hu HK Ees) as (U2 & K2 & R2).
    by apply Hfinish.
  - apply wf_ty_struct in HT.
    destruct (Ctx st !! s) as [d|] eqn:Hd; simpl in Hc; [|done].
    destruct (sbody d) as [es|] eqn:Hb.
    + destruct (remapList _ _ es) as [[st2 es']|] eqn:Ees; simpl in Hc; [|done].
      injection Hc as <- <-. simpl.
      pose proof (Inv_placeholder f _ _ _ _ _ _ HI Hm HT Hd Hb) as Iph.
      pose proof (shapes_lookup _ _ _ Hd) as Hsh. rewrite Hb in Hsh.
      pose proof (inv_src _ _ _ _ HI _ _ _ HT Hsh) as Hes.
      destruct (placeholder_names n0 st s d Hu HK (inv_n0 _ _ _ _ HI) HT Hd)
        as (Uph & Kph & Rph); [by rewrite Hb|done|].
      destruct (IHl _ _ _ _ _ Iph Hes Uph Kph Ees) as (U2 & K2 & R2).
      destruct (remapList_inv f _ _ _ _ _ _ _ Iph Hes Ees) as (_ & S2 & _).
      assert (MappedTypes st2 !! TStruct s = Some (TStruct (length (Ctx st))))
        as Hs2.
      { eapply lookup_weaken; [|exact S2]. apply lookup_insert_eq. }
      rewrite insert_id by done.
      split; [by apply ctxNamesUnique_setBody|]. split; [done|].
      eapply (namesRel_same n0 st st2); simpl.
      * intros i di. apply StructType_setBody_name.
      * done.
      * eapply (namesRel_trans n0 st (placeholder st s d) st2); try done.
        -- by apply insert_subseteq.
        -- apply frame_placeholder.
    + injection Hc as <- <-. split; [done|]. split.
      * by apply memoKeys_insert_struct.
      * constructor; simpl.
        -- intros i di Hi. right. eauto.
        -- intros s0 d0 s0' Hd0 Hb0 H1.
           destruct (decide (s0 = s)) as [->|Hne]; [congruence|].
           rewrite lookup_insert_ne by congruence. intros H2.
           by rewrite H1 in H2.
        -- intros s0 d0 Hd0 Hb0 Hn H1.
           destruct (decide (s0 = s)) as [->|Hne]; [congruence|].
           rewrite lookup_insert_ne by congruence. intros [? H2].
           by rewrite H1 in H2.
  - destruct (remapType f fuel st e) as [[st2 e']|] eqn:Ee; simpl in Hc; [|done].
    injection Hc as <- <-.
    destruct (IH _ _ _ e _ _ HI HT Hu HK Ee) as (U2 & K2 & R2).
    by apply Hfinish.
  - destruct (remapType f fuel st e) as [[st2 e']|] eqn:Ee; simpl in Hc; [|done].
    injection Hc as <- <-.
    destruct (IH _ _ _ e _ _ HI HT Hu HK Ee) as (U2 & K2 & R2).
    by apply Hfinish.
Qed.

(** X8: the names of the structs after a call. The names of the context stay
    distinct; the image of every struct with a body that the call has
    rewritten is a struct created by the call that carries the name the
    source had before the call; the source, if it had a name, carries a
    name that starts with the old one and [.bad]; and every other struct
    keeps its name. *)
Theorem remapType_struct_names st T fuel st' D :
  reachable f st → wf_ty (length (Ctx st)) T →
  ctxNamesUnique (Ctx st) →
  remapType f fuel st T = Some (st', D) →
  ctxNamesUnique (Ctx st') ∧
  (∀ s d s', Ctx st !! s = Some d → sbody d ≠ None →
     MappedTypes st !! TStruct s = None →
     MappedTypes st' !! TStruct s = Some (TStruct s') →
     length (Ctx st) ≤ s' ∧
     (∃ d', Ctx st' !! s' = Some d' ∧ sname d' = sname d) ∧
     (sname d ≠ "" →
      ∃ d' suf, Ctx st' !! s = Some d' ∧
                sname d' = sname d +:+ ".bad" +:+ suf)) ∧
  (∀ s d, Ctx st !! s = Some d →
     (sbody d = None ∨ is_Some (MappedTypes st !! TStruct s) ∨
      MappedTypes st' !! TStruct s = None) →
     ∃ d', Ctx st' !! s = Some d' ∧ sname d' = sname d).
Proof.
  intros Hr HT Hu Hrun.
  pose proof (reachable_TopInv f _ Hr) as HI.
  assert (memoKeys (length (Ctx st)) st) as HK.
  { intros s [X HX]. by destruct (inv_struct _ _ _ _ HI _ _ HX) as (_ & _ & _ & ?). }
  destruct (remapType_names fuel _ _ _ _ _ _ HI HT Hu HK Hrun)
    as (U' & K' & [Hkeep Hnew Hbad]).
  split; [done|]. split.
  - intros s d s' Hd Hb H1 H2.
    destruct (Hnew s d s' Hd Hb H1 H2) as [Hge Hname].
    split; [done|]. split; [done|]. intros Hn. apply Hbad; eauto.
  - intros s d Hd Hcase.
    destruct (Hkeep s d Hd) as [(H1 & [X H2] & Hb)|?]; [|done].
    destruct Hcase as [?|[[? H3]|H3]]; congruence.
Qed.
End StructNamesRewriter.

(** ** The Julia policy and the Type Rewriter *)

Section JuliaPolicy.
Variable FirstSpecial LastSpecial : N.
Hypothesis Generic_not_special :
  ¬ (FirstSpecial ≤ AddressSpace_Generic ∧ AddressSpace_Generic ≤ LastSpecial)%N.

#[local] Abbreviation julia := (removeJuliaAddrspaces FirstSpecial LastSpecial).

Lemma removeJuliaAddrspaces_image a :
  ¬ (FirstSpecial ≤ julia a ∧ julia a ≤ LastSpecial)%N.
Proof using Generic_not_special. unfold removeJuliaAddrspaces. by case_decide. Qed.

Lemma removeJuliaAddrspaces_idempotent a : julia (julia a) = julia a.
Proof using Generic_not_special.
  pose proof (removeJuliaAddrspaces_image a) as H.
  unfold removeJuliaAddrspaces at 1. by rewrite decide_False.
Qed.

(** X9: under the Julia policy, no pointer type that the image of a type
    contains, also through the bodies of the structs it mentions, is in a
    special address space, and the pointer types of the source in other
    address spaces are kept: the image is the source with the special
    address spaces replaced by the generic one. *)
Theorem remapType_julia_no_special st T fuel st' D :
  reachable julia st → wf_ty (length (Ctx st)) T →
  remapType julia fuel st T = Some (st', D) →
  (∀ a, reaches (Ctx st') D (TPtr a) →
        ¬ (FirstSpecial ≤ a ∧ a ≤ LastSpecial)%N) ∧
  (∀ a, ¬ (FirstSpecial ≤ a ∧ a ≤ LastSpecial)%N → T = TPtr a → D = T).
Proof using Generic_not_special.
  intros Hr HT Hrun.
  assert (reachable julia st') as Hr' by (by eapply reachable_call).
  pose proof (reachable_TopInv julia _ Hr') as HI.
  destruct (remapType_rw julia _ _ _ _ _ Hr HT Hrun) as (HD & Hm & _ & _).
  split.
  - intros a Hreach.
    assert (produced julia (MappedTypes st') D) as HP.
    { rewrite HD. by eapply produced_rw. }
    destruct (produced_reaches julia _ _ _ HI Hreach HP) as [Hp _].
    destruct (Hp a) as [b ->]; [by apply list_elem_of_singleton|].
    apply removeJuliaAddrspaces_image.
  - intros a Ha ->. rewrite HD. simpl. unfold removeJuliaAddrspaces.
    by rewrite decide_False.
Qed.

(** X10: under the Julia policy, rewriting the image of a type again gives a
    structurally equal type, and the image itself when the structs it
    mentions are opaque. *)
Theorem remapType_julia_idempotent st T fuel1 st1 T1 fuel2 :
  reachable julia st → wf_ty (length (Ctx st)) T →
  remapType julia fuel1 st T = Some (st1, T1) →
  fuelFor st1 T1 ≤ fuel2 →
  ∃ st2 T2,
    remapType julia fuel2 st1 T1 = Some (st2, T2) ∧
    structEq (Ctx st1) T1 (Ctx st2) T2 ∧
    ((∀ s d, s ∈ ids T1 → Ctx st1 !! s = Some d → sbody d = None) → T2 = T1).
Proof using Generic_not_special.
  apply remapType_twice. apply removeJuliaAddrspaces_idempotent.
Qed.
End JuliaPolicy.

(** ** Further properties of the Constant Materializer *)

Section ValueMaterializerMore.
Variable ASRemapper : N → N.
Variable VMap : Type.
Variable MapValue :
  VMap * state → constant → option (VMap * state * option constant).
Variable getWithOperands : constant → list constant → ty → constant.
Variable TypeMapper : bool.

#[local] Abbreviation materializeWith :=
  (materialize ASRemapper VMap MapValue getWithOperands TypeMapper).
#[local] Abbreviation remapTypeWith :=
  (Materializer_remapType ASRemapper VMap TypeMapper).

(** The operands that the loop of [materialize] collects: as many as the
    expression has, in order, each of them what [MapValue] returned for the
    operand, or the operand itself where [MapValue] returned null. *)
Lemma mapOperands_spec ops : ∀ σ σ' Ops,
  mapOperands VMap MapValue σ ops = Some (σ', Ops) →
  Forall2 (λ Op NewOp,
             ∃ σa σb r, MapValue σa Op = Some (σb, r) ∧ NewOp = default Op r)
          ops Ops.
Proof.
  induction ops as [|Op ops IH]; intros σ σ' Ops; simpl.
  { intros [= _ <-]. constructor. }
  unfold mapConstant.
  destruct (MapValue σ Op) as [[σ1 NewOp]|] eqn:E1; simpl; [|done].
  destruct (mapOperands VMap MapValue σ1 ops) as [[σ2 Ops']|] eqn:E2; simpl;
    [|done].
  intros [= _ <-]. constructor; [|by eapply IH]. eauto.
Qed.

(** X11: an address-space cast never materializes to an expression. When
    [materialize] returns for it, the result is the mapped operand if its
    address space is that of the rewritten type of the cast, and null
    otherwise. *)
Theorem materialize_addrspacecast_cases fuel σ ops t σ' r :
  materializeWith fuel σ (VConst (CExpr OpAddrSpaceCast ops t)) = Some (σ', r) →
  ∃ Op0 σ0 Ty Src a1 a2,
    ops !! 0 = Some Op0 ∧
    remapTypeWith fuel σ t = Some (σ0, Ty) ∧
    MapValue σ0 Op0 = Some (σ', Some Src) ∧
    getPointerAddressSpace (constType Src) = Some a1 ∧
    getPointerAddressSpace Ty = Some a2 ∧
    (a1 = a2 → r = Some (VConst Src)) ∧ (a1 ≠ a2 → r = None).
Proof.
  unfold materialize.
  destruct (remapTypeWith fuel σ t) as [[σ0 Ty]|]; simpl; [|done].
  destruct (ops !! 0) as [Op0|]; simpl; [|done]. unfold mapConstant.
  destruct (MapValue σ0 Op0) as [[σ1 [Src|]]|] eqn:EM; simpl; try done.
  destruct (getPointerAddressSpace (constType Src)) as [a1|] eqn:E1; simpl;
    [|done].
  destruct (getPointerAddressSpace Ty) as [a2|] eqn:E2; simpl; [|done].
  intros [= <- <-]. exists Op0, σ0, Ty, Src, a1, a2.
  repeat split; try done.
  - intros ->. by rewrite decide_True.
  - intros Hne. by rewrite decide_False.
Qed.

(** X12: a constant expression that is neither an address-space cast nor a
    [GetElementPtr] is created again, by [getWithOperands], with the
    rewritten type and with one operand for each operand of the source;
    and [materialize] returns for it when the rewriting of the type and
    [MapValue] do. *)
Theorem materialize_other fuel σ op ops t :
  op ≠ OpAddrSpaceCast → op ≠ OpGetElementPtr →
  (∀ σ' r, materializeWith fuel σ (VConst (CExpr op ops t)) = Some (σ', r) →
     ∃ σ0 Ty Ops,
       remapTypeWith fuel σ t = Some (σ0, Ty) ∧
       r = Some (VConst (getWithOperands (CExpr op ops t) Ops Ty)) ∧
       Forall2 (λ Op NewOp,
                  ∃ σa σb r, MapValue σa Op = Some (σb, r) ∧
                             NewOp = default Op r)
               ops Ops) ∧
  (is_Some (remapTypeWith fuel σ t) → (∀ σ c, is_Some (MapValue σ c)) →
   is_Some (materializeWith fuel σ (VConst (CExpr op ops t)))).
Proof.
  intros Hcast Hgep. unfold materialize. split.
  - intros σ' r.
    destruct (remapTypeWith fuel σ t) as [[σ0 Ty]|]; simpl; [|done].
    destruct op as [| |name]; try done.
    destruct (mapOperands VMap MapValue σ0 ops) as [[σ1 Ops]|] eqn:EO; simpl;
      [|done].
    intros [= <- <-]. exists σ0, Ty, Ops. split; [done|]. split; [done|].
    by eapply mapOperands_spec.
  - intros [[σ0 Ty] ->] Htotal. simpl. destruct op as [| |name]; try done.
    destruct (mapOperands_returns VMap MapValue σ0 ops Htotal)
      as [[σ1 Ops] ->].
    simpl. eauto.
Qed.
End ValueMaterializerMore.

(** ** Further properties of the No-op Cast Eliminator *)

(** The first loop returns only if every cast it visits is between pointer
    types: [getSrcAddressSpace] and [getDestAddressSpace] assert it. *)
Lemma scanCasts_typed F0 L : ∀ σ acc r,
  (∀ J, J ∈ L → findInstr F0 (iid J) = Some J) →
  NoDup (iid <$> L) → (∀ c, c ∈ acc → c ∉ iid <$> L) →
  scanInv F0 σ acc →
  scanCasts (iid <$> L) (mapBlocks (mapOperandsOf σ) F0) acc = Some r →
  ∀ J, J ∈ L → iop J = OpAddrSpaceCast →
       is_Some (getSrcAddressSpace F0 J) ∧ is_Some (getDestAddressSpace J).
Proof.
  induction L as [|J L IH]; intros σ acc r Hfind Hnd Hacc HI Hrun.
  { by intros J ?%elem_of_nil. }
  simpl in Hnd. apply NoDup_cons in Hnd as [HJL Hnd].
  assert (∀ J', J' ∈ L → findInstr F0 (iid J') = Some J') as Hfind'.
  { intros J' HJ'. apply Hfind. by apply list_elem_of_further. }
  assert (iid J ∉ acc) as HJacc.
  { intros Hin. apply (Hacc _ Hin). simpl. apply list_elem_of_here. }
  assert (∀ c, c ∈ acc → c ∉ iid <$> L) as Hacc'.
  { intros c Hc Hin. apply (Hacc c Hc). simpl. by apply list_elem_of_further. }
  simpl in Hrun. rewrite findInstr_rewired in Hrun.
  rewrite (Hfind J (list_elem_of_here _ _)) in Hrun. simpl in Hrun.
  rewrite (getSrcAddressSpace_rewired _ _ _ _ HI) in Hrun.
  unfold getDestAddressSpace in Hrun at 1. simpl in Hrun.
  fold (getDestAddressSpace J) in Hrun.
  assert ((iop J = OpAddrSpaceCast →
           is_Some (getSrcAddressSpace F0 J) ∧
           is_Some (getDestAddressSpace J)) ∧
          ∃ σ' acc', scanInv F0 σ' acc' ∧ (∀ c, c ∈ acc' → c ∉ iid <$> L) ∧
                     scanCasts (iid <$> L) (mapBlocks (mapOperandsOf σ') F0)
                       acc' = Some r)
    as (Hhead & σ' & acc' & HI' & Hacc'' & Hrest).
  { destruct (decide (iop J = OpAddrSpaceCast)) as [Hop|Hop];
      [|split; [done|by eauto]].
    destruct (getSrcAddressSpace F0 J) as [a|] eqn:Hsrc; simpl in Hrun; [|done].
    destruct (getDestAddressSpace J) as [b|] eqn:Hdst; simpl in Hrun; [|done].
    split; [by eauto|].
    destruct (decide (a = b)) as [->|Hab]; [|by eauto].
    assert (isNoopCast F0 J = true) as Hnoop.
    { unfold isNoopCast. rewrite Hsrc, Hdst.
      by rewrite !bool_decide_eq_true_2. }
    rewrite list_lookup_fmap in Hrun.
    destruct (iops J !! 0) as [Op0|] eqn:Hop0; simpl in Hrun; [|done].
    destruct (valueType _ (σ Op0)) as [t0|]; simpl in Hrun; [|done].
    assert (∃ F', replaceAllUsesWith (mapBlocks (mapOperandsOf σ) F0)
                    (iid J) (σ Op0) = Some F' ∧
                  scanCasts (iid <$> L) F' (acc ++ [iid J]) = Some r)
      as (F' & HF' & Hrest).
    { destruct (decide (ity J = t0));
        destruct (replaceAllUsesWith _ _ _) as [F'|]; simpl in Hrun;
        try done; eauto. }
    unfold replaceAllUsesWith in HF'.
    destruct (isInst (iid J) (σ Op0)) eqn:Hself; [done|].
    injection HF' as <-. rewrite mapBlocks_compose in Hrest.
    exists (λ v, substValue (iid J) (σ Op0) (σ v)), (acc ++ [iid J]).
    split; [|split; [|done]].
    - eapply scanInv_step; eauto. apply Hfind, list_elem_of_here.
    - intros c [Hc|Hc%list_elem_of_singleton]%elem_of_app; [auto|by subst c]. }
  intros J' [->|HJ']%elem_of_cons; [done|].
  by apply (IH σ' acc' r).
Qed.

Lemma mapBlocks_id F : mapBlocks (mapOperandsOf (λ v, v)) F = F.
Proof.
  destruct F as [args blocks attrs]. unfold mapBlocks; simpl. f_equal.
  rewrite <- (list_fmap_id blocks) at 2. apply list_fmap_ext.
  intros i b _. simpl. rewrite <- (list_fmap_id b) at 2.
  apply list_fmap_ext. intros j [id op ops t] _. unfold mapOperandsOf; simpl.
  by rewrite list_fmap_id.
Qed.

(** What a run of the eliminator that returns has done. *)
Lemma RemoveNoopAddrSpaceCasts_spec (F F' : Function) (changed : bool) :
  NoDup (iid <$> instructions F) →
  RemoveNoopAddrSpaceCasts F = Some (F', changed) →
  ∃ σ, scanInv F σ (noopCasts F) ∧
       F' = foldl eraseFromParent (mapBlocks (mapOperandsOf σ) F) (noopCasts F) ∧
       castsTyped F.
Proof.
  intros Hnd Hrun. unfold RemoveNoopAddrSpaceCasts in Hrun.
  destruct (scanCasts _ F []) as [[F1 acc1]|] eqn:Hscan; simpl in Hrun; [|done].
  injection Hrun as <- <-.
  rewrite <- (mapBlocks_id F) in Hscan at 2.
  assert (∀ J, J ∈ instructions F → findInstr F (iid J) = Some J) as Hfind.
  { intros J HJ. by apply lookupInstr_NoDup. }
  destruct (scanCasts_spec F (instructions F) (λ v, v) [] F1 acc1 Hfind Hnd)
    as (σ & -> & HI & Hacc);
    [by intros c ?%elem_of_nil|apply scanInv_init|exact Hscan|].
  simpl in Hacc. fold (noopCasts F) in Hacc. subst acc1.
  exists σ. split; [done|]. split; [done|].
  apply Forall_forall. intros J HJ Hop.
  eapply (scanCasts_typed F (instructions F) (λ v, v) []); try done.
  - by intros c ?%elem_of_nil.
  - apply scanInv_init.
Qed.

(** The address space of a value of the result. *)
Lemma valueAS_result F σ v :
  scanInv F σ (noopCasts F) →
  valueAS (foldl eraseFromParent (mapBlocks (mapOperandsOf σ) F) (noopCasts F))
          (σ v)
  = valueAS F v.
Proof.
  intros HI. rewrite <- (valueAS_rewired F σ _ v HI).
  unfold valueAS. f_equal.
  pose proof (si_avoid _ _ _ HI v) as Hav.
  destruct (σ v) as [c|i|j|b]; simpl; try done.
  - by destruct (args_erase_all (noopCasts F)
                   (mapBlocks (mapOperandsOf σ) F)) as [-> _].
  - f_equal. unfold findInstr. rewrite instructions_erase_all.
    apply lookupInstr_filter.
    intros Hj. specialize (Hav j Hj). rewrite isInst_VInst in Hav.
    by apply bool_decide_eq_false in Hav.
Qed.

(** The first loop on a function in which every address-space cast is
    between pointer types of different address spaces: it visits the
    instructions and collects nothing. *)
Lemma scanCasts_skips (F : Function) (l : list nat) :
  (∀ J : instr, J ∈ instructions F → iop J = OpAddrSpaceCast →
     ∃ a b, getSrcAddressSpace F J = Some a ∧
            getDestAddressSpace J = Some b ∧ a ≠ b) →
  (∀ id, id ∈ l → id ∈ iid <$> instructions F) →
  scanCasts l F [] = Some (F, []).
Proof.
  intros Hcasts. induction l as [|id l IH]; intros Hl; [done|]. simpl.
  assert (id ∈ iid <$> instructions F) as Hid
    by apply Hl, list_elem_of_here.
  assert (∃ J, findInstr F id = Some J ∧ J ∈ instructions F)
    as (J & -> & HJ).
  { unfold findInstr. clear -Hid.
    induction (instructions F) as [|J0 l0 IHl]; [by apply elem_of_nil in Hid|].
    simpl. case_decide as Hc.
    - exists J0. split; [done|apply list_elem_of_here].
    - rewrite fmap_cons in Hid. apply elem_of_cons in Hid as [->|Hid];
        [done|].
      destruct (IHl Hid) as (J & ? & ?). exists J.
      split; [done|by apply list_elem_of_further]. }
  simpl.
  assert (scanCasts l F [] = Some (F, [])) as Hrest.
  { apply IH. intros id' Hid'. apply Hl. by apply list_elem_of_further. }
  destruct (decide (iop J = OpAddrSpaceCast)) as [Hop|Hop]; [|done].
  destruct (Hcasts J HJ Hop) as (a & b & -> & -> & Hab). simpl.
  by rewrite decide_False.
Qed.

(** X13: a function in which every address-space cast is between pointer
    types of different address spaces is returned as it is.  No cast at all
    is a case of it, and so is the function without instructions. *)
Theorem RemoveNoopAddrSpaceCasts_nothing (F : Function) :
  (∀ J : instr, J ∈ instructions F → iop J = OpAddrSpaceCast →
     ∃ a b, getSrcAddressSpace F J = Some a ∧
            getDestAddressSpace J = Some b ∧ a ≠ b) →
  RemoveNoopAddrSpaceCasts F = Some (F, false).
Proof.
  intros Hcasts. unfold RemoveNoopAddrSpaceCasts.
  by rewrite (scanCasts_skips F _ Hcasts).
Qed.

(** X14: running the eliminator on its result changes nothing. *)
Theorem RemoveNoopAddrSpaceCasts_idempotent (F F' : Function) (changed : bool) :
  NoDup (iid <$> instructions F) →
  RemoveNoopAddrSpaceCasts F = Some (F', changed) →
  RemoveNoopAddrSpaceCasts F' = Some (F', false).
Proof.
  intros Hnd Hrun.
  destruct (RemoveNoopAddrSpaceCasts_spec F F' changed Hnd Hrun)
    as (σ & HI & -> & Hty).
  unfold RemoveNoopAddrSpaceCasts. rewrite scanCasts_skips; [done| |done].
  intros J'. rewrite instructions_erase_all, instructions_mapBlocks.
  rewrite filter_mapOperandsOf.
  intros (J & -> & [HJn HJ]%list_elem_of_filter)%list_elem_of_fmap Hop.
  simpl in Hop.
  unfold castsTyped in Hty. rewrite Forall_forall in Hty.
  destruct (Hty J HJ Hop) as [[a Hsrc] [b Hdst]].
  assert (getSrcAddressSpace
            (foldl eraseFromParent (mapBlocks (mapOperandsOf σ) F) (noopCasts F))
            (mapOperandsOf σ J) = Some a) as Hsrc'.
  { rewrite <- Hsrc. rewrite !getSrcAddressSpace_alt. simpl.
    rewrite list_lookup_fmap. destruct (iops J !! 0) as [Op0|]; simpl; [|done].
    by apply valueAS_result. }
  exists a, b. split; [done|]. split; [done|].
  intros ->. apply HJn. apply elem_of_noopCasts. exists J.
  split; [done|]. split; [done|].
  unfold isNoopCast. rewrite Hsrc, Hdst.
  by rewrite !bool_decide_eq_true_2.
Qed.

(** X15: what the eliminator keeps. The instructions of the result are the
    instructions of the function other than the removed casts, in their
    order, each with its identity, opcode and type and as many operands,
    and every operand is in the address space it was in (the type of an
    operand may change where a cast was not canonical, its address space
    does not); the blocks, the arguments and the attributes are kept. *)
Theorem RemoveNoopAddrSpaceCasts_keeps (F F' : Function) (changed : bool) :
  NoDup (iid <$> instructions F) →
  RemoveNoopAddrSpaceCasts F = Some (F', changed) →
  Forall2 (λ J J' : instr,
             iid J' = iid J ∧ iop J' = iop J ∧ ity J' = ity J ∧
             Forall2 (λ v v', valueAS F' v' = valueAS F v) (iops J) (iops J'))
          (filter (λ J, iid J ∉ noopCasts F) (instructions F))
          (instructions F') ∧
  length (f_blocks F') = length (f_blocks F) ∧
  f_args F' = f_args F ∧ f_attrs F' = f_attrs F.
Proof.
  intros Hnd Hrun.
  destruct (RemoveNoopAddrSpaceCasts_spec F F' changed Hnd Hrun)
    as (σ & HI & -> & _).
  split; [|split].
  - rewrite instructions_erase_all, instructions_mapBlocks.
    rewrite filter_mapOperandsOf. apply Forall2_fmap_r.
    apply Forall_Forall2_diag, Forall_forall. intros J _. simpl.
    split; [done|]. split; [done|]. split; [done|].
    apply Forall2_fmap_r, Forall_Forall2_diag, Forall_forall.
    intros v _. simpl. by apply valueAS_result.
  - rewrite blocks_erase_all. unfold mapBlocks. simpl.
    by rewrite !length_fmap.
  - destruct (args_erase_all (noopCasts F) (mapBlocks (mapOperandsOf σ) F))
      as [-> ->]. done.
Qed.

(** X16: when the eliminator returns. On every function whose instructions have
    distinct identities, whose casts are between pointer types, and in
    which no cast with equal address spaces is its own operand, directly or
    through such casts ([rank] decreases from such a cast to its operand). *)
Theorem RemoveNoopAddrSpaceCasts_total (F : Function) (rank : nat → nat) :
  NoDup (iid <$> instructions F) → castsTyped F → castsAcyclic rank F →
  ∃ F', RemoveNoopAddrSpaceCasts F = Some (F', false).
Proof. apply RemoveNoopAddrSpaceCasts_returns. Qed.

(** ** The address spaces of global variables and aliases *)

Section PointerMemo.
Variable f : N → N.

(** The entries of the memo for pointer types are what the policy says. *)
Definition ptrMemo (st : state) : Prop :=
  ∀ a D, MappedTypes st !! TPtr a = Some D → D = TPtr (f a).

Lemma ptrMemo_insert st T D :
  ptrMemo st → (∀ a, T = TPtr a → D = TPtr (f a)) →
  ptrMemo (State (Ctx st) (<[T := D]> (MappedTypes st))).
Proof.
  intros HP HT a D0. simpl. destruct (decide (T = TPtr a)) as [->|Hne].
  - rewrite lookup_insert_eq. intros [= <-]. by apply HT.
  - rewrite lookup_insert_ne by done. apply HP.
Qed.

Lemma remapType_ptrMemo fuel : ∀ st T st' D,
  ptrMemo st → remapType f fuel st T = Some (st', D) →
  ptrMemo st' ∧ (∀ a, T = TPtr a → D = TPtr (f a)).
Proof.
  induction fuel as [|fuel IH]; intros st T st' D HP Hrun; [done|].
  assert (∀ l st0 st1 l',
    ptrMemo st0 → remapList (remapType f fuel) st0 l = Some (st1, l') →
    ptrMemo st1) as IHl.
  { intros l st0 st1 l' HP0 Hl.
    edestruct (remapList_spec (remapType f fuel) ptrMemo (λ _ _, True)
                 (λ _ _ _, True) (λ _, True))
      as (? & _ & _); [done|done|done| |exact HP0|by apply Forall_true|
                       exact Hl|done].
    intros ???? HP1 _ Hc. by edestruct IH. }
  simpl in Hrun.
  destruct (MappedTypes st !! T) as [D0|] eqn:Hm.
  { injection Hrun as <- <-. split; [done|]. intros a ->. by apply HP. }
  match type of Hrun with
  | mbind _ ?c = _ => destruct c as [[st1 D1]|] eqn:Hc; simpl in Hrun; [|done]
  end.
  injection Hrun as <- <-.
  assert (ptrMemo st1 ∧ (∀ a, T = TPtr a → D1 = TPtr (f a))) as [HP1 HD1].
  { destruct T as [k|a|r ps v|es p|s|e n|e n sc].
    - injection Hc as <- <-. done.
    - injection Hc as <- <-. split; [done|]. by intros ? [= <-].
    - destruct (remapList _ st ps) as [[st2 ps']|] eqn:Hps; simpl in Hc; [|done].
      destruct (remapType f fuel st2 r) as [[st3 r']|] eqn:Hr; simpl in Hc;
        [|done].
      injection Hc as <- <-. split; [|done].
      eapply IH; [|exact Hr]. by eapply IHl.
    - destruct (remapList _ st es) as [[st2 es']|] eqn:Hes; simpl in Hc; [|done].
      injection Hc as <- <-. split; [by eapply IHl|done].
    - destruct (Ctx st !! s) as [d|] eqn:Hd; simpl in Hc; [|done].
      destruct (sbody d) as [es|] eqn:Hb.
      + destruct (remapList _ _ es) as [[st2 es']|] eqn:Hes; simpl in Hc;
          [|done].
        injection Hc as <- <-. split; [|done].
        assert (ptrMemo st2) as HP2.
        { eapply IHl; [|exact Hes]. intros a D0. unfold placeholder. simpl.
          rewrite lookup_insert_ne by done. apply HP. }
        exact HP2.
      + injection Hc as <- <-. done.
    - destruct (remapType f fuel st e) as [[st2 e']|] eqn:He; simpl in Hc;
        [|done].
      injection Hc as <- <-. split; [by eapply IH|done].
    - destruct (remapType f fuel st e) as [[st2 e']|] eqn:He; simpl in Hc;
        [|done].
      injection Hc as <- <-. split; [by eapply IH|done]. }
  split; [by apply ptrMemo_insert|done].
Qed.

Lemma remapList_ptrMemo fuel l st st' l' :
  ptrMemo st → remapList (remapType f fuel) st l = Some (st', l') →
  ptrMemo st'.
Proof.
  intros HP Hl.
  edestruct (remapList_spec (remapType f fuel) ptrMemo (λ _ _, True)
               (λ _ _ _, True) (λ _, True))
    as (? & _ & _); [done|done|done| |exact HP|by apply Forall_true|
                     exact Hl|done].
  intros ???? HP1 _ Hc. by edestruct remapType_ptrMemo.
Qed.

Lemma remapAddressSpace_spec fuel ts AS ts' a :
  ptrMemo ts → remapAddressSpace f fuel ts AS = Some (ts', a) →
  ptrMemo ts' ∧ a = f AS.
Proof.
  intros HP. unfold remapAddressSpace.
  destruct (remapType f fuel ts (TPtr AS)) as [[ts1 PTy]|] eqn:E; simpl;
    [|done].
  destruct (remapType_ptrMemo _ _ _ _ _ HP E) as [HP1 HD].
  rewrite (HD AS eq_refl). by intros [= <- <-].
Qed.
End PointerMemo.

Lemma Value_setName_addrspaces M id Name :
  g_addrspace <$> m_globals (Value_setName M id Name)
  = g_addrspace <$> m_globals M.
Proof.
  unfold Value_setName. destruct (lookupGlobal M id) as [g|]; [|done].
  repeat case_decide; try done; by apply updIn_proj.
Qed.

(** The step of the declare phase adds the address space of the
    replacement to the address spaces of the module. *)
Lemma declare_step_addrspaces M GV M1 Name new M2 nid :
  (∀ i, g_id (new i) = i) →
  renameOriginal M GV = (M1, Name) → createGlobal M1 new Name = (M2, nid) →
  g_addrspace <$> m_globals M2
  = (g_addrspace <$> m_globals M) ++ [g_addrspace (new nid)].
Proof.
  intros Hid Hren Hcre.
  destruct (createGlobal_spec _ _ _ _ _ Hid Hcre) as (_ & n' & ->).
  rewrite fmap_app. f_equal. unfold renameOriginal in Hren.
  case_decide; injection Hren as <- <-; [|done].
  apply Value_setName_addrspaces.
Qed.

(** The address space that the declare phase gives the replacement of a
    global value. *)
Definition newAddressSpace (f : N → N) (o : GlobalValue) : N :=
  match kindOf o with
  | KFunction => g_addrspace o
  | _ => f (g_addrspace o)
  end.

Section DriverAddressSpaces.
Variable ASRemapper : N → N.
Variable HostMapValue :
  (mstate → value → option (mstate * option value)) →
  mstate → constant → option (mstate * option constant).
Variable getWithOperands : constant → list constant → ty → constant.
Variable HostMapMetadata :
  list (vref * vref) → metadata → option (list (vref * vref) * metadata).
Variable HostCloneFunctionInto :
  (mstate → constant → option (mstate * option constant)) →
  (state → ty → option (state * ty)) →
  mstate → GlobalValue → GlobalValue → option (mstate * Function).
Variable intrinsicName : string → ty → option string.

Lemma declareVariable_addrspaces fuel l0 M σ doneO o M' σ' :
  declInv l0 (m_globals M) doneO → o ∈ l0 → ptrMemo ASRemapper σ.2 →
  declareVariable ASRemapper fuel (M, σ) (g_id o) = Some (M', σ') →
  ptrMemo ASRemapper σ'.2 ∧
  g_addrspace <$> m_globals M'
  = (g_addrspace <$> m_globals M) ++ [newAddressSpace ASRemapper o].
Proof.
  intros Hinv Hin HP. unfold declareVariable. destruct σ as [VM ts].
  destruct (lookupGlobal M (g_id o)) as [GV|] eqn:HGV; [cbn|done].
  destruct (declInv_lookup _ _ _ _ _ Hinv Hin HGV) as (n & ->). cbn.
  destruct (g_payload o) as [isC tlm init md| |] eqn:Hp; try done.
  destruct (renameOriginal M (setName n o)) as [M1 Name] eqn:Hren.
  destruct (remapType ASRemapper fuel ts (g_valueType o)) as [[ts1 VTy]|] eqn:E1;
    [cbn|done].
  destruct (remapAddressSpace ASRemapper fuel ts1 (g_addrspace o))
    as [[ts2 AS]|] eqn:E2; [cbn|done].
  destruct (remapType_ptrMemo _ _ _ _ _ _ HP E1) as [HP1 _].
  destruct (remapAddressSpace_spec _ _ _ _ _ _ HP1 E2) as [HP2 ->].
  match goal with
  | |- context [createGlobal M1 ?new Name] =>
      destruct (createGlobal M1 new Name) as [M2 nid] eqn:Hcre;
      pose proof (declare_step_addrspaces M _ M1 Name new M2 nid
                    (λ _, eq_refl) Hren Hcre) as Has
  end.
  intros [= <- <-]. split; [done|]. simpl.
  change (g_addrspace <$> updIn nid (setAttrs (g_attrs o)) (m_globals M2)
          = (g_addrspace <$> m_globals M) ++ [newAddressSpace ASRemapper o]).
  rewrite updIn_proj by done. rewrite Has. simpl.
  unfold newAddressSpace, kindOf. by rewrite Hp.
Qed.

Lemma declareAlias_addrspaces fuel l0 M σ doneO o M' σ' :
  declInv l0 (m_globals M) doneO → o ∈ l0 → ptrMemo ASRemapper σ.2 →
  declareAlias ASRemapper fuel (M, σ) (g_id o) = Some (M', σ') →
  ptrMemo ASRemapper σ'.2 ∧
  g_addrspace <$> m_globals M'
  = (g_addrspace <$> m_globals M) ++ [newAddressSpace ASRemapper o].
Proof.
  intros Hinv Hin HP. unfold declareAlias. destruct σ as [VM ts].
  destruct (lookupGlobal M (g_id o)) as [GV|] eqn:HGV; [cbn|done].
  destruct (declInv_lookup _ _ _ _ _ Hinv Hin HGV) as (n & ->). cbn.
  destruct (g_payload o) as [|aliasee|] eqn:Hp; try done.
  destruct (renameOriginal M (setName n o)) as [M1 Name] eqn:Hren.
  destruct (remapType ASRemapper fuel ts (g_valueType o)) as [[ts1 VTy]|] eqn:E1;
    [cbn|done].
  destruct (remapAddressSpace ASRemapper fuel ts1 (g_addrspace o))
    as [[ts2 AS]|] eqn:E2; [cbn|done].
  destruct (remapType_ptrMemo _ _ _ _ _ _ HP E1) as [HP1 _].
  destruct (remapAddressSpace_spec _ _ _ _ _ _ HP1 E2) as [HP2 ->].
  match goal with
  | |- context [createGlobal M1 ?new Name] =>
      destruct (createGlobal M1 new Name) as [M2 nid] eqn:Hcre;
      pose proof (declare_step_addrspaces M _ M1 Name new M2 nid
                    (λ _, eq_refl) Hren Hcre) as Has
  end.
  intros [= <- <-]. split; [done|]. simpl.
  change (g_addrspace <$> updIn nid (setAttrs (g_attrs o)) (m_globals M2)
          = (g_addrspace <$> m_globals M) ++ [newAddressSpace ASRemapper o]).
  rewrite updIn_proj by done. rewrite Has. simpl.
  unfold newAddressSpace, kindOf. by rewrite Hp.
Qed.

Lemma declareFunction_addrspaces fuel l0 M σ doneO o M' σ' :
  declInv l0 (m_globals M) doneO → o ∈ l0 → ptrMemo ASRemapper σ.2 →
  declareFunction ASRemapper fuel (M, σ) (g_id o) = Some (M', σ') →
  ptrMemo ASRemapper σ'.2 ∧
  g_addrspace <$> m_globals M'
  = (g_addrspace <$> m_globals M) ++ [newAddressSpace ASRemapper o].
Proof.
  intros Hinv Hin HP. unfold declareFunction. destruct σ as [VM ts].
  destruct (lookupGlobal M (g_id o)) as [GV|] eqn:HGV; [cbn|done].
  destruct (declInv_lookup _ _ _ _ _ Hinv Hin HGV) as (n & ->). cbn.
  destruct (g_payload o) as [| |Fb] eqn:Hp; try done.
  destruct (g_valueType o) as [| |ret params isVarArg| | | |]; try done.
  destruct (renameOriginal M (setName n o)) as [M1 Name] eqn:Hren.
  destruct (remapList (remapType ASRemapper fuel) ts params) as [[ts1 Tys]|]
    eqn:E1; [cbn|done].
  destruct (remapType ASRemapper fuel ts1 ret) as [[ts2 Ret]|] eqn:E2;
    [cbn|done].
  pose proof (remapList_ptrMemo _ _ _ _ _ _ HP E1) as HP1.
  destruct (remapType_ptrMemo _ _ _ _ _ _ HP1 E2) as [HP2 _].
  match goal with
  | |- context [createGlobal M1 ?new Name] =>
      destruct (createGlobal M1 new Name) as [M2 nid] eqn:Hcre;
      pose proof (declare_step_addrspaces M _ M1 Name new M2 nid
                    (λ _, eq_refl) Hren Hcre) as Has
  end.
  intros [= <- <-]. split; [done|]. simpl. rewrite Has. simpl.
  unfold newAddressSpace, kindOf. by rewrite Hp.
Qed.

(** A loop of the declare phase, with the address spaces. *)
Lemma declare_loop_addrspaces
    (step : Module * mstate → nat → option (Module * mstate)) l0 :
  (∀ M σ doneO o M' σ',
     declInv l0 (m_globals M) doneO → o ∈ l0 → g_id o ∉ g_id <$> doneO →
     step (M, σ) (g_id o) = Some (M', σ') →
     declInv l0 (m_globals M') (doneO ++ [o])) →
  (∀ M σ doneO o M' σ',
     declInv l0 (m_globals M) doneO → o ∈ l0 → ptrMemo ASRemapper σ.2 →
     step (M, σ) (g_id o) = Some (M', σ') →
     ptrMemo ASRemapper σ'.2 ∧
     g_addrspace <$> m_globals M'
     = (g_addrspace <$> m_globals M) ++ [newAddressSpace ASRemapper o]) →
  ∀ os doneO acc acc',
    declInv l0 (m_globals acc.1) doneO →
    Forall (λ o, o ∈ l0) os → NoDup (g_id <$> (doneO ++ os)) →
    ptrMemo ASRemapper acc.2.2 →
    foldM step acc (g_id <$> os) = Some acc' →
    ptrMemo ASRemapper acc'.2.2 ∧
    g_addrspace <$> m_globals acc'.1
    = (g_addrspace <$> m_globals acc.1)
        ++ (newAddressSpace ASRemapper <$> os).
Proof.
  intros Hinv Has os.
  induction os as [|o os IH]; intros doneO acc acc' HI Hos Hnd HP.
  { simpl. intros [= <-]. by rewrite app_nil_r. }
  rewrite fmap_cons. simpl.
  destruct (step acc (g_id o)) as [acc1|] eqn:Hf; [simpl|done].
  apply Forall_cons in Hos as [Ho Hos]. intros Hfold.
  destruct acc as [M σ], acc1 as [M1 σ1].
  destruct (Has M σ doneO o M1 σ1 HI Ho HP Hf) as [HP1 E1].
  assert (g_id o ∉ g_id <$> doneO) as Hdone.
  { rewrite fmap_app in Hnd. apply NoDup_app in Hnd as (_ & Hnd & _).
    intros Hx. apply (Hnd _ Hx). simpl. apply list_elem_of_here. }
  pose proof (Hinv M σ doneO o M1 σ1 HI Ho Hdone Hf) as HI1.
  rewrite cons_middle, (assoc_L (++) doneO [o] os) in Hnd.
  destruct (IH (doneO ++ [o]) (M1, σ1) acc' HI1 Hos Hnd HP1 Hfold) as [HP' E'].
  split; [done|]. rewrite E'. simpl. rewrite E1, <- (assoc_L (++)). done.
Qed.

(** The address spaces of the module after the declare phase. *)
Lemma declare_phase_addrspaces fuel ctx M acc1 acc2 acc3 :
  NoDup (g_id <$> m_globals M) → namesUnique (m_globals M) →
  foldM (declareVariable ASRemapper fuel) (M, ([], State ctx ∅))
    (g_id <$> ofKind KVariable M) = Some acc1 →
  foldM (declareAlias ASRemapper fuel) acc1 (g_id <$> ofKind KAlias M)
    = Some acc2 →
  foldM (declareFunction ASRemapper fuel) acc2 (g_id <$> ofKind KFunction M)
    = Some acc3 →
  g_addrspace <$> m_globals acc3.1
  = (g_addrspace <$> m_globals M)
      ++ (newAddressSpace ASRemapper
            <$> (ofKind KVariable M ++ ofKind KAlias M ++ ofKind KFunction M)).
Proof.
  intros Hnd Hu H1 H2 H3.
  pose proof (kinds_perm (m_globals M)) as Hperm.
  assert (NoDup (g_id <$> (ofKind KVariable M ++ ofKind KAlias M
                             ++ ofKind KFunction M))) as Hnd'.
  { unfold ofKind. by rewrite Hperm. }
  assert (NoDup (g_id <$> ([] ++ ofKind KVariable M))) as Hnd1.
  { simpl. rewrite fmap_app in Hnd'. by apply NoDup_app in Hnd' as [? _]. }
  assert (NoDup (g_id <$> (ofKind KVariable M ++ ofKind KAlias M))) as Hnd2.
  { rewrite (assoc_L (++)), fmap_app in Hnd'.
    by apply NoDup_app in Hnd' as [? _]. }
  pose proof (declInv_init _ Hnd Hu) as I0.
  assert (ptrMemo ASRemapper (State ctx ∅)) as HP0 by (by intros a D).
  pose proof (declare_loop _ _ (declareVariable_inv ASRemapper fuel (m_globals M))
                (ofKind KVariable M) [] (M, ([], State ctx ∅)) acc1 I0
                (Forall_filter_elem _ _) Hnd1 H1) as I1.
  destruct (declare_loop_addrspaces _ _
              (declareVariable_inv ASRemapper fuel (m_globals M))
              (declareVariable_addrspaces fuel (m_globals M))
              (ofKind KVariable M) [] (M, ([], State ctx ∅)) acc1 I0
              (Forall_filter_elem _ _) Hnd1 HP0 H1) as [HP1 E1].
  simpl in I1.
  pose proof (declare_loop _ _ (declareAlias_inv ASRemapper fuel (m_globals M))
                (ofKind KAlias M) _ acc1 acc2 I1
                (Forall_filter_elem _ _) Hnd2 H2) as I2.
  destruct (declare_loop_addrspaces _ _
              (declareAlias_inv ASRemapper fuel (m_globals M))
              (declareAlias_addrspaces fuel (m_globals M))
              (ofKind KAlias M) _ acc1 acc2 I1
              (Forall_filter_elem _ _) Hnd2 HP1 H2) as [HP2 E2].
  rewrite (assoc_L (++)) in Hnd'.
  destruct (declare_loop_addrspaces _ _
              (declareFunction_inv ASRemapper fuel (m_globals M))
              (declareFunction_addrspaces fuel (m_globals M))
              (ofKind KFunction M) _ acc2 acc3 I2
              (Forall_filter_elem _ _) Hnd' HP2 H3) as [HP3 E3].
  rewrite E3, E2, E1. simpl. by rewrite !fmap_app, <- !(assoc_L (++)).
Qed.

(** The replacements after the three phases, with their address spaces. *)
Lemma rebuild_addrspaces_spec fuel ctx M ctx' M1 :
  NoDup (g_id <$> m_globals M) → namesUnique (m_globals M) →
  rebuild ASRemapper HostMapValue getWithOperands HostMapMetadata
    HostCloneFunctionInto fuel ctx M = Some (ctx', M1) →
  ∃ news,
    hdr <$> m_globals M1 = hdr <$> news ∧
    Forall2 (λ n o, kindOf n = kindOf o ∧
                    g_addrspace n = newAddressSpace ASRemapper o)
      news (ofKind KVariable M ++ ofKind KAlias M ++ ofKind KFunction M).
Proof.
  intros Hnd Hu. unfold rebuild.
  destruct (foldM (declareVariable _ _) _ _) as [acc1|] eqn:H1; [cbn|done].
  destruct (foldM (declareAlias _ _) _ _) as [acc2|] eqn:H2; [cbn|done].
  destruct (foldM (declareFunction _ _) _ _) as [acc3|] eqn:H3; [cbn|done].
  destruct (declare_phase _ _ _ _ _ _ _ Hnd Hu H1 H2 H3) as (Hinv & E1 & E2).
  rewrite E1 in H2. rewrite E2 in H3.
  pose proof (declare_phase_addrspaces _ _ _ _ _ _ Hnd Hu H1 H2 H3) as Has.
  rewrite E1, E2. clear H1 H2 H3.
  destruct (foldM (defineVariable _ _ _ _ _) _ _) as [acc4|] eqn:H4; [cbn|done].
  destruct (foldM (defineFunction _ _ _ _ _) _ _) as [acc5|] eqn:H5; [cbn|done].
  destruct (foldM (defineAlias _ _ _ _) _ _) as [[M6 σ6]|] eqn:H6; [cbn|done].
  destruct (mapNamedMetadata _ _ _) as [[VM7 NMDs]|]; [cbn|done].
  intros [= <- <-].
  destruct Hinv as [(origs & news & Hl & Ho & Hn & Hf) Hnd3 Hu3].
  apply (define_loop _ (defineVariable_hdr ASRemapper HostMapValue
                          getWithOperands HostMapMetadata fuel)) in H4;
    [|done].
  assert (NoDup (g_id <$> m_globals acc4.1)) as Hnd4
    by (by rewrite (hdr_ids _ _ H4)).
  apply (define_loop _ (defineFunction_hdr ASRemapper HostMapValue
                          getWithOperands HostCloneFunctionInto fuel)) in H5;
    [|done].
  assert (NoDup (g_id <$> m_globals acc5.1)) as Hnd5
    by (by rewrite (hdr_ids _ _ H5)).
  apply (define_loop _ (defineAlias_hdr ASRemapper HostMapValue
                          getWithOperands fuel)) in H6; [|done].
  simpl in H6. rewrite H5, H4, Hl in H6.
  set (olds := (g_id <$> ofKind KVariable M) ++ (g_id <$> ofKind KAlias M)
                ++ (g_id <$> ofKind KFunction M)).
  assert (∀ i, i ∈ olds ↔ i ∈ g_id <$> m_globals M) as Holds.
  { intros i. unfold olds, ofKind. rewrite <- !fmap_app.
    by rewrite (kinds_perm (m_globals M)). }
  exists news. rewrite erase_all. simpl. split.
  - rewrite (filter_id_hdr olds _ _ H6), filter_app.
    assert (filter (λ g, g_id g ∉ olds) origs = []) as ->.
    { apply (origRel_ids) in Ho. clear -Ho Holds.
      assert (∀ x, x ∈ origs → g_id x ∈ olds) as Hx.
      { intros x Hx. apply Holds. rewrite <- Ho. apply list_elem_of_fmap. eauto. }
      clear Ho. induction origs as [|x origs IH]; [done|].
      rewrite filter_cons, decide_False.
      - apply IH. intros y Hy. apply Hx. by apply list_elem_of_further.
      - intros Hn. apply Hn, Hx, list_elem_of_here. }
    simpl. f_equal. clear -Hf Holds. induction Hf as [|n news Hn _ IH]; [done|].
    rewrite filter_cons, decide_True; [by f_equal|]. by rewrite Holds.
  - rewrite Hl, fmap_app in Has.
    apply app_inj_1 in Has as [_ Has].
    2:{ rewrite !length_fmap. by eapply Forall2_length. }
    revert Hn Has. generalize (ofKind KVariable M ++ ofKind KAlias M
                                 ++ ofKind KFunction M).
    clear. intros done0 Hn.
    induction Hn as [|n o news done1 (Hk & _) _ IH]; intros Has; [constructor|].
    rewrite !fmap_cons in Has. injection Has as Ha Has.
    constructor; [done|by apply IH].
Qed.

Lemma newAddressSpace_kinds k news doneO :
  Forall2 (λ n o, kindOf n = kindOf o ∧
                  g_addrspace n = newAddressSpace ASRemapper o) news doneO →
  g_addrspace <$> filter (λ g, kindOf g = k) news
  = newAddressSpace ASRemapper <$> filter (λ g, kindOf g = k) doneO.
Proof.
  induction 1 as [|n o news doneO [Hk Ha] _ IH]; [done|].
  rewrite !filter_cons, Hk. destruct (decide (kindOf o = k)); [|done].
  rewrite !fmap_cons. by f_equal.
Qed.

(** X17: after the pass, the global variables and the aliases of the module
    are in the address spaces that the policy gives for the address spaces of
    the global variables and aliases of the start, in their order. *)
Theorem removeAddrspaces_addrspaces fuel ctx M ctx' M' changed k :
  NoDup (g_id <$> m_globals M) → namesUnique (m_globals M) →
  k ≠ KFunction →
  removeAddrspaces ASRemapper HostMapValue getWithOperands HostMapMetadata
    HostCloneFunctionInto intrinsicName fuel ctx M = Some (ctx', M', changed) →
  g_addrspace <$> ofKind k M' = ASRemapper <$> (g_addrspace <$> ofKind k M).
Proof.
  intros Hnd Hu Hk Hrun.
  destruct (removeAddrspaces_remangled ASRemapper HostMapValue getWithOperands
              HostMapMetadata HostCloneFunctionInto intrinsicName
              _ _ _ _ _ _ Hnd Hu Hrun) as (M1 & Hr & Hinv & Hloop).
  assert (∀ old new g,
            (λ g, (kindOf g, g_addrspace g))
              (setPayload (substGlobalP old new (g_payload g)) g)
            = (kindOf g, g_addrspace g)) as Hπ.
  { intros old new g. unfold kindOf. simpl. by destruct (g_payload g). }
  pose proof (remangleLoop_others intrinsicName
                (λ g, (kindOf g, g_addrspace g)) ltac:(done) Hπ
                _ _ _ _ Hinv Hloop) as Hoth.
  apply (filter_kind_proj g_addrspace k) in Hoth.
  rewrite !filter_kind_others in Hoth by done.
  destruct (rebuild_addrspaces_spec _ _ _ _ _ Hnd Hu Hr) as (news & Hh & Hn).
  unfold ofKind in *. rewrite Hoth.
  rewrite (hdr_addrspaces _ _ (filter_kind_hdr k _ _ Hh)).
  rewrite (newAddressSpace_kinds k _ _ Hn), filter_kinds.
  rewrite <- list_fmap_compose. apply list_fmap_ext.
  intros i g Hg. simpl. apply list_elem_of_lookup_2 in Hg.
  apply list_elem_of_filter in Hg as [Hgk _].
  unfold newAddressSpace. rewrite Hgk. by destruct k.
Qed.
End DriverAddressSpaces.

(** ** Properties of the passes *)

Section PassesSpec.
Variable HostMapValue :
  (mstate → value → option (mstate * option value)) →
  mstate → constant → option (mstate * option constant).
Variable getWithOperands : constant → list constant → ty → constant.
Variable HostMapMetadata :
  list (vref * vref) → metadata → option (list (vref * vref) * metadata).
Variable HostCloneFunctionInto :
  (mstate → constant → option (mstate * option constant)) →
  (state → ty → option (state * ty)) →
  mstate → GlobalValue → GlobalValue → option (mstate * Function).
Variable intrinsicName : string → ty → option string.

(** X18: the pass never reports that all analyses are preserved. The driver
    returns [true] for every module.  A module without global values and
    named metadata is a case of it: it is left as it is, and reported as
    modified. *)
Theorem RemoveAddrspacesPass_run_preserved ASRemapper fuel ctx :
  (∀ M ctx' M' PA,
     RemoveAddrspacesPass_run HostMapValue getWithOperands HostMapMetadata
       HostCloneFunctionInto intrinsicName ASRemapper fuel ctx M
     = Some (ctx', M', PA) →
     PA = PreservedAnalyses_allInSet_CFGAnalyses) ∧
  RemoveAddrspacesPass_run HostMapValue getWithOperands HostMapMetadata
    HostCloneFunctionInto intrinsicName ASRemapper (S fuel) ctx
    (mkModule [] [])
  = Some (ctx, mkModule [] [], PreservedAnalyses_allInSet_CFGAnalyses).
Proof.
  split; [|done].
  intros M ctx' M' PA. unfold RemoveAddrspacesPass_run, removeAddrspaces.
  destruct (rebuild _ _ _ _ _ _ _ _) as [[ctx1 M1]|]; [cbn|done].
  destruct (remangleLoop _ _ _ _) as [M2|]; [cbn|done].
  by intros [= _ _ <-].
Qed.
End PassesSpec.

(** ** The attributes of a function that carry a type *)

Section TypedAttributes.
Variable f : N → N.

Definition typedAttrKinds : list string := ["byval"; "sret"; "byref"].

Lemma replaceAttrType_spec set k Ty :
  (replaceAttrType set k Ty).*1 = set.*1 ∧
  Forall2 (λ a a', a' = a ∨ (a.1 = k ∧ a' = (k, Some Ty)))
          set (replaceAttrType set k Ty).
Proof.
  unfold replaceAttrType. split.
  - rewrite <- list_fmap_compose. apply list_fmap_ext. intros i a _. simpl.
    by case_decide.
  - apply Forall2_fmap_r, Forall_Forall2_diag, Forall_forall.
    intros a _. simpl. case_decide; auto.
Qed.

(** The loop over [ByVal], [StructRet] and [ByRef]: an attribute set keeps
    its attributes, in their order; the attributes of at most one of the
    three kinds get a new type, which is the rewritten type that the first
    attribute of this kind carries, and no other attribute is touched. *)
Lemma remapTypedAttr_spec fuel kinds : ∀ ts set ts' set',
  remapTypedAttr f fuel ts set kinds = Some (ts', set') →
  (ts' = ts ∧ set' = set) ∨
  ∃ k Ty Ty', k ∈ kinds ∧ attrType set k = Some Ty ∧
              remapType f fuel ts Ty = Some (ts', Ty') ∧
              set' = replaceAttrType set k Ty'.
Proof.
  induction kinds as [|k kinds IH]; intros ts set ts' set'; simpl.
  { intros [= <- <-]. by left. }
  destruct (attrType set k) as [Ty|] eqn:Hk.
  - destruct (remapType f fuel ts Ty) as [[ts1 Ty']|] eqn:E; simpl; [|done].
    intros [= <- <-]. right. exists k, Ty, Ty'.
    split; [apply list_elem_of_here|done].
  - intros H. destruct (IH _ _ _ _ H) as [?|(k' & Ty & Ty' & Hin & ?)];
      [by left|right].
    exists k', Ty, Ty'. split; [by apply list_elem_of_further|done].
Qed.

(** X19: the attribute loop of the driver. Every attribute set of a function
    keeps its attributes, in their order; a set is either left as it is, or
    the attributes of one of the kinds [ByVal], [StructRet] and [ByRef] in
    it get the rewritten type of the first attribute of this kind, and no
    other attribute is touched. *)
Theorem remapAttrs_keeps fuel Attrs : ∀ ts ts' Attrs',
  remapAttrs f fuel ts Attrs = Some (ts', Attrs') →
  Forall2 (λ set set',
     set'.*1 = set.*1 ∧
     (set' = set ∨
      ∃ k Ty Ty' ts1 ts2,
        k ∈ typedAttrKinds ∧ attrType set k = Some Ty ∧
        remapType f fuel ts1 Ty = Some (ts2, Ty') ∧
        set' = replaceAttrType set k Ty'))
          Attrs Attrs'.
Proof.
  induction Attrs as [|set Attrs IH]; intros ts ts' Attrs';
    cbn -[remapTypedAttr].
  { intros [= _ <-]. constructor. }
  destruct (remapTypedAttr f fuel ts set ["byval"; "sret"; "byref"])
    as [[ts1 set']|] eqn:E1; cbn -[remapTypedAttr]; [|done].
  destruct (remapAttrs f fuel ts1 Attrs) as [[ts2 Attrs2]|] eqn:E2;
    cbn -[remapTypedAttr]; [|done].
  intros [= _ <-]. constructor; [|by eapply IH].
  destruct (remapTypedAttr_spec _ _ _ _ _ _ E1)
    as [[_ ->]|(k & Ty & Ty' & Hk & HTy & Hrun & ->)].
  - split; [done|by left].
  - split; [apply replaceAttrType_spec|]. right. eauto 10.
Qed.
End TypedAttributes.

(** ** Policies that leave the address spaces of a type alone *)

Section TypeRemapperFixedPolicy.
Variable f : N → N.

(** X25: a type whose address spaces the policy leaves alone, those in the
    bodies of the structs it mentions included, is rewritten to a
    structurally equal type, and to itself when the structs it mentions are
    opaque. *)
Theorem remapType_fixed_policy st T fuel :
  reachable f st → wf_ty (length (Ctx st)) T →
  (∀ a, reaches (Ctx st) T (TPtr a) → f a = a) →
  fuelFor st T ≤ fuel →
  ∃ st' D,
    remapType f fuel st T = Some (st', D) ∧
    structEq (Ctx st) T (Ctx st') D ∧
    ((∀ s d, s ∈ ids T → Ctx st !! s = Some d → sbody d = None) → D = T).
Proof.
  intros Hr HT Hfix Hfuel.
  destruct (remapType_returns f st T fuel Hr HT Hfuel) as (st' & D & Hrun).
  exists st', D. split; [done|]. split.
  - by eapply remapType_fixed.
  - intros Hop. eapply remapType_fixed_eq; try done.
    intros a Ha. by apply Hfix, ptrs_reaches.
Qed.
End TypeRemapperFixedPolicy.

(** ** What the replacements are declared with *)

(** The constant flag and the thread-local mode of a global variable. *)
Definition varFlags (g : GlobalValue) : option (bool * string) :=
  match g_payload g with
  | PVariable isConstant tlm _ _ => Some (isConstant, tlm)
  | _ => None
  end.

(** What the declaration of a global value fixes besides its header: its
    value type, its linkage, what [copyAttributesFrom] copies, and the flags
    of a global variable. *)
Definition decl (g : GlobalValue)
    : ty * string * string * option (bool * string) :=
  (g_valueType g, g_linkage g, g_attrs g, varFlags g).

Lemma Value_setName_proj {B} (π : GlobalValue → B) M id Name :
  (∀ n g, π (setName n g) = π g) →
  π <$> m_globals (Value_setName M id Name) = π <$> m_globals M.
Proof.
  intros Hπ. unfold Value_setName. destruct (lookupGlobal M id) as [g|]; [|done].
  repeat case_decide; try done; apply updIn_proj; intros; apply Hπ.
Qed.

(** The step of the declare phase adds the replacement at the end of the
    module, and changes names only. *)
Lemma declare_step_globals M GV M1 Name new M2 nid :
  (∀ i, g_id (new i) = i) →
  renameOriginal M GV = (M1, Name) → createGlobal M1 new Name = (M2, nid) →
  (nid ∉ g_id <$> m_globals M1) ∧
  (∃ n', m_globals M2 = m_globals M1 ++ [setName n' (new nid)]) ∧
  (∀ B (π : GlobalValue → B), (∀ n g, π (setName n g) = π g) →
     π <$> m_globals M1 = π <$> m_globals M).
Proof.
  intros Hid Hren Hcre.
  destruct (createGlobal_spec _ _ _ _ _ Hid Hcre) as (-> & n' & E).
  split; [apply freshId_fresh|]. split; [by exists n'|].
  intros B π Hπ. unfold renameOriginal in Hren.
  case_decide; injection Hren as <- <-; [|done].
  by apply Value_setName_proj.
Qed.

Section DriverDeclarations.
Variable ASRemapper : N → N.
Variable HostMapValue :
  (mstate → value → option (mstate * option value)) →
  mstate → constant → option (mstate * option constant).
Variable getWithOperands : constant → list constant → ty → constant.
Variable HostMapMetadata :
  list (vref * vref) → metadata → option (list (vref * vref) * metadata).
Variable HostCloneFunctionInto :
  (mstate → constant → option (mstate * option constant)) →
  (state → ty → option (state * ty)) →
  mstate → GlobalValue → GlobalValue → option (mstate * Function).
Variable intrinsicName : string → ty → option string.

(** What a step of the declare phase does, for a global variable ... *)
Lemma declareVariable_shape fuel l0 M σ doneO o M' σ' :
  declInv l0 (m_globals M) doneO → o ∈ l0 →
  declareVariable ASRemapper fuel (M, σ) (g_id o) = Some (M', σ') →
  ∃ ts1 VTy AS nid isConstant tlm init md,
    g_payload o = PVariable isConstant tlm init md ∧
    remapType ASRemapper fuel σ.2 (g_valueType o) = Some (ts1, VTy) ∧
    remapAddressSpace ASRemapper fuel ts1 (g_addrspace o) = Some (σ'.2, AS) ∧
    σ'.1 = (RGlobal (g_id o), RGlobal nid) :: σ.1 ∧
    ∀ B (π : GlobalValue → B), (∀ n g, π (setName n g) = π g) →
      π <$> m_globals M'
      = (π <$> m_globals M)
          ++ [π (mkGlobal nid "" VTy AS (g_linkage o) (g_attrs o) None
                   (PVariable isConstant tlm None []))].
Proof.
  intros Hinv Hin. unfold declareVariable. destruct σ as [VM ts].
  destruct (lookupGlobal M (g_id o)) as [GV|] eqn:HGV; [cbn|done].
  destruct (declInv_lookup _ _ _ _ _ Hinv Hin HGV) as (n & ->). cbn.
  destruct (g_payload o) as [isC tlm init md| |] eqn:Hp; try done.
  destruct (renameOriginal M (setName n o)) as [M1 Name] eqn:Hren.
  destruct (remapType ASRemapper fuel ts (g_valueType o)) as [[ts1 VTy]|] eqn:E1;
    [cbn|done].
  destruct (remapAddressSpace ASRemapper fuel ts1 (g_addrspace o))
    as [[ts2 AS]|] eqn:E2; [cbn|done].
  match goal with
  | |- context [createGlobal M1 ?new Name] =>
      destruct (createGlobal M1 new Name) as [M2 nid] eqn:Hcre;
      destruct (declare_step_globals M _ M1 Name new M2 nid
                  (λ _, eq_refl) Hren Hcre) as (Hfr & (n' & E) & Hπ1)
  end.
  intros [= <- <-]. exists ts1, VTy, AS, nid, isC, tlm, init, md.
  split; [done|]. split; [done|]. split; [done|]. split; [done|].
  intros B π Hπ.
  assert (m_globals (updateGlobal M2 nid (setAttrs (g_attrs o)))
          = updIn nid (setAttrs (g_attrs o)) (m_globals M2)) as -> by done.
  rewrite E, updIn_app, updIn_absent by done. simpl.
  rewrite decide_True by done. rewrite fmap_app, (Hπ1 B π Hπ). simpl.
  f_equal. f_equal. etrans; [|apply (Hπ n')]. done.
Qed.

(** ... for an alias ... *)
Lemma declareAlias_shape fuel l0 M σ doneO o M' σ' :
  declInv l0 (m_globals M) doneO → o ∈ l0 →
  declareAlias ASRemapper fuel (M, σ) (g_id o) = Some (M', σ') →
  ∃ ts1 VTy AS nid aliasee,
    g_payload o = PAlias aliasee ∧
    remapType ASRemapper fuel σ.2 (g_valueType o) = Some (ts1, VTy) ∧
    remapAddressSpace ASRemapper fuel ts1 (g_addrspace o) = Some (σ'.2, AS) ∧
    σ'.1 = (RGlobal (g_id o), RGlobal nid) :: σ.1 ∧
    ∀ B (π : GlobalValue → B), (∀ n g, π (setName n g) = π g) →
      π <$> m_globals M'
      = (π <$> m_globals M)
          ++ [π (mkGlobal nid "" VTy AS (g_linkage o) (g_attrs o) None
                   (PAlias None))].
Proof.
  intros Hinv Hin. unfold declareAlias. destruct σ as [VM ts].
  destruct (lookupGlobal M (g_id o)) as [GV|] eqn:HGV; [cbn|done].
  destruct (declInv_lookup _ _ _ _ _ Hinv Hin HGV) as (n & ->). cbn.
  destruct (g_payload o) as [|aliasee|] eqn:Hp; try done.
  destruct (renameOriginal M (setName n o)) as [M1 Name] eqn:Hren.
  destruct (remapType ASRemapper fuel ts (g_valueType o)) as [[ts1 VTy]|] eqn:E1;
    [cbn|done].
  destruct (remapAddressSpace ASRemapper fuel ts1 (g_addrspace o))
    as [[ts2 AS]|] eqn:E2; [cbn|done].
  match goal with
  | |- context [createGlobal M1 ?new Name] =>
      destruct (createGlobal M1 new Name) as [M2 nid] eqn:Hcre;
      destruct (declare_step_globals M _ M1 Name new M2 nid
                  (λ _, eq_refl) Hren Hcre) as (Hfr & (n' & E) & Hπ1)
  end.
  intros [= <- <-]. exists ts1, VTy, AS, nid, aliasee.
  split; [done|]. split; [done|]. split; [done|]. split; [done|].
  intros B π Hπ.
  assert (m_globals (updateGlobal M2 nid (setAttrs (g_attrs o)))
          = updIn nid (setAttrs (g_attrs o)) (m_globals M2)) as -> by done.
  rewrite E, updIn_app, updIn_absent by done. simpl.
  rewrite decide_True by done. rewrite fmap_app, (Hπ1 B π Hπ). simpl.
  f_equal. f_equal. etrans; [|apply (Hπ n')]. done.
Qed.

(** ... and for a function. *)
Lemma declareFunction_shape fuel l0 M σ doneO o M' σ' :
  declInv l0 (m_globals M) doneO → o ∈ l0 →
  declareFunction ASRemapper fuel (M, σ) (g_id o) = Some (M', σ') →
  ∃ ret params isVarArg ts1 Tys Ret nid Fb,
    g_payload o = PFunction Fb ∧
    g_valueType o = TFun ret params isVarArg ∧
    remapList (remapType ASRemapper fuel) σ.2 params = Some (ts1, Tys) ∧
    remapType ASRemapper fuel ts1 ret = Some (σ'.2, Ret) ∧
    σ'.1 = (RGlobal (g_id o), RGlobal nid) :: σ.1 ∧
    ∀ B (π : GlobalValue → B), (∀ n g, π (setName n g) = π g) →
      π <$> m_globals M'
      = (π <$> m_globals M)
          ++ [π (mkGlobal nid "" (TFun Ret Tys isVarArg) (g_addrspace o)
                   (g_linkage o) "" None
                   (PFunction (mkFunction ((λ t, ("", t)) <$> Tys) [] [])))].
Proof.
  intros Hinv Hin. unfold declareFunction. destruct σ as [VM ts].
  destruct (lookupGlobal M (g_id o)) as [GV|] eqn:HGV; [cbn|done].
  destruct (declInv_lookup _ _ _ _ _ Hinv Hin HGV) as (n & ->). cbn.
  destruct (g_payload o) as [| |Fb] eqn:Hp; try done.
  destruct (g_valueType o) as [| |ret params isVarArg| | | |] eqn:HT; try done.
  destruct (renameOriginal M (setName n o)) as [M1 Name] eqn:Hren.
  destruct (remapList (remapType ASRemapper fuel) ts params) as [[ts1 Tys]|]
    eqn:E1; [cbn|done].
  destruct (remapType ASRemapper fuel ts1 ret) as [[ts2 Ret]|] eqn:E2;
    [cbn|done].
  match goal with
  | |- context [createGlobal M1 ?new Name] =>
      destruct (createGlobal M1 new Name) as [M2 nid] eqn:Hcre;
      destruct (declare_step_globals M _ M1 Name new M2 nid
                  (λ _, eq_refl) Hren Hcre) as (Hfr & (n' & E) & Hπ1)
  end.
  intros [= <- <-]. exists ret, params, isVarArg, ts1, Tys, Ret, nid, Fb.
  split; [done|]. split; [done|]. split; [done|]. split; [done|].
  split; [done|].
  intros B π Hπ. simpl.
  rewrite E, fmap_app, (Hπ1 B π Hπ). simpl.
  f_equal. f_equal. apply (Hπ n').
Qed.

(** A loop of the declare phase, for a projection [π] of the global values:
    [P] is what the loop keeps of the value map and the state of the
    rewriter, given the originals that are done, [le] how they grow, [Q]
    what a step asks of the original, and [R] what it gives for the
    replacement. *)
Lemma declare_loop_proj {B} (π : GlobalValue → B)
    (P : list GlobalValue → mstate → Prop)
    (le : mstate → mstate → Prop) (Q : mstate → GlobalValue → Prop)
    (R : mstate → GlobalValue → B → Prop)
    (step : Module * mstate → nat → option (Module * mstate)) l0 :
  (∀ ts, le ts ts) →
  (∀ a b c, le a b → le b c → le a c) →
  (∀ ts ts' o, le ts ts' → Q ts o → Q ts' o) →
  (∀ ts ts' o b, le ts ts' → R ts o b → R ts' o b) →
  (∀ M σ doneO o M' σ',
     declInv l0 (m_globals M) doneO → o ∈ l0 → g_id o ∉ g_id <$> doneO →
     step (M, σ) (g_id o) = Some (M', σ') →
     declInv l0 (m_globals M') (doneO ++ [o])) →
  (∀ M σ doneO o M' σ',
     declInv l0 (m_globals M) doneO → o ∈ l0 → g_id o ∉ g_id <$> doneO →
     P doneO σ → Q σ o →
     step (M, σ) (g_id o) = Some (M', σ') →
     P (doneO ++ [o]) σ' ∧ le σ σ' ∧
     ∃ b, π <$> m_globals M' = (π <$> m_globals M) ++ [b] ∧ R σ' o b) →
  ∀ os doneO acc acc',
    declInv l0 (m_globals acc.1) doneO →
    Forall (λ o, o ∈ l0) os → NoDup (g_id <$> (doneO ++ os)) →
    P doneO acc.2 → Forall (Q acc.2) os →
    foldM step acc (g_id <$> os) = Some acc' →
    P (doneO ++ os) acc'.2 ∧ le acc.2 acc'.2 ∧
    ∃ bs, π <$> m_globals acc'.1 = (π <$> m_globals acc.1) ++ bs ∧
          Forall2 (R acc'.2) os bs.
Proof.
  intros le_refl le_trans Q_mono R_mono Hinv Hstep os.
  induction os as [|o os IH]; intros doneO acc acc' HI Hos Hnd HP HQ.
  { simpl. intros [= <-]. rewrite app_nil_r. split; [done|]. split; [done|].
    exists []. by rewrite app_nil_r. }
  rewrite fmap_cons. simpl.
  destruct (step acc (g_id o)) as [acc1|] eqn:Hf; [simpl|done].
  apply Forall_cons in Hos as [Ho Hos]. apply Forall_cons in HQ as [HQo HQ].
  intros Hfold. destruct acc as [M σ], acc1 as [M1 σ1].
  assert (g_id o ∉ g_id <$> doneO) as Hdone.
  { rewrite fmap_app in Hnd. apply NoDup_app in Hnd as (_ & Hnd & _).
    intros Hx. apply (Hnd _ Hx). simpl. apply list_elem_of_here. }
  destruct (Hstep M σ doneO o M1 σ1 HI Ho Hdone HP HQo Hf)
    as (HP1 & Hle1 & b & E1 & HR1).
  pose proof (Hinv M σ doneO o M1 σ1 HI Ho Hdone Hf) as HI1.
  rewrite cons_middle, (assoc_L (++) doneO [o] os) in Hnd |- *.
  destruct (IH (doneO ++ [o]) (M1, σ1) acc' HI1 Hos Hnd HP1) as
    (HP' & Hle' & bs & E' & HR'); [|done|].
  { eapply Forall_impl; [exact HQ|]. intros x. by apply Q_mono. }
  split; [done|]. split; [by eapply le_trans|].
  exists (b :: bs). split.
  - rewrite E'. simpl. rewrite E1, <- (assoc_L (++)). done.
  - constructor; [|done]. by eapply R_mono.
Qed.

(** The linkage, what [copyAttributesFrom] copies and the flags of a
    variable in the replacement of [o]. *)
Definition copied (o : GlobalValue)
    (b : ty * string * string * option (bool * string)) : Prop :=
  b.1.1.2 = g_linkage o ∧ b.2 = varFlags o ∧
  (kindOf o ≠ KFunction → b.1.2 = g_attrs o).

Lemma declareVariable_copied fuel l0 M σ doneO o M' σ' :
  declInv l0 (m_globals M) doneO → o ∈ l0 →
  declareVariable ASRemapper fuel (M, σ) (g_id o) = Some (M', σ') →
  True ∧ True ∧
  ∃ b, decl <$> m_globals M' = (decl <$> m_globals M) ++ [b] ∧ copied o b.
Proof.
  intros Hinv Hin Hrun.
  destruct (declareVariable_shape _ _ _ _ _ _ _ _ Hinv Hin Hrun)
    as (ts1 & VTy & AS & nid & isC & tlm & init & md & Hp & _ & _ & _ & Hπ).
  split; [done|]. split; [done|]. eexists. split; [by apply Hπ|].
  unfold copied, varFlags. rewrite Hp. done.
Qed.

Lemma declareAlias_copied fuel l0 M σ doneO o M' σ' :
  declInv l0 (m_globals M) doneO → o ∈ l0 →
  declareAlias ASRemapper fuel (M, σ) (g_id o) = Some (M', σ') →
  True ∧ True ∧
  ∃ b, decl <$> m_globals M' = (decl <$> m_globals M) ++ [b] ∧ copied o b.
Proof.
  intros Hinv Hin Hrun.
  destruct (declareAlias_shape _ _ _ _ _ _ _ _ Hinv Hin Hrun)
    as (ts1 & VTy & AS & nid & aliasee & Hp & _ & _ & _ & Hπ).
  split; [done|]. split; [done|]. eexists. split; [by apply Hπ|].
  unfold copied, varFlags. rewrite Hp. done.
Qed.

Lemma declareFunction_copied fuel l0 M σ doneO o M' σ' :
  declInv l0 (m_globals M) doneO → o ∈ l0 →
  declareFunction ASRemapper fuel (M, σ) (g_id o) = Some (M', σ') →
  True ∧ True ∧
  ∃ b, decl <$> m_globals M' = (decl <$> m_globals M) ++ [b] ∧ copied o b.
Proof.
  intros Hinv Hin Hrun.
  destruct (declareFunction_shape _ _ _ _ _ _ _ _ Hinv Hin Hrun)
    as (ret & params & v & ts1 & Tys & Ret & nid & Fb & Hp & _ & _ & _ & _ & Hπ).
  split; [done|]. split; [done|]. eexists. split; [by apply Hπ|].
  unfold copied, varFlags, kindOf. rewrite Hp. done.
Qed.

(** The declare phase as a whole, for a projection. *)
Lemma declare_phase_proj {B} (π : GlobalValue → B)
    (P : list GlobalValue → mstate → Prop)
    (le : mstate → mstate → Prop) (Q : mstate → GlobalValue → Prop)
    (R : mstate → GlobalValue → B → Prop) fuel ctx M acc1 acc2 acc3 :
  (∀ ts, le ts ts) →
  (∀ a b c, le a b → le b c → le a c) →
  (∀ ts ts' o, le ts ts' → Q ts o → Q ts' o) →
  (∀ ts ts' o b, le ts ts' → R ts o b → R ts' o b) →
  (∀ step, step = declareVariable ASRemapper fuel ∨
           step = declareAlias ASRemapper fuel ∨
           step = declareFunction ASRemapper fuel →
     ∀ M0 σ doneO o M' σ',
       declInv (m_globals M) (m_globals M0) doneO → o ∈ m_globals M →
       g_id o ∉ g_id <$> doneO →
       P doneO σ → Q σ o →
       step (M0, σ) (g_id o) = Some (M', σ') →
       P (doneO ++ [o]) σ' ∧ le σ σ' ∧
       ∃ b, π <$> m_globals M' = (π <$> m_globals M0) ++ [b] ∧ R σ' o b) →
  NoDup (g_id <$> m_globals M) → namesUnique (m_globals M) →
  P [] ([], State ctx ∅) →
  Forall (Q ([], State ctx ∅)) (m_globals M) →
  foldM (declareVariable ASRemapper fuel) (M, ([], State ctx ∅))
    (g_id <$> ofKind KVariable M) = Some acc1 →
  foldM (declareAlias ASRemapper fuel) acc1 (g_id <$> ofKind KAlias M)
    = Some acc2 →
  foldM (declareFunction ASRemapper fuel) acc2 (g_id <$> ofKind KFunction M)
    = Some acc3 →
  P (ofKind KVariable M ++ ofKind KAlias M ++ ofKind KFunction M) acc3.2 ∧
  ∃ bs, π <$> m_globals acc3.1 = (π <$> m_globals M) ++ bs ∧
        Forall2 (R acc3.2)
          (ofKind KVariable M ++ ofKind KAlias M ++ ofKind KFunction M) bs.
Proof.
  intros le_refl le_trans Q_mono R_mono Hstep Hnd Hu HP0 HQ0 H1 H2 H3.
  pose proof (kinds_perm (m_globals M)) as Hperm.
  assert (NoDup (g_id <$> (ofKind KVariable M ++ ofKind KAlias M
                             ++ ofKind KFunction M))) as Hnd'.
  { unfold ofKind. by rewrite Hperm. }
  assert (NoDup (g_id <$> ([] ++ ofKind KVariable M))) as Hnd1.
  { simpl. rewrite fmap_app in Hnd'. by apply NoDup_app in Hnd' as [? _]. }
  assert (NoDup (g_id <$> (ofKind KVariable M ++ ofKind KAlias M))) as Hnd2.
  { rewrite (assoc_L (++)), fmap_app in Hnd'.
    by apply NoDup_app in Hnd' as [? _]. }
  assert (∀ k ts, Forall (Q ([], State ctx ∅)) (m_globals M) →
                  le ([], State ctx ∅) ts → Forall (Q ts) (ofKind k M)) as HQk.
  { intros k ts HQ Hle. apply Forall_forall.
    intros o [_ Ho]%list_elem_of_filter. rewrite Forall_forall in HQ.
    eapply Q_mono; [exact Hle|]. by apply HQ. }
  pose proof (declInv_init _ Hnd Hu) as I0.
  pose proof (declare_loop _ _ (declareVariable_inv ASRemapper fuel (m_globals M))
                (ofKind KVariable M) [] (M, ([], State ctx ∅)) acc1 I0
                (Forall_filter_elem _ _) Hnd1 H1) as I1.
  destruct (declare_loop_proj π P le Q R _ _ le_refl le_trans Q_mono R_mono
              (declareVariable_inv ASRemapper fuel (m_globals M))
              (Hstep _ (or_introl eq_refl))
              (ofKind KVariable M) [] (M, ([], State ctx ∅)) acc1 I0
              (Forall_filter_elem _ _) Hnd1 HP0 (HQk _ _ HQ0 (le_refl _)) H1)
    as (HP1 & Hle1 & bs1 & E1 & HR1).
  simpl in I1, Hle1, E1.
  pose proof (declare_loop _ _ (declareAlias_inv ASRemapper fuel (m_globals M))
                (ofKind KAlias M) _ acc1 acc2 I1
                (Forall_filter_elem _ _) Hnd2 H2) as I2.
  destruct (declare_loop_proj π P le Q R _ _ le_refl le_trans Q_mono R_mono
              (declareAlias_inv ASRemapper fuel (m_globals M))
              (Hstep _ (or_intror (or_introl eq_refl)))
              (ofKind KAlias M) _ acc1 acc2 I1
              (Forall_filter_elem _ _) Hnd2 HP1 (HQk _ _ HQ0 Hle1) H2)
    as (HP2 & Hle2 & bs2 & E2 & HR2).
  rewrite (assoc_L (++)) in Hnd'.
  destruct (declare_loop_proj π P le Q R _ _ le_refl le_trans Q_mono R_mono
              (declareFunction_inv ASRemapper fuel (m_globals M))
              (Hstep _ (or_intror (or_intror eq_refl)))
              (ofKind KFunction M) _ acc2 acc3 I2
              (Forall_filter_elem _ _) Hnd' HP2
              (HQk _ _ HQ0 (le_trans _ _ _ Hle1 Hle2)) H3)
    as (HP3 & Hle3 & bs3 & E3 & HR3).
  rewrite <- (assoc_L (++)) in HP3.
  split; [done|]. exists (bs1 ++ bs2 ++ bs3). split.
  - rewrite E3, E2, E1. by rewrite <- !(assoc_L (++)).
  - apply Forall2_app; [|apply Forall2_app; [|done]].
    + eapply Forall2_impl; [exact HR1|]. intros o b.
      apply R_mono. by eapply le_trans.
    + eapply Forall2_impl; [exact HR2|]. intros o b. by apply R_mono.
Qed.
End DriverDeclarations.

(** *** The define phase keeps the declarations of the replacements *)

Lemma updIn_filter_proj {B} (π : GlobalValue → B) (olds : list nat) id upd l :
  (∀ g, g ∈ l → g_id g = id →
        g_id (upd g) = g_id g ∧ (g_id g ∉ olds → π (upd g) = π g)) →
  π <$> filter (λ g, g_id g ∉ olds) (updIn id upd l)
  = π <$> filter (λ g, g_id g ∉ olds) l.
Proof.
  induction l as [|g l IH]; intros H; [done|].
  assert (π <$> filter (λ g, g_id g ∉ olds) (updIn id upd l)
          = π <$> filter (λ g, g_id g ∉ olds) l) as IH'.
  { apply IH. intros h Hh. apply H. by apply list_elem_of_further. }
  unfold updIn in *. rewrite fmap_cons, !filter_cons.
  destruct (decide (g_id g = id)) as [Hid|Hid].
  - destruct (H g (list_elem_of_here _ _) Hid) as [Ei Eπ]. rewrite Ei.
    destruct (decide (g_id g ∉ olds)) as [Ho|Ho]; [|done].
    rewrite !fmap_cons, IH', Eπ; done.
  - destruct (decide (g_id g ∉ olds)); [|done]. by rewrite !fmap_cons, IH'.
Qed.

Lemma decl_copyComdat Src Dst : decl (copyComdat Src Dst) = decl Dst.
Proof. unfold copyComdat. by destruct (g_comdat Src). Qed.

Lemma lookupGlobal_unique M id g h :
  NoDup (g_id <$> m_globals M) → lookupGlobal M id = Some g →
  h ∈ m_globals M → g_id h = id → h = g.
Proof.
  intros Hnd Hg Hh Hid. destruct (lookupGlobalIn_Some _ _ _ Hg) as [Hin Hgid].
  eapply ids_unique_elem; [done..|congruence].
Qed.

Section DriverDefinitions.
Variable ASRemapper : N → N.
Variable HostMapValue :
  (mstate → value → option (mstate * option value)) →
  mstate → constant → option (mstate * option constant).
Variable getWithOperands : constant → list constant → ty → constant.
Variable HostMapMetadata :
  list (vref * vref) → metadata → option (list (vref * vref) * metadata).
Variable HostCloneFunctionInto :
  (mstate → constant → option (mstate * option constant)) →
  (state → ty → option (state * ty)) →
  mstate → GlobalValue → GlobalValue → option (mstate * Function).
Variable intrinsicName : string → ty → option string.

(** Two updates, the first of which keeps the declaration and the second of
    which is of an original. *)
Lemma define_step_decl (olds : list nat) M nid NGV u1 id u2 :
  NoDup (g_id <$> m_globals M) → lookupGlobal M nid = Some NGV →
  id ∈ olds →
  g_id (u1 NGV) = g_id NGV → decl (u1 NGV) = decl NGV →
  (∀ g, g_id (u2 g) = g_id g) →
  decl <$> filter (λ g, g_id g ∉ olds)
             (m_globals (updateGlobal (updateGlobal M nid u1) id u2))
  = decl <$> filter (λ g, g_id g ∉ olds) (m_globals M).
Proof.
  intros Hnd HN Hid H1 H1' H2.
  assert (m_globals (updateGlobal (updateGlobal M nid u1) id u2)
          = updIn id u2 (updIn nid u1 (m_globals M))) as -> by done.
  rewrite updIn_filter_proj.
  - apply updIn_filter_proj. intros g Hg Hgid.
    by rewrite (lookupGlobal_unique _ _ _ _ Hnd HN Hg Hgid).
  - intros g _ Hgid. split; [done|]. intros Hn. by rewrite Hgid in Hn.
Qed.

Lemma defineVariable_decl fuel (olds : list nat) M σ id M' σ' :
  NoDup (g_id <$> m_globals M) → id ∈ olds →
  defineVariable ASRemapper HostMapValue getWithOperands HostMapMetadata fuel
    (M, σ) id = Some (M', σ') →
  decl <$> filter (λ g, g_id g ∉ olds) (m_globals M')
  = decl <$> filter (λ g, g_id g ∉ olds) (m_globals M).
Proof.
  intros Hnd Hid. unfold defineVariable.
  destruct (lookupGlobal M id) as [GV|] eqn:HGV; [cbn|done].
  destruct (g_payload GV) as [isC tlm [Init|] MDs| |] eqn:Hp; try done;
    [|by intros [= <- <-]].
  destruct (VMap_global σ.1 id) as [nid|]; [cbn|done].
  destruct (lookupGlobal M nid) as [NGV|] eqn:HNGV; [cbn|done].
  destruct (g_payload NGV) as [isC' tlm' Init' MDs'| |] eqn:Hp'; try done.
  destruct (MapValue _ _ _ _ _ _) as [[σ1 NewInit]|]; [cbn|done].
  destruct (mapAttachments _ _ _) as [[VM2 NewMDs]|]; [cbn|done].
  intros [= <- <-].
  eapply define_step_decl; [done|exact HNGV|done| | |done].
  - unfold copyComdat. by destruct (g_comdat GV).
  - rewrite decl_copyComdat. unfold decl, varFlags. simpl. by rewrite Hp'.
Qed.

Lemma defineAlias_decl fuel (olds : list nat) M σ id M' σ' :
  NoDup (g_id <$> m_globals M) → id ∈ olds →
  defineAlias ASRemapper HostMapValue getWithOperands fuel (M, σ) id
    = Some (M', σ') →
  decl <$> filter (λ g, g_id g ∉ olds) (m_globals M')
  = decl <$> filter (λ g, g_id g ∉ olds) (m_globals M).
Proof.
  intros Hnd Hid. unfold defineAlias.
  destruct (lookupGlobal M id) as [GA|] eqn:HGA; [cbn|done].
  destruct (VMap_global σ.1 id) as [nid|]; [cbn|done].
  destruct (lookupGlobal M nid) as [NGA|] eqn:HNGA; [cbn|done].
  destruct (g_payload GA) as [|[C|]|] eqn:Hp; try done;
    destruct (g_payload NGA) as [|C'|] eqn:Hp'; try done;
    [|by intros [= <- <-]].
  destruct (MapValue _ _ _ _ _ _) as [[σ1 NewC]|]; [cbn|done].
  intros [= <- <-].
  eapply define_step_decl; [done|exact HNGA|done|done| |done].
  unfold decl, varFlags. simpl. by rewrite Hp'.
Qed.

Lemma defineFunction_decl fuel (olds : list nat) M σ id M' σ' :
  NoDup (g_id <$> m_globals M) → id ∈ olds →
  defineFunction ASRemapper HostMapValue getWithOperands HostCloneFunctionInto
    fuel (M, σ) id = Some (M', σ') →
  decl <$> filter (λ g, g_id g ∉ olds) (m_globals M')
  = decl <$> filter (λ g, g_id g ∉ olds) (m_globals M).
Proof.
  intros Hnd Hid. unfold defineFunction.
  destruct (lookupGlobal M id) as [F|] eqn:HF; [cbn|done].
  destruct (VMap_global σ.1 id) as [nid|]; [cbn|done].
  destruct (lookupGlobal M nid) as [NF|] eqn:HNF; [cbn|done].
  destruct (g_payload F) as [| |Fb] eqn:Hp; try done;
    destruct (g_payload NF) as [| |NFb] eqn:Hp'; try done.
  destruct (HostCloneFunctionInto _ _ _ _ _) as [[σ2 NFb2]|]; [cbn|done].
  destruct (remapAttrs _ _ _ _) as [[ts3 Attrs]|]; [cbn|done].
  match goal with |- context [RemoveNoopAddrSpaceCasts ?x] =>
    destruct (RemoveNoopAddrSpaceCasts x) as [[NFb4 ?]|]; [cbn|done] end.
  intros [= <- <-].
  eapply define_step_decl; [done|exact HNF|done| | |done].
  - unfold copyComdat. by destruct (g_comdat F).
  - rewrite decl_copyComdat. unfold decl, varFlags. simpl. by rewrite Hp'.
Qed.

(** A loop of the define phase, over originals. *)
Lemma define_loop_decl
    (step : Module * mstate → nat → option (Module * mstate))
    (olds : list nat) :
  (∀ M σ id M' σ', NoDup (g_id <$> m_globals M) →
     step (M, σ) id = Some (M', σ') →
     hdr <$> m_globals M' = hdr <$> m_globals M) →
  (∀ M σ id M' σ', NoDup (g_id <$> m_globals M) → id ∈ olds →
     step (M, σ) id = Some (M', σ') →
     decl <$> filter (λ g, g_id g ∉ olds) (m_globals M')
     = decl <$> filter (λ g, g_id g ∉ olds) (m_globals M)) →
  ∀ ids acc acc', NoDup (g_id <$> m_globals acc.1) →
    Forall (λ id, id ∈ olds) ids →
    foldM step acc ids = Some acc' →
    decl <$> filter (λ g, g_id g ∉ olds) (m_globals acc'.1)
    = decl <$> filter (λ g, g_id g ∉ olds) (m_globals acc.1).
Proof.
  intros Hhdr Hstep ids.
  induction ids as [|id ids IH]; intros acc acc' Hnd Hids; simpl.
  { by intros [= <-]. }
  destruct (step acc id) as [acc1|] eqn:Hf; [simpl|done]. intros Hfold.
  apply Forall_cons in Hids as [Hid Hids].
  destruct acc as [M σ], acc1 as [M1 σ1].
  pose proof (Hhdr _ _ _ _ _ Hnd Hf) as H1.
  rewrite (IH (M1, σ1) acc'); [by eapply Hstep| |done|done].
  simpl. by rewrite (hdr_ids _ _ H1).
Qed.

(** The replacements after the three phases: they are of the kind of the
    originals, in the order in which these were declared, with the
    declarations that the declare phase gave them, and with the linkage and
    what else the declare phase copies. *)
Lemma rebuild_decl_spec fuel ctx M ctx' M1 :
  NoDup (g_id <$> m_globals M) → namesUnique (m_globals M) →
  rebuild ASRemapper HostMapValue getWithOperands HostMapMetadata
    HostCloneFunctionInto fuel ctx M = Some (ctx', M1) →
  ∃ acc1 acc2 acc3,
    foldM (declareVariable ASRemapper fuel) (M, ([], State ctx ∅))
      (g_id <$> ofKind KVariable M) = Some acc1 ∧
    foldM (declareAlias ASRemapper fuel) acc1 (g_id <$> ofKind KAlias M)
      = Some acc2 ∧
    foldM (declareFunction ASRemapper fuel) acc2 (g_id <$> ofKind KFunction M)
      = Some acc3 ∧
    decl <$> m_globals acc3.1
    = (decl <$> m_globals M) ++ (decl <$> m_globals M1) ∧
    Forall2 (λ n o, kindOf n = kindOf o ∧ copied o (decl n))
      (m_globals M1)
      (ofKind KVariable M ++ ofKind KAlias M ++ ofKind KFunction M).
Proof.
  intros Hnd Hu. unfold rebuild.
  destruct (foldM (declareVariable _ _) _ _) as [acc1|] eqn:H1; [cbn|done].
  destruct (foldM (declareAlias _ _) _ _) as [acc2|] eqn:H2; [cbn|done].
  destruct (foldM (declareFunction _ _) _ _) as [acc3|] eqn:H3; [cbn|done].
  destruct (declare_phase _ _ _ _ _ _ _ Hnd Hu H1 H2 H3) as (Hinv & E1 & E2).
  rewrite E1 in H2. rewrite E2 in H3.
  destruct (declare_phase_proj ASRemapper decl (λ _ _, True) (λ _ _, True)
              (λ _ _, True) (λ _, copied) fuel ctx M acc1 acc2 acc3)
    as (_ & bs & Ebs & Hbs); try done.
  { intros step [-> | [-> | ->]] M0 σ doneO o M' σ' HI0 Hin0 _ _ _.
    - by eapply declareVariable_copied.
    - by eapply declareAlias_copied.
    - by eapply declareFunction_copied. }
  { by apply Forall_true. }
  rewrite E1, E2.
  destruct (foldM (defineVariable _ _ _ _ _) _ _) as [acc4|] eqn:H4; [cbn|done].
  destruct (foldM (defineFunction _ _ _ _ _) _ _) as [acc5|] eqn:H5; [cbn|done].
  destruct (foldM (defineAlias _ _ _ _) _ _) as [[M6 σ6]|] eqn:H6; [cbn|done].
  destruct (mapNamedMetadata _ _ _) as [[VM7 NMDs]|]; [cbn|done].
  intros [= <- <-]. exists acc1, acc2, acc3.
  split; [done|]. split; [done|]. split; [done|].
  destruct Hinv as [(origs & news & Hl & Ho & Hn & Hf) Hnd3 Hu3].
  set (olds := (g_id <$> ofKind KVariable M) ++ (g_id <$> ofKind KAlias M)
                ++ (g_id <$> ofKind KFunction M)).
  assert (∀ i, i ∈ olds ↔ i ∈ g_id <$> m_globals M) as Holds.
  { intros i. unfold olds, ofKind. rewrite <- !fmap_app.
    by rewrite (kinds_perm (m_globals M)). }
  assert (∀ k, Forall (λ id, id ∈ olds) (g_id <$> ofKind k M)) as Hk.
  { intros k. apply Forall_forall. intros i Hi. apply Holds.
    apply list_elem_of_fmap in Hi as (g & -> & [_ Hg]%list_elem_of_filter).
    apply list_elem_of_fmap. eauto. }
  pose proof (define_loop _ (defineVariable_hdr ASRemapper HostMapValue
                getWithOperands HostMapMetadata fuel) _ _ _ Hnd3 H4) as Hh4.
  pose proof (define_loop_decl _ olds
                (defineVariable_hdr ASRemapper HostMapValue
                   getWithOperands HostMapMetadata fuel)
                (λ M σ id M' σ', defineVariable_decl fuel olds M σ id M' σ')
                _ _ _ Hnd3 (Hk _) H4) as Hd4.
  assert (NoDup (g_id <$> m_globals acc4.1)) as Hnd4
    by (by rewrite (hdr_ids _ _ Hh4)).
  pose proof (define_loop _ (defineFunction_hdr ASRemapper HostMapValue
                getWithOperands HostCloneFunctionInto fuel) _ _ _ Hnd4 H5)
    as Hh5.
  pose proof (define_loop_decl _ olds
                (defineFunction_hdr ASRemapper HostMapValue
                   getWithOperands HostCloneFunctionInto fuel)
                (λ M σ id M' σ', defineFunction_decl fuel olds M σ id M' σ')
                _ _ _ Hnd4 (Hk _) H5) as Hd5.
  assert (NoDup (g_id <$> m_globals acc5.1)) as Hnd5
    by (by rewrite (hdr_ids _ _ Hh5)).
  pose proof (define_loop _ (defineAlias_hdr ASRemapper HostMapValue
                getWithOperands fuel) _ _ _ Hnd5 H6) as Hh6.
  pose proof (define_loop_decl _ olds
                (defineAlias_hdr ASRemapper HostMapValue getWithOperands fuel)
                (λ M σ id M' σ', defineAlias_decl fuel olds M σ id M' σ')
                _ _ _ Hnd5 (Hk _) H6) as Hd6.
  simpl in Hh6, Hd6. rewrite Hd5, Hd4 in Hd6. rewrite Hh5, Hh4 in Hh6.
  assert (filter (λ g, g_id g ∉ olds) (m_globals acc3.1) = news) as Hnews.
  { rewrite Hl, filter_app.
    assert (filter (λ g, g_id g ∉ olds) origs = []) as ->.
    { apply (origRel_ids) in Ho. clear -Ho Holds.
      assert (∀ x, x ∈ origs → g_id x ∈ olds) as Hx.
      { intros x Hx. apply Holds. rewrite <- Ho. apply list_elem_of_fmap. eauto. }
      clear Ho. induction origs as [|x origs IH]; [done|].
      rewrite filter_cons, decide_False.
      - apply IH. intros y Hy. apply Hx. by apply list_elem_of_further.
      - intros Hn. apply Hn, Hx, list_elem_of_here. }
    simpl. clear -Hf Holds. induction Hf as [|n news Hn _ IH]; [done|].
    rewrite filter_cons, decide_True; [by f_equal|]. by rewrite Holds. }
  rewrite Hnews in Hd6. rewrite erase_all. simpl. fold olds.
  assert (decl <$> news = bs) as Hdn.
  { rewrite Hl, fmap_app in Ebs. apply app_inj_1 in Ebs as [_ ?]; [done|].
    rewrite !length_fmap. by eapply Forall2_length. }
  rewrite Hd6. split.
  - rewrite Hl, fmap_app. f_equal.
    clear -Ho. induction Ho as [|o o0 origs l0 (n & -> & _) _ IH]; [done|].
    rewrite !fmap_cons. by f_equal.
  - assert (hdr <$> filter (λ g, g_id g ∉ olds) (m_globals M6) = hdr <$> news)
      as Hhn.
    { rewrite (filter_id_hdr olds _ _ Hh6). by rewrite Hnews. }
    rewrite <- Hdn in Hbs. rewrite Forall2_fmap_r in Hbs.
    revert Hhn Hd6 Hn Hbs.
    generalize (filter (λ g, g_id g ∉ olds) (m_globals M6)).
    generalize (ofKind KVariable M ++ ofKind KAlias M ++ ofKind KFunction M).
    clear. intros os l Hh Hd Hn. revert l Hh Hd.
    induction Hn as [|n o news os (Hkind & _) _ IH]; intros [|g l] Hh Hd Hbs;
      try done.
    apply Forall2_cons in Hbs as [Hb Hbs].
    rewrite !fmap_cons in Hh. rewrite !fmap_cons in Hd.
    assert (hdr g = hdr n) as Hg by congruence.
    assert (decl g = decl n) as Hg' by congruence.
    constructor.
    + split; [unfold hdr in Hg; congruence|by rewrite Hg'].
    + apply IH; congruence.
Qed.
End DriverDefinitions.

(** *** The last loop keeps the global variables and aliases *)

Lemma Forall2_filter_kind (R : GlobalValue → GlobalValue → Prop) k news os :
  Forall2 (λ n o, kindOf n = kindOf o ∧ R n o) news os →
  Forall2 R (filter (λ g, kindOf g = k) news) (filter (λ g, kindOf g = k) os).
Proof.
  induction 1 as [|n o news os [Hk Hr] _ IH]; [constructor|].
  rewrite !filter_cons, Hk. destruct (decide (kindOf o = k)); [|done].
  by constructor.
Qed.

Section DriverCopies.
Variable ASRemapper : N → N.
Variable HostMapValue :
  (mstate → value → option (mstate * option value)) →
  mstate → constant → option (mstate * option constant).
Variable getWithOperands : constant → list constant → ty → constant.
Variable HostMapMetadata :
  list (vref * vref) → metadata → option (list (vref * vref) * metadata).
Variable HostCloneFunctionInto :
  (mstate → constant → option (mstate * option constant)) →
  (state → ty → option (state * ty)) →
  mstate → GlobalValue → GlobalValue → option (mstate * Function).
Variable intrinsicName : string → ty → option string.

(** The last loop keeps the global variables and the aliases, but for the
    uses of the functions that it replaces. *)
Lemma removeAddrspaces_others {B} (π : GlobalValue → B)
    fuel ctx M ctx' M' changed k :
  (∀ n g, π (setName n g) = π g) →
  (∀ old new g, π (setPayload (substGlobalP old new (g_payload g)) g) = π g) →
  NoDup (g_id <$> m_globals M) → namesUnique (m_globals M) →
  k ≠ KFunction →
  removeAddrspaces ASRemapper HostMapValue getWithOperands HostMapMetadata
    HostCloneFunctionInto intrinsicName fuel ctx M = Some (ctx', M', changed) →
  ∃ M1,
    rebuild ASRemapper HostMapValue getWithOperands HostMapMetadata
      HostCloneFunctionInto fuel ctx M = Some (ctx', M1) ∧
    π <$> ofKind k M' = π <$> ofKind k M1.
Proof.
  intros Hπ1 Hπ2 Hnd Hu Hk Hrun.
  destruct (removeAddrspaces_remangled _ _ _ _ _ _ _ _ _ _ _ _ Hnd Hu Hrun)
    as (M1 & Hr & Hinv & Hloop).
  exists M1. split; [done|].
  pose proof (remangleLoop_others intrinsicName (λ g, (kindOf g, π g))) as Hoth.
  specialize (Hoth ltac:(by intros n g; cbv beta; rewrite Hπ1)).
  specialize (Hoth ltac:(by intros old new g; cbv beta; rewrite Hπ2; f_equal;
                            unfold kindOf; simpl; destruct (g_payload g))).
  specialize (Hoth _ _ _ _ Hinv Hloop).
  unfold ofKind.
  rewrite <- (filter_kind_others k (m_globals M')) by done.
  rewrite <- (filter_kind_others k (m_globals M1)) by done.
  by apply filter_kind_proj.
Qed.

Lemma decl_replaceUses old new g :
  decl (setPayload (substGlobalP old new (g_payload g)) g) = decl g.
Proof. unfold decl, varFlags. simpl. by destruct (g_payload g). Qed.

(** X20: after the pass, every global variable and every alias has the linkage
    and what [copyAttributesFrom] copies of the global variable or alias it
    replaces, and a global variable is constant and thread-local as the one
    it replaces. *)
Theorem removeAddrspaces_copies fuel ctx M ctx' M' changed k :
  NoDup (g_id <$> m_globals M) → namesUnique (m_globals M) →
  k ≠ KFunction →
  removeAddrspaces ASRemapper HostMapValue getWithOperands HostMapMetadata
    HostCloneFunctionInto intrinsicName fuel ctx M = Some (ctx', M', changed) →
  (λ g, (g_linkage g, g_attrs g, varFlags g)) <$> ofKind k M'
  = (λ g, (g_linkage g, g_attrs g, varFlags g)) <$> ofKind k M.
Proof.
  intros Hnd Hu Hk Hrun.
  destruct (removeAddrspaces_others decl _ _ _ _ _ _ k ltac:(done) decl_replaceUses
              Hnd Hu Hk Hrun) as (M1 & Hr & HM').
  destruct (rebuild_decl_spec _ _ _ _ _ _ _ _ _ _ Hnd Hu Hr)
    as (_ & _ & _ & _ & _ & _ & _ & Hn).
  apply (Forall2_filter_kind _ k) in Hn. unfold ofKind in *.
  rewrite filter_kinds in Hn.
  assert (∀ l l' : list GlobalValue, decl <$> l = decl <$> l' →
            (λ g, (g_linkage g, g_attrs g, varFlags g)) <$> l
            = (λ g, (g_linkage g, g_attrs g, varFlags g)) <$> l') as Hproj.
  { intros l l' H.
    apply (f_equal (fmap (λ b : ty * string * string * option (bool * string),
                            (b.1.1.2, b.1.2, b.2)))) in H.
    by rewrite <- !list_fmap_compose in H. }
  rewrite (Hproj _ _ HM'). clear HM' Hproj.
  assert (Forall (λ o, kindOf o = k) (filter (λ g, kindOf g = k) (m_globals M)))
    as Hks.
  { apply Forall_forall. by intros g [? _]%list_elem_of_filter. }
  induction Hn as [|n o ns os (Hl & Hf & Ha) _ IH]; [done|].
  apply Forall_cons in Hks as [Hko Hks]. rewrite !fmap_cons.
  f_equal; [|by apply IH]. simpl in Hl, Hf, Ha.
  rewrite Hl, Hf, Ha; [done|congruence].
Qed.
End DriverCopies.

(** *** The value types of the replacements *)

Section DriverValueTypes.
Variable ASRemapper : N → N.
Variable HostMapValue :
  (mstate → value → option (mstate * option value)) →
  mstate → constant → option (mstate * option constant).
Variable getWithOperands : constant → list constant → ty → constant.
Variable HostMapMetadata :
  list (vref * vref) → metadata → option (list (vref * vref) * metadata).
Variable HostCloneFunctionInto :
  (mstate → constant → option (mstate * option constant)) →
  (state → ty → option (state * ty)) →
  mstate → GlobalValue → GlobalValue → option (mstate * Function).
Variable intrinsicName : string → ty → option string.

(** How the state of the rewriter grows. *)
Definition grows (ts ts' : state) : Prop :=
  MappedTypes ts ⊆ MappedTypes ts' ∧ length (Ctx ts) ≤ length (Ctx ts').

(** The value type of a replacement is the image of the value type of the
    original. *)
Definition imageOf (ts : state) (o : GlobalValue)
    (b : ty * string * string * option (bool * string)) : Prop :=
  b.1.1.1 = rw ASRemapper (MappedTypes ts) (g_valueType o) ∧
  mapped (MappedTypes ts) (g_valueType o).

Lemma grows_refl ts : grows ts ts.
Proof. by split. Qed.

Lemma grows_trans a b c : grows a b → grows b c → grows a c.
Proof. intros [? ?] [? ?]. split; [by etrans|lia]. Qed.

Lemma imageOf_mono ts ts' o b : grows ts ts' → imageOf ts o b → imageOf ts' o b.
Proof.
  intros [Hm _] [Hb Ho]. split; [|by eapply mapped_mono].
  by rewrite (rw_mono _ _ _ _ Hm Ho).
Qed.

Lemma remapType_grows fuel ts T ts' D :
  reachable ASRemapper ts → wf_ty (length (Ctx ts)) T →
  remapType ASRemapper fuel ts T = Some (ts', D) →
  reachable ASRemapper ts' ∧ grows ts ts' ∧
  D = rw ASRemapper (MappedTypes ts') T ∧ mapped (MappedTypes ts') T.
Proof.
  intros Hr HT Hrun.
  destruct (remapType_rw _ _ _ _ _ _ Hr HT Hrun) as (HD & Hm & Hsub & Hfr).
  split; [by eapply reachable_call|]. split; [|done].
  split; [done|by apply frame_length].
Qed.

Lemma remapAddressSpace_grows fuel ts AS ts' a :
  reachable ASRemapper ts →
  remapAddressSpace ASRemapper fuel ts AS = Some (ts', a) →
  reachable ASRemapper ts' ∧ grows ts ts'.
Proof.
  intros Hr. unfold remapAddressSpace.
  destruct (remapType ASRemapper fuel ts (TPtr AS)) as [[ts1 PTy]|] eqn:E;
    simpl; [|done].
  assert (wf_ty (length (Ctx ts)) (TPtr AS)) as HT
    by (by intros s Hs%elem_of_nil).
  destruct (remapType_grows _ _ _ _ _ Hr HT E) as (Hr1 & Hg & _).
  destruct PTy; try done. by intros [= <- <-].
Qed.

Lemma remapList_grows fuel l : ∀ ts ts' l',
  reachable ASRemapper ts → Forall (wf_ty (length (Ctx ts))) l →
  remapList (remapType ASRemapper fuel) ts l = Some (ts', l') →
  reachable ASRemapper ts' ∧ grows ts ts' ∧
  l' = rw ASRemapper (MappedTypes ts') <$> l ∧
  Forall (mapped (MappedTypes ts')) l.
Proof.
  induction l as [|t l IH]; intros ts ts' l' Hr Hl; simpl.
  { intros [= <- <-]. split; [done|]. split; [apply grows_refl|done]. }
  apply Forall_cons in Hl as [Ht Hl].
  destruct (remapType ASRemapper fuel ts t) as [[ts1 t']|] eqn:Et; simpl;
    [|done].
  destruct (remapList _ ts1 l) as [[ts2 l2]|] eqn:El; simpl; [|done].
  intros [= <- <-].
  destruct (remapType_grows _ _ _ _ _ Hr Ht Et) as (Hr1 & Hg1 & -> & Hm1).
  destruct (IH ts1 ts2 l2 Hr1) as (Hr2 & Hg2 & -> & Hm2); [|done|].
  { eapply Forall_impl; [exact Hl|]. intros x. apply wf_ty_mono, Hg1. }
  split; [done|]. split; [by eapply grows_trans|]. split.
  - simpl. f_equal. symmetry. apply rw_mono; [apply Hg2|done].
  - constructor; [|done]. eapply mapped_mono; [apply Hg2|done].
Qed.

Lemma declare_types fuel (step : Module * mstate → nat → option (Module * mstate)) :
  step = declareVariable ASRemapper fuel ∨
  step = declareAlias ASRemapper fuel ∨
  step = declareFunction ASRemapper fuel →
  ∀ l0 M σ doneO o M' σ',
    declInv l0 (m_globals M) doneO → o ∈ l0 →
    reachable ASRemapper σ.2 → wf_ty (length (Ctx σ.2)) (g_valueType o) →
    step (M, σ) (g_id o) = Some (M', σ') →
    reachable ASRemapper σ'.2 ∧ grows σ.2 σ'.2 ∧
    ∃ b, decl <$> m_globals M' = (decl <$> m_globals M) ++ [b] ∧
         imageOf σ'.2 o b.
Proof.
  intros [-> | [-> | ->]] l0 M σ doneO o M' σ' Hinv Hin Hr HT Hrun.
  - destruct (declareVariable_shape _ _ _ _ _ _ _ _ _ Hinv Hin Hrun)
      as (ts1 & VTy & AS & nid & isC & tlm & init & md & Hp & E1 & E2 & _ & Hπ).
    destruct (remapType_grows _ _ _ _ _ Hr HT E1) as (Hr1 & Hg1 & HD & Hm).
    destruct (remapAddressSpace_grows _ _ _ _ _ Hr1 E2) as (Hr2 & Hg2).
    split; [done|]. split; [by eapply grows_trans|].
    eexists. split; [by apply Hπ|].
    eapply imageOf_mono; [exact Hg2|]. by split.
  - destruct (declareAlias_shape _ _ _ _ _ _ _ _ _ Hinv Hin Hrun)
      as (ts1 & VTy & AS & nid & aliasee & Hp & E1 & E2 & _ & Hπ).
    destruct (remapType_grows _ _ _ _ _ Hr HT E1) as (Hr1 & Hg1 & HD & Hm).
    destruct (remapAddressSpace_grows _ _ _ _ _ Hr1 E2) as (Hr2 & Hg2).
    split; [done|]. split; [by eapply grows_trans|].
    eexists. split; [by apply Hπ|].
    eapply imageOf_mono; [exact Hg2|]. by split.
  - destruct (declareFunction_shape _ _ _ _ _ _ _ _ _ Hinv Hin Hrun)
      as (ret & params & v & ts1 & Tys & Ret & nid & Fb & Hp & HTy & E1 & E2
          & _ & Hπ).
    rewrite HTy in HT. apply wf_ty_fun in HT as [Hret Hps].
    destruct (remapList_grows _ _ _ _ _ Hr Hps E1) as (Hr1 & Hg1 & -> & Hm1).
    destruct (remapType_grows _ _ _ _ _ Hr1 (wf_ty_mono _ _ _ (proj2 Hg1) Hret)
                E2) as (Hr2 & Hg2 & -> & Hm2).
    split; [done|]. split; [by eapply grows_trans|].
    eexists. split; [by apply Hπ|]. unfold imageOf. rewrite HTy.
    split; simpl.
    + f_equal. symmetry. apply rw_list_mono; [apply Hg2|done].
    + apply mapped_fun. split; [done|].
      eapply Forall_impl; [exact Hm1|]. intros x. apply mapped_mono, Hg2.
Qed.

(** The declare phase is the beginning of the three phases. *)
Lemma rebuild_declarePhase fuel ctx M ctx' M1 acc1 acc2 acc3 :
  NoDup (g_id <$> m_globals M) → namesUnique (m_globals M) →
  rebuild ASRemapper HostMapValue getWithOperands HostMapMetadata
    HostCloneFunctionInto fuel ctx M = Some (ctx', M1) →
  foldM (declareVariable ASRemapper fuel) (M, ([], State ctx ∅))
    (g_id <$> ofKind KVariable M) = Some acc1 →
  foldM (declareAlias ASRemapper fuel) acc1 (g_id <$> ofKind KAlias M)
    = Some acc2 →
  foldM (declareFunction ASRemapper fuel) acc2 (g_id <$> ofKind KFunction M)
    = Some acc3 →
  declarePhase ASRemapper fuel ctx M = Some acc3.
Proof.
  intros Hnd Hu Hr H1 H2 H3. unfold rebuild in Hr. unfold declarePhase.
  rewrite H1 in *. cbn in *.
  destruct (foldM (declareAlias _ _) _ _) as [acc2'|] eqn:H2'; [cbn in *|done].
  destruct (foldM (declareFunction _ _) _ _) as [acc3'|] eqn:H3';
    [cbn in *|done].
  destruct (declare_phase _ _ _ _ _ _ _ Hnd Hu H1 H2' H3') as (_ & E1 & E2).
  rewrite E1 in H2'. assert (acc2' = acc2) as -> by congruence.
  rewrite E2 in H3'. congruence.
Qed.

(** The value types after the three phases: in the memo of the state that
    the declare phase leaves the type rewriter in, the value type of every
    replacement is the image of the value type of the original. *)
Lemma rebuild_value_types fuel ctx M ctx' M1 :
  NoDup (g_id <$> m_globals M) → namesUnique (m_globals M) →
  ctxClosed ctx →
  Forall (λ g, wf_ty (length ctx) (g_valueType g)) (m_globals M) →
  rebuild ASRemapper HostMapValue getWithOperands HostMapMetadata
    HostCloneFunctionInto fuel ctx M = Some (ctx', M1) →
  ∃ M3 VM st,
    declarePhase ASRemapper fuel ctx M = Some (M3, (VM, st)) ∧
    reachable ASRemapper st ∧
    Forall2 (λ n o, kindOf n = kindOf o ∧
                    g_valueType n
                    = rw ASRemapper (MappedTypes st) (g_valueType o) ∧
                    mapped (MappedTypes st) (g_valueType o))
      (m_globals M1)
      (ofKind KVariable M ++ ofKind KAlias M ++ ofKind KFunction M).
Proof.
  intros Hnd Hu Hcl Hwf Hr.
  destruct (rebuild_decl_spec _ _ _ _ _ _ _ _ _ _ Hnd Hu Hr)
    as (acc1 & acc2 & acc3 & H1 & H2 & H3 & Ed & Hn).
  pose proof (rebuild_declarePhase _ _ _ _ _ _ _ _ Hnd Hu Hr H1 H2 H3) as Hd.
  destruct (declare_phase_proj ASRemapper decl
              (λ _ σ, reachable ASRemapper σ.2) (λ σ σ', grows σ.2 σ'.2)
              (λ σ o, wf_ty (length (Ctx σ.2)) (g_valueType o))
              (λ σ, imageOf σ.2) fuel ctx M acc1 acc2 acc3)
    as (Hr3 & bs & Ebs & Hbs); try done.
  - intros a b c. apply grows_trans.
  - intros σ σ' o [_ Hle]. by apply wf_ty_mono.
  - intros σ σ' o b. apply imageOf_mono.
  - intros step Hstep M0 σ doneO o M' σ' HI0 Hin0 _ HP0 HQ0 Hrun0.
    by eapply (declare_types fuel step Hstep (m_globals M)).
  - by apply reachable_init.
  - destruct acc3 as [M3 [VM st]]. exists M3, VM, st.
    split; [done|]. split; [done|]. simpl in *.
    rewrite Ed in Ebs. apply app_inv_head in Ebs. subst bs.
    rewrite Forall2_fmap_r in Hbs.
    revert Hbs Hn.
    generalize (ofKind KVariable M ++ ofKind KAlias M ++ ofKind KFunction M).
    generalize (m_globals M1). clear. intros news os Hbs Hn.
    induction Hn as [|n o news os (Hk & _) _ IH]; [constructor|].
    apply Forall2_cons in Hbs as [[Hb Hm] Hbs].
    constructor; [|by apply IH]. done.
Qed.

(** The images of the structs that a type mentions are structs of the
    context. *)
Lemma mapped_structs st T :
  reachable ASRemapper st → mapped (MappedTypes st) T →
  ∀ s, s ∈ ids T →
    ∃ s', MappedTypes st !! TStruct s = Some (TStruct s') ∧
          s' < length (Ctx st).
Proof.
  intros Hst Hm s Hs. destruct (Hm s Hs) as [U HU].
  destruct (inv_struct _ _ _ _ (reachable_TopInv _ _ Hst) _ _ HU)
    as (s' & -> & Hs' & _).
  eauto.
Qed.

(** X21: after the pass, the value type of every global variable and of every
    alias is the image of the value type of the global variable or alias it
    replaces, in the memo of the state [st] that the three declare loops,
    run on the module and the context of the start, leave the type rewriter
    in: the address space of every pointer type is mapped by the policy, and
    every identified struct is replaced by the struct of the context of
    [st] that the memo has for it. *)
Theorem removeAddrspaces_value_types fuel ctx M ctx' M' changed :
  NoDup (g_id <$> m_globals M) → namesUnique (m_globals M) →
  ctxClosed ctx →
  Forall (λ g, wf_ty (length ctx) (g_valueType g)) (m_globals M) →
  removeAddrspaces ASRemapper HostMapValue getWithOperands HostMapMetadata
    HostCloneFunctionInto intrinsicName fuel ctx M = Some (ctx', M', changed) →
  ∃ M3 VM st,
    declarePhase ASRemapper fuel ctx M = Some (M3, (VM, st)) ∧
    reachable ASRemapper st ∧
    ∀ k, k ≠ KFunction →
      Forall2 (λ n o,
                 g_valueType n
                 = rw ASRemapper (MappedTypes st) (g_valueType o) ∧
                 ∀ s, s ∈ ids (g_valueType o) →
                   ∃ s', MappedTypes st !! TStruct s = Some (TStruct s') ∧
                         s' < length (Ctx st))
        (ofKind k M') (ofKind k M).
Proof.
  intros Hnd Hu Hcl Hwf Hrun.
  assert (∃ M1, rebuild ASRemapper HostMapValue getWithOperands HostMapMetadata
                  HostCloneFunctionInto fuel ctx M = Some (ctx', M1))
    as (M1 & Hr).
  { destruct (removeAddrspaces_others _ _ _ _ _ _ decl _ _ _ _ _ _ KVariable
                ltac:(done) decl_replaceUses Hnd Hu ltac:(done) Hrun)
      as (M1 & ? & _).
    eauto. }
  destruct (rebuild_value_types _ _ _ _ _ Hnd Hu Hcl Hwf Hr)
    as (M3 & VM & st & Hd & Hst & Hn).
  exists M3, VM, st. split; [done|]. split; [done|]. intros k Hk.
  destruct (removeAddrspaces_others _ _ _ _ _ _ decl _ _ _ _ _ _ k
              ltac:(done) decl_replaceUses Hnd Hu Hk Hrun) as (M1' & Hr' & HM').
  assert (M1' = M1) as -> by congruence.
  apply (f_equal (fmap (λ b : ty * string * string * option (bool * string),
                          b.1.1.1))) in HM'.
  rewrite <- !list_fmap_compose in HM'.
  change (g_valueType <$> ofKind k M' = g_valueType <$> ofKind k M1) in HM'.
  apply (Forall2_filter_kind _ k) in Hn. unfold ofKind in *.
  rewrite filter_kinds in Hn.
  assert (Forall2 (λ T o,
                     T = rw ASRemapper (MappedTypes st) (g_valueType o) ∧
                     ∀ s, s ∈ ids (g_valueType o) →
                       ∃ s', MappedTypes st !! TStruct s = Some (TStruct s') ∧
                             s' < length (Ctx st))
            (g_valueType <$> filter (λ g, kindOf g = k) (m_globals M'))
            (filter (λ g, kindOf g = k) (m_globals M))) as HF.
  { rewrite HM', Forall2_fmap_l. eapply Forall2_impl; [exact Hn|].
    intros n o [Hv Hm]. split; [done|]. by apply mapped_structs. }
  by rewrite Forall2_fmap_l in HF.
Qed.

(** X22: after the three phases, every function has the name of the function
    it replaces, and its type is the image of the type of that function,
    return type and parameter types, in the memo of the state [st] that the
    three declare loops, run on the module and the context of the start,
    leave the type rewriter in; every struct that the type mentions has an
    image in this memo, a struct of the context of [st]. After the last
    loop, a function whose name is not stale and that is not in the way of
    a recomputed name is in the module under its name and with this
    type. *)
Theorem removeAddrspaces_function_types fuel ctx M ctx' M' changed :
  NoDup (g_id <$> m_globals M) → namesUnique (m_globals M) →
  ctxClosed ctx →
  Forall (λ g, wf_ty (length ctx) (g_valueType g)) (m_globals M) →
  removeAddrspaces ASRemapper HostMapValue getWithOperands HostMapMetadata
    HostCloneFunctionInto intrinsicName fuel ctx M = Some (ctx', M', changed) →
  ∃ M3 VM st M1,
    declarePhase ASRemapper fuel ctx M = Some (M3, (VM, st)) ∧
    reachable ASRemapper st ∧
    rebuild ASRemapper HostMapValue getWithOperands HostMapMetadata
      HostCloneFunctionInto fuel ctx M = Some (ctx', M1) ∧
    Forall2 (λ F NF,
               g_name NF = g_name F ∧
               g_valueType NF
               = rw ASRemapper (MappedTypes st) (g_valueType F) ∧
               (∀ s, s ∈ ids (g_valueType F) →
                  ∃ s', MappedTypes st !! TStruct s = Some (TStruct s') ∧
                        s' < length (Ctx st)) ∧
               (staleIntrinsic intrinsicName NF = false →
                unclaimed intrinsicName NF →
                ∃ F', F' ∈ ofKind KFunction M' ∧ g_name F' = g_name NF ∧
                      g_valueType F' = g_valueType NF))
      (ofKind KFunction M) (ofKind KFunction M1).
Proof.
  intros Hnd Hu Hcl Hwf Hrun.
  destruct (removeAddrspaces_remangled _ _ _ _ _ _ _ _ _ _ _ _ Hnd Hu Hrun)
    as (M1 & Hr & Hinv & Hloop).
  destruct (rebuild_value_types _ _ _ _ _ Hnd Hu Hcl Hwf Hr)
    as (M3 & VM & st & Hd & Hst & Hn).
  exists M3, VM, st, M1. split; [done|]. split; [done|]. split; [done|].
  pose proof (rebuild_names _ _ _ _ _ _ _ _ _ _ KFunction Hnd Hu Hr) as Hnames.
  apply (Forall2_filter_kind _ KFunction) in Hn. unfold ofKind in *.
  rewrite filter_kinds in Hn.
  assert (∀ NF, NF ∈ filter (λ g, kindOf g = KFunction) (m_globals M1) →
            staleIntrinsic intrinsicName NF = false →
            unclaimed intrinsicName NF →
            ∃ F', F' ∈ filter (λ g, kindOf g = KFunction) (m_globals M') ∧
                  g_name F' = g_name NF ∧ g_valueType F' = g_valueType NF)
    as Hk.
  { intros NF [HNFk HNF]%list_elem_of_filter Hst' Hun.
    destruct (remangleLoop_kept _ _ _ _ _ NF Hinv Hloop HNF) as (F' & HF' & Hsig);
      [done..|].
    unfold sig, hdr in Hsig. exists F'. split; [|split; congruence].
    apply list_elem_of_filter. split; [congruence|done]. }
  revert Hnames Hk Hn.
  generalize (filter (λ g, kindOf g = KFunction) (m_globals M1)).
  generalize (filter (λ g, kindOf g = KFunction) (m_globals M)).
  clear -Hst. intros os ns Hnames Hk Hn.
  induction Hn as [|n o ns os (Hv & Hm) _ IH]; [constructor|].
  rewrite !fmap_cons in Hnames.
  constructor.
  - split; [congruence|]. split; [done|]. split; [by apply mapped_structs|].
    apply Hk, list_elem_of_here.
  - apply IH; [congruence|]. intros NF HNF. apply Hk.
    by apply list_elem_of_further.
Qed.
End DriverValueTypes.

(** *** The Julia pass and the global variables and aliases *)

Section JuliaPass.
Variable HostMapValue :
  (mstate → value → option (mstate * option value)) →
  mstate → constant → option (mstate * option constant).
Variable getWithOperands : constant → list constant → ty → constant.
Variable HostMapMetadata :
  list (vref * vref) → metadata → option (list (vref * vref) * metadata).
Variable HostCloneFunctionInto :
  (mstate → constant → option (mstate * option constant)) →
  (state → ty → option (state * ty)) →
  mstate → GlobalValue → GlobalValue → option (mstate * Function).
Variable intrinsicName : string → ty → option string.
Variable FirstSpecial LastSpecial : N.
Hypothesis Generic_not_special :
  ¬ (FirstSpecial ≤ AddressSpace_Generic ∧ AddressSpace_Generic ≤ LastSpecial)%N.

(** X23: after the Julia pass, no global variable and no alias is in a special
    address space: the replacement of one that was is in the generic
    address space, and the others are in the address space they were in. *)
Theorem RemoveJuliaAddrspacesPass_run_no_special fuel ctx M ctx' M' PA k :
  NoDup (g_id <$> m_globals M) → namesUnique (m_globals M) →
  k ≠ KFunction →
  RemoveJuliaAddrspacesPass_run HostMapValue getWithOperands HostMapMetadata
    HostCloneFunctionInto intrinsicName FirstSpecial LastSpecial fuel ctx M
  = Some (ctx', M', PA) →
  Forall2 (λ o n,
      ¬ (FirstSpecial ≤ g_addrspace n ∧ g_addrspace n ≤ LastSpecial)%N ∧
      ((FirstSpecial ≤ g_addrspace o ∧ g_addrspace o ≤ LastSpecial)%N →
       g_addrspace n = AddressSpace_Generic) ∧
      (¬ (FirstSpecial ≤ g_addrspace o ∧ g_addrspace o ≤ LastSpecial)%N →
       g_addrspace n = g_addrspace o))
    (ofKind k M) (ofKind k M').
Proof using Generic_not_special.
  intros Hnd Hu Hk. unfold RemoveJuliaAddrspacesPass_run, RemoveAddrspacesPass_run.
  destruct (removeAddrspaces _ _ _ _ _ _ _ _ _) as [[[ctx1 M1] modified]|]
    eqn:Hrun; [cbn|done].
  intros HPA. assert (M1 = M') as -> by (by destruct modified; simplify_eq).
  clear HPA.
  destruct (removeAddrspaces_others _ _ _ _ _ _ g_addrspace _ _ _ _ _ _ k
              ltac:(done) ltac:(done) Hnd Hu Hk Hrun) as (M0 & Hr & HM').
  destruct (rebuild_addrspaces_spec _ _ _ _ _ _ _ _ _ _ Hnd Hu Hr)
    as (news & Hh & Hn).
  unfold ofKind in *.
  rewrite (hdr_addrspaces _ _ (filter_kind_hdr k _ _ Hh)) in HM'.
  rewrite (newAddressSpace_kinds _ k _ _ Hn), filter_kinds in HM'.
  revert HM'. generalize (filter (λ g, kindOf g = k) (m_globals M')).
  assert (Forall (λ o, kindOf o = k) (filter (λ g, kindOf g = k) (m_globals M)))
    as Hks.
  { apply Forall_forall. by intros g [? _]%list_elem_of_filter. }
  induction Hks as [|o os Hko _ IH]; intros [|n ns] HM'; try done.
  rewrite !fmap_cons in HM'. injection HM' as Ha HM'.
  constructor; [|by apply IH].
  unfold newAddressSpace in Ha. rewrite Hko in Ha.
  assert (g_addrspace n
          = removeJuliaAddrspaces FirstSpecial LastSpecial (g_addrspace o))
    as -> by (by destruct k).
  unfold removeJuliaAddrspaces. case_decide; done.
Qed.
End JuliaPass.

(** *** The named metadata *)

(** The name and the number of operands of a named metadata node. *)
Definition nmdShape (e : string * list metadata) : string * nat :=
  (e.1, length e.2).

Lemma Value_setName_nmd M id Name :
  m_named_metadata (Value_setName M id Name) = m_named_metadata M.
Proof.
  unfold Value_setName. destruct (lookupGlobal M id); [|done].
  by repeat case_decide.
Qed.

Lemma renameOriginal_nmd M g M1 Name :
  renameOriginal M g = (M1, Name) → m_named_metadata M1 = m_named_metadata M.
Proof.
  unfold renameOriginal. case_decide; intros [= <- <-]; [|done].
  apply Value_setName_nmd.
Qed.

Lemma createGlobal_nmd M new Name M1 nid :
  createGlobal M new Name = (M1, nid) →
  m_named_metadata M1 = m_named_metadata M.
Proof. unfold createGlobal. intros [= <- <-]. by rewrite Value_setName_nmd. Qed.

Lemma foldM_nmd (step : Module * mstate → nat → option (Module * mstate)) :
  (∀ M σ id M' σ', step (M, σ) id = Some (M', σ') →
                   m_named_metadata M' = m_named_metadata M) →
  ∀ ids acc acc', foldM step acc ids = Some acc' →
                  m_named_metadata acc'.1 = m_named_metadata acc.1.
Proof.
  intros Hstep ids. induction ids as [|id ids IH]; intros acc acc'; simpl.
  { by intros [= <-]. }
  destruct (step acc id) as [acc1|] eqn:Hf; [simpl|done]. intros Hfold.
  rewrite (IH _ _ Hfold). destruct acc, acc1. by eapply Hstep.
Qed.

Section DriverNamedMetadata.
Variable ASRemapper : N → N.
Variable HostMapValue :
  (mstate → value → option (mstate * option value)) →
  mstate → constant → option (mstate * option constant).
Variable getWithOperands : constant → list constant → ty → constant.
Variable HostMapMetadata :
  list (vref * vref) → metadata → option (list (vref * vref) * metadata).
Variable HostCloneFunctionInto :
  (mstate → constant → option (mstate * option constant)) →
  (state → ty → option (state * ty)) →
  mstate → GlobalValue → GlobalValue → option (mstate * Function).
Variable intrinsicName : string → ty → option string.

Lemma declareVariable_nmd fuel M σ id M' σ' :
  declareVariable ASRemapper fuel (M, σ) id = Some (M', σ') →
  m_named_metadata M' = m_named_metadata M.
Proof.
  unfold declareVariable. destruct σ as [VM ts].
  destruct (lookupGlobal M id) as [GV|]; [cbn|done].
  destruct (g_payload GV) as [isC tlm init md| |]; try done.
  destruct (renameOriginal M GV) as [M1 Name] eqn:Hren.
  destruct (remapType ASRemapper fuel ts (g_valueType GV)) as [[ts1 VTy]|];
    [cbn|done].
  destruct (remapAddressSpace ASRemapper fuel ts1 (g_addrspace GV))
    as [[ts2 AS]|]; [cbn|done].
  match goal with
  | |- context [createGlobal M1 ?new Name] =>
      destruct (createGlobal M1 new Name) as [M2 nid] eqn:Hcre
  end.
  intros [= <- <-]. simpl.
  by rewrite (createGlobal_nmd _ _ _ _ _ Hcre), (renameOriginal_nmd _ _ _ _ Hren).
Qed.

Lemma declareAlias_nmd fuel M σ id M' σ' :
  declareAlias ASRemapper fuel (M, σ) id = Some (M', σ') →
  m_named_metadata M' = m_named_metadata M.
Proof.
  unfold declareAlias. destruct σ as [VM ts].
  destruct (lookupGlobal M id) as [GV|]; [cbn|done].
  destruct (g_payload GV) as [|aliasee|]; try done.
  destruct (renameOriginal M GV) as [M1 Name] eqn:Hren.
  destruct (remapType ASRemapper fuel ts (g_valueType GV)) as [[ts1 VTy]|];
    [cbn|done].
  destruct (remapAddressSpace ASRemapper fuel ts1 (g_addrspace GV))
    as [[ts2 AS]|]; [cbn|done].
  match goal with
  | |- context [createGlobal M1 ?new Name] =>
      destruct (createGlobal M1 new Name) as [M2 nid] eqn:Hcre
  end.
  intros [= <- <-]. simpl.
  by rewrite (createGlobal_nmd _ _ _ _ _ Hcre), (renameOriginal_nmd _ _ _ _ Hren).
Qed.

Lemma declareFunction_nmd fuel M σ id M' σ' :
  declareFunction ASRemapper fuel (M, σ) id = Some (M', σ') →
  m_named_metadata M' = m_named_metadata M.
Proof.
  unfold declareFunction. destruct σ as [VM ts].
  destruct (lookupGlobal M id) as [F|]; [cbn|done].
  destruct (g_payload F) as [| |Fb]; try done.
  destruct (g_valueType F) as [| |ret params isVarArg| | | |]; try done.
  destruct (renameOriginal M F) as [M1 Name] eqn:Hren.
  destruct (remapList (remapType ASRemapper fuel) ts params) as [[ts1 Tys]|];
    [cbn|done].
  destruct (remapType ASRemapper fuel ts1 ret) as [[ts2 Ret]|]; [cbn|done].
  match goal with
  | |- context [createGlobal M1 ?new Name] =>
      destruct (createGlobal M1 new Name) as [M2 nid] eqn:Hcre
  end.
  intros [= <- <-].
  by rewrite (createGlobal_nmd _ _ _ _ _ Hcre), (renameOriginal_nmd _ _ _ _ Hren).
Qed.

Lemma defineVariable_nmd fuel M σ id M' σ' :
  defineVariable ASRemapper HostMapValue getWithOperands HostMapMetadata fuel
    (M, σ) id = Some (M', σ') →
  m_named_metadata M' = m_named_metadata M.
Proof.
  unfold defineVariable.
  destruct (lookupGlobal M id) as [GV|]; [cbn|done].
  destruct (g_payload GV) as [isC tlm [Init|] MDs| |]; try done;
    [|by intros [= <- <-]].
  destruct (VMap_global σ.1 id) as [nid|]; [cbn|done].
  destruct (lookupGlobal M nid) as [NGV|]; [cbn|done].
  destruct (g_payload NGV) as [isC' tlm' Init' MDs'| |]; try done.
  destruct (MapValue _ _ _ _ _ _) as [[σ1 NewInit]|]; [cbn|done].
  destruct (mapAttachments _ _ _) as [[VM2 NewMDs]|]; [cbn|done].
  by intros [= <- <-].
Qed.

Lemma defineAlias_nmd fuel M σ id M' σ' :
  defineAlias ASRemapper HostMapValue getWithOperands fuel (M, σ) id
    = Some (M', σ') →
  m_named_metadata M' = m_named_metadata M.
Proof.
  unfold defineAlias.
  destruct (lookupGlobal M id) as [GA|]; [cbn|done].
  destruct (VMap_global σ.1 id) as [nid|]; [cbn|done].
  destruct (lookupGlobal M nid) as [NGA|]; [cbn|done].
  destruct (g_payload GA) as [|[C|]|]; try done;
    destruct (g_payload NGA) as [|C'|]; try done;
    [|by intros [= <- <-]].
  destruct (MapValue _ _ _ _ _ _) as [[σ1 NewC]|]; [cbn|done].
  by intros [= <- <-].
Qed.

Lemma defineFunction_nmd fuel M σ id M' σ' :
  defineFunction ASRemapper HostMapValue getWithOperands HostCloneFunctionInto
    fuel (M, σ) id = Some (M', σ') →
  m_named_metadata M' = m_named_metadata M.
Proof.
  unfold defineFunction.
  destruct (lookupGlobal M id) as [F|]; [cbn|done].
  destruct (VMap_global σ.1 id) as [nid|]; [cbn|done].
  destruct (lookupGlobal M nid) as [NF|]; [cbn|done].
  destruct (g_payload F) as [| |Fb]; try done;
    destruct (g_payload NF) as [| |NFb]; try done.
  destruct (HostCloneFunctionInto _ _ _ _ _) as [[σ2 NFb2]|]; [cbn|done].
  destruct (remapAttrs _ _ _ _) as [[ts3 Attrs]|]; [cbn|done].
  match goal with |- context [RemoveNoopAddrSpaceCasts ?x] =>
    destruct (RemoveNoopAddrSpaceCasts x) as [[NFb4 ?]|]; [cbn|done] end.
  by intros [= <- <-].
Qed.

Lemma mapMDOperands_length ops : ∀ VM VM' ops',
  mapMDOperands HostMapMetadata VM ops = Some (VM', ops') →
  length ops' = length ops.
Proof.
  induction ops as [|op ops IH]; intros VM VM' ops'; simpl.
  { by intros [= _ <-]. }
  destruct (HostMapMetadata VM op) as [[VM1 op']|]; simpl; [|done].
  destruct (mapMDOperands _ VM1 ops) as [[VM2 ops2]|] eqn:E; simpl; [|done].
  intros [= _ <-]. simpl. f_equal. by eapply IH.
Qed.

Lemma mapNamedMetadata_shape NMDs : ∀ VM VM' NMDs',
  mapNamedMetadata HostMapMetadata VM NMDs = Some (VM', NMDs') →
  nmdShape <$> NMDs' = nmdShape <$> NMDs.
Proof.
  induction NMDs as [|[n ops] NMDs IH]; intros VM VM' NMDs'; simpl.
  { by intros [= _ <-]. }
  destruct (mapMDOperands _ VM ops) as [[VM1 ops']|] eqn:E1; simpl; [|done].
  destruct (mapNamedMetadata _ VM1 NMDs) as [[VM2 NMDs2]|] eqn:E2; simpl;
    [|done].
  intros [= _ <-]. rewrite fmap_cons. f_equal; [|by eapply IH].
  unfold nmdShape. simpl. f_equal. by eapply mapMDOperands_length.
Qed.

Lemma erase_all_nmd M ids :
  m_named_metadata (foldl eraseGlobal M ids) = m_named_metadata M.
Proof.
  revert M. induction ids as [|id ids IH]; intros M; simpl; [done|].
  by rewrite IH.
Qed.

Lemma remangleIntrinsicFunction_nmd M F M1 R :
  remangleIntrinsicFunction intrinsicName M F = Some (M1, R) →
  m_named_metadata M1 = m_named_metadata M.
Proof.
  unfold remangleIntrinsicFunction.
  destruct (intrinsicName _ _) as [n|]; [|done].
  case_decide; [done|]. destruct (find _ _) as [Existing|].
  - case_decide; [by intros [= <- <-]|].
    intros Hc. apply (inj Some) in Hc.
    rewrite (createGlobal_nmd _ _ _ _ _ Hc). apply Value_setName_nmd.
  - intros Hc. apply (inj Some) in Hc. by eapply createGlobal_nmd.
Qed.

Lemma remangleLoop_nmd fuel : ∀ M todo M',
  remangleLoop intrinsicName fuel M todo = Some M' →
  nmdShape <$> m_named_metadata M' = nmdShape <$> m_named_metadata M.
Proof.
  induction fuel as [|fuel IH]; intros M todo M'; [done|].
  simpl. destruct todo as [|id rest]; [by intros [= <-]|].
  destruct (lookupGlobal M id) as [F|]; [|apply IH].
  destruct (remangleIntrinsicFunction intrinsicName M F) as [[M1 R]|] eqn:Hr;
    [|apply IH].
  intros Hloop. rewrite (IH _ _ _ Hloop). simpl.
  rewrite (remangleIntrinsicFunction_nmd _ _ _ _ Hr).
  rewrite <- list_fmap_compose. apply list_fmap_ext.
  intros i [n ops] _. unfold nmdShape. simpl. by rewrite length_fmap.
Qed.

(** X24: the pass adds no named metadata node and removes none. The nodes of the
    module keep their names, their order and the number of their
    operands. *)
Theorem removeAddrspaces_named_metadata fuel ctx M ctx' M' changed :
  removeAddrspaces ASRemapper HostMapValue getWithOperands HostMapMetadata
    HostCloneFunctionInto intrinsicName fuel ctx M = Some (ctx', M', changed) →
  nmdShape <$> m_named_metadata M' = nmdShape <$> m_named_metadata M.
Proof.
  unfold removeAddrspaces.
  destruct (rebuild _ _ _ _ _ _ _ _) as [[ctx1 M1]|] eqn:Hr; [cbn|done].
  destruct (remangleLoop _ _ _ _) as [M2|] eqn:Hloop; [cbn|done].
  intros [= <- <- <-]. rewrite (remangleLoop_nmd _ _ _ _ Hloop).
  revert Hr. unfold rebuild.
  destruct (foldM (declareVariable _ _) _ _) as [acc1|] eqn:H1; [cbn|done].
  destruct (foldM (declareAlias _ _) _ _) as [acc2|] eqn:H2; [cbn|done].
  destruct (foldM (declareFunction _ _) _ _) as [acc3|] eqn:H3; [cbn|done].
  destruct (foldM (defineVariable _ _ _ _ _) _ _) as [acc4|] eqn:H4; [cbn|done].
  destruct (foldM (defineFunction _ _ _ _ _) _ _) as [acc5|] eqn:H5; [cbn|done].
  destruct (foldM (defineAlias _ _ _ _) _ _) as [[M6 σ6]|] eqn:H6; [cbn|done].
  destruct (mapNamedMetadata _ _ _) as [[VM7 NMDs]|] eqn:H7; [cbn|done].
  intros [= <- <-]. rewrite erase_all_nmd. simpl.
  rewrite (mapNamedMetadata_shape _ _ _ _ H7).
  apply (foldM_nmd _ (defineAlias_nmd fuel)) in H6.
  apply (foldM_nmd _ (defineFunction_nmd fuel)) in H5.
  apply (foldM_nmd _ (defineVariable_nmd fuel)) in H4.
  apply (foldM_nmd _ (declareFunction_nmd fuel)) in H3.
  apply (foldM_nmd _ (declareAlias_nmd fuel)) in H2.
  apply (foldM_nmd _ (declareVariable_nmd fuel)) in H1.
  simpl in *. congruence.
Qed.
End DriverNamedMetadata.

(** ** The define phase *)

(** *** The value map *)

(** The entries of the value map for global values are kept. *)
Definition keepsGlobals (VM VM' : list (vref * vref)) : Prop :=
  ∀ id nid, VMap_global VM id = Some nid → VMap_global VM' id = Some nid.

Lemma keepsGlobals_refl VM : keepsGlobals VM VM.
Proof. by intros id nid. Qed.

Lemma keepsGlobals_trans VM1 VM2 VM3 :
  keepsGlobals VM1 VM2 → keepsGlobals VM2 VM3 → keepsGlobals VM1 VM3.
Proof. intros H1 H2 id nid H. by apply H2, H1. Qed.

Lemma VMap_global_cons VM id nid id' :
  VMap_global ((RGlobal id, RGlobal nid) :: VM) id'
  = if decide (id' = id) then Some nid else VMap_global VM id'.
Proof.
  unfold VMap_global. simpl. destruct (decide (id' = id)) as [->|Hne].
  - by rewrite bool_decide_eq_true_2.
  - rewrite bool_decide_eq_false_2; [done|]. congruence.
Qed.

Lemma VMap_global_skip l VM id :
  Forall (λ e : vref * vref, isGlobalRef id e.1 = false) l →
  VMap_global (l ++ VM) id = VMap_global VM id.
Proof.
  induction 1 as [|e l He _ IH]; [done|].
  unfold VMap_global in *. simpl. by rewrite He.
Qed.

(** The entries for the arguments of a function are not entries for global
    values. *)
Lemma VMap_global_args fn nfn (args : list (string * ty)) VM id :
  VMap_global (rev (imap (λ i _, (RArg fn i, RArg nfn i)) args) ++ VM) id
  = VMap_global VM id.
Proof.
  apply VMap_global_skip, Forall_forall. intros e He.
  apply list_elem_of_In, in_rev, list_elem_of_In in He.
  by apply elem_of_lookup_imap_1 in He as (i & x & -> & _).
Qed.

(** The materializer writes the value map through [MapValue] only. *)
Lemma mapOperands_keeps
    (MV : mstate → constant → option (mstate * option constant)) ops :
  (∀ σ c σ' r, MV σ c = Some (σ', r) → keepsGlobals σ.1 σ'.1) →
  ∀ σ σ' Ops, mapOperands _ MV σ ops = Some (σ', Ops) →
              keepsGlobals σ.1 σ'.1.
Proof.
  intros HMV. induction ops as [|Op ops IH]; intros σ σ' Ops; simpl.
  { intros [= <- _]. apply keepsGlobals_refl. }
  unfold mapConstant.
  destruct (MV σ Op) as [[σ1 NewOp]|] eqn:E1; simpl; [|done].
  destruct (mapOperands _ MV σ1 ops) as [[σ2 Ops']|] eqn:E2; simpl; [|done].
  intros [= <- _]. eapply keepsGlobals_trans; [by eapply HMV|by eapply IH].
Qed.

Lemma materialize_keeps f
    (MV : mstate → constant → option (mstate * option constant))
    gwo TM fuel σ v σ' r :
  (∀ σ c σ' r, MV σ c = Some (σ', r) → keepsGlobals σ.1 σ'.1) →
  materialize f _ MV gwo TM fuel σ v = Some (σ', r) →
  keepsGlobals σ.1 σ'.1.
Proof.
  intros HMV. unfold materialize.
  destruct v as [[| | |op ops t]| | |];
    try (intros [= <- _]; apply keepsGlobals_refl).
  destruct (Materializer_remapType f _ TM fuel σ t) as [[σ0 Ty]|] eqn:E0;
    simpl; [|done].
  assert (σ0.1 = σ.1) as E.
  { unfold Materializer_remapType in E0. destruct TM.
    - destruct (remapType f fuel σ.2 t) as [[ts Ty']|]; simpl in E0; [|done].
      by injection E0 as <- _.
    - by injection E0 as <- _. }
  rewrite <- E. clear E E0.
  assert (∀ σ1 Ops, mapOperands _ MV σ0 ops = Some (σ1, Ops) →
                    keepsGlobals σ0.1 σ1.1) as Hops.
  { intros σ1 Ops. by apply mapOperands_keeps. }
  destruct op as [| |name].
  - destruct (ops !! 0) as [Op0|]; simpl; [|done]. unfold mapConstant.
    destruct (MV σ0 Op0) as [[σ1 [Src|]]|] eqn:E1; simpl; try done.
    destruct (getPointerAddressSpace (constType Src)); simpl; [|done].
    destruct (getPointerAddressSpace Ty); simpl; [|done].
    intros [= <- _]. by eapply HMV.
  - destruct (mapOperands _ MV σ0 ops) as [[σ1 Ops]|] eqn:E1; simpl; [|done].
    intros [= <- _]. by eapply Hops.
  - destruct (mapOperands _ MV σ0 ops) as [[σ1 Ops]|] eqn:E1; simpl; [|done].
    intros [= <- _]. by eapply Hops.
Qed.

Lemma lookupGlobal_update M id upd id' :
  (∀ g, g_id (upd g) = g_id g) →
  lookupGlobal (updateGlobal M id upd) id'
  = if decide (id' = id) then upd <$> lookupGlobal M id'
    else lookupGlobal M id'.
Proof.
  intros Hupd. unfold lookupGlobal, updateGlobal. simpl.
  induction (m_globals M) as [|g l IH]; simpl; [by case_decide|].
  destruct (decide (g_id g = id)) as [Hg|Hg].
  - rewrite Hupd. destruct (decide (g_id g = id')) as [Hg'|Hg'].
    + rewrite decide_True by congruence. done.
    + exact IH.
  - destruct (decide (g_id g = id')) as [Hg'|Hg']; [|exact IH].
    rewrite decide_False by congruence. done.
Qed.

(** What the declare phase creates for [o], but for its name, its type and
    its address space: no comdat, and a variable without initializer and
    metadata, an alias without aliasee, or a function without body and
    attributes. *)
Definition declared (o b : GlobalValue) : Prop :=
  g_comdat b = None ∧
  match g_payload o, g_payload b with
  | PVariable isConstant tlm _ _, PVariable isConstant' tlm' None [] =>
      isConstant' = isConstant ∧ tlm' = tlm
  | PAlias _, PAlias None => True
  | PFunction _, PFunction NFb => f_blocks NFb = [] ∧ f_attrs NFb = []
  | _, _ => False
  end.

Lemma declared_kind o b : declared o b → kindOf b = kindOf o.
Proof.
  intros [_ H]. unfold kindOf.
  destruct (g_payload o) as [? ? ? ?| |], (g_payload b) as [? ? [|] [|]|[|]|];
    done.
Qed.

Lemma declared_setName n o b : declared o (setName n b) ↔ declared o b.
Proof. done. Qed.

(** The value map sends every original of [ps] to its replacement. *)
Definition mapsAll (ps : list (GlobalValue * GlobalValue))
    (VM : list (vref * vref)) : Prop :=
  ∀ o n0, (o, n0) ∈ ps → VMap_global VM (g_id o) = Some (g_id n0).

Section DriverDefine.
Variable ASRemapper : N → N.
Variable HostMapValue :
  (mstate → value → option (mstate * option value)) →
  mstate → constant → option (mstate * option constant).
Variable getWithOperands : constant → list constant → ty → constant.
Variable HostMapMetadata :
  list (vref * vref) → metadata → option (list (vref * vref) * metadata).
Variable HostCloneFunctionInto :
  (mstate → constant → option (mstate * option constant)) →
  (state → ty → option (state * ty)) →
  mstate → GlobalValue → GlobalValue → option (mstate * Function).
Variable intrinsicName : string → ty → option string.

(** What the properties of the define phase ask of the host: its mappers
    and its cloner keep the entries that the value map has for global
    values (they add entries, and the callbacks they are given may do the
    same). *)
Hypothesis HostMapValue_keeps : ∀ mat,
  (∀ σ v σ' r, mat σ v = Some (σ', r) → keepsGlobals σ.1 σ'.1) →
  ∀ σ c σ' r, HostMapValue mat σ c = Some (σ', r) → keepsGlobals σ.1 σ'.1.
Hypothesis HostMapMetadata_keeps : ∀ VM m VM' m',
  HostMapMetadata VM m = Some (VM', m') → keepsGlobals VM VM'.
Hypothesis HostCloneFunctionInto_keeps : ∀ mapv remap,
  (∀ σ c σ' r, mapv σ c = Some (σ', r) → keepsGlobals σ.1 σ'.1) →
  ∀ σ F NF σ' Fb,
    HostCloneFunctionInto mapv remap σ F NF = Some (σ', Fb) →
    keepsGlobals σ.1 σ'.1.

#[local] Abbreviation MapValueWith :=
  (MapValue ASRemapper HostMapValue getWithOperands).

Lemma MapValue_keeps fuel : ∀ σ c σ' r,
  MapValueWith fuel σ c = Some (σ', r) → keepsGlobals σ.1 σ'.1.
Proof using HostMapValue_keeps.
  induction fuel as [|fuel IH]; intros σ c σ' r; [done|]. simpl.
  apply HostMapValue_keeps. intros σ0 v σ1 r0. by apply materialize_keeps.
Qed.

Lemma mapAttachments_keeps MDs : ∀ VM VM' MDs',
  mapAttachments HostMapMetadata VM MDs = Some (VM', MDs') →
  keepsGlobals VM VM' ∧ MDs'.*1 = MDs.*1.
Proof using HostMapMetadata_keeps.
  induction MDs as [|[k MD] MDs IH]; intros VM VM' MDs'; simpl.
  { intros [= <- <-]. split; [apply keepsGlobals_refl|done]. }
  destruct (HostMapMetadata VM MD) as [[VM1 MD']|] eqn:E1; simpl; [|done].
  destruct (mapAttachments _ VM1 MDs) as [[VM2 MDs2]|] eqn:E2; simpl; [|done].
  intros [= <- <-]. destruct (IH _ _ _ E2) as [Hk Hl].
  split; [|by rewrite !fmap_cons, Hl].
  eapply keepsGlobals_trans; [by eapply HostMapMetadata_keeps|done].
Qed.

(** What the define phase makes of the replacement [n0] of [o]: the
    initializer, the metadata and the comdat of a global variable that has
    an initializer; the aliasee of an alias that has one; the body and the
    comdat of a function. *)
Definition definedAs (fuel : nat) (ps : list (GlobalValue * GlobalValue))
    (o n0 n : GlobalValue) : Prop :=
  match g_payload o with
  | PVariable isConstant tlm (Some Init) MDs =>
      ∃ σ σ1 NewInit VM2 NewMDs,
        mapsAll ps σ.1 ∧
        MapValueWith fuel σ Init = Some (σ1, NewInit) ∧
        mapAttachments HostMapMetadata σ1.1 MDs = Some (VM2, NewMDs) ∧
        n = copyComdat o
              (setPayload (PVariable isConstant tlm NewInit NewMDs) n0)
  | PVariable _ _ None _ => n = n0
  | PAlias (Some C) =>
      ∃ σ σ1 NewC,
        mapsAll ps σ.1 ∧
        MapValueWith fuel σ C = Some (σ1, NewC) ∧
        n = setPayload (PAlias NewC) n0
  | PAlias None => n = n0
  | PFunction Fb =>
      ∃ σ nm NF σ2 NFb2 ts3 Attrs NFb4 changed,
        mapsAll ps σ.1 ∧ g_id NF = g_id n0 ∧
        HostCloneFunctionInto (MapValueWith fuel)
          (remapType ASRemapper fuel) σ (setName nm o) NF = Some (σ2, NFb2) ∧
        remapAttrs ASRemapper fuel σ2.2 (f_attrs Fb) = Some (ts3, Attrs) ∧
        RemoveNoopAddrSpaceCasts
          (mkFunction (f_args NFb2) (f_blocks NFb2) Attrs)
        = Some (NFb4, changed) ∧
        n = copyComdat o (setPayload (PFunction NFb4) n0)
  end.

(** The module [M3] after the declare phase and the pairs [ps] of an
    original and its replacement. *)
Record defSetup (M3 : Module) (ps : list (GlobalValue * GlobalValue))
    : Prop := mkDefSetup {
  ds_ids : NoDup (g_id <$> m_globals M3);
  ds_fun : ∀ o n0 o' n0', (o, n0) ∈ ps → (o', n0') ∈ ps →
             g_id o = g_id o' ∨ g_id n0 = g_id n0' → o = o' ∧ n0 = n0';
  ds_new : ∀ o n0 o' n0', (o, n0) ∈ ps → (o', n0') ∈ ps →
             g_id o ≠ g_id n0';
  ds_decl : ∀ o n0, (o, n0) ∈ ps → declared o n0
}.

(** The state of the define phase: the replacements of the originals in
    [done] are defined, and the other originals and their replacements are
    as the declare phase left them. *)
Record defInv (fuel : nat) (M3 : Module)
    (ps : list (GlobalValue * GlobalValue)) (done : list nat)
    (M : Module) (σ : mstate) : Prop := mkDefInv {
  di_hdr : hdr <$> m_globals M = hdr <$> m_globals M3;
  di_vm : mapsAll ps σ.1;
  di_todo : ∀ o n0, (o, n0) ∈ ps → g_id o ∉ done →
    lookupGlobal M (g_id n0) = Some n0 ∧
    ∃ nm, lookupGlobal M (g_id o) = Some (setName nm o);
  di_defined : ∀ o n0, (o, n0) ∈ ps → g_id o ∈ done →
    ∃ n, lookupGlobal M (g_id n0) = Some n ∧ definedAs fuel ps o n0 n
}.

Lemma defInv_skip fuel M3 ps done M σ o n0 :
  defInv fuel M3 ps done M σ → (o, n0) ∈ ps → g_id o ∉ done →
  definedAs fuel ps o n0 n0 →
  defSetup M3 ps →
  defInv fuel M3 ps (g_id o :: done) M σ.
Proof.
  intros [Hh Hvm Htodo Hdef] Hin Hnd Hdn Hs. constructor; try done.
  - intros o' n0' Hin' Hnd'. apply Htodo; [done|].
    intros Hx. apply Hnd'. by apply list_elem_of_further.
  - intros o' n0' Hin' [Heq|Hd]%elem_of_cons; [|by apply Hdef].
    destruct (ds_fun _ _ Hs o' n0' o n0 Hin' Hin (or_introl Heq)) as [-> ->].
    exists n0. split; [|done]. by destruct (Htodo o n0 Hin Hnd).
Qed.

Lemma defInv_step fuel M3 ps done M σ σ' o n0 u1 u2 :
  defSetup M3 ps →
  defInv fuel M3 ps done M σ → (o, n0) ∈ ps → g_id o ∉ done →
  keepsGlobals σ.1 σ'.1 →
  (∀ g, g_id (u1 g) = g_id g) → (∀ g, g_id (u2 g) = g_id g) →
  hdr <$> m_globals (updateGlobal (updateGlobal M (g_id n0) u1) (g_id o) u2)
  = hdr <$> m_globals M →
  definedAs fuel ps o n0 (u1 n0) →
  defInv fuel M3 ps (g_id o :: done)
    (updateGlobal (updateGlobal M (g_id n0) u1) (g_id o) u2) σ'.
Proof.
  intros Hs [Hh Hvm Htodo Hdef] Hin Hnd Hk H1 H2 Hh' Hdn.
  assert (∀ x, x ≠ g_id o → x ≠ g_id n0 →
               lookupGlobal (updateGlobal (updateGlobal M (g_id n0) u1)
                               (g_id o) u2) x
               = lookupGlobal M x) as Hother.
  { intros x Hx1 Hx2. rewrite !lookupGlobal_update by done.
    by rewrite !decide_False by done. }
  assert (lookupGlobal (updateGlobal (updateGlobal M (g_id n0) u1)
                          (g_id o) u2) (g_id n0)
          = Some (u1 n0)) as Hthis.
  { rewrite !lookupGlobal_update by done.
    rewrite decide_False.
    - rewrite decide_True by done. by destruct (Htodo o n0 Hin Hnd) as [-> _].
    - intros Heq. by apply (ds_new _ _ Hs o n0 o n0 Hin Hin). }
  constructor.
  - by rewrite Hh'.
  - intros o' n0' Hin'. by apply Hk, Hvm.
  - intros o' n0' Hin' Hnd'.
    apply not_elem_of_cons in Hnd' as [Hne Hnd'].
    destruct (Htodo o' n0' Hin' Hnd') as (Hn' & nm & Ho').
    rewrite !Hother; [eauto| | | |].
    + done.
    + intros Heq. by apply (ds_new _ _ Hs o' n0' o n0 Hin' Hin).
    + intros Heq. by apply (ds_new _ _ Hs o n0 o' n0' Hin Hin').
    + intros Heq.
      destruct (ds_fun _ _ Hs o' n0' o n0 Hin' Hin (or_intror Heq)) as [-> _].
      done.
  - intros o' n0' Hin' [Heq|Hd]%elem_of_cons.
    + destruct (ds_fun _ _ Hs o' n0' o n0 Hin' Hin (or_introl Heq)) as [-> ->].
      eauto.
    + destruct (Hdef o' n0' Hin' Hd) as (n & Hn & Hdn').
      exists n. split; [|done]. rewrite Hother; [done| |].
      * intros Heq. by apply (ds_new _ _ Hs o n0 o' n0' Hin Hin').
      * intros Heq.
        destruct (ds_fun _ _ Hs o' n0' o n0 Hin' Hin (or_intror Heq))
          as [-> _].
        done.
Qed.

Lemma defInv_ids fuel M3 ps done M σ :
  defSetup M3 ps → defInv fuel M3 ps done M σ →
  NoDup (g_id <$> m_globals M).
Proof. intros Hs Hi. rewrite (hdr_ids _ _ (di_hdr _ _ _ _ _ _ Hi)). apply Hs. Qed.

Lemma g_id_copyComdat Src Dst : g_id (copyComdat Src Dst) = g_id Dst.
Proof. unfold copyComdat. by destruct (g_comdat Src). Qed.

Lemma defineVariable_def fuel M3 ps done M σ o n0 M' σ' :
  defSetup M3 ps →
  defInv fuel M3 ps done M σ → (o, n0) ∈ ps → g_id o ∉ done →
  defineVariable ASRemapper HostMapValue getWithOperands HostMapMetadata fuel
    (M, σ) (g_id o) = Some (M', σ') →
  defInv fuel M3 ps (g_id o :: done) M' σ'.
Proof using HostMapValue_keeps HostMapMetadata_keeps.
  intros Hs Hinv Hin Hnd Hrun.
  pose proof (defineVariable_hdr _ _ _ _ _ _ _ _ _ _
                (defInv_ids _ _ _ _ _ _ Hs Hinv) Hrun) as Hh.
  destruct (di_todo _ _ _ _ _ _ Hinv o n0 Hin Hnd) as (Hn0 & nm & Ho).
  unfold defineVariable in *. rewrite Ho in *. cbn in *.
  destruct (g_payload o) as [isC tlm [Init|] MDs| |] eqn:Hp; try done.
  - rewrite (di_vm _ _ _ _ _ _ Hinv o n0 Hin) in *. cbn in *.
    rewrite Hn0 in *. cbn in *.
    destruct (ds_decl _ _ Hs o n0 Hin) as [Hc Hpay]. rewrite Hp in Hpay.
    destruct (g_payload n0) as [isC' tlm' [|] [|]| |] eqn:Hp'; try done.
    destruct Hpay as [-> ->].
    destruct (MapValue _ _ _ _ _ _) as [[σ1 NewInit]|] eqn:EM; [cbn in *|done].
    destruct (mapAttachments _ _ _) as [[VM2 NewMDs]|] eqn:EA; [cbn in *|done].
    injection Hrun as <- <-.
    apply (defInv_step fuel M3 ps done M σ); try done.
    + simpl. eapply keepsGlobals_trans; [by eapply MapValue_keeps|].
      by eapply mapAttachments_keeps.
    + intros g. by rewrite g_id_copyComdat.
    + pose proof (di_vm _ _ _ _ _ _ Hinv). unfold definedAs. rewrite Hp.
      eauto 10.
  - injection Hrun as <- <-. apply (defInv_skip _ _ _ _ _ _ o n0); try done.
    unfold definedAs. by rewrite Hp.
Qed.

Lemma defineAlias_def fuel M3 ps done M σ o n0 M' σ' :
  defSetup M3 ps →
  defInv fuel M3 ps done M σ → (o, n0) ∈ ps → g_id o ∉ done →
  defineAlias ASRemapper HostMapValue getWithOperands fuel (M, σ) (g_id o)
    = Some (M', σ') →
  defInv fuel M3 ps (g_id o :: done) M' σ'.
Proof using HostMapValue_keeps.
  intros Hs Hinv Hin Hnd Hrun.
  pose proof (defineAlias_hdr _ _ _ _ _ _ _ _ _
                (defInv_ids _ _ _ _ _ _ Hs Hinv) Hrun) as Hh.
  destruct (di_todo _ _ _ _ _ _ Hinv o n0 Hin Hnd) as (Hn0 & nm & Ho).
  unfold defineAlias in *. rewrite Ho in *. cbn in *.
  rewrite (di_vm _ _ _ _ _ _ Hinv o n0 Hin) in *. cbn in *.
  rewrite Hn0 in *. cbn in *.
  destruct (ds_decl _ _ Hs o n0 Hin) as [Hc Hpay].
  destruct (g_payload o) as [|[C|]|] eqn:Hp; try done;
    destruct (g_payload n0) as [|[|]|] eqn:Hp'; try done.
  - destruct (MapValue _ _ _ _ _ _) as [[σ1 NewC]|] eqn:EM; [cbn in *|done].
    injection Hrun as <- <-.
    apply (defInv_step fuel M3 ps done M σ); try done.
    + by eapply MapValue_keeps.
    + pose proof (di_vm _ _ _ _ _ _ Hinv). unfold definedAs. rewrite Hp.
      eauto 10.
  - injection Hrun as <- <-. apply (defInv_skip _ _ _ _ _ _ o n0); try done.
    unfold definedAs. by rewrite Hp.
Qed.

Lemma defineFunction_def fuel M3 ps done M σ o n0 M' σ' :
  defSetup M3 ps →
  defInv fuel M3 ps done M σ → (o, n0) ∈ ps → g_id o ∉ done →
  defineFunction ASRemapper HostMapValue getWithOperands HostCloneFunctionInto
    fuel (M, σ) (g_id o) = Some (M', σ') →
  defInv fuel M3 ps (g_id o :: done) M' σ'.
Proof using HostMapValue_keeps HostCloneFunctionInto_keeps.
  intros Hs Hinv Hin Hnd Hrun.
  pose proof (defineFunction_hdr _ _ _ _ _ _ _ _ _ _
                (defInv_ids _ _ _ _ _ _ Hs Hinv) Hrun) as Hh.
  destruct (di_todo _ _ _ _ _ _ Hinv o n0 Hin Hnd) as (Hn0 & nm & Ho).
  unfold defineFunction in *. rewrite Ho in *. cbn in *.
  rewrite (di_vm _ _ _ _ _ _ Hinv o n0 Hin) in *. cbn in *.
  rewrite Hn0 in *. cbn in *.
  destruct (g_payload o) as [| |Fb] eqn:Hp; try done;
    destruct (g_payload n0) as [| |NFb] eqn:Hp'; try done.
  destruct (HostCloneFunctionInto _ _ _ _ _) as [[σ2 NFb2]|] eqn:EC;
    [cbn in *|done].
  destruct (remapAttrs _ _ _ _) as [[ts3 Attrs]|] eqn:EA; [cbn in *|done].
  match type of Hrun with context [RemoveNoopAddrSpaceCasts ?x] =>
    destruct (RemoveNoopAddrSpaceCasts x) as [[NFb4 ch]|] eqn:ER;
      [cbn in *|done] end.
  injection Hrun as <- <-.
  apply (defInv_step fuel M3 ps done M σ); try done.
  - simpl. intros id nid Hid.
    eapply (HostCloneFunctionInto_keeps _ _ (MapValue_keeps fuel) _ _ _ _ _ EC).
    simpl. by rewrite VMap_global_args.
  - intros g. by rewrite g_id_copyComdat.
  - unfold definedAs. rewrite Hp.
    eexists _, nm, _, σ2, NFb2, ts3, Attrs, NFb4, ch.
    split; [|split; [|split; [exact EC|done]]]; [|done].
    intros o' n0' Hin'. simpl. rewrite VMap_global_args.
    by apply (di_vm _ _ _ _ _ _ Hinv).
Qed.

(** A loop of the define phase. *)
Lemma define_loop_def fuel M3 ps
    (step : Module * mstate → nat → option (Module * mstate)) :
  (∀ done M σ o n0 M' σ',
     defInv fuel M3 ps done M σ → (o, n0) ∈ ps → g_id o ∉ done →
     step (M, σ) (g_id o) = Some (M', σ') →
     defInv fuel M3 ps (g_id o :: done) M' σ') →
  ∀ os done acc acc',
    Forall (λ o, ∃ n0, (o, n0) ∈ ps) os → NoDup (g_id <$> os) →
    (∀ o, o ∈ os → g_id o ∉ done) →
    defInv fuel M3 ps done acc.1 acc.2 →
    foldM step acc (g_id <$> os) = Some acc' →
    defInv fuel M3 ps (rev (g_id <$> os) ++ done) acc'.1 acc'.2.
Proof.
  intros Hstep os.
  induction os as [|o os IH]; intros done acc acc' Hos Hnd Hfresh Hinv.
  { simpl. by intros [= <-]. }
  rewrite fmap_cons. simpl.
  destruct (step acc (g_id o)) as [acc1|] eqn:Hf; [simpl|done]. intros Hfold.
  apply Forall_cons in Hos as [[n0 Hin] Hos].
  apply NoDup_cons in Hnd as [Ho Hnd].
  destruct acc as [M σ], acc1 as [M1 σ1].
  rewrite <- (assoc_L (++)). simpl.
  apply (IH (g_id o :: done) (M1, σ1)); try done.
  - intros o' Ho' [Heq|Hd]%elem_of_cons.
    + apply Ho. rewrite <- Heq. apply list_elem_of_fmap. eauto.
    + apply (Hfresh o'); [by apply list_elem_of_further|done].
  - eapply Hstep; [done..| |done]. apply Hfresh, list_elem_of_here.
Qed.
End DriverDefine.

(** *** From the declare phase to the define phase *)

Lemma elem_of_zip_lookup {A B} (l : list A) (k : list B) x y :
  (x, y) ∈ zip l k ↔ ∃ i, l !! i = Some x ∧ k !! i = Some y.
Proof. rewrite list_elem_of_lookup. by setoid_rewrite lookup_zip_Some. Qed.

Lemma elem_of_rev {A} (x : A) (l : list A) : x ∈ rev l ↔ x ∈ l.
Proof. rewrite rev_alt. apply elem_of_reverse. Qed.

Lemma Forall2_Forall_left {A B} (P : A → Prop) (R : A → B → Prop) l k :
  Forall P l → Forall2 R l k → Forall2 (λ a b, P a ∧ R a b) l k.
Proof.
  intros HP HR. induction HR as [|a b l k Hab _ IH]; [constructor|].
  apply Forall_cons in HP as [Ha HP]. constructor; [done|by apply IH].
Qed.

Lemma elem_of_rev_1 {A} (x : A) (l : list A) : x ∈ rev l → x ∈ l.
Proof. by rewrite elem_of_rev. Qed.

Lemma NoDup_fmap_lookup {A B} (f : A → B) (l : list A) i j x y :
  NoDup (f <$> l) → l !! i = Some x → l !! j = Some y → f x = f y → i = j.
Proof.
  intros Hnd Hi Hj Heq. eapply (NoDup_lookup (f <$> l)); [done| |].
  - by rewrite list_lookup_fmap, Hi.
  - by rewrite list_lookup_fmap, Hj, Heq.
Qed.

Section DriverDeclared.
Variable ASRemapper : N → N.

(** The value map has entries for the originals that are done only. *)
Definition vmKeys (doneO : list GlobalValue) (σ : mstate) : Prop :=
  ∀ id, is_Some (VMap_global σ.1 id) → id ∈ g_id <$> doneO.

Definition mappedTo (σ : mstate) (o b : GlobalValue) : Prop :=
  VMap_global σ.1 (g_id o) = Some (g_id b) ∧ declared o b.

Lemma declare_vm_step doneO (σ σ' : mstate) o nid b :
  g_id o ∉ g_id <$> doneO → vmKeys doneO σ →
  σ'.1 = (RGlobal (g_id o), RGlobal nid) :: σ.1 →
  g_id b = nid → declared o b →
  vmKeys (doneO ++ [o]) σ' ∧ keepsGlobals σ.1 σ'.1 ∧ mappedTo σ' o b.
Proof.
  intros Hdone HP HVM Hb Hd. split; [|split].
  - intros id. rewrite HVM, VMap_global_cons, fmap_app, elem_of_app.
    case_decide as Hid; [subst id; right; apply list_elem_of_here|].
    intros H. left. by apply HP.
  - intros id x Hx. rewrite HVM, VMap_global_cons, decide_False; [done|].
    intros ->. apply Hdone, HP. by rewrite Hx.
  - split; [|done]. rewrite HVM, VMap_global_cons, decide_True by done.
    by rewrite Hb.
Qed.

Lemma declare_vm fuel
    (step : Module * mstate → nat → option (Module * mstate)) :
  step = declareVariable ASRemapper fuel ∨
  step = declareAlias ASRemapper fuel ∨
  step = declareFunction ASRemapper fuel →
  ∀ l0 M σ doneO o M' σ',
    declInv l0 (m_globals M) doneO → o ∈ l0 → g_id o ∉ g_id <$> doneO →
    vmKeys doneO σ →
    step (M, σ) (g_id o) = Some (M', σ') →
    vmKeys (doneO ++ [o]) σ' ∧ keepsGlobals σ.1 σ'.1 ∧
    ∃ b, setName "" <$> m_globals M' = (setName "" <$> m_globals M) ++ [b] ∧
         mappedTo σ' o b.
Proof.
  intros [-> | [-> | ->]] l0 M σ doneO o M' σ' Hinv Hin Hdone HP Hrun.
  - destruct (declareVariable_shape _ _ _ _ _ _ _ _ _ Hinv Hin Hrun)
      as (ts1 & VTy & AS & nid & isC & tlm & init & md & Hp & _ & _ & HVM
          & Hπ).
    specialize (Hπ _ (setName "") (λ _ _, eq_refl)).
    match type of Hπ with _ = _ ++ [?b] =>
      destruct (declare_vm_step doneO σ σ' o nid b Hdone HP HVM eq_refl)
        as (? & ? & ?) end.
    { split; [done|]. simpl. by rewrite Hp. }
    eauto.
  - destruct (declareAlias_shape _ _ _ _ _ _ _ _ _ Hinv Hin Hrun)
      as (ts1 & VTy & AS & nid & aliasee & Hp & _ & _ & HVM & Hπ).
    specialize (Hπ _ (setName "") (λ _ _, eq_refl)).
    match type of Hπ with _ = _ ++ [?b] =>
      destruct (declare_vm_step doneO σ σ' o nid b Hdone HP HVM eq_refl)
        as (? & ? & ?) end.
    { split; [done|]. simpl. by rewrite Hp. }
    eauto.
  - destruct (declareFunction_shape _ _ _ _ _ _ _ _ _ Hinv Hin Hrun)
      as (ret & params & v & ts1 & Tys & Ret & nid & Fb & Hp & _ & _ & _
          & HVM & Hπ).
    specialize (Hπ _ (setName "") (λ _ _, eq_refl)).
    match type of Hπ with _ = _ ++ [?b] =>
      destruct (declare_vm_step doneO σ σ' o nid b Hdone HP HVM eq_refl)
        as (? & ? & ?) end.
    { split; [done|]. simpl. by rewrite Hp. }
    eauto.
Qed.

(** The module after the declare phase: the originals, renamed, followed by
    their replacements, which the value map sends them to. *)
Lemma declare_phase_setup fuel ctx M acc1 acc2 acc3 :
  NoDup (g_id <$> m_globals M) → namesUnique (m_globals M) →
  foldM (declareVariable ASRemapper fuel) (M, ([], State ctx ∅))
    (g_id <$> ofKind KVariable M) = Some acc1 →
  foldM (declareAlias ASRemapper fuel) acc1 (g_id <$> ofKind KAlias M)
    = Some acc2 →
  foldM (declareFunction ASRemapper fuel) acc2 (g_id <$> ofKind KFunction M)
    = Some acc3 →
  declInv (m_globals M) (m_globals acc3.1)
    (ofKind KVariable M ++ ofKind KAlias M ++ ofKind KFunction M) →
  ∃ news,
    filter (λ g, g_id g ∉ (g_id <$> ofKind KVariable M)
                            ++ (g_id <$> ofKind KAlias M)
                            ++ (g_id <$> ofKind KFunction M))
           (m_globals acc3.1) = news ∧
    length news = length (ofKind KVariable M ++ ofKind KAlias M
                            ++ ofKind KFunction M) ∧
    defSetup acc3.1 (zip (ofKind KVariable M ++ ofKind KAlias M
                            ++ ofKind KFunction M) news) ∧
    ∀ HostMapValue getWithOperands HostMapMetadata HostCloneFunctionInto,
      defInv ASRemapper HostMapValue getWithOperands HostMapMetadata
        HostCloneFunctionInto fuel acc3.1
        (zip (ofKind KVariable M ++ ofKind KAlias M ++ ofKind KFunction M) news)
        [] acc3.1 acc3.2.
Proof.
  intros Hnd Hu H1 H2 H3.
  set (os := ofKind KVariable M ++ ofKind KAlias M ++ ofKind KFunction M).
  intros Hinv.
  assert (os ≡ₚ m_globals M) as Hperm by apply kinds_perm.
  assert (NoDup (g_id <$> os)) as Hndos by (by rewrite Hperm).
  destruct (declare_phase_proj ASRemapper (setName "") vmKeys
              (λ σ σ', keepsGlobals σ.1 σ'.1) (λ _ _, True) mappedTo
              fuel ctx M acc1 acc2 acc3)
    as (_ & bs & Ebs & Hbs).
  { intros σ. apply keepsGlobals_refl. }
  { intros a b c. apply keepsGlobals_trans. }
  { done. }
  { intros σ σ' o b Hk [Hm Hd]. split; [by apply Hk|done]. }
  { intros step Hstep M0 σ doneO o M' σ' HI0 Hin0 Hd0 HP0 _ Hrun0.
    by eapply (declare_vm fuel step Hstep (m_globals M)). }
  { done. }
  { done. }
  { intros id [x Hx]. done. }
  { by apply Forall_true. }
  { done. }
  { done. }
  { done. }
  fold os in Hbs.
  destruct Hinv as [(origs & news & Hl & Ho & Hn & Hf) Hnd3 Hu3].
  assert (setName "" <$> news = bs) as Hdn.
  { rewrite Hl, fmap_app in Ebs. apply app_inj_1 in Ebs as [_ ?]; [done|].
    rewrite !length_fmap. by eapply Forall2_length. }
  rewrite <- Hdn in Hbs. rewrite Forall2_fmap_r in Hbs.
  assert (∀ x, x ∈ origs → g_id x ∈ g_id <$> os) as Horigs.
  { intros x Hx. rewrite Hperm, <- (origRel_ids _ _ _ Ho).
    apply list_elem_of_fmap. eauto. }
  assert (∀ n, n ∈ news → g_id n ∉ g_id <$> os) as Hnews.
  { intros n Hn'. rewrite Hperm. rewrite Forall_forall in Hf. by apply Hf. }
  exists news. split; [|split; [by erewrite <- Forall2_length|split]].
  - rewrite <- !fmap_app. fold os. rewrite Hl, filter_app.
    assert (filter (λ g, g_id g ∉ g_id <$> os) origs = []) as ->.
    { clear -Horigs. induction origs as [|x origs IH]; [done|].
      rewrite filter_cons, decide_False.
      - apply IH. intros y Hy. apply Horigs. by apply list_elem_of_further.
      - intros Hn. apply Hn, Horigs, list_elem_of_here. }
    simpl. clear -Hnews. induction news as [|n news IH]; [done|].
    rewrite filter_cons, decide_True.
    + f_equal. apply IH. intros y Hy. apply Hnews. by apply list_elem_of_further.
    + apply Hnews, list_elem_of_here.
  - assert (NoDup (g_id <$> news)) as Hndn.
    { rewrite Hl, fmap_app in Hnd3. by apply NoDup_app in Hnd3 as (_ & _ & ?). }
    constructor; [done| | |].
    + intros o n0 o' n0' (i & Hi & Hi')%elem_of_zip_lookup
        (j & Hj & Hj')%elem_of_zip_lookup Heq.
      assert (i = j) as ->.
      { destruct Heq as [Heq|Heq].
        - by eapply (NoDup_fmap_lookup g_id os).
        - by eapply (NoDup_fmap_lookup g_id news). }
      split; congruence.
    + intros o n0 o' n0' Hin%elem_of_zip_l Hin'%elem_of_zip_r Heq.
      apply (Hnews n0' Hin'). rewrite <- Heq. apply list_elem_of_fmap. eauto.
    + intros o n0 (i & Hi & Hi')%elem_of_zip_lookup.
      destruct (Forall2_lookup_lr _ _ _ _ _ _ Hbs Hi Hi') as [_ Hd]. done.
  - intros HMV gwo HMD HCF. constructor; [done| | |].
    + intros o n0 (i & Hi & Hi')%elem_of_zip_lookup.
      destruct (Forall2_lookup_lr _ _ _ _ _ _ Hbs Hi Hi') as [Hm _]. done.
    + intros o n0 (i & Hi & Hi')%elem_of_zip_lookup _. split.
      * apply lookupGlobalIn_elem; [done|]. rewrite Hl. apply elem_of_app.
        right. by eapply list_elem_of_lookup_2.
      * assert (o ∈ m_globals M) as Hom.
        { rewrite <- Hperm. by eapply list_elem_of_lookup_2. }
        apply list_elem_of_lookup_1 in Hom as (j & Hj).
        destruct (Forall2_lookup_r _ _ _ _ _ Ho Hj) as (x & Hx & nm & -> & _).
        exists nm.
        change (g_id o) with (g_id (setName nm o)).
        apply lookupGlobalIn_elem; [done|]. rewrite Hl. apply elem_of_app.
        left. by eapply list_elem_of_lookup_2.
    + intros o n0 _ Hd. by apply elem_of_nil in Hd.
Qed.
End DriverDeclared.

(** *** The define phase as a whole *)

Section DriverDefined.
Variable ASRemapper : N → N.
Variable HostMapValue :
  (mstate → value → option (mstate * option value)) →
  mstate → constant → option (mstate * option constant).
Variable getWithOperands : constant → list constant → ty → constant.
Variable HostMapMetadata :
  list (vref * vref) → metadata → option (list (vref * vref) * metadata).
Variable HostCloneFunctionInto :
  (mstate → constant → option (mstate * option constant)) →
  (state → ty → option (state * ty)) →
  mstate → GlobalValue → GlobalValue → option (mstate * Function).
Variable intrinsicName : string → ty → option string.

Hypothesis HostMapValue_keeps : ∀ mat,
  (∀ σ v σ' r, mat σ v = Some (σ', r) → keepsGlobals σ.1 σ'.1) →
  ∀ σ c σ' r, HostMapValue mat σ c = Some (σ', r) → keepsGlobals σ.1 σ'.1.
Hypothesis HostMapMetadata_keeps : ∀ VM m VM' m',
  HostMapMetadata VM m = Some (VM', m') → keepsGlobals VM VM'.
Hypothesis HostCloneFunctionInto_keeps : ∀ mapv remap,
  (∀ σ c σ' r, mapv σ c = Some (σ', r) → keepsGlobals σ.1 σ'.1) →
  ∀ σ F NF σ' Fb,
    HostCloneFunctionInto mapv remap σ F NF = Some (σ', Fb) →
    keepsGlobals σ.1 σ'.1.

#[local] Abbreviation definedWith :=
  (definedAs ASRemapper HostMapValue getWithOperands HostMapMetadata
     HostCloneFunctionInto).

(** Before the old global values are erased, the module holds, for every
    global value of the start and in the order of the three declare loops,
    the replacement that the declare phase made and the define phase filled
    in. *)
Lemma rebuild_defined fuel ctx M ctx' M1 :
  NoDup (g_id <$> m_globals M) → namesUnique (m_globals M) →
  rebuild ASRemapper HostMapValue getWithOperands HostMapMetadata
    HostCloneFunctionInto fuel ctx M = Some (ctx', M1) →
  ∃ news,
    length news
    = length (ofKind KVariable M ++ ofKind KAlias M ++ ofKind KFunction M) ∧
    g_id <$> news = g_id <$> m_globals M1 ∧
    Forall2 (λ o n, kindOf n = kindOf o ∧
               ∃ n0, declared o n0 ∧ g_id n0 = g_id n ∧
                     definedWith fuel
                       (zip (ofKind KVariable M ++ ofKind KAlias M
                               ++ ofKind KFunction M) news) o n0 n)
      (ofKind KVariable M ++ ofKind KAlias M ++ ofKind KFunction M)
      (m_globals M1).
Proof using HostMapValue_keeps HostMapMetadata_keeps
            HostCloneFunctionInto_keeps.
  intros Hnd Hu. unfold rebuild.
  destruct (foldM (declareVariable _ _) _ _) as [acc1|] eqn:H1; [cbn|done].
  destruct (foldM (declareAlias _ _) _ _) as [acc2|] eqn:H2; [cbn|done].
  destruct (foldM (declareFunction _ _) _ _) as [acc3|] eqn:H3; [cbn|done].
  destruct (declare_phase _ _ _ _ _ _ _ Hnd Hu H1 H2 H3) as (Hinv & E1 & E2).
  rewrite E1 in H2. rewrite E2 in H3. rewrite E1, E2.
  destruct (declare_phase_setup ASRemapper fuel ctx M acc1 acc2 acc3
              Hnd Hu H1 H2 H3 Hinv) as (news & Hnews & Hlen & Hs & Hinv0).
  specialize (Hinv0 HostMapValue getWithOperands HostMapMetadata
                HostCloneFunctionInto).
  set (os := ofKind KVariable M ++ ofKind KAlias M ++ ofKind KFunction M)
    in *.
  set (ps := zip os news) in *.
  assert (NoDup (g_id <$> os)) as Hndos.
  { unfold os, ofKind. by rewrite (kinds_perm (m_globals M)). }
  assert (∀ o, o ∈ os → ∃ n0, (o, n0) ∈ ps) as Hpartner.
  { intros o (i & Hi)%list_elem_of_lookup_1.
    destruct (lookup_lt_is_Some_2 news i) as [n0 Hn0].
    { rewrite Hlen. by eapply lookup_lt_Some. }
    exists n0. apply elem_of_zip_lookup. eauto. }
  assert (∀ k, Forall (λ o, ∃ n0, (o, n0) ∈ ps) (ofKind k M)) as Hk.
  { intros k. apply Forall_forall. intros o [Hkind Ho]%list_elem_of_filter.
    apply Hpartner. unfold os, ofKind. by rewrite (kinds_perm (m_globals M)). }
  unfold os in Hndos. rewrite !fmap_app in Hndos.
  apply NoDup_app in Hndos as (HndV & HVo & Hndos).
  apply NoDup_app in Hndos as (HndA & HAF & HndF).
  destruct (foldM (defineVariable _ _ _ _ _) _ _) as [acc4|] eqn:H4; [cbn|done].
  destruct (foldM (defineFunction _ _ _ _ _) _ _) as [acc5|] eqn:H5; [cbn|done].
  destruct (foldM (defineAlias _ _ _ _) _ _) as [[M6 σ6]|] eqn:H6; [cbn|done].
  destruct (mapNamedMetadata _ _ _) as [[VM7 NMDs]|]; [cbn|done].
  intros [= <- <-].
  pose proof (define_loop_def ASRemapper HostMapValue getWithOperands
                HostMapMetadata HostCloneFunctionInto fuel acc3.1 ps _
                (λ done M σ o n0 M' σ',
                   defineVariable_def ASRemapper HostMapValue getWithOperands
                     HostMapMetadata HostCloneFunctionInto
                     HostMapValue_keeps HostMapMetadata_keeps
                     fuel acc3.1 ps done M σ o n0 M' σ' Hs)
                (ofKind KVariable M) [] acc3 acc4 (Hk _) HndV
                (λ o _, not_elem_of_nil _) Hinv0 H4) as I4.
  rewrite app_nil_r in I4.
  pose proof (define_loop_def ASRemapper HostMapValue getWithOperands
                HostMapMetadata HostCloneFunctionInto fuel acc3.1 ps _
                (λ done M σ o n0 M' σ',
                   defineFunction_def ASRemapper HostMapValue getWithOperands
                     HostMapMetadata HostCloneFunctionInto
                     HostMapValue_keeps HostCloneFunctionInto_keeps
                     fuel acc3.1 ps done M σ o n0 M' σ' Hs)
                (ofKind KFunction M) (rev (g_id <$> ofKind KVariable M))
                acc4 acc5 (Hk _) HndF) as I5.
  assert (∀ o, o ∈ ofKind KFunction M →
               g_id o ∉ rev (g_id <$> ofKind KVariable M)) as F5.
  { intros o Ho Hd%elem_of_rev_1. apply (HVo (g_id o) Hd).
    apply elem_of_app. right. apply list_elem_of_fmap. eauto. }
  specialize (I5 F5 I4 H5).
  pose proof (define_loop_def ASRemapper HostMapValue getWithOperands
                HostMapMetadata HostCloneFunctionInto fuel acc3.1 ps _
                (λ done M σ o n0 M' σ',
                   defineAlias_def ASRemapper HostMapValue getWithOperands
                     HostMapMetadata HostCloneFunctionInto
                     HostMapValue_keeps
                     fuel acc3.1 ps done M σ o n0 M' σ' Hs)
                (ofKind KAlias M)
                (rev (g_id <$> ofKind KFunction M)
                   ++ rev (g_id <$> ofKind KVariable M))
                acc5 (M6, σ6) (Hk _) HndA) as I6.
  assert (∀ o, o ∈ ofKind KAlias M →
               g_id o ∉ rev (g_id <$> ofKind KFunction M)
                          ++ rev (g_id <$> ofKind KVariable M)) as F6.
  { intros o Ho [Hd%elem_of_rev_1|Hd%elem_of_rev_1]%elem_of_app.
    - apply (HAF (g_id o)); [|done]. apply list_elem_of_fmap. eauto.
    - apply (HVo (g_id o) Hd).
      apply elem_of_app. left. apply list_elem_of_fmap. eauto. }
  specialize (I6 F6 I5 H6).
  simpl in I6. rewrite erase_all. simpl.
  pose proof (filter_id_hdr
                ((g_id <$> ofKind KVariable M) ++ (g_id <$> ofKind KAlias M)
                   ++ (g_id <$> ofKind KFunction M))
                _ _ (di_hdr _ _ _ _ _ _ _ _ _ _ _ I6)) as Hh.
  rewrite Hnews in Hh.
  assert (NoDup (g_id <$> m_globals M6)) as Hnd6.
  { rewrite (hdr_ids _ _ (di_hdr _ _ _ _ _ _ _ _ _ _ _ I6)).
    apply (ds_ids _ _ Hs). }
  exists news. split; [done|]. split.
  { symmetry. by apply hdr_ids. }
  apply Forall2_same_length_lookup_2.
  { rewrite <- Hlen. apply (f_equal length) in Hh.
    rewrite !length_fmap in Hh. by rewrite Hh. }
  intros i o n Ho Hn.
  destruct (lookup_lt_is_Some_2 news i) as [n0 Hn0].
  { rewrite Hlen. by eapply lookup_lt_Some. }
  assert ((o, n0) ∈ ps) as Hin by (apply elem_of_zip_lookup; eauto).
  assert (hdr n = hdr n0) as Hhd.
  { apply (f_equal (λ l, l !! i)) in Hh.
    rewrite !list_lookup_fmap, Hn, Hn0 in Hh. simpl in Hh. congruence. }
  assert (g_id n = g_id n0) as Hid by (unfold hdr in Hhd; congruence).
  split.
  { rewrite <- (declared_kind o n0 (ds_decl _ _ Hs o n0 Hin)).
    unfold hdr in Hhd. congruence. }
  exists n0. split; [apply (ds_decl _ _ Hs o n0 Hin)|]. split; [done|].
  destruct (di_defined _ _ _ _ _ _ _ _ _ _ _ I6 o n0 Hin) as (n' & Hn' & Hd).
  { assert (o ∈ os) as Hoin by (by eapply list_elem_of_lookup_2).
    unfold os in Hoin. rewrite !elem_of_app in Hoin.
    rewrite !elem_of_app, !elem_of_rev.
    destruct Hoin as [?|[?|?]]; [right; right|left|right; left];
      apply list_elem_of_fmap; eauto. }
  assert (n' = n) as ->; [|done].
  apply list_elem_of_lookup_2, list_elem_of_filter in Hn as [_ Hn].
  apply (lookupGlobalIn_elem _ _ Hnd6) in Hn.
  unfold lookupGlobal in Hn'. rewrite Hid, Hn' in Hn. congruence.
Qed.

(** The value map sends every global value of [M] to the global value of
    [M1] that replaces it. *)
Definition mapsGlobals (M M1 : Module) (VM : list (vref * vref)) : Prop :=
  ∀ k, Forall2 (λ o n, VMap_global VM (g_id o) = Some (g_id n))
         (ofKind k M) (ofKind k M1).

Lemma rebuild_defined_kinds fuel ctx M ctx' M1 :
  NoDup (g_id <$> m_globals M) → namesUnique (m_globals M) →
  rebuild ASRemapper HostMapValue getWithOperands HostMapMetadata
    HostCloneFunctionInto fuel ctx M = Some (ctx', M1) →
  ∃ ps,
    (∀ VM, mapsAll ps VM → mapsGlobals M M1 VM) ∧
    ∀ k, Forall2 (λ o n, kindOf o = k ∧
                         ∃ n0, declared o n0 ∧ g_id n0 = g_id n ∧
                               definedWith fuel ps o n0 n)
           (ofKind k M) (ofKind k M1).
Proof using HostMapValue_keeps HostMapMetadata_keeps
            HostCloneFunctionInto_keeps.
  intros Hnd Hu Hr.
  destruct (rebuild_defined _ _ _ _ _ Hnd Hu Hr) as (news & Hlen & Hids & Hd).
  set (os := ofKind KVariable M ++ ofKind KAlias M ++ ofKind KFunction M)
    in *.
  exists (zip os news). split.
  - intros VM HVM k.
    assert (Forall2 (λ o n, kindOf o = kindOf n ∧
                            VMap_global VM (g_id o) = Some (g_id n))
              os (m_globals M1)) as HF.
    { apply Forall2_same_length_lookup_2; [by eapply Forall2_length|].
      intros i o n Ho Hn.
      destruct (Forall2_lookup_lr _ _ _ _ _ _ Hd Ho Hn) as [Hk _].
      split; [done|].
      destruct (lookup_lt_is_Some_2 news i) as [n0 Hn0].
      { rewrite Hlen. by eapply lookup_lt_Some. }
      rewrite (HVM o n0) by (apply elem_of_zip_lookup; eauto).
      apply (f_equal (λ l, l !! i)) in Hids.
      rewrite !list_lookup_fmap, Hn, Hn0 in Hids. simpl in Hids. congruence. }
    apply (Forall2_filter_kind _ k) in HF. unfold os, ofKind in HF.
    by rewrite filter_kinds in HF.
  - intros k.
    assert (Forall2 (λ o n, kindOf o = kindOf n ∧
                            ∃ n0, declared o n0 ∧ g_id n0 = g_id n ∧
                                  definedWith fuel (zip os news) o n0 n)
              os (m_globals M1)) as HF.
    { eapply Forall2_impl; [exact Hd|]. intros o n [Hk H]. by split. }
    apply (Forall2_filter_kind _ k) in HF. unfold os, ofKind in HF.
    rewrite filter_kinds in HF. apply Forall2_Forall_left; [|done].
    apply Forall_forall. by intros g [? _]%list_elem_of_filter.
Qed.

Lemma g_comdat_copyComdat Src Dst :
  g_comdat Dst = None → g_comdat (copyComdat Src Dst) = g_comdat Src.
Proof. unfold copyComdat. by destruct (g_comdat Src). Qed.

Lemma g_payload_copyComdat Src Dst :
  g_payload (copyComdat Src Dst) = g_payload Dst.
Proof. unfold copyComdat. by destruct (g_comdat Src). Qed.

(** X26: the initializers of global variables. In the module that the driver
    has built when it turns to the names of intrinsics, the global variable
    that replaces a global variable with an initializer is constant and
    thread-local as the original, and it has the values that [MapValue] and
    [MapMetadata] give for the initializer and for the metadata attachments
    of the original, under a value map that sends every global value of
    the start to its replacement. *)
Theorem removeAddrspaces_initializers fuel ctx M ctx' M' changed :
  NoDup (g_id <$> m_globals M) → namesUnique (m_globals M) →
  removeAddrspaces ASRemapper HostMapValue getWithOperands HostMapMetadata
    HostCloneFunctionInto intrinsicName fuel ctx M = Some (ctx', M', changed) →
  ∃ M1,
    rebuild ASRemapper HostMapValue getWithOperands HostMapMetadata
      HostCloneFunctionInto fuel ctx M = Some (ctx', M1) ∧
    Forall2 (λ GV NGV, ∀ isConstant tlm Init MDs,
               g_payload GV = PVariable isConstant tlm (Some Init) MDs →
               ∃ σ σ1 NewInit VM2 NewMDs,
                 mapsGlobals M M1 σ.1 ∧
                 MapValue ASRemapper HostMapValue getWithOperands fuel σ Init
                 = Some (σ1, NewInit) ∧
                 mapAttachments HostMapMetadata σ1.1 MDs
                 = Some (VM2, NewMDs) ∧
                 g_payload NGV = PVariable isConstant tlm NewInit NewMDs)
      (ofKind KVariable M) (ofKind KVariable M1).
Proof using HostMapValue_keeps HostMapMetadata_keeps
            HostCloneFunctionInto_keeps.
  intros Hnd Hu. unfold removeAddrspaces.
  destruct (rebuild _ _ _ _ _ _ _ _) as [[ctx1 M1]|] eqn:Hr; [cbn|done].
  destruct (remangleLoop _ _ _ _) as [M2|] eqn:Hloop; [cbn|done].
  intros [= <- <- <-]. exists M1. split; [done|].
  destruct (rebuild_defined_kinds _ _ _ _ _ Hnd Hu Hr) as (ps & Hps & Hd).
  eapply Forall2_impl; [exact (Hd KVariable)|].
  intros GV NGV (_ & n0 & Hdecl & _ & Hdef) isC tlm Init MDs Hp.
  unfold definedAs in Hdef. rewrite Hp in Hdef.
  destruct Hdef as (σ & σ1 & NewInit & VM2 & NewMDs & Hm & HI & HA & ->).
  exists σ, σ1, NewInit, VM2, NewMDs.
  split; [by apply Hps|]. split; [done|]. split; [done|].
  by rewrite g_payload_copyComdat.
Qed.

(** What the last loop keeps of a global variable. *)
Definition hasInitializer (g : GlobalValue) : bool :=
  match g_payload g with
  | PVariable _ _ (Some _) _ => true
  | _ => false
  end.

Definition mdKinds (g : GlobalValue) : list nat :=
  match g_payload g with
  | PVariable _ _ _ MDs => MDs.*1
  | _ => []
  end.

Lemma attached_replaceUses old new g :
  (λ g, (g_comdat g, mdKinds g, hasInitializer g))
    (setPayload (substGlobalP old new (g_payload g)) g)
  = (g_comdat g, mdKinds g, hasInitializer g).
Proof.
  unfold mdKinds, hasInitializer. simpl.
  destruct (g_payload g) as [c t [i|] m| |]; simpl; try done;
    by rewrite <- list_fmap_compose.
Qed.

(** X27: comdats and metadata attachments of global variables after the
    pass. The replacement of a global variable with an initializer has the
    comdat of the original and metadata attachments of the same kinds, in
    their order; the replacement of a declaration is a declaration that has
    no comdat and no metadata attachment, whatever the original has. *)
Theorem removeAddrspaces_variable_attachments fuel ctx M ctx' M' changed :
  NoDup (g_id <$> m_globals M) → namesUnique (m_globals M) →
  removeAddrspaces ASRemapper HostMapValue getWithOperands HostMapMetadata
    HostCloneFunctionInto intrinsicName fuel ctx M = Some (ctx', M', changed) →
  Forall2 (λ GV NGV,
             if hasInitializer GV
             then g_comdat NGV = g_comdat GV ∧ mdKinds NGV = mdKinds GV
             else g_comdat NGV = None ∧ mdKinds NGV = [] ∧
                  hasInitializer NGV = false)
    (ofKind KVariable M) (ofKind KVariable M').
Proof using HostMapValue_keeps HostMapMetadata_keeps
            HostCloneFunctionInto_keeps.
  intros Hnd Hu Hrun.
  destruct (removeAddrspaces_others ASRemapper HostMapValue getWithOperands
              HostMapMetadata HostCloneFunctionInto intrinsicName
              (λ g, (g_comdat g, mdKinds g, hasInitializer g))
              fuel ctx M ctx' M' changed KVariable ltac:(done)
              attached_replaceUses Hnd Hu ltac:(done) Hrun) as (M1 & Hr & HM').
  destruct (rebuild_defined_kinds _ _ _ _ _ Hnd Hu Hr) as (ps & _ & Hd).
  specialize (Hd KVariable).
  assert (Forall2 (λ GV b,
                     if hasInitializer GV
                     then b.1.1 = g_comdat GV ∧ b.1.2 = mdKinds GV
                     else b.1.1 = None ∧ b.1.2 = [] ∧ b.2 = false)
            (ofKind KVariable M)
            ((λ g, (g_comdat g, mdKinds g, hasInitializer g))
               <$> ofKind KVariable M1)) as HF.
  { rewrite Forall2_fmap_r. eapply Forall2_impl; [exact Hd|].
    intros GV NGV (Hk & n0 & [Hc Hdecl] & _ & Hdef). simpl.
    unfold definedAs in Hdef. unfold hasInitializer, mdKinds.
    unfold kindOf in Hk.
    destruct (g_payload GV) as [isC tlm [Init|] MDs| |] eqn:Hp; try done.
    - destruct Hdef as (σ & σ1 & NewInit & VM2 & NewMDs & _ & _ & HA & ->).
      rewrite g_comdat_copyComdat, g_payload_copyComdat by done. simpl.
      split; [done|]. by eapply mapAttachments_keeps.
    - subst NGV. split; [done|].
      destruct (g_payload n0) as [? ? [|] [|]| |]; done. }
  rewrite <- HM', Forall2_fmap_r in HF. exact HF.
Qed.

(** X28: the aliasees. In the module that the driver has built when it turns
    to the names of intrinsics, the alias that replaces an alias with an
    aliasee has the value that [MapValue] gives for this aliasee, under a
    value map that sends every global value of the start to its
    replacement; the alias that replaces an alias without aliasee has
    none. *)
Theorem removeAddrspaces_aliasees fuel ctx M ctx' M' changed :
  NoDup (g_id <$> m_globals M) → namesUnique (m_globals M) →
  removeAddrspaces ASRemapper HostMapValue getWithOperands HostMapMetadata
    HostCloneFunctionInto intrinsicName fuel ctx M = Some (ctx', M', changed) →
  ∃ M1,
    rebuild ASRemapper HostMapValue getWithOperands HostMapMetadata
      HostCloneFunctionInto fuel ctx M = Some (ctx', M1) ∧
    Forall2 (λ GA NGA,
               match g_payload GA with
               | PAlias (Some C) =>
                   ∃ σ σ1 NewC,
                     mapsGlobals M M1 σ.1 ∧
                     MapValue ASRemapper HostMapValue getWithOperands fuel σ C
                     = Some (σ1, NewC) ∧
                     g_payload NGA = PAlias NewC
               | _ => g_payload NGA = PAlias None
               end)
      (ofKind KAlias M) (ofKind KAlias M1).
Proof using HostMapValue_keeps HostMapMetadata_keeps
            HostCloneFunctionInto_keeps.
  intros Hnd Hu. unfold removeAddrspaces.
  destruct (rebuild _ _ _ _ _ _ _ _) as [[ctx1 M1]|] eqn:Hr; [cbn|done].
  destruct (remangleLoop _ _ _ _) as [M2|] eqn:Hloop; [cbn|done].
  intros [= <- <- <-]. exists M1. split; [done|].
  destruct (rebuild_defined_kinds _ _ _ _ _ Hnd Hu Hr) as (ps & Hps & Hd).
  eapply Forall2_impl; [exact (Hd KAlias)|].
  intros GA NGA (Hk1 & n0 & [_ Hdecl] & _ & Hdef).
  unfold definedAs in Hdef. unfold kindOf in Hk1.
  destruct (g_payload GA) as [| [C|] |] eqn:Hp; try done.
  - destruct Hdef as (σ & σ1 & NewC & Hm & HC & ->).
    exists σ, σ1, NewC. split; [by apply Hps|]. done.
  - subst NGA. destruct (g_payload n0) as [|[|]|]; done.
Qed.

Lemma scanCasts_args ids : ∀ F acc F1 acc1,
  scanCasts ids F acc = Some (F1, acc1) →
  f_args F1 = f_args F ∧ f_attrs F1 = f_attrs F.
Proof.
  induction ids as [|id ids IH]; intros F acc F1 acc1; simpl.
  { by intros [= <- _]. }
  destruct (findInstr F id) as [I|]; simpl; [|done].
  destruct (decide (iop I = OpAddrSpaceCast)); [|apply IH].
  destruct (getSrcAddressSpace F I) as [src|]; simpl; [|done].
  destruct (getDestAddressSpace I) as [dst|]; simpl; [|done].
  destruct (decide (src = dst)); [|apply IH].
  destruct (iops I !! 0) as [Op0|]; simpl; [|done].
  destruct (valueType F Op0) as [t0|]; simpl; [|done].
  assert (∀ F', replaceAllUsesWith F id Op0 = Some F' →
                f_args F' = f_args F ∧ f_attrs F' = f_attrs F) as Hr.
  { unfold replaceAllUsesWith. intros F'.
    destruct (isInst id Op0); [done|]. by intros [= <-]. }
  destruct (decide (ity I = t0));
    (destruct (replaceAllUsesWith F id Op0) as [F'|] eqn:E; simpl; [|done];
     destruct (Hr F' eq_refl) as [<- <-]; apply IH).
Qed.

Lemma RemoveNoopAddrSpaceCasts_args F F' changed :
  RemoveNoopAddrSpaceCasts F = Some (F', changed) →
  f_args F' = f_args F ∧ f_attrs F' = f_attrs F ∧ changed = false.
Proof.
  unfold RemoveNoopAddrSpaceCasts.
  destruct (scanCasts _ F []) as [[F1 acc1]|] eqn:Hs; simpl; [|done].
  intros [= <- <-].
  destruct (args_erase_all acc1 F1) as [-> ->].
  destruct (scanCasts_args _ _ _ _ _ Hs) as [-> ->]. done.
Qed.

(** The casts that the eliminator leaves are between pointer types of
    different address spaces. *)
Lemma RemoveNoopAddrSpaceCasts_casts (F F' : Function) (changed : bool) :
  NoDup (iid <$> instructions F) →
  RemoveNoopAddrSpaceCasts F = Some (F', changed) →
  ∀ J : instr, J ∈ instructions F' → iop J = OpAddrSpaceCast →
    ∃ a b, getSrcAddressSpace F' J = Some a ∧
           getDestAddressSpace J = Some b ∧ a ≠ b.
Proof.
  intros Hnd Hrun.
  destruct (RemoveNoopAddrSpaceCasts_spec F F' changed Hnd Hrun)
    as (σ & HI & -> & Hty).
  intros J'. rewrite instructions_erase_all, instructions_mapBlocks.
  rewrite filter_mapOperandsOf.
  intros (J & -> & [HJn HJ]%list_elem_of_filter)%list_elem_of_fmap Hop.
  simpl in Hop.
  unfold castsTyped in Hty. rewrite Forall_forall in Hty.
  destruct (Hty J HJ Hop) as [[a Hsrc] [b Hdst]].
  assert (getSrcAddressSpace
            (foldl eraseFromParent (mapBlocks (mapOperandsOf σ) F) (noopCasts F))
            (mapOperandsOf σ J) = Some a) as Hsrc'.
  { rewrite <- Hsrc. rewrite !getSrcAddressSpace_alt. simpl.
    rewrite list_lookup_fmap. destruct (iops J !! 0) as [Op0|]; simpl; [|done].
    by apply valueAS_result. }
  exists a, b. split; [done|]. split; [done|].
  intros ->. apply HJn. apply elem_of_noopCasts. exists J.
  split; [done|]. split; [done|].
  unfold isNoopCast. rewrite Hsrc, Hdst.
  by rewrite !bool_decide_eq_true_2.
Qed.

(** X29: the bodies of functions. In the module that the driver has built
    when it turns to the names of intrinsics, the function that replaces a
    function, defined or declared, has the comdat of the original, the
    attributes of the original as the attribute loop rewrites them, and the
    body that the eliminator of no-op casts makes of the clone of the
    original, made under a value map that sends every global value of the
    start to its replacement. When the instructions of the clone have
    distinct identities, every address-space cast of the body is between
    different address spaces. *)
Theorem removeAddrspaces_function_bodies fuel ctx M ctx' M' changed :
  NoDup (g_id <$> m_globals M) → namesUnique (m_globals M) →
  removeAddrspaces ASRemapper HostMapValue getWithOperands HostMapMetadata
    HostCloneFunctionInto intrinsicName fuel ctx M = Some (ctx', M', changed) →
  ∃ M1,
    rebuild ASRemapper HostMapValue getWithOperands HostMapMetadata
      HostCloneFunctionInto fuel ctx M = Some (ctx', M1) ∧
    Forall2 (λ F NF, ∀ Fb, g_payload F = PFunction Fb →
               ∃ σ nm NF0 σ2 Clone ts3 Attrs Body,
                 mapsGlobals M M1 σ.1 ∧ g_id NF0 = g_id NF ∧
                 HostCloneFunctionInto
                   (MapValue ASRemapper HostMapValue getWithOperands fuel)
                   (remapType ASRemapper fuel) σ (setName nm F) NF0
                 = Some (σ2, Clone) ∧
                 remapAttrs ASRemapper fuel σ2.2 (f_attrs Fb)
                 = Some (ts3, Attrs) ∧
                 RemoveNoopAddrSpaceCasts
                   (mkFunction (f_args Clone) (f_blocks Clone) Attrs)
                 = Some (Body, false) ∧
                 g_payload NF = PFunction Body ∧
                 f_attrs Body = Attrs ∧ f_args Body = f_args Clone ∧
                 g_comdat NF = g_comdat F ∧
                 (NoDup (iid <$> instructions Clone) →
                  ∀ J : instr, J ∈ instructions Body →
                    iop J = OpAddrSpaceCast →
                    ∃ a b, getSrcAddressSpace Body J = Some a ∧
                           getDestAddressSpace J = Some b ∧ a ≠ b))
      (ofKind KFunction M) (ofKind KFunction M1).
Proof using HostMapValue_keeps HostMapMetadata_keeps
            HostCloneFunctionInto_keeps.
  intros Hnd Hu. unfold removeAddrspaces.
  destruct (rebuild _ _ _ _ _ _ _ _) as [[ctx1 M1]|] eqn:Hr; [cbn|done].
  destruct (remangleLoop _ _ _ _) as [M2|] eqn:Hloop; [cbn|done].
  intros [= <- <- <-]. exists M1. split; [done|].
  destruct (rebuild_defined_kinds _ _ _ _ _ Hnd Hu Hr) as (ps & Hps & Hd).
  eapply Forall2_impl; [exact (Hd KFunction)|].
  intros F NF (_ & n0 & [Hc Hdecl] & Hid & Hdef) Fb Hp.
  unfold definedAs in Hdef. rewrite Hp in Hdef.
  destruct Hdef as (σ & nm & NF0 & σ2 & Clone & ts3 & Attrs & Body & ch
                    & Hm & Hn0 & HC & HA & HR & ->).
  destruct (RemoveNoopAddrSpaceCasts_args _ _ _ HR) as (Hargs & Hattrs & ->).
  exists σ, nm, NF0, σ2, Clone, ts3, Attrs, Body.
  split; [by apply Hps|].
  split; [by rewrite g_id_copyComdat, Hn0|].
  split; [done|]. split; [done|]. split; [done|].
  split; [by rewrite g_payload_copyComdat|].
  split; [done|]. split; [done|].
  split; [by rewrite g_comdat_copyComdat|].
  intros HndC.
  by apply (RemoveNoopAddrSpaceCasts_casts
              (mkFunction (f_args Clone) (f_blocks Clone) Attrs) _ _ HndC HR).
Qed.
End DriverDefined.

(** ** The further properties on concrete inputs *)

Lemma nodeRun_eq :
  remapType removeAllAddrspaces 10 (State ctxW ∅) (TStruct 0)
  = Some (nodeRun.1, nodeRun.2).
Proof. by vm_compute. Defined.

Lemma node_wf : wf_ty (length ctxW) (TStruct 0).
Proof. apply (bool_decide_unpack _). by vm_compute. Defined.

Lemma remapType_image_witness :
  nodeRun.2 = rw removeAllAddrspaces (MappedTypes nodeRun.1) (TStruct 0).
Proof.
  destruct (remapType_image removeAllAddrspaces (State ctxW ∅) (TStruct 0) 10
              nodeRun.1 nodeRun.2 (ctxW_reachable _) node_wf nodeRun_eq)
    as [H _].
  exact H.
Defined.

Lemma remapType_memoized_witness :
  remapType removeAllAddrspaces 1 nodeRun.1 (TStruct 0)
  = Some (nodeRun.1, nodeRun.2).
Proof.
  destruct (remapType_memoized removeAllAddrspaces (State ctxW ∅) (TStruct 0)
              10 nodeRun.1 nodeRun.2 (ctxW_reachable _) node_wf nodeRun_eq)
    as (_ & H & _).
  apply (H 0).
Defined.

Lemma nodeRun_reaches : reaches (Ctx nodeRun.1) nodeRun.2 (TPtr 0).
Proof.
  eapply (reaches_struct _ 3); [reflexivity|reflexivity| |apply reaches_refl].
  apply list_elem_of_further, list_elem_of_here.
Defined.

Lemma remapType_image_addrspaces_witness :
  ∃ b, 0%N = removeAllAddrspaces b.
Proof.
  apply (remapType_image_addrspaces removeAllAddrspaces (State ctxW ∅)
           (TStruct 0) 10 nodeRun.1 nodeRun.2 0 (ctxW_reachable _) node_wf
           nodeRun_eq nodeRun_reaches).
Defined.

Lemma remapType_keeps_structs_witness :
  length ctxW ≤ length (Ctx nodeRun.1) ∧
  ∃ d', Ctx nodeRun.1 !! 0 = Some d' ∧
        sbody d' = Some [TOther "i32"; TPtr 10; TArr (TStruct 0) 0] ∧
        spacked d' = false.
Proof.
  apply (remapType_keeps_structs removeAllAddrspaces (State ctxW ∅)
           (TStruct 0) 10 nodeRun.1 nodeRun.2 0
           (mkStruct "node" (Some [TOther "i32"; TPtr 10; TArr (TStruct 0) 0])
              false) nodeRun_eq eq_refl).
Defined.

Lemma ctxW_names : ctxNamesUnique ctxW.
Proof.
  intros i j d d' Hi Hj Hn Hne.
  destruct i as [|[|[|i]]]; destruct j as [|[|[|j]]];
    simpl in Hi, Hj; simplify_eq; done.
Defined.

Lemma remapType_struct_names_witness :
  ctxNamesUnique (Ctx nodeRun.1) ∧
  (∃ d', Ctx nodeRun.1 !! 3 = Some d' ∧ sname d' = "node") ∧
  (∃ d' suf, Ctx nodeRun.1 !! 0 = Some d' ∧
             sname d' = "node" +:+ ".bad" +:+ suf) ∧
  (∃ d', Ctx nodeRun.1 !! 1 = Some d' ∧ sname d' = "pair").
Proof.
  destruct (remapType_struct_names removeAllAddrspaces (State ctxW ∅)
              (TStruct 0) 10 nodeRun.1 nodeRun.2 (ctxW_reachable _) node_wf
              ctxW_names nodeRun_eq) as (Hu & Hnew & Hkeep).
  split; [exact Hu|].
  destruct (Hnew 0 (mkStruct "node"
                      (Some [TOther "i32"; TPtr 10; TArr (TStruct 0) 0]) false)
              3 eq_refl) as (_ & H1 & H2); [done|done|done|].
  split; [exact H1|]. split; [by apply H2|].
  apply (Hkeep 1 (mkStruct "pair" (Some [TOther "i32"; TOther "double"]) true)
           eq_refl).
  right. right. reflexivity.
Defined.

Lemma remapType_terminates_witness :
  ∃ st' D, remapType removeAllAddrspaces 10 (State ctxW ∅) (TStruct 0)
           = Some (st', D).
Proof.
  apply (remapType_terminates removeAllAddrspaces (State ctxW ∅) (TStruct 0)
           10 (ctxW_reachable _) node_wf).
  vm_compute. lia.
Defined.

Lemma nodeRun_reachable : reachable removeAllAddrspaces nodeRun.1.
Proof.
  apply (reachable_call _ 10 (State ctxW ∅) (TStruct 0) nodeRun.1 nodeRun.2
           (ctxW_reachable _) node_wf nodeRun_eq).
Defined.

Lemma remapType_structs_injective_witness :
  MappedTypes nodeRun.1 !! TStruct 0 = Some (TStruct 3) ∧ 0 = 0.
Proof.
  split; [reflexivity|].
  apply (remapType_structs_injective removeAllAddrspaces nodeRun.1 0 0 3
           nodeRun_reachable); reflexivity.
Defined.

Lemma remapType_struct_bodies_witness :
  ∃ s' d', TStruct 3 = TStruct s' ∧ Ctx nodeRun.1 !! s' = Some d' ∧
           spacked d' = false ∧
           sbody d' = Some (rw removeAllAddrspaces (MappedTypes nodeRun.1)
                              <$> [TOther "i32"; TPtr 10; TArr (TStruct 0) 0]).
Proof.
  apply (remapType_struct_bodies removeAllAddrspaces nodeRun.1 0 (TStruct 3)
           (mkStruct "node.bad"
              (Some [TOther "i32"; TPtr 10; TArr (TStruct 0) 0]) false)
           nodeRun_reachable); reflexivity.
Defined.

(** The Julia policy with the special address spaces 10 to 13. *)
Definition juliaRun : state * ty :=
  default (State [] ∅, TOther "")
    (remapType (removeJuliaAddrspaces 10 13) 10 (State ctxW ∅) (TStruct 0)).

Lemma juliaRun_eq :
  remapType (removeJuliaAddrspaces 10 13) 10 (State ctxW ∅) (TStruct 0)
  = Some (juliaRun.1, juliaRun.2).
Proof. by vm_compute. Defined.

Lemma julia_generic :
  ¬ (10 ≤ AddressSpace_Generic ∧ AddressSpace_Generic ≤ 13)%N.
Proof. unfold AddressSpace_Generic. lia. Defined.

Lemma juliaRun_reaches : reaches (Ctx juliaRun.1) juliaRun.2 (TPtr 0).
Proof.
  eapply (reaches_struct _ 3); [reflexivity|reflexivity| |apply reaches_refl].
  apply list_elem_of_further, list_elem_of_here.
Defined.

Lemma remapType_julia_no_special_witness :
  reaches (Ctx juliaRun.1) juliaRun.2 (TPtr 0) ∧ ¬ (10 ≤ 0 ∧ 0 ≤ 13)%N.
Proof.
  split; [apply juliaRun_reaches|].
  apply (remapType_julia_no_special 10 13 julia_generic (State ctxW ∅)
           (TStruct 0) 10 juliaRun.1 juliaRun.2 (ctxW_reachable _) node_wf
           juliaRun_eq).
  apply juliaRun_reaches.
Defined.

Lemma remapType_julia_idempotent_witness :
  ∃ st2 T2,
    remapType (removeJuliaAddrspaces 10 13) 20 juliaRun.1 juliaRun.2
    = Some (st2, T2) ∧
    structEq (Ctx juliaRun.1) juliaRun.2 (Ctx st2) T2.
Proof.
  destruct (remapType_julia_idempotent 10 13 julia_generic (State ctxW ∅)
              (TStruct 0) 10 juliaRun.1 juliaRun.2 20 (ctxW_reachable _)
              node_wf juliaRun_eq) as (st2 & T2 & H1 & H2 & _).
  - vm_compute. lia.
  - exists st2, T2. auto.
Defined.

(** [addrspacecast (ptr addrspace(10) @0 to ptr addrspace(1))], with [@0]
    mapped to a global [@1] in address space 0: under the collapse-all
    policy the cast is to address space 0, and it folds. *)
Lemma materialize_addrspacecast_cases_witness :
  ∃ Op0 σ0 Ty Src a1 a2,
    [CGlobal 0 (TPtr 10)] !! 0 = Some Op0 ∧
    Materializer_remapType removeAllAddrspaces _ true 5
      ([(0, CGlobal 1 (TPtr 0))], State ctxW ∅) (TPtr 1) = Some (σ0, Ty) ∧
    simpleMapValue (λ σ _, Some (σ, None)) σ0 Op0
    = Some ([(0, CGlobal 1 (TPtr 0))], State ctxW {[TPtr 1 := TPtr 0]},
            Some Src) ∧
    getPointerAddressSpace (constType Src) = Some a1 ∧
    getPointerAddressSpace Ty = Some a2 ∧
    (a1 = a2 → Some (VConst (CGlobal 1 (TPtr 0))) = Some (VConst Src)) ∧
    (a1 ≠ a2 → Some (VConst (CGlobal 1 (TPtr 0))) = None).
Proof.
  apply (materialize_addrspacecast_cases removeAllAddrspaces _
           (simpleMapValue (λ σ _, Some (σ, None))) simpleGetWithOperands true
           5 ([(0, CGlobal 1 (TPtr 0))], State ctxW ∅) [CGlobal 0 (TPtr 10)]
           (TPtr 1)).
  reflexivity.
Defined.

Lemma materialize_other_witness :
  is_Some
    (materialize removeAllAddrspaces _
       (simpleMapValue (λ σ _, Some (σ, None))) simpleGetWithOperands true 5
       ([(0, CGlobal 1 (TPtr 0))], State ctxW ∅)
       (VConst (CExpr (OpOther "ptrtoint") [CGlobal 0 (TPtr 10)]
                  (TOther "i64")))).
Proof.
  apply (materialize_other removeAllAddrspaces _
           (simpleMapValue (λ σ _, Some (σ, None))) simpleGetWithOperands true
           5 ([(0, CGlobal 1 (TPtr 0))], State ctxW ∅) (OpOther "ptrtoint")
           [CGlobal 0 (TPtr 10)] (TOther "i64")).
  - discriminate.
  - discriminate.
  - vm_compute. eauto.
  - intros σ [| | |]; simpl; eauto.
Defined.

Lemma funW_ids : NoDup (iid <$> instructions funW).
Proof. apply (bool_decide_unpack _). by vm_compute. Defined.

Lemma funW_run : RemoveNoopAddrSpaceCasts funW = Some (funW', false).
Proof. reflexivity. Defined.

(** [funW'] has a cast from address space 0 to address space 1 only. *)
Lemma RemoveNoopAddrSpaceCasts_nothing_witness :
  RemoveNoopAddrSpaceCasts funW' = Some (funW', false).
Proof.
  apply (RemoveNoopAddrSpaceCasts_nothing funW').
  intros J HJ Hop. simpl in HJ.
  repeat (apply elem_of_cons in HJ as [->|HJ]; [try discriminate Hop|]).
  - exists 0%N, 1%N. split; [reflexivity|]. split; [reflexivity|discriminate].
  - by apply elem_of_nil in HJ.
Defined.

Lemma RemoveNoopAddrSpaceCasts_idempotent_witness :
  RemoveNoopAddrSpaceCasts funW' = Some (funW', false).
Proof.
  apply (RemoveNoopAddrSpaceCasts_idempotent funW funW' false funW_ids funW_run).
Defined.

Lemma RemoveNoopAddrSpaceCasts_keeps_witness :
  Forall2 (λ J J' : instr,
             iid J' = iid J ∧ iop J' = iop J ∧ ity J' = ity J ∧
             Forall2 (λ v v', valueAS funW' v' = valueAS funW v)
                     (iops J) (iops J'))
          (filter (λ J, iid J ∉ noopCasts funW) (instructions funW))
          (instructions funW') ∧
  length (f_blocks funW') = length (f_blocks funW).
Proof.
  destruct (RemoveNoopAddrSpaceCasts_keeps funW funW' false funW_ids funW_run)
    as (H1 & H2 & _).
  split; [exact H1|exact H2].
Defined.

Lemma funW_typed : castsTyped funW.
Proof. repeat constructor; simpl; try done; by eexists. Defined.

Lemma funW_acyclic : castsAcyclic (λ n, n) funW.
Proof. repeat constructor; simpl; try done; lia. Defined.

Lemma RemoveNoopAddrSpaceCasts_total_witness :
  ∃ F', RemoveNoopAddrSpaceCasts funW = Some (F', false).
Proof.
  apply (RemoveNoopAddrSpaceCasts_total funW (λ n, n) funW_ids funW_typed
           funW_acyclic).
Defined.

Lemma removeAddrspaces_addrspaces_witness :
  ∃ ctx' M',
    runPass removeAllAddrspaces ptrmaskName 10 [] modA = Some (ctx', M', true) ∧
    g_addrspace <$> ofKind KVariable M' = [0%N].
Proof.
  eexists _, _. split; [vm_compute; reflexivity|].
  eapply (removeAddrspaces_addrspaces removeAllAddrspaces simpleHostMapValue
            simpleGetWithOperands simpleMapMetadata simpleCloneFunctionInto
            ptrmaskName 10 [] modA _ _ true KVariable modA_ids modA_names).
  - discriminate.
  - vm_compute. reflexivity.
Defined.

(** The attributes of [void @f(ptr addrspace(10) byval(ptr addrspace(10)))]:
    an empty set for the return value and a set for the argument. *)
Lemma remapAttrs_keeps_witness :
  ∃ ts' Attrs',
    remapAttrs removeAllAddrspaces 5 (State ctxW ∅)
      [[]; [("noundef", None); ("byval", Some (TPtr 10))]] = Some (ts', Attrs') ∧
    Forall2 (λ set set', set'.*1 = set.*1)
            [[]; [("noundef", None); ("byval", Some (TPtr 10))]] Attrs'.
Proof.
  eexists _, _. split; [vm_compute; reflexivity|].
  eapply Forall2_impl.
  - eapply (remapAttrs_keeps removeAllAddrspaces 5
             [[]; [("noundef", None); ("byval", Some (TPtr 10))]]
             (State ctxW ∅)).
    vm_compute. reflexivity.
  - intros set set' [H _]. exact H.
Defined.

(** ** The declarations on a concrete module *)

(** A module with a constant, thread-local global variable that holds
    pointers, an alias of it, and a named metadata node. *)
Definition modN : Module :=
  mkModule
    [ mkGlobal 0 "table" (TArr (TPtr 10) 4) 11 "internal" "align 8" None
        (PVariable true "localdynamic"
           (Some (CData (TArr (TPtr 10) 4) "zeroinitializer")) []);
      mkGlobal 1 "t" (TArr (TPtr 10) 4) 11 "weak" "hidden" None
        (PAlias (Some (CGlobal 0 (TPtr 11)))) ]
    [("llvm.used", [MDValue (CGlobal 0 (TPtr 11)); MDString "keep"])].

Lemma modN_ids : NoDup (g_id <$> m_globals modN).
Proof. apply (bool_decide_unpack _). vm_compute. exact I. Defined.

Lemma modN_names : namesUnique (m_globals modN).
Proof. unfold namesUnique. apply (bool_decide_unpack _). vm_compute. exact I. Defined.

Lemma modN_wf : Forall (λ g, wf_ty 0 (g_valueType g)) (m_globals modN).
Proof. apply (bool_decide_unpack _). vm_compute. exact I. Defined.

Lemma modA_wf : Forall (λ g, wf_ty 0 (g_valueType g)) (m_globals modA).
Proof. apply (bool_decide_unpack _). vm_compute. exact I. Defined.

Lemma removeAddrspaces_copies_witness :
  ∃ ctx' M',
    runPass removeAllAddrspaces ptrmaskName 10 [] modN = Some (ctx', M', true) ∧
    (λ g, (g_linkage g, g_attrs g, varFlags g)) <$> ofKind KVariable M'
    = [("internal", "align 8", Some (true, "localdynamic"))].
Proof.
  eexists _, _. split; [vm_compute; reflexivity|].
  eapply (removeAddrspaces_copies removeAllAddrspaces simpleHostMapValue
            simpleGetWithOperands simpleMapMetadata simpleCloneFunctionInto
            ptrmaskName 10 [] modN _ _ true KVariable modN_ids modN_names).
  - discriminate.
  - vm_compute. reflexivity.
Defined.

(** A module on the context [ctxW]: a global variable and an alias whose
    value type is the struct [%node], which has a field that is a pointer in
    address space 10, and a function that takes a [%node] and a [%pair]. *)
Definition modS : Module :=
  mkModule
    [ mkGlobal 0 "head" (TStruct 0) 10 "internal" "" None
        (PVariable false "" None []);
      mkGlobal 1 "first" (TStruct 0) 10 "external" "" None
        (PAlias (Some (CGlobal 0 (TPtr 10))));
      mkGlobal 2 "walk" (TFun (TPtr 10) [TStruct 0; TStruct 1] false) 0
        "external" "" None
        (PFunction (mkFunction [("n", TStruct 0); ("p", TStruct 1)] [] [])) ]
    [].

Lemma modS_ids : NoDup (g_id <$> m_globals modS).
Proof. apply (bool_decide_unpack _). vm_compute. exact I. Defined.

Lemma modS_names : namesUnique (m_globals modS).
Proof. unfold namesUnique. apply (bool_decide_unpack _). vm_compute. exact I. Defined.

Lemma modS_wf :
  Forall (λ g, wf_ty (length ctxW) (g_valueType g)) (m_globals modS).
Proof. apply (bool_decide_unpack _). vm_compute. exact I. Defined.

Lemma removeAddrspaces_value_types_witness :
  ∃ ctx' M',
    runPass removeAllAddrspaces ptrmaskName 10 ctxW modS
    = Some (ctx', M', true) ∧
    g_valueType <$> ofKind KVariable M' = [TStruct 3] ∧
    ∃ M3 VM st,
      declarePhase removeAllAddrspaces 10 ctxW modS = Some (M3, (VM, st)) ∧
      reachable removeAllAddrspaces st ∧
      MappedTypes st !! TStruct 0 = Some (TStruct 3) ∧ Ctx st = ctx' ∧
      ∀ k, k ≠ KFunction →
        Forall2 (λ n o,
                   g_valueType n
                   = rw removeAllAddrspaces (MappedTypes st) (g_valueType o) ∧
                   ∀ s, s ∈ ids (g_valueType o) →
                     ∃ s', MappedTypes st !! TStruct s = Some (TStruct s') ∧
                           s' < length (Ctx st))
          (ofKind k M') (ofKind k modS).
Proof.
  eexists _, _. split; [vm_compute; reflexivity|]. split; [reflexivity|].
  edestruct (removeAddrspaces_value_types removeAllAddrspaces simpleHostMapValue
               simpleGetWithOperands simpleMapMetadata simpleCloneFunctionInto
               ptrmaskName 10 ctxW modS) as (M3 & VM & st & Hd & Hst & H).
  - exact modS_ids.
  - exact modS_names.
  - exact ctxW_closed.
  - exact modS_wf.
  - vm_compute. reflexivity.
  - exists M3, VM, st. split; [exact Hd|]. split; [exact Hst|].
    vm_compute in Hd. injection Hd as _ _ <-.
    split; [vm_compute; reflexivity|]. split; [reflexivity|exact H].
Defined.

Lemma removeAddrspaces_function_types_witness :
  ∃ ctx' M',
    runPass removeAllAddrspaces ptrmaskName 10 ctxW modS
    = Some (ctx', M', true) ∧
    g_valueType <$> ofKind KFunction M'
    = [TFun (TPtr 0) [TStruct 3; TStruct 4] false] ∧
    ∃ M3 VM st M1,
      declarePhase removeAllAddrspaces 10 ctxW modS = Some (M3, (VM, st)) ∧
      reachable removeAllAddrspaces st ∧
      rebuild removeAllAddrspaces simpleHostMapValue simpleGetWithOperands
        simpleMapMetadata simpleCloneFunctionInto 10 ctxW modS
      = Some (ctx', M1) ∧
      Forall2 (λ F NF,
                 g_name NF = g_name F ∧
                 g_valueType NF
                 = rw removeAllAddrspaces (MappedTypes st) (g_valueType F) ∧
                 (∀ s, s ∈ ids (g_valueType F) →
                    ∃ s', MappedTypes st !! TStruct s = Some (TStruct s') ∧
                          s' < length (Ctx st)) ∧
                 (staleIntrinsic ptrmaskName NF = false →
                  unclaimed ptrmaskName NF →
                  ∃ F', F' ∈ ofKind KFunction M' ∧ g_name F' = g_name NF ∧
                        g_valueType F' = g_valueType NF))
        (ofKind KFunction modS) (ofKind KFunction M1).
Proof.
  eexists _, _. split; [vm_compute; reflexivity|]. split; [reflexivity|].
  apply (removeAddrspaces_function_types removeAllAddrspaces simpleHostMapValue
           simpleGetWithOperands simpleMapMetadata simpleCloneFunctionInto
           ptrmaskName 10 ctxW modS _ _ true modS_ids modS_names).
  - exact ctxW_closed.
  - exact modS_wf.
  - vm_compute. reflexivity.
Defined.

Lemma RemoveJuliaAddrspacesPass_run_no_special_witness :
  ∃ ctx' M',
    RemoveJuliaAddrspacesPass_run simpleHostMapValue simpleGetWithOperands
      simpleMapMetadata simpleCloneFunctionInto ptrmaskName 10 13 10 [] modN
    = Some (ctx', M', PreservedAnalyses_allInSet_CFGAnalyses) ∧
    Forall2 (λ o n,
        ¬ (10 ≤ g_addrspace n ∧ g_addrspace n ≤ 13)%N ∧
        ((10 ≤ g_addrspace o ∧ g_addrspace o ≤ 13)%N →
         g_addrspace n = AddressSpace_Generic) ∧
        (¬ (10 ≤ g_addrspace o ∧ g_addrspace o ≤ 13)%N →
         g_addrspace n = g_addrspace o))
      (ofKind KVariable modN) (ofKind KVariable M').
Proof.
  eexists _, _. split; [vm_compute; reflexivity|].
  eapply (RemoveJuliaAddrspacesPass_run_no_special simpleHostMapValue
           simpleGetWithOperands simpleMapMetadata simpleCloneFunctionInto
           ptrmaskName 10 13 julia_generic 10 [] modN _ _
           PreservedAnalyses_allInSet_CFGAnalyses KVariable modN_ids modN_names).
  - discriminate.
  - vm_compute. reflexivity.
Defined.

Lemma removeAddrspaces_named_metadata_witness :
  ∃ ctx' M',
    runPass removeAllAddrspaces ptrmaskName 10 [] modN = Some (ctx', M', true) ∧
    nmdShape <$> m_named_metadata M' = [("llvm.used", 2)].
Proof.
  eexists _, _. split; [vm_compute; reflexivity|].
  eapply (removeAddrspaces_named_metadata removeAllAddrspaces simpleHostMapValue
            simpleGetWithOperands simpleMapMetadata simpleCloneFunctionInto
            ptrmaskName 10 [] modN _ _ true).
  vm_compute. reflexivity.
Defined.

Lemma array_fixed a :
  reaches ctxW (TArr (TPtr 1) 2) (TPtr a) → removeJuliaAddrspaces 10 13 a = a.
Proof.
  intros H. inversion H as [| | | | |e n U Hr|]; subst.
  by inversion Hr.
Qed.

(** [[2 x ptr addrspace(1)]] under the Julia policy. *)
Lemma remapType_fixed_policy_witness :
  ∃ st',
    remapType (removeJuliaAddrspaces 10 13) 10 (State ctxW ∅) (TArr (TPtr 1) 2)
    = Some (st', TArr (TPtr 1) 2).
Proof.
  destruct (remapType_fixed_policy (removeJuliaAddrspaces 10 13) (State ctxW ∅)
              (TArr (TPtr 1) 2) 10) as (st' & D & H1 & _ & H2).
  - apply ctxW_reachable.
  - apply (bool_decide_unpack _). by vm_compute.
  - apply array_fixed.
  - vm_compute. lia.
  - exists st'. rewrite H1, H2; [done|]. by intros s d Hs%elem_of_nil.
Defined.

(** ** The define phase on a concrete module *)

(** The hosts that the pass is run with keep the entries of the value
    map. *)
Lemma simpleHostMapValue_keeps mat :
  (∀ σ v σ' r, mat σ v = Some (σ', r) → keepsGlobals σ.1 σ'.1) →
  ∀ σ c σ' r, simpleHostMapValue mat σ c = Some (σ', r) →
              keepsGlobals σ.1 σ'.1.
Proof.
  intros Hmat σ c σ' r. unfold simpleHostMapValue.
  destruct c; try (by intros [= <- _]; apply keepsGlobals_refl);
    (destruct (mat σ _) as [[σ1 r1]|] eqn:E; simpl; [|done];
     intros [= <- _]; by eapply Hmat).
Qed.

Lemma simpleMapMetadata_keeps VM m VM' m' :
  simpleMapMetadata VM m = Some (VM', m') → keepsGlobals VM VM'.
Proof. intros [= <- _]. apply keepsGlobals_refl. Qed.

Lemma simpleCloneFunctionInto_keeps
    (mapv : mstate → constant → option (mstate * option constant))
    (remap : state → ty → option (state * ty)) :
  (∀ σ c σ' r, mapv σ c = Some (σ', r) → keepsGlobals σ.1 σ'.1) →
  ∀ σ F NF σ' Fb,
    simpleCloneFunctionInto mapv remap σ F NF = Some (σ', Fb) →
    keepsGlobals σ.1 σ'.1.
Proof.
  intros _ σ F NF σ' Fb. unfold simpleCloneFunctionInto.
  destruct (g_payload F) as [| |Fb0]; try done.
  destruct (g_payload NF) as [| |NFb]; try done.
  destruct (cloneBlocks remap σ.2 (f_blocks Fb0)) as [[ts1 bs]|]; simpl;
    [|done].
  intros [= <- _]. apply keepsGlobals_refl.
Qed.

(** A module with a comdat: a global variable with an initializer and a
    metadata attachment, the declaration of a global variable, a function
    whose cast is between two address spaces that the pass merges, an alias
    of the first global variable and an alias without aliasee. *)
Definition modC : Module :=
  mkModule
    [ mkGlobal 0 "v" (TPtr 10) 10 "linkonce_odr" "" (Some "grp")
        (PVariable true "" (Some (CGlobal 1 (TPtr 11))) [(7, MDString "dbg")]);
      mkGlobal 1 "d" (TOther "i32") 11 "external" "" (Some "grp")
        (PVariable false "" None [(3, MDString "x")]);
      mkGlobal 2 "f" (TFun (TOther "void") [TPtr 10] false) 0 "linkonce_odr" ""
        (Some "grp")
        (PFunction (mkFunction [("p", TPtr 10)]
           [[ mkInstr 1 OpAddrSpaceCast [VArg 0] (TPtr 11);
              mkInstr 2 (OpOther "ret") [VInst 1] (TOther "void") ]]
           [[("byval", Some (TPtr 10)); ("nonnull", None)]]));
      mkGlobal 3 "a" (TPtr 10) 10 "external" "" None
        (PAlias (Some (CGlobal 0 (TPtr 10))));
      mkGlobal 4 "b" (TPtr 10) 10 "external" "" None (PAlias None) ]
    [].

Lemma modC_ids : NoDup (g_id <$> m_globals modC).
Proof. apply (bool_decide_unpack _). vm_compute. exact I. Defined.

Lemma modC_names : namesUnique (m_globals modC).
Proof. unfold namesUnique. apply (bool_decide_unpack _). vm_compute. exact I. Defined.

Lemma removeAddrspaces_initializers_witness :
  ∃ M1,
    rebuild removeAllAddrspaces simpleHostMapValue simpleGetWithOperands
      simpleMapMetadata simpleCloneFunctionInto 10 [] modC = Some ([], M1) ∧
    Forall2 (λ GV NGV, ∀ isConstant tlm Init MDs,
               g_payload GV = PVariable isConstant tlm (Some Init) MDs →
               ∃ σ σ1 NewInit VM2 NewMDs,
                 mapsGlobals modC M1 σ.1 ∧
                 MapValue removeAllAddrspaces simpleHostMapValue
                   simpleGetWithOperands 10 σ Init
                 = Some (σ1, NewInit) ∧
                 mapAttachments simpleMapMetadata σ1.1 MDs
                 = Some (VM2, NewMDs) ∧
                 g_payload NGV = PVariable isConstant tlm NewInit NewMDs)
      (ofKind KVariable modC) (ofKind KVariable M1).
Proof.
  eapply (removeAddrspaces_initializers removeAllAddrspaces simpleHostMapValue
            simpleGetWithOperands simpleMapMetadata simpleCloneFunctionInto
            ptrmaskName simpleHostMapValue_keeps simpleMapMetadata_keeps
            simpleCloneFunctionInto_keeps 10 [] modC [] _ true
            modC_ids modC_names).
  vm_compute. reflexivity.
Defined.

Lemma removeAddrspaces_variable_attachments_witness :
  ∃ ctx' M',
    runPass removeAllAddrspaces ptrmaskName 10 [] modC = Some (ctx', M', true) ∧
    Forall2 (λ GV NGV,
               if hasInitializer GV
               then g_comdat NGV = g_comdat GV ∧ mdKinds NGV = mdKinds GV
               else g_comdat NGV = None ∧ mdKinds NGV = [] ∧
                    hasInitializer NGV = false)
      (ofKind KVariable modC) (ofKind KVariable M').
Proof.
  eexists _, _. split; [vm_compute; reflexivity|].
  eapply (removeAddrspaces_variable_attachments removeAllAddrspaces
            simpleHostMapValue simpleGetWithOperands simpleMapMetadata
            simpleCloneFunctionInto ptrmaskName simpleHostMapValue_keeps
            simpleMapMetadata_keeps simpleCloneFunctionInto_keeps
            10 [] modC _ _ true modC_ids modC_names).
  vm_compute. reflexivity.
Defined.

Lemma removeAddrspaces_aliasees_witness :
  ∃ M1,
    rebuild removeAllAddrspaces simpleHostMapValue simpleGetWithOperands
      simpleMapMetadata simpleCloneFunctionInto 10 [] modC = Some ([], M1) ∧
    Forall2 (λ GA NGA,
               match g_payload GA with
               | PAlias (Some C) =>
                   ∃ σ σ1 NewC,
                     mapsGlobals modC M1 σ.1 ∧
                     MapValue removeAllAddrspaces simpleHostMapValue
                       simpleGetWithOperands 10 σ C
                     = Some (σ1, NewC) ∧
                     g_payload NGA = PAlias NewC
               | _ => g_payload NGA = PAlias None
               end)
      (ofKind KAlias modC) (ofKind KAlias M1).
Proof.
  eapply (removeAddrspaces_aliasees removeAllAddrspaces simpleHostMapValue
            simpleGetWithOperands simpleMapMetadata simpleCloneFunctionInto
            ptrmaskName simpleHostMapValue_keeps simpleMapMetadata_keeps
            simpleCloneFunctionInto_keeps 10 [] modC [] _ true
            modC_ids modC_names).
  vm_compute. reflexivity.
Defined.

Lemma removeAddrspaces_function_bodies_witness :
  ∃ M1,
    rebuild removeAllAddrspaces simpleHostMapValue simpleGetWithOperands
      simpleMapMetadata simpleCloneFunctionInto 10 [] modC = Some ([], M1) ∧
    Forall2 (λ F NF, ∀ Fb, g_payload F = PFunction Fb →
               ∃ σ nm NF0 σ2 Clone ts3 Attrs Body,
                 mapsGlobals modC M1 σ.1 ∧ g_id NF0 = g_id NF ∧
                 simpleCloneFunctionInto
                   (MapValue removeAllAddrspaces simpleHostMapValue
                      simpleGetWithOperands 10)
                   (remapType removeAllAddrspaces 10) σ (setName nm F) NF0
                 = Some (σ2, Clone) ∧
                 remapAttrs removeAllAddrspaces 10 σ2.2 (f_attrs Fb)
                 = Some (ts3, Attrs) ∧
                 RemoveNoopAddrSpaceCasts
                   (mkFunction (f_args Clone) (f_blocks Clone) Attrs)
                 = Some (Body, false) ∧
                 g_payload NF = PFunction Body ∧
                 f_attrs Body = Attrs ∧ f_args Body = f_args Clone ∧
                 g_comdat NF = g_comdat F ∧
                 (NoDup (iid <$> instructions Clone) →
                  ∀ J : instr, J ∈ instructions Body →
                    iop J = OpAddrSpaceCast →
                    ∃ a b, getSrcAddressSpace Body J = Some a ∧
                           getDestAddressSpace J = Some b ∧ a ≠ b))
      (ofKind KFunction modC) (ofKind KFunction M1).
Proof.
  eapply (removeAddrspaces_function_bodies removeAllAddrspaces
            simpleHostMapValue simpleGetWithOperands simpleMapMetadata
            simpleCloneFunctionInto ptrmaskName simpleHostMapValue_keeps
            simpleMapMetadata_keeps simpleCloneFunctionInto_keeps
            10 [] modC [] _ true modC_ids modC_names).
  vm_compute. reflexivity.
Defined.
